(** * OpenLight: the animation core, embedded and checked

    A shallow embedding of [src/core] (types, Shape, Frame, Layer, Symbol,
    Document, Tween, History) and the properties its specification states.

    Conventions of the embedding.
    - A JavaScript [number] that carries geometry or progress is an IEEE 754
      binary64 value: Rocq's primitive [float], with the same rounding.  A
      [number] used as a frame index or a count is an integer, [Z].  A [UID]
      is a [string].
    - Shapes, and the paths, stroke, fill, transform, colour and gradient
      objects behind them, are shared by reference in the source: they live
      in a heap.  Frames, layers and the document are held by value, each in
      the one place that refers to it.
    - An object is an instance of its class or a plain object with the same
      fields (what [toJSON] returns); calling a method on a plain object
      throws a [TypeError].
    - Methods run in a monad of state and exceptions; the state survives a
      throw.
    - [generateUID] draws on [Math.random] and [Date.now]: the heap carries
      the sequence of its results.
    - No listener is subscribed to the document: [emit] calls nobody. *)

From Stdlib Require Import ZArith Lia Bool List Sorted Floats.
From Stdlib Require HexadecimalString Uint63.
From Stdlib Require Import Ascii.
From stdpp Require Import base option list strings pretty.

Local Open Scope Z_scope.

(** ** Numbers *)

Module Num.

Definition number := float.

Definition nadd (a b : number) : number := PrimFloat.add a b.
Definition nsub (a b : number) : number := PrimFloat.sub a b.
Definition nmul (a b : number) : number := PrimFloat.mul a b.
Definition ndiv (a b : number) : number := PrimFloat.div a b.
Definition nneg (a : number) : number := PrimFloat.opp a.
(** [a < b], [a > b] and [a === b] on numbers. *)
Definition nlt (a b : number) : bool := PrimFloat.ltb a b.
Definition ngt (a b : number) : bool := PrimFloat.ltb b a.
Definition nseq (a b : number) : bool := PrimFloat.eqb a b.

End Num.

Export Num.

Declare Scope num_scope.
Delimit Scope num_scope with num.
Infix "+" := nadd : num_scope.
Infix "-" := nsub : num_scope.
Infix "*" := nmul : num_scope.
Infix "/" := ndiv : num_scope.
Notation "- x" := (nneg x) : num_scope.
Infix "<?" := nlt : num_scope.
Infix ">?" := ngt : num_scope.
Infix "=?" := nseq : num_scope.


(** ** Control: mutable state and exceptions

    Methods mutate objects in place and may throw; a thrown exception does not
    roll the mutation back.  [M S A] is a computation over a state [S] that
    either returns an [A] or throws, and leaves a state behind in both cases. *)

Module JS.

Inductive exn : Type :=
| TypeError (callee : string)
    (** [x.callee is not a function]: a method looked up on a plain object. *)
| OutOfModel (why : string).
    (** Not a JavaScript exception: the run left the modelled fragment. *)

Inductive outcome (A : Type) : Type :=
| Return (a : A)
| Throw (e : exn).

Arguments Return {A} a.
Arguments Throw {A} e.

Definition M (S A : Type) : Type := S -> outcome A * S.

Definition ret {S A : Type} (a : A) : M S A := fun s => (Return a, s).

Definition bind {S A B : Type} (m : M S A) (k : A -> M S B) : M S B :=
  fun s =>
    match m s with
    | (Return a, s') => k a s'
    | (Throw e, s') => (Throw e, s')
    end.

Definition throw {S A : Type} (e : exn) : M S A := fun s => (Throw e, s).

Definition modify {S : Type} (f : S -> S) : M S unit := fun s => (Return tt, f s).

(** [try { body } finally { fin }]. *)
Definition try_finally {S A : Type} (body : M S A) (fin : M S unit) : M S A :=
  fun s =>
    match body s with
    | (r, s') =>
        match fin s' with
        | (Return _, s'') => (r, s'')
        | (Throw e, s'') => (Throw e, s'')
        end
    end.

(** Run a computation on a part [T] of the state [S] (an object reached
    through a reference); the part is written back whatever the outcome. *)
Definition zoom {S T A : Type} (proj : S -> option T) (inj : T -> S -> S)
    (m : M T A) : M S A :=
  fun s =>
    match proj s with
    | None => (Throw (OutOfModel "reference"), s)
    | Some t => match m t with (r, t') => (r, inj t' s) end
    end.

(** [obj.callee(...)]: the method exists when [obj] is an instance of the
    class, not when it is a plain object with the same fields. *)
Definition method {S : Type} (is_instance : bool) (callee : string) : M S unit :=
  if is_instance then ret tt else throw (TypeError callee).

End JS.

Export JS.

Notation "x <- c1 ;; c2" := (bind c1 (fun x => c2))
  (at level 100, c1 at next level, right associativity).
Notation "c1 ;; c2" := (bind c1 (fun _ => c2))
  (at level 100, right associativity).

(** [for (const x of xs) body(x)]. *)
Fixpoint forEach {St X : Type} (xs : list X) (body : X -> M St unit) : M St unit :=
  match xs with
  | [] => ret tt
  | x :: rest => body x ;; forEach rest body
  end.

(** [xs.map(f)] for an [f] with effects. *)
Fixpoint mapA {St X Y : Type} (f : X -> M St Y) (xs : list X) : M St (list Y) :=
  match xs with
  | [] => ret []
  | x :: rest => y <- f x ;; ys <- mapA f rest ;; ret (y :: ys)
  end.

(** [xs.findIndex(p)] for a [p] that reads the state. *)
Fixpoint findIndexA {St X : Type} (p : X -> M St bool) (xs : list X) (i : nat)
    : M St (option nat) :=
  match xs with
  | [] => ret None
  | x :: rest => b <- p x ;; if b then ret (Some i) else findIndexA p rest (S i)
  end.

(** [xs.sort(cmp)]: the sort of an array is stable, elements that compare
    equal keep their order.  [cmp a b > 0] puts [a] after [b]. *)
Fixpoint sort_insert {X : Type} (cmp : X -> X -> Z) (x : X) (sorted : list X) : list X :=
  match sorted with
  | [] => [x]
  | y :: rest => if 0 <? cmp x y then y :: sort_insert cmp x rest else x :: y :: rest
  end.

Fixpoint sort {X : Type} (cmp : X -> X -> Z) (xs : list X) : list X :=
  match xs with
  | [] => []
  | x :: rest => sort_insert cmp x (sort cmp rest)
  end.

(** ** types.ts *)

Definition UID := string.

Record Point : Type := { p_x : number; p_y : number }.

Record Transform : Type := {
  t_x : number; t_y : number;
  scaleX : number; scaleY : number;
  rotation : number;
  skewX : number; skewY : number;
  alpha : number }.

Record Color : Type := { c_r : number; c_g : number; c_b : number; c_a : number }.

Inductive LineCap : Type := CapButt | CapRound | CapSquare.
Inductive LineJoin : Type := JoinMiter | JoinRound | JoinBevel.
Inductive FillType : Type := Solid | GradientFill | Pattern.
Inductive GradientType : Type := LinearGradient | RadialGradient.

Record GradientStop : Type := { offset : number; stop_color : Color }.

Record Gradient : Type := {
  g_type : GradientType;
  stops : list GradientStop;
  angle : option number;
  radius : option number }.

Inductive PathCommandType : Type := MoveTo | LineTo | CurveTo | QuadTo | ClosePath.

Record PathCommand : Type := { pc_type : PathCommandType; points : list Point }.

Record VectorPath : Type := { commands : list PathCommand; closed : bool }.

Inductive SymbolType : Type := Graphic | Movieclip | Button.

Inductive TweenType : Type := TweenNone | TweenMotion | TweenShape.

Inductive EasingType : Type :=
  EasingLinear | EasingEaseIn | EasingEaseOut | EasingEaseInOut | EasingCustom.

Record EasingFunction : Type := {
  e_type : EasingType;
  strength : option number;
  customCurve : option (list Point) }.

Definition createDefaultTransform : Transform :=
  {| t_x := 0; t_y := 0; scaleX := 1; scaleY := 1; rotation := 0;
     skewX := 0; skewY := 0; alpha := 1 |}%float.

(** *** Color utilities *)

(** What [Math.round(x)] is: not a number, an infinity, or the integer
    nearest to [x], the larger one of two that are as near.  A finite
    binary64 value is [m * 2 ^ e], negated when [s] is set.  The sign of a
    zero is not kept: [toString] does not show it. *)
Inductive Rounded : Type :=
| RoundNaN
| RoundInfinity (negative : bool)
| RoundInteger (n : Z).

Definition Math_round (x : number) : Rounded :=
  match Prim2SF x with
  | S754_nan => RoundNaN
  | S754_infinity s => RoundInfinity s
  | S754_zero _ => RoundInteger 0
  | S754_finite s m e =>
      let v := if s then Z.neg m else Z.pos m in
      RoundInteger (if 0 <=? e then v * 2 ^ e
                    else (2 * v + 2 ^ (- e)) / 2 ^ (- e + 1))
  end.

(** [n.toString(16)] of a rounded number: lowercase digits, a sign before
    those of a negative integer. *)
Definition hex_of (n : N) : string :=
  HexadecimalString.NilZero.string_of_uint (N.to_hex_uint n).

Definition toString16 (r : Rounded) : string :=
  match r with
  | RoundNaN => "NaN"
  | RoundInfinity false => "Infinity"
  | RoundInfinity true => "-Infinity"
  | RoundInteger n => if n <? 0 then "-" +:+ hex_of (Z.to_N (- n)) else hex_of (Z.to_N n)
  end.

(** [s.padStart(targetLength, c)] for a pad string of the one character [c]. *)
Fixpoint repeat_char (n : nat) (c : Ascii.ascii) : string :=
  match n with
  | O => EmptyString
  | S n' => String c (repeat_char n' c)
  end.

Definition padStart (targetLength : nat) (c : Ascii.ascii) (s : string) : string :=
  repeat_char (targetLength - String.length s) c +:+ s.

Definition colorToHex (color : Color) : string :=
  let r := padStart 2 "0"%char (toString16 (Math_round (c_r color))) in
  let g := padStart 2 "0"%char (toString16 (Math_round (c_g color))) in
  let b := padStart 2 "0"%char (toString16 (Math_round (c_b color))) in
  "#" +:+ r +:+ g +:+ b.

(** A character of the class [[a-f\d]] under the flag [i], with the value
    that [parseInt(_, 16)] gives it. *)
Definition hex_digit (c : Ascii.ascii) : option Z :=
  let n := Z.of_N (Ascii.N_of_ascii c) in
  if (48 <=? n) && (n <=? 57) then Some (n - 48)
  else if (97 <=? n) && (n <=? 102) then Some (n - 87)
  else if (65 <=? n) && (n <=? 70) then Some (n - 55)
  else None.

(** A group [([a-f\d]{2})] read by [parseInt(_, 16)]. *)
Definition hex_pair (a b : Ascii.ascii) : option Z :=
  h ← hex_digit a;
  l ← hex_digit b;
  Some (16 * h + l).

(** [/^#?([a-f\d]{2})([a-f\d]{2})([a-f\d]{2})$/i.exec(hex)]: the three
    groups, each read by [parseInt(_, 16)], when [hex] matches. *)
Definition hex_groups (hex : string) : option (Z * Z * Z) :=
  let digits := match hex with String "#"%char rest => rest | _ => hex end in
  match digits with
  | String r1 (String r2 (String g1 (String g2 (String b1 (String b2 EmptyString))))) =>
      r ← hex_pair r1 r2;
      g ← hex_pair g1 g2;
      b ← hex_pair b1 b2;
      Some (r, g, b)
  | _ => None
  end.

(** The number that an integer from 0 to 255 is. *)
Definition number_of (n : Z) : number := PrimFloat.of_uint63 (Uint63.of_Z n).

(** [alpha] is 1 when it is not given. *)
Definition hexToColor (hex : string) (alpha : option number) : Color :=
  let alpha := default 1%float alpha in
  match hex_groups hex with
  | None => {| c_r := 0; c_g := 0; c_b := 0; c_a := alpha |}%float
  | Some (r, g, b) =>
      {| c_r := number_of r; c_g := number_of g; c_b := number_of b; c_a := alpha |}
  end.

(** *** [JSON.parse(JSON.stringify(v))]

    A finite number comes back as itself (negative zero as zero); [NaN] and
    the infinities are written as [null], which no [Point] of this model
    holds: the copy is then [None]. *)

Definition JSON_number (x : number) : option number :=
  if PrimFloat.is_finite x
  then Some (if PrimFloat.is_zero x then 0%float else x)
  else None.

Definition JSON_Point (p : Point) : option Point :=
  x ← JSON_number (p_x p);
  y ← JSON_number (p_y p);
  Some {| p_x := x; p_y := y |}.

Definition JSON_PathCommand (c : PathCommand) : option PathCommand :=
  ps ← mapM JSON_Point (points c);
  Some {| pc_type := pc_type c; points := ps |}.

Definition JSON_VectorPath (v : VectorPath) : option VectorPath :=
  cs ← mapM JSON_PathCommand (commands v);
  Some {| commands := cs; closed := closed v |}.

Definition JSON_roundtrip_paths (paths : list VectorPath) : option (list VectorPath) :=
  mapM JSON_VectorPath paths.

(** ** Objects and references

    Shapes and what they point to (paths, stroke, fill, transform) are
    shared by reference in the source, so they live in a heap; a reference
    is the position of a cell.  Allocation appends a cell; cells are never
    freed.

    A [paths] cell holds the whole tree of a [VectorPath[]], and a gradient
    cell its stops, by value: the source shares these trees only whole. *)

Definition loc := nat.

Record StrokeStyle : Type := {
  stroke_color : loc;
  stroke_width : number;
  lineCap : LineCap;
  lineJoin : LineJoin }.

Record FillStyle : Type := {
  fill_type : FillType;
  fill_color : option loc;
  fill_gradient : option loc }.

(** The fields of a [Shape], also those of the plain [ShapeData] object that
    [toJSON] returns: [shape_class] tells an instance of the class [Shape]
    from a plain object. *)
Record Shape : Type := {
  shape_class : bool;
  shape_id : UID;
  shape_name : string;
  shape_paths : loc;
  shape_stroke : option loc;
  shape_fill : option loc;
  shape_transform : loc }.

Inductive Obj : Type :=
| OShape (s : Shape)
| OTransform (t : Transform)
| OPaths (paths : list VectorPath)
| OStroke (s : StrokeStyle)
| OFill (f : FillStyle)
| OColor (c : Color)
| OGradient (g : Gradient).

(** The heap, with the process-wide state next to it: how many times
    [generateUID] was called and what it returns at each call (it draws on
    [Math.random] and [Date.now]), and the static counters of the classes
    [Layer] and [Symbol]. *)
Record Heap : Type := {
  cells : list Obj;
  uid_calls : nat;
  uid_source : nat -> UID;
  layerCount : nat;
  symbolCount : nat }.

Definition set_cells (f : list Obj -> list Obj) (h : Heap) : Heap :=
  {| cells := f (cells h); uid_calls := uid_calls h; uid_source := uid_source h;
     layerCount := layerCount h; symbolCount := symbolCount h |}.

Definition alloc (o : Obj) : M Heap loc :=
  fun h => (Return (length (cells h)), set_cells (fun cs => cs ++ [o]) h).

Definition read (l : loc) : M Heap Obj :=
  fun h =>
    match cells h !! l with
    | Some o => (Return o, h)
    | None => (Throw (OutOfModel "dangling reference"), h)
    end.

Definition write (l : loc) (o : Obj) : M Heap unit :=
  modify (set_cells (fun cs => <[l := o]> cs)).

Definition read_shape (l : loc) : M Heap Shape :=
  o <- read l ;;
  match o with OShape s => ret s | _ => throw (OutOfModel "not a shape") end.

Definition read_transform (l : loc) : M Heap Transform :=
  o <- read l ;;
  match o with OTransform t => ret t | _ => throw (OutOfModel "not a transform") end.

Definition read_paths (l : loc) : M Heap (list VectorPath) :=
  o <- read l ;;
  match o with OPaths p => ret p | _ => throw (OutOfModel "not a path array") end.

Definition read_stroke (l : loc) : M Heap StrokeStyle :=
  o <- read l ;;
  match o with OStroke s => ret s | _ => throw (OutOfModel "not a stroke") end.

Definition read_fill (l : loc) : M Heap FillStyle :=
  o <- read l ;;
  match o with OFill f => ret f | _ => throw (OutOfModel "not a fill") end.

Definition generateUID : M Heap UID :=
  fun h =>
    (Return (uid_source h (uid_calls h)),
     {| cells := cells h; uid_calls := S (uid_calls h); uid_source := uid_source h;
        layerCount := layerCount h; symbolCount := symbolCount h |}).

(** [a ?? b], with [b] evaluated only when [a] is absent. *)
Definition orElse {St A : Type} (a : option A) (b : M St A) : M St A :=
  match a with Some x => ret x | None => b end.

(** ** Shape.ts *)

(** [Partial<ShapeData>], the argument of the constructor. *)
Record ShapeInit : Type := {
  init_id : option UID;
  init_name : option string;
  init_paths : option loc;
  init_stroke : option loc;
  init_fill : option loc;
  init_transform : option loc }.

Module Shape.

Definition new (data : ShapeInit) : M Heap loc :=
  id <- orElse (init_id data) generateUID ;;
  let name := default "Shape" (init_name data) in
  paths <- orElse (init_paths data) (alloc (OPaths [])) ;;
  transform <- orElse (init_transform data) (alloc (OTransform createDefaultTransform)) ;;
  alloc (OShape {| shape_class := true; shape_id := id; shape_name := name;
                   shape_paths := paths; shape_stroke := init_stroke data;
                   shape_fill := init_fill data; shape_transform := transform |}).

(** [{ ...obj }] on an optional stroke or fill: a new object with the same
    fields.  The fields that are themselves objects (the colour, the
    gradient) are the same objects as before. *)
Definition spread_stroke (stroke : option loc) : M Heap (option loc) :=
  match stroke with
  | Some l => s <- read_stroke l ;; l' <- alloc (OStroke s) ;; ret (Some l')
  | None => ret None
  end.

Definition spread_fill (fill : option loc) : M Heap (option loc) :=
  match fill with
  | Some l => f <- read_fill l ;; l' <- alloc (OFill f) ;; ret (Some l')
  | None => ret None
  end.

Definition clone (this : loc) : M Heap loc :=
  s <- read_shape this ;;
  method (shape_class s) "clone" ;;
  old_paths <- read_paths (shape_paths s) ;;
  paths <- match JSON_roundtrip_paths old_paths with
           | Some copy => alloc (OPaths copy)
           | None => throw (OutOfModel "null coordinate")
           end ;;
  stroke <- spread_stroke (shape_stroke s) ;;
  fill <- spread_fill (shape_fill s) ;;
  t <- read_transform (shape_transform s) ;;
  transform <- alloc (OTransform t) ;;
  new {| init_id := None; init_name := Some (shape_name s +:+ " Copy");
         init_paths := Some paths; init_stroke := stroke; init_fill := fill;
         init_transform := Some transform |}.

(** [toJSON] returns a plain object that shares paths, stroke, fill and
    transform with the shape. *)
Definition toJSON (this : loc) : M Heap loc :=
  s <- read_shape this ;;
  method (shape_class s) "toJSON" ;;
  alloc (OShape {| shape_class := false; shape_id := shape_id s;
                   shape_name := shape_name s; shape_paths := shape_paths s;
                   shape_stroke := shape_stroke s; shape_fill := shape_fill s;
                   shape_transform := shape_transform s |}).

End Shape.

(** *** Methods with a receiver

    A method of an object that is held by value runs on the pair of the heap
    and the object, [this]. *)

Definition this {X : Type} : M (Heap * X) X := fun s => (Return (snd s), s).

Definition set_this {X : Type} (f : X -> X) : M (Heap * X) unit :=
  modify (fun s => (fst s, f (snd s))).

Definition on_heap {X A : Type} (m : M Heap A) : M (Heap * X) A :=
  zoom (fun s => Some (fst s)) (fun h s => (h, snd s)) m.

(** [xs.find(p)], as a reference (the position in [xs]) and the element. *)
Fixpoint find_ref {X : Type} (p : X -> bool) (xs : list X) : option (nat * X) :=
  match xs with
  | [] => None
  | x :: rest =>
      if p x then Some (O, x)
      else match find_ref p rest with
           | Some (i, y) => Some (S i, y)
           | None => None
           end
  end.

(** Every element with its position, so that [filter] and [sort] keep track
    of which object is which. *)
Definition with_refs {X : Type} (xs : list X) : list (nat * X) := imap pair xs.

(** ** Frame.ts *)

(** The fields of a [Frame], also those of the plain [FrameData] that
    [toJSON] returns ([frame_class] is false for the latter).  The array
    [shapes] holds references to shapes. *)
Record Frame : Type := {
  frame_class : bool;
  frame_id : UID;
  frame_index : Z;
  isKeyframe : bool;
  isEmpty : bool;
  shapes : list loc;
  tweenType : TweenType;
  easing : option EasingFunction;
  duration : Z }.

Definition set_isKeyframe (b : bool) (f : Frame) : Frame :=
  {| frame_class := frame_class f; frame_id := frame_id f; frame_index := frame_index f;
     isKeyframe := b; isEmpty := isEmpty f; shapes := shapes f;
     tweenType := tweenType f; easing := easing f; duration := duration f |}.

Definition set_isEmpty (b : bool) (f : Frame) : Frame :=
  {| frame_class := frame_class f; frame_id := frame_id f; frame_index := frame_index f;
     isKeyframe := isKeyframe f; isEmpty := b; shapes := shapes f;
     tweenType := tweenType f; easing := easing f; duration := duration f |}.

Definition set_shapes (ss : list loc) (f : Frame) : Frame :=
  {| frame_class := frame_class f; frame_id := frame_id f; frame_index := frame_index f;
     isKeyframe := isKeyframe f; isEmpty := isEmpty f; shapes := ss;
     tweenType := tweenType f; easing := easing f; duration := duration f |}.

Definition set_tweenType (t : TweenType) (f : Frame) : Frame :=
  {| frame_class := frame_class f; frame_id := frame_id f; frame_index := frame_index f;
     isKeyframe := isKeyframe f; isEmpty := isEmpty f; shapes := shapes f;
     tweenType := t; easing := easing f; duration := duration f |}.

Definition set_easing (e : option EasingFunction) (f : Frame) : Frame :=
  {| frame_class := frame_class f; frame_id := frame_id f; frame_index := frame_index f;
     isKeyframe := isKeyframe f; isEmpty := isEmpty f; shapes := shapes f;
     tweenType := tweenType f; easing := e; duration := duration f |}.

(** [{ type: 'linear' }] *)
Definition linear_easing : EasingFunction :=
  {| e_type := EasingLinear; strength := None; customCurve := None |}.

(** [Partial<FrameData>], the argument of the constructor. *)
Record FrameInit : Type := {
  init_frame_id : option UID;
  init_index : option Z;
  init_isKeyframe : option bool;
  init_isEmpty : option bool;
  init_shapes : option (list loc);
  init_tweenType : option TweenType;
  init_easing : option EasingFunction;
  init_duration : option Z }.

Module Frame.

Definition new (data : FrameInit) : M Heap Frame :=
  id <- orElse (init_frame_id data) generateUID ;;
  let shapes := default [] (init_shapes data) in
  let isEmpty := default true (init_isEmpty data) in
  ret {| frame_class := true;
         frame_id := id;
         frame_index := default 1 (init_index data);
         isKeyframe := default false (init_isKeyframe data);
         (* If we have shapes, it's not empty *)
         isEmpty := if (0 <? length shapes)%nat then false else isEmpty;
         shapes := shapes;
         tweenType := default TweenNone (init_tweenType data);
         easing := init_easing data;
         duration := default 1 (init_duration data) |}.

Definition addShape (shape : loc) : M (Heap * Frame) unit :=
  f <- this ;;
  method (frame_class f) "addShape" ;;
  set_this (fun f => set_isEmpty false (set_shapes (shapes f ++ [shape]) f)).

Definition has_id (shapeId : UID) (s : loc) : M Heap bool :=
  sh <- read_shape s ;;
  ret (String.eqb (shape_id sh) shapeId).

Definition removeShape (shapeId : UID) : M (Heap * Frame) bool :=
  f <- this ;;
  method (frame_class f) "removeShape" ;;
  index <- on_heap (findIndexA (has_id shapeId) (shapes f) O) ;;
  match index with
  | Some i =>
      set_this (fun f => let rest := delete i (shapes f) in
                         set_isEmpty (length rest =? 0)%nat (set_shapes rest f)) ;;
      ret true
  | None => ret false
  end.

Definition getShape (shapeId : UID) : M (Heap * Frame) (option loc) :=
  f <- this ;;
  method (frame_class f) "getShape" ;;
  index <- on_heap (findIndexA (has_id shapeId) (shapes f) O) ;;
  ret (i ← index; shapes f !! i).

Definition clear : M (Heap * Frame) unit :=
  f <- this ;;
  method (frame_class f) "clear" ;;
  set_this (fun f => set_isEmpty true (set_shapes [] f)).

Definition makeKeyframe : M (Heap * Frame) unit :=
  f <- this ;;
  method (frame_class f) "makeKeyframe" ;;
  set_this (set_isKeyframe true).

Definition makeBlankKeyframe : M (Heap * Frame) unit :=
  f <- this ;;
  method (frame_class f) "makeBlankKeyframe" ;;
  set_this (fun f => set_tweenType TweenNone
                       (set_isEmpty true (set_shapes [] (set_isKeyframe true f)))).

(** The copy of the easing, [{ ...this.easing }], has the fields of the
    original; an [EasingFunction] is held by value. *)
Definition clone : M (Heap * Frame) Frame :=
  f <- this ;;
  method (frame_class f) "clone" ;;
  copies <- on_heap (mapA Shape.clone (shapes f)) ;;
  on_heap (new {| init_frame_id := None; init_index := Some (frame_index f);
                  init_isKeyframe := Some (isKeyframe f);
                  init_isEmpty := Some (isEmpty f);
                  init_shapes := Some copies;
                  init_tweenType := Some (tweenType f);
                  init_easing := easing f;
                  init_duration := Some (duration f) |}).

(** Clear keyframe (becomes regular frame). *)
Definition clearKeyframe : M (Heap * Frame) unit :=
  f <- this ;;
  method (frame_class f) "clearKeyframe" ;;
  set_this (fun f => set_tweenType TweenNone (set_isKeyframe false f)).

Definition setMotionTween (easing : option EasingFunction) : M (Heap * Frame) unit :=
  f <- this ;;
  method (frame_class f) "setMotionTween" ;;
  if negb (isKeyframe f) then ret tt
  else set_this (fun f => set_easing (Some (default linear_easing easing))
                            (set_tweenType TweenMotion f)).

Definition setShapeTween (easing : option EasingFunction) : M (Heap * Frame) unit :=
  f <- this ;;
  method (frame_class f) "setShapeTween" ;;
  if negb (isKeyframe f) then ret tt
  else set_this (fun f => set_easing (Some (default linear_easing easing))
                            (set_tweenType TweenShape f)).

Definition removeTween : M (Heap * Frame) unit :=
  f <- this ;;
  method (frame_class f) "removeTween" ;;
  set_this (fun f => set_easing None (set_tweenType TweenNone f)).

Definition toJSON : M (Heap * Frame) Frame :=
  f <- this ;;
  method (frame_class f) "toJSON" ;;
  data <- on_heap (mapA Shape.toJSON (shapes f)) ;;
  ret {| frame_class := false; frame_id := frame_id f; frame_index := frame_index f;
         isKeyframe := isKeyframe f; isEmpty := isEmpty f; shapes := data;
         tweenType := tweenType f; easing := easing f; duration := duration f |}.

End Frame.

(** ** Layer.ts *)

(** A layer holds its frames by value: no frame object is reachable from
    two layers or twice from one (the source copies frames, it never shares
    them).  A reference to a frame of the layer is its position in
    [frames]. *)
Record Layer : Type := {
  layer_id : UID;
  layer_name : string;
  visible : bool;
  locked : bool;
  frames : list Frame;
  layer_color : string }.

Definition set_frames (f : list Frame -> list Frame) (l : Layer) : Layer :=
  {| layer_id := layer_id l; layer_name := layer_name l; visible := visible l;
     locked := locked l; frames := f (frames l); layer_color := layer_color l |}.

Definition set_visible (b : bool) (l : Layer) : Layer :=
  {| layer_id := layer_id l; layer_name := layer_name l; visible := b;
     locked := locked l; frames := frames l; layer_color := layer_color l |}.

Definition set_locked (b : bool) (l : Layer) : Layer :=
  {| layer_id := layer_id l; layer_name := layer_name l; visible := visible l;
     locked := b; frames := frames l; layer_color := layer_color l |}.

(** [Partial<LayerData>], the argument of the constructor. *)
Record LayerInit : Type := {
  init_layer_id : option UID;
  init_layer_name : option string;
  init_visible : option bool;
  init_locked : option bool;
  init_frames : option (list Frame);
  init_color : option string }.

Definition LAYER_COLORS : list string :=
  ["#4fc3f7"; "#81c784"; "#ffb74d"; "#f06292";
   "#ba68c8"; "#4dd0e1"; "#aed581"; "#ff8a65"].

Definition by_index_ascending (a b : Frame) : Z := frame_index a - frame_index b.

(** [this.frames.push(frame); this.frames.sort((a, b) => a.index - b.index)]:
    the frames after the sort, and where the pushed frame now is.  The pushed
    frame is marked to tell it from the others while they are sorted. *)
Definition push_and_sort (frame : Frame) (fs : list Frame) : list Frame * nat :=
  let marked := map (pair false) fs ++ [(true, frame)] in
  let sorted := sort (fun a b => by_index_ascending (snd a) (snd b)) marked in
  (map snd sorted,
   match find_ref fst sorted with Some (i, _) => i | None => O end).

Module Layer.

Definition on_frame {A : Type} (frame : nat) (m : M (Heap * Frame) A)
    : M (Heap * Layer) A :=
  zoom (fun s => f ← frames (snd s) !! frame; Some (fst s, f))
       (fun t s => (fst t, set_frames (fun fs => <[frame := snd t]> fs) (snd s)))
       m.

Definition increment_layerCount : M Heap nat :=
  fun h =>
    (Return (S (layerCount h)),
     {| cells := cells h; uid_calls := uid_calls h; uid_source := uid_source h;
        layerCount := S (layerCount h); symbolCount := symbolCount h |}).

Definition new (data : LayerInit) : M Heap Layer :=
  count <- increment_layerCount ;;
  id <- orElse (init_layer_id data) generateUID ;;
  let name := default ("Layer " +:+ pretty count) (init_layer_name data) in
  let color :=
    default (default "" (LAYER_COLORS !! (count mod length LAYER_COLORS)%nat))
            (init_color data) in
  frames <- match init_frames data with
            | Some fs => ret fs
            | None =>
                (* Initialize with a keyframe at frame 1 *)
                f <- Frame.new {| init_frame_id := None; init_index := Some 1;
                                  init_isKeyframe := Some true; init_isEmpty := None;
                                  init_shapes := None; init_tweenType := None;
                                  init_easing := None; init_duration := None |} ;;
                ret [f]
            end ;;
  ret {| layer_id := id; layer_name := name;
         visible := default true (init_visible data);
         locked := default false (init_locked data);
         frames := frames; layer_color := color |}.

Definition getFrame (index : Z) (layer : Layer) : option (nat * Frame) :=
  find_ref (fun f => frame_index f =? index) (frames layer).

(** The nearest keyframe at or before the index. *)
Definition getKeyframeAt (index : Z) (layer : Layer) : option (nat * Frame) :=
  let keyframes :=
    sort (fun a b => frame_index (snd b) - frame_index (snd a))
         (List.filter (fun f => isKeyframe (snd f) && (frame_index (snd f) <=? index))
                      (with_refs (frames layer))) in
  head keyframes.

Definition getNextKeyframe (index : Z) (layer : Layer) : option (nat * Frame) :=
  let keyframes :=
    sort (fun a b => frame_index (snd a) - frame_index (snd b))
         (List.filter (fun f => isKeyframe (snd f) && (index <? frame_index (snd f)))
                      (with_refs (frames layer))) in
  head keyframes.

(** [prevKeyframe && !prevKeyframe.isEmpty ? prevKeyframe.shapes.map(s => s.clone()) : []] *)
Definition carry_forward (prevKeyframe : option (nat * Frame)) : M Heap (list loc) :=
  match prevKeyframe with
  | Some (_, prev) =>
      if negb (isEmpty prev) then mapA Shape.clone (shapes prev) else ret []
  | None => ret []
  end.

Definition insertKeyframe (index : Z) : M (Heap * Layer) nat :=
  layer <- this ;;
  match getFrame index layer with
  | Some (frame, _) =>
      (* Frame exists, make it a keyframe *)
      on_frame frame Frame.makeKeyframe ;;
      f <- on_frame frame this ;;
      (* Copy content from previous keyframe if this was empty *)
      (if isEmpty f then
         layer <- this ;;
         match getKeyframeAt (index - 1) layer with
         | Some (_, prevKeyframe) =>
             if negb (isEmpty prevKeyframe) then
               copies <- on_heap (mapA Shape.clone (shapes prevKeyframe)) ;;
               on_frame frame (set_this (fun f => set_isEmpty false (set_shapes copies f)))
             else ret tt
         | None => ret tt
         end
       else ret tt) ;;
      ret frame
  | None =>
      (* Create new frame *)
      let prevKeyframe := getKeyframeAt index layer in
      copies <- on_heap (carry_forward prevKeyframe) ;;
      frame <- on_heap (Frame.new
                 {| init_frame_id := None; init_index := Some index;
                    init_isKeyframe := Some true;
                    init_isEmpty :=
                      Some (match prevKeyframe with
                            | Some (_, prev) => isEmpty prev
                            | None => true
                            end);
                    init_shapes := Some copies; init_tweenType := None;
                    init_easing := None; init_duration := None |}) ;;
      let '(sorted, position) := push_and_sort frame (frames layer) in
      set_this (set_frames (fun _ => sorted)) ;;
      ret position
  end.

Definition insertBlankKeyframe (index : Z) : M (Heap * Layer) nat :=
  layer <- this ;;
  match getFrame index layer with
  | Some (frame, _) =>
      on_frame frame Frame.makeBlankKeyframe ;;
      ret frame
  | None =>
      frame <- on_heap (Frame.new
                 {| init_frame_id := None; init_index := Some index;
                    init_isKeyframe := Some true; init_isEmpty := Some true;
                    init_shapes := None; init_tweenType := None;
                    init_easing := None; init_duration := None |}) ;;
      let '(sorted, position) := push_and_sort frame (frames layer) in
      set_this (set_frames (fun _ => sorted)) ;;
      ret position
  end.

Definition clearKeyframe (index : Z) : M (Heap * Layer) unit :=
  layer <- this ;;
  match getFrame index layer with
  | Some (frame, f) =>
      if isKeyframe f then
        (* Don't remove the first keyframe *)
        if index =? 1 then on_frame frame Frame.clear
        else
          (* Remove the frame: [indexOf] finds the object at its position *)
          set_this (set_frames (fun fs => delete frame fs))
      else ret tt
  | None => ret tt
  end.

Definition addShapeAtFrame (index : Z) (shape : loc) : M (Heap * Layer) unit :=
  layer <- this ;;
  keyframe <- match getKeyframeAt index layer with
              | None => insertKeyframe index
              | Some (keyframe, k) =>
                  if negb (frame_index k =? index) then
                    (* We're on a frame between keyframes, create new keyframe *)
                    insertKeyframe index
                  else ret keyframe
              end ;;
  on_frame keyframe (Frame.addShape shape).

Definition getShapesAtFrame (index : Z) (layer : Layer) : list loc :=
  match getKeyframeAt index layer with
  | Some (_, keyframe) => shapes keyframe
  | None => []
  end.

Definition getFrameCount (layer : Layer) : Z :=
  match frames layer with
  | [] => 1
  | f :: rest => fold_left Z.max (map frame_index rest) (frame_index f)
  end.

(** Extend layer to frame count: the argument is not read. *)
Definition extendTo (frameCount : Z) : M (Heap * Layer) unit :=
  layer <- this ;;
  if (length (frames layer) =? 0)%nat then
    (* Just ensure we have at least one keyframe, frames in between are implicit *)
    f <- on_heap (Frame.new {| init_frame_id := None; init_index := Some 1;
                               init_isKeyframe := Some true; init_isEmpty := None;
                               init_shapes := None; init_tweenType := None;
                               init_easing := None; init_duration := None |}) ;;
    set_this (set_frames (fun fs => fs ++ [f]))
  else ret tt.

Definition toggleVisibility : M (Heap * Layer) unit :=
  set_this (fun l => set_visible (negb (visible l)) l).

Definition toggleLock : M (Heap * Layer) unit :=
  set_this (fun l => set_locked (negb (locked l)) l).

Definition clone : M (Heap * Layer) Layer :=
  layer <- this ;;
  copies <- mapA (fun frame => on_frame frame Frame.clone)
                 (seq 0 (length (frames layer))) ;;
  on_heap (new {| init_layer_id := None;
                  init_layer_name := Some (layer_name layer +:+ " Copy");
                  init_visible := Some (visible layer);
                  init_locked := Some (locked layer);
                  init_frames := Some copies;
                  init_color := Some (layer_color layer) |}).

(** The plain [LayerData]: the fields of the layer with its frames
    serialised. *)
Definition toJSON : M (Heap * Layer) Layer :=
  layer <- this ;;
  data <- mapA (fun frame => on_frame frame Frame.toJSON) (seq 0 (length (frames layer))) ;;
  ret {| layer_id := layer_id layer; layer_name := layer_name layer;
         visible := visible layer; locked := locked layer;
         frames := data; layer_color := layer_color layer |}.

End Layer.

(** ** Symbol.ts *)

(** An element of a [layers] array that was not built by this code: an
    instance of the class [Layer], or a plain [LayerData] object with the
    same fields. *)
Inductive LayerLike : Type :=
| LayerInstance (l : Layer)
| LayerData (l : Layer).

Definition layer_fields (l : LayerLike) : Layer :=
  match l with LayerInstance l => l | LayerData l => l end.

Definition instanceof_Layer (l : LayerLike) : bool :=
  match l with LayerInstance _ => true | LayerData _ => false end.

(** The fields of a [Symbol], also those of the plain [SymbolData]. *)
Record Symbol : Type := {
  symbol_id : UID;
  symbol_name : string;
  symbol_type : SymbolType;
  symbol_layers : list LayerLike;
  frameCount : Z }.

(** [Partial<SymbolData>], the argument of the constructor. *)
Record SymbolInit : Type := {
  init_symbol_id : option UID;
  init_symbol_name : option string;
  init_symbol_type : option SymbolType;
  init_symbol_layers : option (list LayerLike);
  init_frameCount : option Z }.

Definition named_layer (name : option string) : LayerInit :=
  {| init_layer_id := None; init_layer_name := name; init_visible := None;
     init_locked := None; init_frames := None; init_color := None |}.

Module Symbol.

Definition increment_symbolCount : M Heap nat :=
  fun h =>
    (Return (S (symbolCount h)),
     {| cells := cells h; uid_calls := uid_calls h; uid_source := uid_source h;
        layerCount := layerCount h; symbolCount := S (symbolCount h) |}).

Definition new (data : SymbolInit) : M Heap Symbol :=
  count <- increment_symbolCount ;;
  id <- orElse (init_symbol_id data) generateUID ;;
  let name := default ("Symbol " +:+ pretty count) (init_symbol_name data) in
  layers <- match init_symbol_layers data with
            | Some ls => ret ls
            | None =>
                (* Initialize with one layer *)
                l <- Layer.new (named_layer (Some "Layer 1")) ;;
                ret [LayerInstance l]
            end ;;
  ret {| symbol_id := id; symbol_name := name;
         symbol_type := default Graphic (init_symbol_type data);
         symbol_layers := layers;
         frameCount := default 60 (init_frameCount data) |}.

(** [l.toJSON()] on an element of [this.layers]. *)
Definition layer_toJSON (l : LayerLike) : M Heap LayerLike :=
  method (instanceof_Layer l) "toJSON" ;;
  fun h =>
    match Layer.toJSON (h, layer_fields l) with
    | (Return data, s) => (Return (LayerData data), fst s)
    | (Throw e, s) => (Throw e, fst s)
    end.

Definition toJSON : M (Heap * Symbol) Symbol :=
  symbol <- this ;;
  data <- on_heap (mapA layer_toJSON (symbol_layers symbol)) ;;
  ret {| symbol_id := symbol_id symbol; symbol_name := symbol_name symbol;
         symbol_type := symbol_type symbol; symbol_layers := data;
         frameCount := frameCount symbol |}.

End Symbol.

(** [Library]: a [Map] from symbol id to symbol, in insertion order. *)
Definition Library := list (UID * Symbol).

Module Library.

(** [this.symbols.set(symbol.id, symbol)]: a known key keeps its place. *)
Fixpoint set (id : UID) (symbol : Symbol) (symbols : Library) : Library :=
  match symbols with
  | [] => [(id, symbol)]
  | (k, v) :: rest =>
      if String.eqb k id then (k, symbol) :: rest else (k, v) :: set id symbol rest
  end.

Definition addSymbol (symbol : Symbol) (symbols : Library) : Library :=
  set (symbol_id symbol) symbol symbols.


Definition getAllSymbols (symbols : Library) : list Symbol := map snd symbols.



Definition SymbolType_eqb (a b : SymbolType) : bool :=
  match a, b with
  | Graphic, Graphic | Movieclip, Movieclip | Button, Button => true
  | _, _ => false
  end.

Definition getSymbolsByType (type : SymbolType) (symbols : Library) : list Symbol :=
  List.filter (fun s => SymbolType_eqb (symbol_type s) type) (getAllSymbols symbols).


Definition toJSON (symbols : Library) : M Heap (list Symbol) :=
  mapA (fun s h => match Symbol.toJSON (h, s) with (r, s') => (r, fst s') end)
       (getAllSymbols symbols).

End Library.

(** ** Document.ts *)

Record DocumentSettings : Type := {
  width : number;
  height : number;
  frameRate : number;
  backgroundColor : Color }.

(** The document, with its private fields.  The table of listeners is not
    part of the model: no listener is subscribed. *)
Record Document : Type := {
  doc_id : UID;
  doc_name : string;
  settings : DocumentSettings;
  layers : list Layer;
  library : Library;
  version : string;
  _currentFrame : Z;
  _selectedLayerId : option UID;
  _selectedShapeIds : list UID }.

(** The plain object that [toJSON] returns. *)
Record DocumentData : Type := {
  data_id : UID;
  data_name : string;
  data_settings : DocumentSettings;
  data_layers : list LayerLike;
  data_library : list Symbol;
  data_version : string }.

(** [Partial<DocumentData>], the argument of the constructor. *)
Record DocumentInit : Type := {
  init_doc_id : option UID;
  init_doc_name : option string;
  init_settings : option DocumentSettings;
  init_layers : option (list LayerLike);
  init_library : option (list Symbol);
  init_version : option string }.

Definition no_DocumentInit : DocumentInit :=
  {| init_doc_id := None; init_doc_name := None; init_settings := None;
     init_layers := None; init_library := None; init_version := None |}.

Definition set_layers (f : list Layer -> list Layer) (d : Document) : Document :=
  {| doc_id := doc_id d; doc_name := doc_name d; settings := settings d;
     layers := f (layers d); library := library d; version := version d;
     _currentFrame := _currentFrame d; _selectedLayerId := _selectedLayerId d;
     _selectedShapeIds := _selectedShapeIds d |}.

Definition set_currentFrame (n : Z) (d : Document) : Document :=
  {| doc_id := doc_id d; doc_name := doc_name d; settings := settings d;
     layers := layers d; library := library d; version := version d;
     _currentFrame := n; _selectedLayerId := _selectedLayerId d;
     _selectedShapeIds := _selectedShapeIds d |}.

Definition set_selectedShapeIds (f : list UID -> list UID) (d : Document) : Document :=
  {| doc_id := doc_id d; doc_name := doc_name d; settings := settings d;
     layers := layers d; library := library d; version := version d;
     _currentFrame := _currentFrame d; _selectedLayerId := _selectedLayerId d;
     _selectedShapeIds := f (_selectedShapeIds d) |}.

Definition set_selectedLayerId (id : option UID) (d : Document) : Document :=
  {| doc_id := doc_id d; doc_name := doc_name d; settings := settings d;
     layers := layers d; library := library d; version := version d;
     _currentFrame := _currentFrame d; _selectedLayerId := id;
     _selectedShapeIds := _selectedShapeIds d |}.

(** [xs.splice(i, 0, x)]: [x] is put in at position [i]. *)
Definition splice_in {X : Type} (i : nat) (x : X) (xs : list X) : list X :=
  take i xs ++ x :: drop i xs.

(** [Set.prototype.add] and [Set.prototype.delete] on a set of ids kept in
    insertion order. *)
Definition Set_add (id : UID) (s : list UID) : list UID :=
  if existsb (String.eqb id) s then s else s ++ [id].

Definition Set_delete (id : UID) (s : list UID) : list UID :=
  List.filter (fun x => negb (String.eqb x id)) s.

(** [json: string | DocumentData] *)
Inductive JsonArg : Type :=
| JsonText (text : string)
| JsonObject (data : DocumentData).

Module Document.

Definition on_layer {A : Type} (layer : nat) (m : M (Heap * Layer) A)
    : M (Heap * Document) A :=
  zoom (fun s => l ← layers (snd s) !! layer; Some (fst s, l))
       (fun t s => (fst t, set_layers (fun ls => <[layer := snd t]> ls) (snd s)))
       m.

(** [l instanceof Layer ? l : new Layer(l as any)] *)
Definition as_Layer (l : LayerLike) : M Heap Layer :=
  match l with
  | LayerInstance l => ret l
  | LayerData d =>
      Layer.new {| init_layer_id := Some (layer_id d);
                   init_layer_name := Some (layer_name d);
                   init_visible := Some (visible d);
                   init_locked := Some (locked d);
                   init_frames := Some (frames d);
                   init_color := Some (layer_color d) |}
  end.

(** [new Symbol(symbolData as any)] *)
Definition as_Symbol (d : Symbol) : M Heap Symbol :=
  Symbol.new {| init_symbol_id := Some (symbol_id d);
                init_symbol_name := Some (symbol_name d);
                init_symbol_type := Some (symbol_type d);
                init_symbol_layers := Some (symbol_layers d);
                init_frameCount := Some (frameCount d) |}.

(** [hexToColor('#ffffff')] *)
Definition white : Color :=
  {| c_r := 255; c_g := 255; c_b := 255; c_a := 1 |}%float.

Definition new (data : DocumentInit) : M Heap Document :=
  id <- orElse (init_doc_id data) generateUID ;;
  let name := default "Untitled" (init_doc_name data) in
  let settings :=
    default {| width := 800; height := 600; frameRate := 24;
               backgroundColor := white |}%float
            (init_settings data) in
  layers_selected <-
    match init_layers data with
    | Some ls => ls' <- mapA as_Layer ls ;; ret (ls', None)
    | None =>
        (* Start with one layer *)
        initialLayer <- Layer.new (named_layer (Some "Layer 1")) ;;
        ret ([initialLayer], Some (layer_id initialLayer))
    end ;;
  (* Load library *)
  symbols <- match init_library data with
             | Some ds => mapA as_Symbol ds
             | None => ret []
             end ;;
  ret {| doc_id := id; doc_name := name; settings := settings;
         layers := fst layers_selected;
         library := fold_left (fun lib s => Library.addSymbol s lib) symbols [];
         version := "0.1.0";
         _currentFrame := 1;
         _selectedLayerId := snd layers_selected;
         _selectedShapeIds := [] |}.

(** No listener is subscribed: [emit] finds no callback to call. *)
Definition emit (event : string) : M (Heap * Document) unit := ret tt.

Definition currentFrame (d : Document) : Z := _currentFrame d.

Definition set_currentFrame (frame : Z) : M (Heap * Document) unit :=
  d <- this ;;
  let newFrame := Z.max 1 frame in
  if negb (newFrame =? _currentFrame d) then
    set_this (set_currentFrame newFrame) ;;
    emit "frameChange"
  else ret tt.

Definition getLayer (layerId : UID) (d : Document) : option (nat * Layer) :=
  find_ref (fun l => String.eqb (layer_id l) layerId) (layers d).

Definition selectedLayer (d : Document) : option (nat * Layer) :=
  match _selectedLayerId d with
  | None => None
  | Some "" => None
  | Some id => find_ref (fun l => String.eqb (layer_id l) id) (layers d)
  end.

Definition selectShape (shapeId : UID) (addToSelection : bool) : M (Heap * Document) unit :=
  (if negb addToSelection then set_this (set_selectedShapeIds (fun _ => []))
   else ret tt) ;;
  set_this (set_selectedShapeIds (Set_add shapeId)) ;;
  emit "selectionChange".

Definition deselectShape (shapeId : UID) : M (Heap * Document) unit :=
  set_this (set_selectedShapeIds (Set_delete shapeId)) ;;
  emit "selectionChange".

Definition clearSelection : M (Heap * Document) unit :=
  set_this (set_selectedShapeIds (fun _ => [])) ;;
  emit "selectionChange".

Definition addShape (shape : loc) : M (Heap * Document) unit :=
  d <- this ;;
  match selectedLayer d with
  | Some (layer, l) =>
      if locked l then ret tt
      else
        on_layer layer (Layer.addShapeAtFrame (_currentFrame d) shape) ;;
        s <- on_heap (read_shape shape) ;;
        set_this (set_selectedShapeIds (fun _ => [shape_id s])) ;;
        emit "shapeAdd"
  | None => ret tt
  end.

Definition totalFrames (d : Document) : Z :=
  (* Minimum visible frames *)
  fold_left (fun max layer => Z.max max (Layer.getFrameCount layer)) (layers d) 60.

Definition nextFrame : M (Heap * Document) unit :=
  d <- this ;; set_currentFrame (currentFrame d + 1).

Definition prevFrame : M (Heap * Document) unit :=
  d <- this ;; set_currentFrame (currentFrame d - 1).

Definition firstFrame : M (Heap * Document) unit := set_currentFrame 1.

Definition lastFrame : M (Heap * Document) unit :=
  d <- this ;; set_currentFrame (totalFrames d).

Definition selectedLayerId (d : Document) : option UID := _selectedLayerId d.

Definition selectLayer (layerId : UID) : M (Heap * Document) unit :=
  d <- this ;;
  match find_ref (fun l => String.eqb (layer_id l) layerId) (layers d) with
  | Some _ =>
      set_this (set_selectedLayerId (Some layerId)) ;;
      emit "layerSelect"
  | None => ret tt
  end.

(** The new layer is put first in the array: the result is its position. *)
Definition addLayer (name : option string) : M (Heap * Document) nat :=
  layer <- on_heap (Layer.new (named_layer name)) ;;
  (* Add to top *)
  set_this (set_layers (fun ls => layer :: ls)) ;;
  set_this (set_selectedLayerId (Some (layer_id layer))) ;;
  emit "layerAdd" ;;
  ret O.

(** [this._selectedLayerId === layerId] *)
Definition is_selected (layerId : UID) (d : Document) : bool :=
  match _selectedLayerId d with
  | Some id => String.eqb id layerId
  | None => false
  end.

Definition removeLayer (layerId : UID) : M (Heap * Document) bool :=
  d <- this ;;
  if (length (layers d) <=? 1)%nat then ret false
  else
    match find_ref (fun l => String.eqb (layer_id l) layerId) (layers d) with
    | Some (index, _) =>
        set_this (set_layers (fun ls => delete index ls)) ;;
        (* Select another layer *)
        (if is_selected layerId d then
           d <- this ;;
           set_this (set_selectedLayerId (layer_id <$> head (layers d)))
         else ret tt) ;;
        emit "layerRemove" ;;
        ret true
    | None => ret false
    end.

Definition moveLayerUp (layerId : UID) : M (Heap * Document) bool :=
  d <- this ;;
  match find_ref (fun l => String.eqb (layer_id l) layerId) (layers d) with
  | Some (S above, layer) =>
      set_this (set_layers (fun ls => splice_in above layer (delete (S above) ls))) ;;
      emit "layerMove" ;;
      ret true
  | _ => ret false
  end.

Definition moveLayerDown (layerId : UID) : M (Heap * Document) bool :=
  d <- this ;;
  match find_ref (fun l => String.eqb (layer_id l) layerId) (layers d) with
  | Some (index, layer) =>
      if (index <? length (layers d) - 1)%nat then
        set_this (set_layers (fun ls => splice_in (S index) layer (delete index ls))) ;;
        emit "layerMove" ;;
        ret true
      else ret false
  | None => ret false
  end.

(** [layerId ? this.getLayer(layerId) : this.selectedLayer]: an absent or
    empty [layerId] stands for the selected layer. *)
Definition layer_or_selected (layerId : option UID) (d : Document)
    : option (nat * Layer) :=
  match layerId with
  | None => selectedLayer d
  | Some "" => selectedLayer d
  | Some id => getLayer id d
  end.

(** The frame that is returned is given by the position of its layer and
    its position in the layer; [null] is [None]. *)
Definition insertKeyframe (layerId : option UID) (frameIndex : option Z)
    : M (Heap * Document) (option (nat * nat)) :=
  d <- this ;;
  match layer_or_selected layerId d with
  | None => ret None
  | Some (layer, l) =>
      if locked l then ret None
      else
        let index := default (_currentFrame d) frameIndex in
        frame <- on_layer layer (Layer.insertKeyframe index) ;;
        emit "keyframeInsert" ;;
        ret (Some (layer, frame))
  end.

Definition insertBlankKeyframe (layerId : option UID) (frameIndex : option Z)
    : M (Heap * Document) (option (nat * nat)) :=
  d <- this ;;
  match layer_or_selected layerId d with
  | None => ret None
  | Some (layer, l) =>
      if locked l then ret None
      else
        let index := default (_currentFrame d) frameIndex in
        frame <- on_layer layer (Layer.insertBlankKeyframe index) ;;
        emit "keyframeInsert" ;;
        ret (Some (layer, frame))
  end.

Definition clearKeyframe (layerId : option UID) (frameIndex : option Z)
    : M (Heap * Document) unit :=
  d <- this ;;
  match layer_or_selected layerId d with
  | None => ret tt
  | Some (layer, l) =>
      if locked l then ret tt
      else
        let index := default (_currentFrame d) frameIndex in
        on_layer layer (Layer.clearKeyframe index) ;;
        emit "keyframeClear"
  end.

(** [Array.from(this._selectedShapeIds)] *)
Definition selectedShapeIds (d : Document) : list UID := _selectedShapeIds d.

Definition removeSelectedShapes : M (Heap * Document) unit :=
  d <- this ;;
  match selectedLayer d with
  | None => ret tt
  | Some (layer, l) =>
      if locked l then ret tt
      else
        match Layer.getKeyframeAt (_currentFrame d) l with
        | None => ret tt
        | Some (keyframe, _) =>
            forEach (_selectedShapeIds d) (fun shapeId =>
              on_layer layer (Layer.on_frame keyframe (Frame.removeShape shapeId)) ;;
              ret tt) ;;
            set_this (set_selectedShapeIds (fun _ => [])) ;;
            emit "shapesRemove"
        end
  end.

(** The loop of [getVisibleShapes], from [i] down to 0 over the layers below
    position [i]; [result] is what was pushed so far. *)
Fixpoint visible_from (d : Document) (i : nat) (result : list (loc * UID))
    : list (loc * UID) :=
  match i with
  | O => result
  | S i' =>
      match layers d !! i' with
      | Some layer =>
          if negb (visible layer) then visible_from d i' result
          else
            let shapes := Layer.getShapesAtFrame (_currentFrame d) layer in
            visible_from d i' (result ++ map (fun shape => (shape, layer_id layer)) shapes)
      | None => visible_from d i' result
      end
  end.

(** Get all shapes visible at current frame: pairs [{ shape, layerId }]. *)
Definition getVisibleShapes (d : Document) : list (loc * UID) :=
  (* Iterate from bottom to top (last layer is bottom) *)
  visible_from d (length (layers d)) [].

Definition layer_toJSON (layer : nat) : M (Heap * Document) LayerLike :=
  data <- on_layer layer Layer.toJSON ;;
  ret (LayerData data).

Definition toJSON : M (Heap * Document) DocumentData :=
  d <- this ;;
  layers_data <- mapA layer_toJSON (seq 0 (length (layers d))) ;;
  library_data <- on_heap (Library.toJSON (library d)) ;;
  ret {| data_id := doc_id d; data_name := doc_name d;
         data_settings := settings d; data_layers := layers_data;
         data_library := library_data; data_version := version d |}.

Definition fromJSON (json : JsonArg) : M Heap Document :=
  match json with
  | JsonText _ => throw (OutOfModel "JSON.parse")
  | JsonObject data =>
      new {| init_doc_id := Some (data_id data);
             init_doc_name := Some (data_name data);
             init_settings := Some (data_settings data);
             init_layers := Some (data_layers data);
             init_library := Some (data_library data);
             init_version := Some (data_version data) |}
  end.

End Document.
(** ** Tween.ts: easing and interpolation *)

Module Tween.

Local Open Scope num_scope.
Local Open Scope float_scope.

Section Easing.

(** [Math.sin] belongs to the host, and so does [Math.pow] where ECMAScript
    leaves the result to the implementation ([pow_approx]).  The first cases
    of [Number::exponentiate] are fixed exactly: a [NaN] exponent, a zero
    exponent, a [NaN] base, and the base [+0]. *)
Variable pow_approx : number -> number -> number.
Variable Math_sin : number -> number.

Definition Math_pow (base exponent : number) : number :=
  if PrimFloat.is_nan exponent then PrimFloat.nan
  else if PrimFloat.is_zero exponent then 1
  else if PrimFloat.is_nan base then PrimFloat.nan
  else if PrimFloat.is_zero base && negb (PrimFloat.get_sign base) then
    if 0 <? exponent then 0 else PrimFloat.infinity
  else pow_approx base exponent.

(** The binary64 value nearest to pi. *)
Definition Math_PI : number := 0x1.921fb54442d18p+1.

Definition linear (t : number) : number := t.

Definition easeIn (t : number) : number := t * t.

Definition easeOut (t : number) : number := t * (2 - t).

Definition easeInOut (t : number) : number :=
  if t <? 0.5 then 2 * t * t else (- 1) + (4 - 2 * t) * t.

Definition easeInCubic (t : number) : number := t * t * t.

Definition easeOutCubic (t : number) : number :=
  let t1 := t - 1 in
  t1 * t1 * t1 + 1.

Definition easeInOutCubic (t : number) : number :=
  if t <? 0.5 then 4 * t * t * t
  else 1 - Math_pow ((- 2) * t + 2) 3 / 2.

Definition elasticOut (t : number) : number :=
  let c4 := (2 * Math_PI) / 3 in
  if t =? 0 then 0
  else if t =? 1 then 1
  else Math_pow 2 ((- 10) * t) * Math_sin ((t * 10 - 0.75) * c4) + 1.

(** The branches of [bounceOut] assign to [t] inside the expression
    ([n1 * (t -= c) * t + k]): the second factor reads the updated [t]. *)
Definition bounceOut (t : number) : number :=
  let n1 := 7.5625 in
  let d1 := 2.75 in
  if t <? 1 / d1 then n1 * t * t
  else if t <? 2 / d1 then
    let t' := t - 1.5 / d1 in n1 * t' * t' + 0.75
  else if t <? 2.5 / d1 then
    let t' := t - 2.25 / d1 in n1 * t' * t' + 0.9375
  else
    let t' := t - 2.625 / d1 in n1 * t' * t' + 0.984375.

(** The keys of the [Easing] object. *)
Inductive EasingName : Type :=
| Linear | EaseIn | EaseOut | EaseInOut
| EaseInCubic | EaseOutCubic | EaseInOutCubic
| ElasticOut | BounceOut.

Definition Easing (f : EasingName) : number -> number :=
  match f with
  | Linear => linear
  | EaseIn => easeIn
  | EaseOut => easeOut
  | EaseInOut => easeInOut
  | EaseInCubic => easeInCubic
  | EaseOutCubic => easeOutCubic
  | EaseInOutCubic => easeInOutCubic
  | ElasticOut => elasticOut
  | BounceOut => bounceOut
  end.

End Easing.

Definition lerp (a b t : number) : number := a + (b - a) * t.

(** [while (diff > 180) diff -= 360]: the loop need not end on every
    binary64 input (an infinite [diff] never shrinks), so it runs on fuel. *)
Fixpoint wind_down (fuel : nat) (diff : number) : option number :=
  match fuel with
  | O => None
  | S fuel' => if diff >? 180 then wind_down fuel' (diff - 360) else Some diff
  end.

(** [while (diff < -180) diff += 360]. *)
Fixpoint wind_up (fuel : nat) (diff : number) : option number :=
  match fuel with
  | O => None
  | S fuel' => if diff <? (- 180) then wind_up fuel' (diff + 360) else Some diff
  end.

Definition lerpAngle (fuel : nat) (a b t : number) : option number :=
  diff ← wind_down fuel (b - a);
  diff ← wind_up fuel diff;
  Some (a + diff * t).

Definition lerpTransform (fuel : nat) (start_ end_ : Transform) (t : number)
    : option Transform :=
  r ← lerpAngle fuel (rotation start_) (rotation end_) t;
  Some {| t_x := lerp (t_x start_) (t_x end_) t;
          t_y := lerp (t_y start_) (t_y end_) t;
          scaleX := lerp (scaleX start_) (scaleX end_) t;
          scaleY := lerp (scaleY start_) (scaleY end_) t;
          rotation := r;
          skewX := lerp (skewX start_) (skewX end_) t;
          skewY := lerp (skewY start_) (skewY end_) t;
          alpha := lerp (alpha start_) (alpha end_) t |}.

(** [endShapes.some(s => s.id === startShape.id)] *)
Definition some_same_id (endShapes : list Shape) (startShape : Shape) : bool :=
  existsb (fun s => String.eqb (shape_id s) (shape_id startShape)) endShapes.

(** Check if motion tweening can be applied between two keyframes.  The
    function only reads the [id] of the shapes: the two arrays are given by
    the shapes they hold. *)
Definition canMotionTween (startShapes endShapes : list Shape) : bool :=
  if (length startShapes =? 0)%nat || (length endShapes =? 0)%nat then false
  else if existsb (some_same_id endShapes) startShapes then
    (* a shape of the start has a matching id: the loop returns true *)
    true
  else
    (* If no matching IDs, we can still tween if there's exactly one shape in each *)
    (length startShapes =? 1)%nat && (length endShapes =? 1)%nat.

(** Get easing function from type: the cubic, elastic and bounce functions
    are not reached, and a custom easing is linear. *)
Definition getEasingFunction (easing : option EasingFunction) : number -> number :=
  match easing with
  | None => linear
  | Some e =>
      match e_type e with
      | EasingLinear => linear
      | EasingEaseIn => easeIn
      | EasingEaseOut => easeOut
      | EasingEaseInOut => easeInOut
      | EasingCustom => linear
      end
  end.

(** [endShapes.findIndex(s => s.id === startShape.id)] *)
Definition index_of_id (endShapes : list Shape) (startShape : Shape)
    : option (nat * Shape) :=
  find_ref (fun s => String.eqb (shape_id s) (shape_id startShape)) endShapes.

(** First pass of [createTweenPairs], match by ID: the pairs pushed and the
    indices added to [usedEndIndices], after those in [acc]. *)
Fixpoint match_by_id (endShapes startShapes : list Shape)
    (acc : list (Shape * Shape) * list nat) : list (Shape * Shape) * list nat :=
  match startShapes with
  | [] => acc
  | startShape :: rest =>
      match index_of_id endShapes startShape with
      | Some (endIndex, endShape) =>
          match_by_id endShapes rest
            (fst acc ++ [(startShape, endShape)], snd acc ++ [endIndex])
      | None => match_by_id endShapes rest acc
      end
  end.

(** Create matched shape pairs for tweening when IDs don't match.  Only the
    [id] of the shapes is read; a pair is [{ start, end }]. *)
Definition createTweenPairs (startShapes endShapes : list Shape) : list (Shape * Shape) :=
  let '(pairs, usedEndIndices) := match_by_id endShapes startShapes ([], []) in
  (* Second pass: pair remaining shapes by order *)
  let unpairedStart :=
    List.filter
      (fun s => negb (existsb (fun p => String.eqb (shape_id (fst p)) (shape_id s)) pairs))
      startShapes in
  let unpairedEnd :=
    map snd
        (List.filter (fun e => negb (existsb (Nat.eqb (fst e)) usedEndIndices))
                     (with_refs endShapes)) in
  let minUnpaired := Nat.min (length unpairedStart) (length unpairedEnd) in
  pairs ++ combine (take minUnpaired unpairedStart) (take minUnpaired unpairedEnd).

Arguments lerpAngle fuel%_nat (a b t)%_float.
Arguments Easing (pow_approx Math_sin)%_function f t%_float.

End Tween.


(** ** History.ts: the history manager *)

Module History.

(** What a command can touch: the heap, the document, and the private
    fields [X] of the command objects. *)
Record World (X : Type) : Type := {
  heap : Heap;
  document : Document;
  privates : X }.

Arguments heap {X} w.
Arguments document {X} w.
Arguments privates {X} w.

Definition on_document {X A : Type} (m : M (Heap * Document) A) : M (World X) A :=
  zoom (fun w => Some (heap w, document w))
       (fun t w => {| heap := fst t; document := snd t; privates := privates w |})
       m.

Definition on_privates {X A : Type} (m : M X A) : M (World X) A :=
  zoom (fun w => Some (privates w))
       (fun x w => {| heap := heap w; document := document w; privates := x |})
       m.

(** The interface [Command]: [type], [description], [execute()], [undo()]. *)
Class Command (X Cmd : Type) : Type := {
  type_of : Cmd -> string;
  description : Cmd -> string;
  execute_of : Cmd -> M (World X) unit;
  undo_of : Cmd -> M (World X) unit }.

(** The two stacks are arrays: the most recent command is the last
    element, the oldest the first. *)
Record HistoryManager (Cmd : Type) : Type := {
  undoStack : list Cmd;
  redoStack : list Cmd;
  maxHistory : Z;
  isExecuting : bool }.

Arguments undoStack {Cmd} h.
Arguments redoStack {Cmd} h.
Arguments maxHistory {Cmd} h.
Arguments isExecuting {Cmd} h.

Record HistoryState : Type := {
  canUndo_ : bool;
  canRedo_ : bool;
  undoDescription : option string;
  redoDescription : option string;
  undoCount : nat;
  redoCount : nat }.

Section Manager.

Context {X Cmd : Type} `{Command X Cmd}.

Definition new : HistoryManager Cmd :=
  {| undoStack := []; redoStack := []; maxHistory := 100; isExecuting := false |}.

Definition set_undoStack (f : list Cmd -> list Cmd) (h : HistoryManager Cmd) :=
  {| undoStack := f (undoStack h); redoStack := redoStack h;
     maxHistory := maxHistory h; isExecuting := isExecuting h |}.

Definition set_redoStack (f : list Cmd -> list Cmd) (h : HistoryManager Cmd) :=
  {| undoStack := undoStack h; redoStack := f (redoStack h);
     maxHistory := maxHistory h; isExecuting := isExecuting h |}.


Definition set_isExecuting (b : bool) (h : HistoryManager Cmd) :=
  {| undoStack := undoStack h; redoStack := redoStack h;
     maxHistory := maxHistory h; isExecuting := b |}.

(** The manager's methods run on the manager and the world. *)
Definition St : Type := HistoryManager Cmd * World X.

Definition manager : M St (HistoryManager Cmd) := fun s => (Return (fst s), s).

Definition set_manager (f : HistoryManager Cmd -> HistoryManager Cmd) : M St unit :=
  modify (fun s => (f (fst s), snd s)).

Definition on_world {A : Type} (m : M (World X) A) : M St A :=
  zoom (fun s => Some (snd s)) (fun w s => (fst s, w)) m.

Definition emit (event : string) : M St unit :=
  on_world (on_document (Document.emit event)).

Definition canUndo (h : HistoryManager Cmd) : bool := (0 <? length (undoStack h))%nat.

Definition canRedo (h : HistoryManager Cmd) : bool := (0 <? length (redoStack h))%nat.

Definition getState (h : HistoryManager Cmd) : HistoryState :=
  {| canUndo_ := canUndo h;
     canRedo_ := canRedo h;
     undoDescription := description <$> last (undoStack h);
     redoDescription := description <$> last (redoStack h);
     undoCount := length (undoStack h);
     redoCount := length (redoStack h) |}.

(** [stack.shift()] *)
Definition shift (stack : list Cmd) : list Cmd := tail stack.

(** [stack.pop()]: the last element and what is left. *)
Definition pop (stack : list Cmd) : option (Cmd * list Cmd) :=
  match last stack with
  | Some c => Some (c, removelast stack)
  | None => None
  end.

(** Execute a command and add it to history. *)
Definition execute (command : Cmd) : M St unit :=
  h <- manager ;;
  if isExecuting h then ret tt
  else
    set_manager (set_isExecuting true) ;;
    try_finally
      (on_world (execute_of command) ;;
       set_manager (set_undoStack (fun stack => stack ++ [command])) ;;
       (* Clear redo stack when new command is executed *)
       set_manager (set_redoStack (fun _ => [])) ;;
       (* Limit history size *)
       h <- manager ;;
       (if maxHistory h <? Z.of_nat (length (undoStack h))
        then set_manager (set_undoStack shift)
        else ret tt) ;;
       emit "historyChange")
      (set_manager (set_isExecuting false)).

(** Undo the last command. *)
Definition undo : M St bool :=
  h <- manager ;;
  if (length (undoStack h) =? 0)%nat then ret false
  else if isExecuting h then ret false
  else
    set_manager (set_isExecuting true) ;;
    try_finally
      (h <- manager ;;
       match pop (undoStack h) with
       | Some (command, rest) =>
           set_manager (set_undoStack (fun _ => rest)) ;;
           on_world (undo_of command) ;;
           set_manager (set_redoStack (fun stack => stack ++ [command])) ;;
           emit "historyChange" ;;
           emit "render" ;;
           ret true
       | None => throw (TypeError "undo")
       end)
      (set_manager (set_isExecuting false)).

(** Redo the last undone command. *)
Definition redo : M St bool :=
  h <- manager ;;
  if (length (redoStack h) =? 0)%nat then ret false
  else if isExecuting h then ret false
  else
    set_manager (set_isExecuting true) ;;
    try_finally
      (h <- manager ;;
       match pop (redoStack h) with
       | Some (command, rest) =>
           set_manager (set_redoStack (fun _ => rest)) ;;
           on_world (execute_of command) ;;
           set_manager (set_undoStack (fun stack => stack ++ [command])) ;;
           emit "historyChange" ;;
           emit "render" ;;
           ret true
       | None => throw (TypeError "execute")
       end)
      (set_manager (set_isExecuting false)).



(** Clear all history. *)
Definition clear : M St unit :=
  set_manager (set_undoStack (fun _ => [])) ;;
  set_manager (set_redoStack (fun _ => [])) ;;
  emit "historyChange".


(** Get history list for UI panel: the undo stack, oldest first, with the
    last entry marked as current. *)
Definition getHistoryList (h : HistoryManager Cmd) : list (string * bool) :=
  let entries := map (fun cmd => (description cmd, false)) (undoStack h) in
  (* Mark current state *)
  match last entries with
  | Some current => removelast entries ++ [(fst current, true)]
  | None => entries
  end.

End Manager.

(** Composite command - groups multiple commands into one. *)
Record CompositeCommand (Cmd : Type) : Type := {
  commands_of : list Cmd;
  composite_description : option string }.

Arguments commands_of {Cmd} c.
Arguments composite_description {Cmd} c.

Section Composite.

Context {X Cmd : Type} `{Command X Cmd}.

(** [description ?? commands[0]?.description ?? 'Multiple changes'] *)
Definition Composite_description (c : CompositeCommand Cmd) : string :=
  match composite_description c with
  | Some d => d
  | None => default "Multiple changes" (description <$> head (commands_of c))
  end.

Definition Composite_execute (c : CompositeCommand Cmd) : M (World X) unit :=
  forEach (commands_of c) execute_of.

Definition Composite_undo (c : CompositeCommand Cmd) : M (World X) unit :=
  (* Undo in reverse order *)
  forEach (rev (commands_of c)) undo_of.

#[export] Instance Composite_Command : Command X (CompositeCommand Cmd) := {
  type_of _ := "composite";
  description := Composite_description;
  execute_of := Composite_execute;
  undo_of := Composite_undo }.

End Composite.

End History.

(** ** History.ts: the commands *)

Record Movement : Type := {
  move_shapeId : UID;
  startX : number; startY : number;
  endX : number; endY : number }.

(** An entry of [RemoveShapesCommand.removedShapes]. *)
Record Removed : Type := {
  removed_layerId : UID;
  removed_frameIndex : Z;
  removed_shape : loc }.

(** The command objects, by their constructor arguments.  A
    [RemoveShapesCommand] also has a mutable field, [removedShapes]; it is
    kept in the world, at position [self] of [Privates]. *)
Inductive Cmd : Type :=
| AddShapeCommand (description_ : string) (layerId : UID) (frameIndex : Z) (shape : loc)
| RemoveShapesCommand (self : nat) (shapeIds : list UID)
| MoveShapesCommand (movements : list Movement).

Definition Privates := list (list Removed).

Module Commands.

Import History.

Definition W := World Privates.

Definition on_heap_w {A : Type} (m : M Heap A) : M W A := on_document (on_heap m).

Definition the_document : M W Document := on_document this.

Definition on_layer_w {A : Type} (layer : nat) (m : M (Heap * Layer) A) : M W A :=
  on_document (Document.on_layer layer m).

Definition on_frame_w {A : Type} (layer frame : nat) (m : M (Heap * Frame) A) : M W A :=
  on_document (Document.on_layer layer (Layer.on_frame frame m)).

(** [`Add ${shape.name || 'shape'}`] *)
Definition new_AddShapeCommand (layerId : UID) (frameIndex : Z) (shape : loc)
    : M W Cmd :=
  s <- on_heap_w (read_shape shape) ;;
  let name := if String.eqb (shape_name s) "" then "shape" else shape_name s in
  ret (AddShapeCommand ("Add " +:+ name) layerId frameIndex shape).

Definition new_RemoveShapesCommand (shapeIds : list UID) : M W Cmd :=
  self <- on_privates (fun p => (Return (length p), p ++ [[]])) ;;
  ret (RemoveShapesCommand self shapeIds).

Definition AddShape_execute (layerId : UID) (frameIndex : Z) (shape : loc) : M W unit :=
  d <- the_document ;;
  match Document.getLayer layerId d with
  | None => ret tt
  | Some (layer, _) =>
      on_layer_w layer (Layer.addShapeAtFrame frameIndex shape) ;;
      s <- on_heap_w (read_shape shape) ;;
      on_document (Document.selectShape (shape_id s) false)
  end.

Definition AddShape_undo (layerId : UID) (frameIndex : Z) (shape : loc) : M W unit :=
  d <- the_document ;;
  match Document.getLayer layerId d with
  | None => ret tt
  | Some (layer, l) =>
      match Layer.getKeyframeAt frameIndex l with
      | Some (keyframe, _) =>
          s <- on_heap_w (read_shape shape) ;;
          on_frame_w layer keyframe (Frame.removeShape (shape_id s)) ;;
          ret tt
      | None => ret tt
      end ;;
      s <- on_heap_w (read_shape shape) ;;
      on_document (Document.deselectShape (shape_id s))
  end.

Definition get_removedShapes (self : nat) : M W (list Removed) :=
  on_privates (fun p =>
    match p !! self with
    | Some rs => (Return rs, p)
    | None => (Throw (OutOfModel "command"), p)
    end).

Definition set_removedShapes (self : nat) (f : list Removed -> list Removed) : M W unit :=
  rs <- get_removedShapes self ;;
  on_privates (modify (fun p => <[self := f rs]> p)).

Definition RemoveShapes_execute (self : nat) (shapeIds : list UID) : M W unit :=
  (* Store shapes before removing *)
  set_removedShapes self (fun _ => []) ;;
  d <- the_document ;;
  forEach (seq 0 (length (layers d))) (fun layer =>
    d <- the_document ;;
    let frameIndex := Document.currentFrame d in
    l <- on_layer_w layer this ;;
    match Layer.getKeyframeAt frameIndex l with
    | None => ret tt
    | Some (keyframe, k) =>
        forEach shapeIds (fun shapeId =>
          shape <- on_frame_w layer keyframe (Frame.getShape shapeId) ;;
          match shape with
          | Some shape =>
              copy <- on_heap_w (Shape.clone shape) ;;
              set_removedShapes self (fun rs =>
                rs ++ [{| removed_layerId := layer_id l;
                          removed_frameIndex := frame_index k;
                          removed_shape := copy |}]) ;;
              on_frame_w layer keyframe (Frame.removeShape shapeId) ;;
              ret tt
          | None => ret tt
          end)
    end) ;;
  on_document Document.clearSelection.

Definition RemoveShapes_undo (self : nat) : M W unit :=
  removedShapes <- get_removedShapes self ;;
  forEach removedShapes (fun r =>
    d <- the_document ;;
    match Document.getLayer (removed_layerId r) d with
    | None => ret tt
    | Some (layer, l) =>
        match Layer.getKeyframeAt (removed_frameIndex r) l with
        | Some (keyframe, _) =>
            copy <- on_heap_w (Shape.clone (removed_shape r)) ;;
            on_frame_w layer keyframe (Frame.addShape copy)
        | None => ret tt
        end
    end).

(** [this.document.getVisibleShapes().find(s => s.shape.id === shapeId)?.shape] *)
Definition findShape (shapeId : UID) : M W (option loc) :=
  d <- the_document ;;
  let shapes := Document.getVisibleShapes d in
  index <- on_heap_w (findIndexA (fun s => Frame.has_id shapeId (fst s)) shapes O) ;;
  ret (i ← index; fst <$> shapes !! i).

Definition set_x (x : number) (t : Transform) : Transform :=
  {| t_x := x; t_y := t_y t; scaleX := scaleX t; scaleY := scaleY t;
     rotation := rotation t; skewX := skewX t; skewY := skewY t; alpha := alpha t |}.

Definition set_y (y : number) (t : Transform) : Transform :=
  {| t_x := t_x t; t_y := y; scaleX := scaleX t; scaleY := scaleY t;
     rotation := rotation t; skewX := skewX t; skewY := skewY t; alpha := alpha t |}.

(** [shape.transform.x = x; shape.transform.y = y] *)
Definition move_to (shape : loc) (x y : number) : M Heap unit :=
  s <- read_shape shape ;;
  t <- read_transform (shape_transform s) ;;
  write (shape_transform s) (OTransform (set_x x t)) ;;
  s <- read_shape shape ;;
  t <- read_transform (shape_transform s) ;;
  write (shape_transform s) (OTransform (set_y y t)).

Definition MoveShapes_execute (movements : list Movement) : M W unit :=
  forEach movements (fun m =>
    shape <- findShape (move_shapeId m) ;;
    match shape with
    | Some shape => on_heap_w (move_to shape (endX m) (endY m))
    | None => ret tt
    end).

Definition MoveShapes_undo (movements : list Movement) : M W unit :=
  forEach movements (fun m =>
    shape <- findShape (move_shapeId m) ;;
    match shape with
    | Some shape => on_heap_w (move_to shape (startX m) (startY m))
    | None => ret tt
    end).

#[export] Instance Cmd_Command : Command Privates Cmd := {
  type_of c :=
    match c with
    | AddShapeCommand _ _ _ _ => "addShape"
    | RemoveShapesCommand _ _ => "removeShapes"
    | MoveShapesCommand _ => "moveShapes"
    end;
  description c :=
    match c with
    | AddShapeCommand d _ _ _ => d
    | RemoveShapesCommand _ shapeIds =>
        "Delete " +:+ pretty (length shapeIds) +:+ " shape(s)"
    | MoveShapesCommand _ => "Move shapes"
    end;
  execute_of c :=
    match c with
    | AddShapeCommand _ layerId frameIndex shape => AddShape_execute layerId frameIndex shape
    | RemoveShapesCommand self shapeIds => RemoveShapes_execute self shapeIds
    | MoveShapesCommand movements => MoveShapes_execute movements
    end;
  undo_of c :=
    match c with
    | AddShapeCommand _ layerId frameIndex shape => AddShape_undo layerId frameIndex shape
    | RemoveShapesCommand self _ => RemoveShapes_undo self
    | MoveShapesCommand movements => MoveShapes_undo movements
    end }.

(** *** Commands with a state of their own

    Each of the commands below is one object; its private fields are the
    private part of the world it runs in. *)

(** [TransformShapesCommand]: [shape.transform = { ...after }] binds the
    shape to a new transform object. *)
Record Transformation : Type := {
  transform_shapeId : UID;
  before : Transform;
  after : Transform }.

Definition set_shape_transform (t : loc) (s : Shape) : Shape :=
  {| shape_class := shape_class s; shape_id := shape_id s; shape_name := shape_name s;
     shape_paths := shape_paths s; shape_stroke := shape_stroke s;
     shape_fill := shape_fill s; shape_transform := t |}.

Definition rebind_transform (shape : loc) (t : Transform) : M Heap unit :=
  copy <- alloc (OTransform t) ;;
  s <- read_shape shape ;;
  write shape (OShape (set_shape_transform copy s)).

Definition findShape_in {P : Type} (shapeId : UID) : M (World P) (option loc) :=
  d <- on_document this ;;
  let shapes := Document.getVisibleShapes d in
  index <- on_document
             (on_heap (findIndexA (fun s => Frame.has_id shapeId (fst s)) shapes O)) ;;
  ret (i ← index; fst <$> shapes !! i).

Definition TransformShapes_execute (transforms : list Transformation)
    : M (World unit) unit :=
  forEach transforms (fun t =>
    shape <- findShape_in (transform_shapeId t) ;;
    match shape with
    | Some shape => on_document (on_heap (rebind_transform shape (after t)))
    | None => ret tt
    end).

Definition TransformShapes_undo (transforms : list Transformation)
    : M (World unit) unit :=
  forEach transforms (fun t =>
    shape <- findShape_in (transform_shapeId t) ;;
    match shape with
    | Some shape => on_document (on_heap (rebind_transform shape (before t)))
    | None => ret tt
    end).

(** The class [Shape] has no static method [fromJSON]: the call
    [Shape.fromJSON(s)] throws. *)
Definition Shape_fromJSON (data : loc) : M Heap loc := throw (TypeError "fromJSON").

(** [frame.shapes = data.shapes.map(s => Shape.fromJSON(s)); frame.isEmpty =
    data.isEmpty; frame.tweenType = data.tweenType; frame.easing =
    data.easing]: field writes, which need no method of the frame. *)
Definition restore_frame (data : Frame) : M (Heap * Frame) unit :=
  restored <- on_heap (mapA Shape_fromJSON (shapes data)) ;;
  set_this (fun f => set_easing (easing data)
                       (set_tweenType (tweenType data)
                          (set_isEmpty (isEmpty data) (set_shapes restored f)))).

(** [InsertKeyframeCommand] *)
Record InsertKeyframePrivate : Type := {
  wasKeyframe : bool;
  previousFrameData : option Frame }.

Definition new_InsertKeyframePrivate : InsertKeyframePrivate :=
  {| wasKeyframe := false; previousFrameData := None |}.

Definition InsertKeyframe_execute (layerId : UID) (frameIndex : Z) (blank : bool)
    : M (World InsertKeyframePrivate) unit :=
  d <- on_document this ;;
  match Document.getLayer layerId d with
  | None => ret tt
  | Some (layer, l) =>
      (* Store previous state *)
      match Layer.getFrame frameIndex l with
      | Some (existingFrame, f) =>
          on_privates (modify (fun p => {| wasKeyframe := isKeyframe f;
                                           previousFrameData := previousFrameData p |})) ;;
          data <- on_document
                    (Document.on_layer layer (Layer.on_frame existingFrame Frame.toJSON)) ;;
          on_privates (modify (fun p => {| wasKeyframe := wasKeyframe p;
                                           previousFrameData := Some data |}))
      | None => ret tt
      end ;;
      if blank then
        on_document (Document.on_layer layer (Layer.insertBlankKeyframe frameIndex)) ;;
        ret tt
      else
        on_document (Document.on_layer layer (Layer.insertKeyframe frameIndex)) ;;
        ret tt
  end.

Definition InsertKeyframe_undo (layerId : UID) (frameIndex : Z)
    : M (World InsertKeyframePrivate) unit :=
  d <- on_document this ;;
  match Document.getLayer layerId d with
  | None => ret tt
  | Some (layer, l) =>
      p <- on_privates (fun p => (Return p, p)) ;;
      match previousFrameData p, wasKeyframe p with
      | Some data, true =>
          (* Restore previous frame state *)
          match Layer.getFrame frameIndex l with
          | Some (frame, _) =>
              on_document (Document.on_layer layer
                             (Layer.on_frame frame (restore_frame data)))
          | None => ret tt
          end
      | _, _ =>
          (* Remove the keyframe *)
          on_document (Document.on_layer layer (Layer.clearKeyframe frameIndex))
      end
  end.

(** [ClearKeyframeCommand]: the private field is [frameData]. *)
Definition ClearKeyframe_execute (layerId : UID) (frameIndex : Z)
    : M (World (option Frame)) unit :=
  d <- on_document this ;;
  match Document.getLayer layerId d with
  | None => ret tt
  | Some (layer, l) =>
      match Layer.getFrame frameIndex l with
      | Some (frame, f) =>
          if isKeyframe f then
            data <- on_document
                      (Document.on_layer layer (Layer.on_frame frame Frame.toJSON)) ;;
            on_privates (modify (fun _ => Some data)) ;;
            on_document (Document.on_layer layer (Layer.clearKeyframe frameIndex))
          else ret tt
      | None => ret tt
      end
  end.

Definition ClearKeyframe_undo (layerId : UID) (frameIndex : Z)
    : M (World (option Frame)) unit :=
  frameData <- on_privates (fun p => (Return p, p)) ;;
  match frameData with
  | None => ret tt
  | Some data =>
      d <- on_document this ;;
      match Document.getLayer layerId d with
      | None => ret tt
      | Some (layer, _) =>
          (* Recreate the keyframe *)
          frame <- on_document (Document.on_layer layer (Layer.insertKeyframe frameIndex)) ;;
          on_document (Document.on_layer layer (Layer.on_frame frame (restore_frame data)))
      end
  end.

(** [SetTweenCommand] *)
Record SetTweenPrivate : Type := {
  previousTweenType : TweenType;
  previousEasing : option EasingFunction }.

Definition new_SetTweenPrivate : SetTweenPrivate :=
  {| previousTweenType := TweenNone; previousEasing := None |}.

Definition apply_tween (type : TweenType) (ease : option EasingFunction)
    : M (Heap * Frame) unit :=
  match type with
  | TweenNone => Frame.removeTween
  | TweenMotion => Frame.setMotionTween ease
  | TweenShape => Frame.setShapeTween ease
  end.

Definition SetTween_execute (layerId : UID) (frameIndex : Z) (type : TweenType)
    (ease : option EasingFunction) : M (World SetTweenPrivate) unit :=
  d <- on_document this ;;
  match Document.getLayer layerId d with
  | None => ret tt
  | Some (layer, l) =>
      match Layer.getFrame frameIndex l with
      | Some (frame, f) =>
          if isKeyframe f then
            (* Store previous state *)
            on_privates (modify (fun _ => {| previousTweenType := tweenType f;
                                             previousEasing := easing f |})) ;;
            (* Apply new tween *)
            on_document (Document.on_layer layer
                           (Layer.on_frame frame (apply_tween type ease)))
          else ret tt
      | None => ret tt
      end
  end.

Definition SetTween_undo (layerId : UID) (frameIndex : Z)
    : M (World SetTweenPrivate) unit :=
  d <- on_document this ;;
  match Document.getLayer layerId d with
  | None => ret tt
  | Some (layer, l) =>
      match Layer.getFrame frameIndex l with
      | Some (frame, f) =>
          if isKeyframe f then
            (* Restore previous state *)
            p <- on_privates (fun p => (Return p, p)) ;;
            on_document (Document.on_layer layer
                           (Layer.on_frame frame
                              (apply_tween (previousTweenType p) (previousEasing p))))
          else ret tt
      | None => ret tt
      end
  end.

(** [AddLayerCommand]: the private field is [layerId]. *)
Definition AddLayer_execute (name : option string) : M (World (option UID)) unit :=
  layer <- on_document (Document.addLayer name) ;;
  d <- on_document this ;;
  match layers d !! layer with
  | Some l => on_privates (modify (fun _ => Some (layer_id l)))
  | None => throw (OutOfModel "reference")
  end.

Definition AddLayer_undo : M (World (option UID)) unit :=
  layerId <- on_privates (fun p => (Return p, p)) ;;
  match layerId with
  | None => ret tt
  | Some "" => ret tt
  | Some id => on_document (Document.removeLayer id) ;; ret tt
  end.

End Commands.

(** ** Observing the state

    Deep equality compares what is reachable from an object, not the
    references: a view follows the references of a shape, a frame, a layer
    or a document through the heap. *)

Record StrokeView : Type := {
  view_stroke_color : Color;
  view_stroke_width : number;
  view_lineCap : LineCap;
  view_lineJoin : LineJoin }.

Record FillView : Type := {
  view_fill_type : FillType;
  view_fill_color : option Color;
  view_fill_gradient : option Gradient }.

Record ShapeView : Type := {
  view_class : bool;
  view_id : UID;
  view_name : string;
  view_paths : list VectorPath;
  view_stroke : option StrokeView;
  view_fill : option FillView;
  view_transform : Transform }.

Record FrameView : Type := {
  view_frame : Frame;
  view_shapes : list ShapeView }.

Record LayerView : Type := {
  view_layer : Layer;
  view_frames : list FrameView }.

Record DocumentView : Type := {
  view_document : Document;
  view_layers : list LayerView }.

Module View.

Definition color (cs : list Obj) (l : loc) : option Color :=
  match cs !! l with Some (OColor c) => Some c | _ => None end.

Definition gradient (cs : list Obj) (l : loc) : option Gradient :=
  match cs !! l with Some (OGradient g) => Some g | _ => None end.

Definition paths (cs : list Obj) (l : loc) : option (list VectorPath) :=
  match cs !! l with Some (OPaths p) => Some p | _ => None end.

Definition transform (cs : list Obj) (l : loc) : option Transform :=
  match cs !! l with Some (OTransform t) => Some t | _ => None end.

(** An optional field [r] seen through [see]: absent, or present and seen. *)
Definition optional {A : Type} (see : loc -> option A) (r : option loc)
    : option (option A) :=
  match r with
  | None => Some None
  | Some l => match see l with Some a => Some (Some a) | None => None end
  end.

Definition stroke (cs : list Obj) (l : loc) : option StrokeView :=
  match cs !! l with
  | Some (OStroke s) =>
      c ← color cs (stroke_color s);
      Some {| view_stroke_color := c; view_stroke_width := stroke_width s;
              view_lineCap := lineCap s; view_lineJoin := lineJoin s |}
  | _ => None
  end.

Definition fill (cs : list Obj) (l : loc) : option FillView :=
  match cs !! l with
  | Some (OFill f) =>
      c ← optional (color cs) (fill_color f);
      g ← optional (gradient cs) (fill_gradient f);
      Some {| view_fill_type := fill_type f; view_fill_color := c;
              view_fill_gradient := g |}
  | _ => None
  end.

Definition shape (cs : list Obj) (l : loc) : option ShapeView :=
  match cs !! l with
  | Some (OShape s) =>
      p ← paths cs (shape_paths s);
      st ← optional (stroke cs) (shape_stroke s);
      fi ← optional (fill cs) (shape_fill s);
      t ← transform cs (shape_transform s);
      Some {| view_class := shape_class s; view_id := shape_id s;
              view_name := shape_name s; view_paths := p; view_stroke := st;
              view_fill := fi; view_transform := t |}
  | _ => None
  end.

Definition frame (cs : list Obj) (f : Frame) : option FrameView :=
  ss ← mapM (shape cs) (shapes f);
  Some {| view_frame := set_shapes [] f; view_shapes := ss |}.

Definition layer (cs : list Obj) (l : Layer) : option LayerView :=
  fs ← mapM (frame cs) (frames l);
  Some {| view_layer := set_frames (fun _ => []) l; view_frames := fs |}.

Definition document (cs : list Obj) (d : Document) : option DocumentView :=
  ls ← mapM (layer cs) (layers d);
  Some {| view_document := set_layers (fun _ => []) d; view_layers := ls |}.

(** The objects a shape owns: itself, its paths array, its stroke, its fill
    and its transform. *)
Definition own_cells (cs : list Obj) (l : loc) : list loc :=
  match cs !! l with
  | Some (OShape s) =>
      l :: shape_paths s :: shape_transform s
        :: option_list (shape_stroke s) ++ option_list (shape_fill s)
  | _ => []
  end.

End View.

(** ** Vocabulary of the properties *)

(** What [getVisibleShapes] shows of one layer: its shapes at the current
    frame, each with the id of the layer, when the layer is visible. *)
Definition painted (d : Document) (layer : Layer) : list (loc * UID) :=
  if visible layer
  then map (fun shape => (shape, layer_id layer))
           (Layer.getShapesAtFrame (_currentFrame d) layer)
  else [].

(** The first element that satisfies [p], whatever its position. *)
Definition first_of {X : Type} (p : X -> bool) (xs : list X) : option X :=
  head (List.filter p xs).

Definition is_frame_1 (f : Frame) : bool := frame_index f =? 1.

(** Frame 1 exists and is a keyframe: [getFrame(1)] finds a frame, and its
    [isKeyframe] is set. *)
Definition frame1_is_keyframe (layer : Layer) : Prop :=
  exists r f, Layer.getFrame 1 layer = Some (r, f) /\ isKeyframe f = true.

(** A method of a frame that leaves the index alone and does not demote a
    keyframe, whether it returns or throws. *)
Definition frame_stable {A : Type} (m : M (Heap * Frame) A) : Prop :=
  forall h f,
    frame_index (snd (snd (m (h, f)))) = frame_index f /\
    (isKeyframe f = true -> isKeyframe (snd (snd (m (h, f)))) = true).

(** A step of a method of a layer that keeps frame 1 a keyframe, from the
    state [s], whether it returns or throws. *)
Definition keeps {A : Type} (m : M (Heap * Layer) A) (s : Heap * Layer) : Prop :=
  frame1_is_keyframe (snd s) -> frame1_is_keyframe (snd (snd (m s))).

(** What a copy of a shape shows: what the shape shows, under the id [id],
    with [" Copy"] appended to the name and with the paths [ps]. *)
Definition copy_view (v : ShapeView) (id : UID) (ps : list VectorPath) : ShapeView :=
  {| view_class := true; view_id := id; view_name := view_name v +:+ " Copy";
     view_paths := ps; view_stroke := view_stroke v; view_fill := view_fill v;
     view_transform := view_transform v |}.

(** The heap after [n] more calls of [generateUID] and with more cells. *)
Definition grown (h : Heap) (ext : list Obj) (n : nat) : Heap :=
  {| cells := cells h ++ ext; uid_calls := (n + uid_calls h)%nat;
     uid_source := uid_source h; layerCount := layerCount h;
     symbolCount := symbolCount h |}.

(** The colour object of a stroke; the colour and gradient objects of a
    fill. *)
Definition colors_of_stroke (cs : list Obj) (stroke : option loc) : list loc :=
  match stroke with
  | Some l => match cs !! l with Some (OStroke x) => [stroke_color x] | _ => [] end
  | None => []
  end.

Definition colors_of_fill (cs : list Obj) (fill : option loc) : list loc :=
  match fill with
  | Some l =>
      match cs !! l with
      | Some (OFill x) => option_list (fill_color x) ++ option_list (fill_gradient x)
      | _ => []
      end
  | None => []
  end.

(** The colour and gradient objects that the stroke and the fill of a shape
    refer to. *)
Definition shared_cells (cs : list Obj) (l : loc) : list loc :=
  match cs !! l with
  | Some (OShape s) =>
      colors_of_stroke cs (shape_stroke s) ++ colors_of_fill cs (shape_fill s)
  | _ => []
  end.

(** A shape that [clone] can copy exactly: an instance of [Shape], all of
    whose parts are in the heap, with paths that JSON writes and reads back
    unchanged. *)
Definition clonable (cs : list Obj) (l : loc) : Prop :=
  exists v, View.shape cs l = Some v /\ view_class v = true /\
            JSON_roundtrip_paths (view_paths v) = Some (view_paths v).

(** [copy] is a copy of [original] made on top of the cells [cs]: all its
    own objects are new, it shows the same as the original but for the name
    and the id, and behind its stroke and fill are the colour and gradient
    objects of the original. *)
Definition copy_of (cs cs' : list Obj) (id : UID) (original copy : loc) : Prop :=
  exists v,
    View.shape cs original = Some v /\
    View.shape cs' copy = Some (copy_view v id (view_paths v)) /\
    Forall (fun l => (length cs <= l)%nat) (View.own_cells cs' copy) /\
    shared_cells cs' copy = shared_cells cs original.

(** The values that [generateUID] returns next, one for each shape of [S],
    are ids of no shape of [S]. *)
Definition generates_new_ids (h : Heap) (S : list loc) : Prop :=
  forall k original v,
    (k < length S)%nat -> In original S ->
    View.shape (cells h) original = Some v ->
    uid_source h (uid_calls h + k)%nat <> view_id v.

(** The objects behind strokes and fills are of another kind than the
    objects a shape owns. *)
Definition is_shared_kind (o : Obj) : bool :=
  match o with OColor _ | OGradient _ => true | _ => false end.

(** *** Runs of commands *)

Section Runs.

Import History.

Context {X Cmd : Type} `{Command X Cmd}.

(** The commands of a list return one after the other, from a world to a
    world. *)
Inductive runs : World X -> list Cmd -> World X -> Prop :=
| runs_nil w : runs w [] w
| runs_cons w c w1 cs w2 :
    execute_of c w = (Return tt, w1) -> runs w1 cs w2 -> runs w (c :: cs) w2.

Variable equiv : World X -> World X -> Prop.

(** The same, and each command can be undone: from a world that is
    equivalent to the one its [execute] left, its [undo] returns and leaves
    a world equivalent to the one its [execute] started from. *)
Inductive undoable_run : World X -> list Cmd -> World X -> Prop :=
| undoable_nil w : undoable_run w [] w
| undoable_cons w c w1 cs w2 :
    execute_of c w = (Return tt, w1) ->
    (forall w1', equiv w1' w1 ->
       exists w', undo_of c w1' = (Return tt, w') /\ equiv w' w) ->
    undoable_run w1 cs w2 -> undoable_run w (c :: cs) w2.

(** What [execute] leaves on the undo stack. *)
Definition pushed (max : Z) (stack : list Cmd) (c : Cmd) : list Cmd :=
  if max <? Z.of_nat (length (stack ++ [c])) then shift (stack ++ [c]) else stack ++ [c].

End Runs.

(** ** Sample data *)

Import History Commands.

Module Sample.

(** What [generateUID] returns, call after call. *)
Definition uids (n : nat) : UID :=
  match n with
  | 0 => "u0" | 1 => "u1" | 2 => "u2" | 3 => "u3" | 4 => "u4" | 5 => "u5"
  | 6 => "u6" | 7 => "u7" | 8 => "u8" | _ => "u9"
  end%nat.

Definition rectangle_path : VectorPath :=
  {| commands :=
       [ {| pc_type := MoveTo; points := [ {| p_x := 0; p_y := 0 |} ] |};
         {| pc_type := LineTo; points := [ {| p_x := 40; p_y := 0 |} ] |};
         {| pc_type := LineTo; points := [ {| p_x := 40; p_y := 30 |} ] |};
         {| pc_type := LineTo; points := [ {| p_x := 0; p_y := 30 |} ] |};
         {| pc_type := ClosePath; points := [] |} ];
     closed := true |}%float.

Definition black : Color := {| c_r := 0; c_g := 0; c_b := 0; c_a := 1 |}%float.
Definition red : Color := {| c_r := 255; c_g := 0; c_b := 0; c_a := 1 |}%float.

(** A rectangle with a black stroke, id ["a"], at reference 4. *)
Definition heap : Heap :=
  {| cells :=
       [ OPaths [rectangle_path];
         OColor black;
         OStroke {| stroke_color := 1; stroke_width := 2%float;
                    lineCap := CapButt; lineJoin := JoinMiter |};
         OTransform createDefaultTransform;
         OShape {| shape_class := true; shape_id := "a"; shape_name := "Rectangle";
                   shape_paths := 0; shape_stroke := Some 2%nat; shape_fill := None;
                   shape_transform := 3 |} ]%nat;
     uid_calls := 0; uid_source := uids; layerCount := 1; symbolCount := 0 |}.

Definition rectangle : loc := 4%nat.

Definition frame_1 : Frame :=
  {| frame_class := true; frame_id := "f1"; frame_index := 1; isKeyframe := true;
     isEmpty := false; shapes := [rectangle]; tweenType := TweenNone;
     easing := None; duration := 1 |}.

Definition layer : Layer :=
  {| layer_id := "l1"; layer_name := "Layer 1"; visible := true; locked := false;
     frames := [frame_1]; layer_color := "#81c784" |}.

Definition document : Document :=
  {| doc_id := "d"; doc_name := "Untitled";
     settings := {| width := 800; height := 600; frameRate := 24;
                    backgroundColor := Document.white |}%float;
     layers := [layer]; library := []; version := "0.1.0";
     _currentFrame := 1; _selectedLayerId := Some "l1"; _selectedShapeIds := ["a"] |}.

(** The world, with one [RemoveShapesCommand] object (its [removedShapes]
    is empty). *)
Definition world : W :=
  {| History.heap := heap; History.document := document; privates := [[]] |}.

Definition remove_a : Cmd := RemoveShapesCommand 0 ["a"].

Definition move (x0 x1 : number) : Cmd :=
  MoveShapesCommand [ {| move_shapeId := "a"; startX := x0; startY := 0;
                         endX := x1; endY := 0 |} ]%float.

Arguments move (x0 x1)%_float.

(** Three layers, each with one shape reference at frame 1. *)
Definition layer_with (id : UID) (shape : loc) : Layer :=
  {| layer_id := id; layer_name := id; visible := true; locked := false;
     frames := [ {| frame_class := true; frame_id := id; frame_index := 1;
                    isKeyframe := true; isEmpty := false; shapes := [shape];
                    tweenType := TweenNone; easing := None; duration := 1 |} ];
     layer_color := "#4fc3f7" |}.

Definition three_layers : Document :=
  {| doc_id := "d3"; doc_name := "Untitled"; settings := settings document;
     layers := [layer_with "top" 0%nat; layer_with "middle" 1%nat; layer_with "bottom" 2%nat];
     library := []; version := "0.1.0";
     _currentFrame := 1; _selectedLayerId := None; _selectedShapeIds := [] |}.

(** [shape.stroke.color.r = c.r], and the same for [g], [b] and [a]: the
    colour object of the stroke is written in place, through the shape. *)
Definition paint_stroke (shape : loc) (c : Color) : M Heap unit :=
  s <- read_shape shape ;;
  match shape_stroke s with
  | Some stroke => st <- read_stroke stroke ;; write (stroke_color st) (OColor c)
  | None => throw (TypeError "stroke")
  end.

(** A shape that has just an id. *)
Definition shape_with_id (id : UID) : Shape :=
  {| shape_class := true; shape_id := id; shape_name := "Shape"; shape_paths := 0;
     shape_stroke := None; shape_fill := None; shape_transform := 1 |}%nat.


End Sample.

(** ** Vocabulary of the further properties *)

(** The order of the keys, on the elements that carry them. *)
Definition le_by {X : Type} (key : X -> Z) (a b : X) : Prop := key a <= key b.

(** The frames of a layer are in the order of their indices, and no two of
    them have the same index. *)
Definition ascending (layer : Layer) : Prop :=
  StronglySorted Z.lt (map frame_index (frames layer)).

(** The flag [isEmpty] of a frame is not set while the frame holds shapes. *)
Definition flag_consistent (f : Frame) : Prop := isEmpty f = true -> shapes f = [].

(** What a method of a frame makes of the frame, whether it returns or
    throws, is related to the frame by [R]. *)
Definition changes_by {A : Type} (R : Frame -> Frame -> Prop) (m : M (Heap * Frame) A)
    : Prop :=
  forall h f, R f (snd (snd (m (h, f)))).

(** A method of a layer keeps the property [I] of the layer from the state
    [s], whether it returns or throws. *)
Definition preserves {A : Type} (I : Layer -> Prop) (m : M (Heap * Layer) A)
    (s : Heap * Layer) : Prop :=
  I (snd s) -> I (snd (snd (m s))).

(** A layer that the methods can run on: each frame is an instance of
    [Frame], and each shape on it can be cloned. *)
Definition operable (cs : list Obj) (layer : Layer) : Prop :=
  Forall (fun f => frame_class f = true /\ Forall (clonable cs) (shapes f))
         (frames layer).

(** The id of the shape behind a reference, and of each shape of a list. *)
Definition id_of (cs : list Obj) (l : loc) : option UID :=
  match cs !! l with Some (OShape s) => Some (shape_id s) | _ => None end.

Definition ids_of (cs : list Obj) (shapes : list loc) : option (list UID) :=
  mapM (id_of cs) shapes.

(** [id === shapeId], as a test on ids. *)
Definition is_id (shapeId : UID) (id : UID) : bool := String.eqb id shapeId.

(** The selected layer id, when there is one, is the id of a layer of the
    document. *)
Definition selection_valid (d : Document) : Prop :=
  forall id, _selectedLayerId d = Some id ->
    exists r l, Document.getLayer id d = Some (r, l).

(** A document has at least one layer, and its selected layer exists. *)
Definition well_layered (d : Document) : Prop :=
  layers d <> [] /\ selection_valid d.

(** The shapes [ls], with the ids [ids], whose id is not in [selection]. *)
Definition without (selection : list UID) (ls : list loc) (ids : list UID) : list loc :=
  map fst
    (List.filter (fun p => negb (existsb (String.eqb (snd p)) selection))
                 (combine ls ids)).


(** What [removeTween], [setMotionTween] and [setShapeTween] make of a
    keyframe: the tween type, with no easing for no tween and otherwise the
    easing given, or linear easing. *)
Definition tweened (type : TweenType) (ease : option EasingFunction) (f : Frame) : Frame :=
  set_easing match type with
             | TweenNone => None
             | _ => Some (default linear_easing ease)
             end
             (set_tweenType type f).

(** A shape of the start has a shape of the same id among [endShapes]. *)
Definition matched (endShapes : list Shape) (startShape : Shape) : bool :=
  match Tween.index_of_id endShapes startShape with Some _ => true | None => false end.

(** The pairs and the used indices of the first pass of [createTweenPairs]. *)
Definition matched_pairs (endShapes startShapes : list Shape) : list (Shape * Shape) :=
  fst (Tween.match_by_id endShapes startShapes ([], [])).

Definition used_indices (endShapes startShapes : list Shape) : list nat :=
  snd (Tween.match_by_id endShapes startShapes ([], [])).

(** A channel of [colorToHex]: the two digits of an integer from 0 to 255. *)
Definition channel (n : Z) : string := padStart 2 "0"%char (toString16 (RoundInteger n)).

(** The channel of [n] is two characters that [parseInt(_, 16)] reads as
    [n], and the number that [n] is rounds to [n]. *)
Definition channel_ok (n : Z) : bool :=
  match channel n with
  | String a (String b EmptyString) =>
      match hex_pair a b with Some v => v =? n | None => false end
  | _ => false
  end
  && match Math_round (number_of n) with RoundInteger m => m =? n | _ => false end.

(** [c] is a copy of the frame [f] made on top of the cells [cs]: an
    instance of [Frame] with the index, the flags, the tween and the
    duration of [f], whose shapes are, one for one, copies of the shapes of
    [f].  A frame that holds shapes is copied with [isEmpty] unset. *)
Definition frame_copy (cs cs' : list Obj) (f c : Frame) : Prop :=
  frame_class c = true /\ frame_index c = frame_index f /\
  isKeyframe c = isKeyframe f /\
  isEmpty c = (if (0 <? length (shapes f))%nat then false else isEmpty f) /\
  tweenType c = tweenType f /\ easing c = easing f /\ duration c = duration f /\
  Forall2 (fun original copy => exists id, copy_of cs cs' id original copy)
          (shapes f) (shapes c).

(** ** More sample data *)

Module SampleMore.

(** An empty keyframe at frame 10. *)
Definition frame_10 : Frame :=
  {| frame_class := true; frame_id := "f10"; frame_index := 10; isKeyframe := true;
     isEmpty := true; shapes := []; tweenType := TweenNone; easing := None;
     duration := 1 |}.

(** The sample layer with a second keyframe. *)
Definition two_keyframes : Layer :=
  {| layer_id := "l1"; layer_name := "Layer 1"; visible := true; locked := false;
     frames := [Sample.frame_1; frame_10]; layer_color := "#81c784" |}.

(** The sample document with its layer locked. *)
Definition locked_layer : Layer :=
  {| layer_id := "l1"; layer_name := "Layer 1"; visible := true; locked := true;
     frames := [Sample.frame_1]; layer_color := "#81c784" |}.

Definition locked_document : Document := set_layers (fun _ => [locked_layer]) Sample.document.


(** What the sample rectangle shows. *)
Definition rectangle_view : ShapeView :=
  {| view_class := true; view_id := "a"; view_name := "Rectangle";
     view_paths := [Sample.rectangle_path];
     view_stroke := Some {| view_stroke_color := Sample.black;
                            view_stroke_width := 2%float;
                            view_lineCap := CapButt; view_lineJoin := JoinMiter |};
     view_fill := None; view_transform := createDefaultTransform |}.

(** The sample layer with a plain object for frame 1, not an instance of
    [Frame]: [new Layer(data)] leaves the frames of its data as they are. *)
Definition plain_frame_1 : Frame :=
  {| frame_class := false; frame_id := "f1"; frame_index := 1; isKeyframe := true;
     isEmpty := false; shapes := [Sample.rectangle]; tweenType := TweenNone;
     easing := None; duration := 1 |}.

Definition plain_layer : Layer :=
  {| layer_id := "l1"; layer_name := "Layer 1"; visible := true; locked := false;
     frames := [plain_frame_1]; layer_color := "#81c784" |}.

Definition plain_document : Document := set_layers (fun _ => [plain_layer]) Sample.document.

Definition plain_world : W :=
  {| History.heap := Sample.heap; History.document := plain_document; privates := [[]] |}.

(** A command that throws in that world: [frame.addShape] is not a
    function. *)
Definition add_to_plain : Cmd := AddShapeCommand "Add shape" "l1" 1 Sample.rectangle.

(** A history that has executed that command. *)
Definition added_once : HistoryManager Cmd :=
  set_undoStack (fun _ => [add_to_plain]) History.new.

(** A history that has undone that command, and one in the middle of
    executing a command. *)
Definition undone_once : HistoryManager Cmd :=
  set_redoStack (fun _ => [add_to_plain]) History.new.

Definition busy : HistoryManager Cmd := set_isExecuting true added_once.

(** The sample heap with a second shape, of id ["b"], at reference 5. *)
Definition two_shapes : Heap :=
  {| cells := cells Sample.heap
              ++ [OShape {| shape_class := true; shape_id := "b"; shape_name := "Oval";
                            shape_paths := 0; shape_stroke := None; shape_fill := None;
                            shape_transform := 3 |}]%nat;
     uid_calls := 0; uid_source := Sample.uids; layerCount := 1; symbolCount := 0 |}.

Definition oval : loc := 5%nat.

Definition two_shapes_world : W :=
  {| History.heap := two_shapes; History.document := Sample.document; privates := [[]] |}.


(** A colour between two integers in one channel. *)
Definition pink : Color := {| c_r := 255; c_g := 0; c_b := 128.5; c_a := 1 |}%float.

End SampleMore.
(** * Properties *)

(** ** Tween *)

(** Two numbers that [===] tells apart, the second not [NaN], differ. *)
Lemma number_neq (a b : number) :
  nseq a b = false -> nseq b b = true -> a <> b.
Proof. intros Hab Hbb Heq. subst a. rewrite Hbb in Hab. discriminate. Qed.

(** C4 (as the code has it).  [lerpAngle(350, 10, 0.5)] returns 360: from
    350 the short way up through the full turn, the direction of 0 degrees
    written as 360.  The result is not brought back into [0, 360). *)
Theorem lerpAngle_350_10_half (k : nat) :
  Tween.lerpAngle (2 + k) 350 10 0.5 = Some 360%float.
Proof. reflexivity. Qed.

(** C4 (as stated) fails: whatever the fuel, the result is never the
    number 0. *)
Lemma lerpAngle_350_10_half_not_0 :
  ~ exists fuel, Tween.lerpAngle fuel 350 10 0.5 = Some 0%float.
Proof.
  intros [fuel H]. destruct fuel as [|[|k]].
  - discriminate H.
  - discriminate H.
  - apply (f_equal (default 0%float)) in H. cbv in H.
    revert H. apply number_neq; reflexivity.
Qed.

(** C6.  Every function of the [Easing] object is 0 at 0 and 1 at 1, in
    binary64 arithmetic and for every host implementation of [Math.sin] and
    of the approximated part of [Math.pow]. *)
Theorem Easing_endpoints (pow_approx : number -> number -> number)
    (Math_sin : number -> number) (f : Tween.EasingName) :
  Tween.Easing pow_approx Math_sin f 0 = 0%float /\
  Tween.Easing pow_approx Math_sin f 1 = 1%float.
Proof. destruct f; split; reflexivity. Qed.

(** C7.  [canMotionTween] is false when a list is empty, true when an id
    occurs in both lists, and without a common id it is true exactly when
    each list holds one shape. *)
Theorem canMotionTween_cases (startShapes endShapes : list Shape) :
  (startShapes = [] \/ endShapes = [] ->
   Tween.canMotionTween startShapes endShapes = false) /\
  ((exists s e, In s startShapes /\ In e endShapes /\ shape_id s = shape_id e) ->
   Tween.canMotionTween startShapes endShapes = true) /\
  (~ (exists s e, In s startShapes /\ In e endShapes /\ shape_id s = shape_id e) ->
   (Tween.canMotionTween startShapes endShapes = true <->
    length startShapes = 1%nat /\ length endShapes = 1%nat)).
Proof.
  unfold Tween.canMotionTween.
  assert (Hcommon :
    existsb (Tween.some_same_id endShapes) startShapes = true <->
    exists s e, In s startShapes /\ In e endShapes /\ shape_id s = shape_id e).
  { rewrite existsb_exists. split.
    - intros (s & Hs & Hex). unfold Tween.some_same_id in Hex.
      apply existsb_exists in Hex as (e & He & Heq).
      apply String.eqb_eq in Heq. exists s, e. auto.
    - intros (s & e & Hs & He & Heq). exists s. split; [assumption|].
      apply existsb_exists. exists e. split; [assumption|].
      apply String.eqb_eq. congruence. }
  split; [|split].
  - intros [-> | ->]; [reflexivity|].
    destruct startShapes; reflexivity.
  - intros Hex. apply Hcommon in Hex.
    destruct startShapes as [|s0 ss]; [discriminate Hex|].
    destruct endShapes as [|e0 es].
    { exfalso. rewrite existsb_exists in Hex.
      destruct Hex as (s & _ & Hs). discriminate Hs. }
    cbn [length Nat.eqb orb]. rewrite Hex. reflexivity.
  - intros Hno.
    assert (E : existsb (Tween.some_same_id endShapes) startShapes = false).
    { apply not_true_is_false. intros E. apply Hno, Hcommon, E. }
    rewrite E.
    destruct startShapes as [|s0 [|s1 ss]]; destruct endShapes as [|e0 [|e1 es]];
      cbn [length Nat.eqb orb andb]; split; intros H;
      try discriminate H; try reflexivity;
      try (destruct H; discriminate);
      auto.
Qed.

(** ** Document *)

(** C9.  On a document of three layers [getVisibleShapes] returns what the
    layer stored at index 2 shows, then the layer at index 1, then the layer
    at index 0: every entry of the bottom layer comes before every entry of
    the topmost one. *)
Theorem getVisibleShapes_three_layers (d : Document) (top middle bottom : Layer) :
  layers d = [top; middle; bottom] ->
  Document.getVisibleShapes d
  = painted d bottom ++ painted d middle ++ painted d top.
Proof.
  intros Hlayers. unfold Document.getVisibleShapes, painted.
  rewrite Hlayers. cbn [length Document.visible_from].
  rewrite Hlayers. cbn [lookup list_lookup].
  destruct (visible bottom), (visible middle), (visible top);
    cbn [negb app]; rewrite ?app_nil_r, <- ?app_assoc; reflexivity.
Qed.
(** ** References into arrays *)

Lemma find_ref_Some {X : Type} (p : X -> bool) (xs : list X) (r : nat) (x : X) :
  find_ref p xs = Some (r, x) -> xs !! r = Some x /\ p x = true.
Proof.
  revert r. induction xs as [|y ys IH]; intros r H; [discriminate|].
  cbn in H. destruct (p y) eqn:Hy.
  - injection H as <- <-. auto.
  - destruct (find_ref p ys) as [[i z]|]; [|discriminate].
    injection H as <- <-. apply (IH i). reflexivity.
Qed.

Lemma find_ref_None {X : Type} (p : X -> bool) (xs : list X) :
  find_ref p xs = None -> forall x, In x xs -> p x = false.
Proof.
  induction xs as [|y ys IH]; intros H x Hx; [destruct Hx|].
  cbn in H. destruct (p y) eqn:Hy; [discriminate|].
  destruct (find_ref p ys) as [[i z]|] eqn:E; [discriminate|].
  destruct Hx as [<-|Hx]; auto.
Qed.

Lemma find_ref_first_of {X : Type} (p : X -> bool) (xs : list X) :
  snd <$> find_ref p xs = first_of p xs.
Proof.
  unfold first_of. induction xs as [|y ys IH]; [reflexivity|].
  cbn. destruct (p y); [reflexivity|].
  rewrite <- IH. destruct (find_ref p ys) as [[i z]|]; reflexivity.
Qed.

Lemma find_ref_insert {X : Type} (p : X -> bool) (xs : list X) (r : nat) (old new : X) :
  xs !! r = Some old -> p new = p old ->
  find_ref p (<[r := new]> xs)
  = match find_ref p xs with
    | Some (j, y) => Some (j, if (j =? r)%nat then new else y)
    | None => None
    end.
Proof.
  revert r. induction xs as [|y ys IH]; intros r Hr Hp; [discriminate|].
  destruct r as [|r].
  - injection Hr as ->. cbn [list_insert insert find_ref]. rewrite Hp.
    destruct (p old); [reflexivity|].
    destruct (find_ref p ys) as [[i z]|]; reflexivity.
  - change (<[S r := new]> (y :: ys)) with (y :: <[r := new]> ys).
    cbn [find_ref]. destruct (p y); [reflexivity|].
    rewrite (IH r Hr Hp). destruct (find_ref p ys) as [[i z]|]; reflexivity.
Qed.

Lemma find_ref_delete {X : Type} (p : X -> bool) (xs : list X) (r : nat) (old : X) :
  xs !! r = Some old -> p old = false ->
  snd <$> find_ref p (delete r xs) = snd <$> find_ref p xs.
Proof.
  revert r. induction xs as [|y ys IH]; intros r Hr Hp; [discriminate|].
  destruct r as [|r].
  - injection Hr as ->. cbn [delete list_delete find_ref]. rewrite Hp.
    destruct (find_ref p ys) as [[i z]|]; reflexivity.
  - change (delete (S r) (y :: ys)) with (y :: delete r ys).
    cbn [find_ref]. destruct (p y); [reflexivity|].
    specialize (IH r Hr Hp).
    destruct (find_ref p (delete r ys)) as [[i z]|], (find_ref p ys) as [[i' z']|];
      cbn in IH |- *; congruence.
Qed.

(** ** The sort is stable *)

Section Stable.

Context {X : Type} (key : X -> Z).

Lemma filter_sort_insert (p : X -> bool) (x : X) (s : list X) :
  (forall y, p x = true -> p y = true -> key x <= key y) ->
  List.filter p (sort_insert (fun a b => key a - key b) x s) = List.filter p (x :: s).
Proof.
  intros Hp. induction s as [|y ys IH]; [reflexivity|].
  cbn [sort_insert].
  destruct (0 <? key x - key y) eqn:E; [|reflexivity].
  apply Z.ltb_lt in E. cbn [List.filter] in IH |- *. rewrite IH.
  destruct (p x) eqn:Hx, (p y) eqn:Hy; try reflexivity.
  specialize (Hp y eq_refl Hy). lia.
Qed.

(** Elements of one key keep their order. *)
Lemma filter_sort (k : Z) (xs : list X) :
  List.filter (fun x => key x =? k) (sort (fun a b => key a - key b) xs)
  = List.filter (fun x => key x =? k) xs.
Proof.
  induction xs as [|x xs IH]; [reflexivity|].
  cbn [sort]. rewrite filter_sort_insert.
  - cbn [List.filter]. rewrite IH. reflexivity.
  - intros y Hx Hy. apply Z.eqb_eq in Hx, Hy. lia.
Qed.

End Stable.

Lemma filter_map_swap {X Y : Type} (p : Y -> bool) (f : X -> Y) (xs : list X) :
  List.filter p (map f xs) = map f (List.filter (fun x => p (f x)) xs).
Proof.
  induction xs as [|x xs IH]; [reflexivity|].
  cbn. destruct (p (f x)); cbn; rewrite IH; reflexivity.
Qed.

(** ** Frame 1 of a layer *)

Lemma frame1_first_of (layer : Layer) :
  frame1_is_keyframe layer <->
  exists f, first_of is_frame_1 (frames layer) = Some f /\ isKeyframe f = true.
Proof.
  unfold frame1_is_keyframe, Layer.getFrame. rewrite <- find_ref_first_of.
  fold is_frame_1. split.
  - intros (r & f & -> & Hk). exists f. split; [reflexivity|assumption].
  - intros (f & Hf & Hk).
    destruct (find_ref is_frame_1 (frames layer)) as [[r g]|]; [|discriminate].
    injection Hf as ->. exists r, f. auto.
Qed.

Lemma frame1_insert (layer : Layer) (r : nat) (old new : Frame) :
  frames layer !! r = Some old ->
  frame_index new = frame_index old ->
  (isKeyframe old = true -> isKeyframe new = true) ->
  frame1_is_keyframe layer ->
  frame1_is_keyframe (set_frames (fun fs => <[r := new]> fs) layer).
Proof.
  intros Hr Hi Hk (r1 & f1 & H1 & Hk1).
  unfold frame1_is_keyframe, Layer.getFrame in *. cbn [frames set_frames].
  rewrite (find_ref_insert _ _ r old new Hr), H1
    by (rewrite Hi; reflexivity).
  eexists _, _. split; [reflexivity|].
  destruct (r1 =? r)%nat eqn:E; [|assumption].
  apply Nat.eqb_eq in E. subst r1.
  apply find_ref_Some in H1 as [H1 _]. rewrite Hr in H1. injection H1 as ->.
  auto.
Qed.

Lemma frame1_delete (layer : Layer) (r : nat) (old : Frame) :
  frames layer !! r = Some old ->
  frame_index old <> 1 ->
  frame1_is_keyframe layer ->
  frame1_is_keyframe (set_frames (fun fs => delete r fs) layer).
Proof.
  intros Hr Hi. rewrite !frame1_first_of. cbn [frames set_frames].
  rewrite <- !find_ref_first_of.
  rewrite (find_ref_delete _ _ r old Hr); [auto|].
  unfold is_frame_1. apply Z.eqb_neq. assumption.
Qed.

Lemma first_of_push_and_sort (k : Z) (new : Frame) (fs : list Frame) :
  first_of (fun f => frame_index f =? k) (fst (push_and_sort new fs))
  = first_of (fun f => frame_index f =? k) (fs ++ [new]).
Proof.
  unfold first_of, push_and_sort. cbn [fst].
  rewrite filter_map_swap.
  change (fun a b : bool * Frame => by_index_ascending (snd a) (snd b))
    with (fun a b : bool * Frame =>
            (fun a => frame_index (snd a)) a - (fun a => frame_index (snd a)) b).
  rewrite (filter_sort (fun a : bool * Frame => frame_index (snd a)) k).
  assert (E : fs ++ [new] = map snd (map (pair false) fs ++ [(true, new)])).
  { rewrite map_app, map_map. cbn [map snd]. rewrite map_id. reflexivity. }
  rewrite E, filter_map_swap. reflexivity.
Qed.

Lemma frame1_push_and_sort (layer : Layer) (new : Frame) :
  frame_index new <> 1 ->
  frame1_is_keyframe layer ->
  frame1_is_keyframe
    (set_frames (fun _ => fst (push_and_sort new (frames layer))) layer).
Proof.
  intros Hi. rewrite !frame1_first_of. cbn [frames set_frames].
  unfold is_frame_1. rewrite first_of_push_and_sort.
  unfold first_of. rewrite List.filter_app. cbn [List.filter].
  apply Z.eqb_neq in Hi. rewrite Hi, app_nil_r. auto.
Qed.

(** ** Running the methods of a layer *)

Lemma on_frame_run {A : Type} (r : nat) (m : M (Heap * Frame) A) (h : Heap) (layer : Layer) :
  Layer.on_frame r m (h, layer)
  = match frames layer !! r with
    | None => (Throw (OutOfModel "reference"), (h, layer))
    | Some f =>
        (fst (m (h, f)),
         (fst (snd (m (h, f))),
          set_frames (fun fs => <[r := snd (snd (m (h, f)))]> fs) layer))
    end.
Proof.
  unfold Layer.on_frame, zoom. cbn [fst snd].
  destruct (frames layer !! r) as [f|]; cbn; [|reflexivity].
  destruct (m (h, f)) as [res [h' f']]. reflexivity.
Qed.

Lemma on_heap_run {X A : Type} (m : M Heap A) (h : Heap) (x : X) :
  on_heap m (h, x) = (fst (m h), (snd (m h), x)).
Proof. unfold on_heap, zoom. cbn. destruct (m h). reflexivity. Qed.

Lemma stable_makeKeyframe : frame_stable Frame.makeKeyframe.
Proof.
  intros h f. unfold Frame.makeKeyframe, bind, this, method, set_this, modify, ret, throw.
  cbn. destruct (frame_class f); cbn; auto.
Qed.

Lemma stable_makeBlankKeyframe : frame_stable Frame.makeBlankKeyframe.
Proof.
  intros h f. unfold Frame.makeBlankKeyframe, bind, this, method, set_this, modify, ret, throw.
  cbn. destruct (frame_class f); cbn; auto.
Qed.

Lemma stable_clear : frame_stable Frame.clear.
Proof.
  intros h f. unfold Frame.clear, bind, this, method, set_this, modify, ret, throw.
  cbn. destruct (frame_class f); cbn; auto.
Qed.

Lemma stable_addShape (shape : loc) : frame_stable (Frame.addShape shape).
Proof.
  intros h f. unfold Frame.addShape, bind, this, method, set_this, modify, ret, throw.
  cbn. destruct (frame_class f); cbn; auto.
Qed.

Lemma stable_this : frame_stable (@this Frame).
Proof. intros h f. cbn. auto. Qed.

Lemma stable_set_content (copies : list loc) :
  frame_stable (set_this (fun f => set_isEmpty false (set_shapes copies f))).
Proof. intros h f. cbn. auto. Qed.

Lemma keeps_ret {A : Type} (a : A) s : keeps (ret a) s.
Proof. intros H. exact H. Qed.

Lemma keeps_bind {A B : Type} (m : M (Heap * Layer) A) (k : A -> M (Heap * Layer) B) s :
  keeps m s ->
  (forall a s', m s = (Return a, s') -> frame1_is_keyframe (snd s') -> keeps (k a) s') ->
  keeps (bind m k) s.
Proof.
  intros Hm Hk H1. unfold bind. specialize (Hm H1).
  destruct (m s) as [[a|e] s'] eqn:E; cbn [snd] in *.
  - apply (Hk a s' eq_refl Hm Hm).
  - exact Hm.
Qed.

Lemma keeps_on_heap {A : Type} (m : M Heap A) s : keeps (on_heap m) s.
Proof. destruct s as [h layer]. intros H. rewrite on_heap_run. exact H. Qed.

Lemma keeps_on_frame {A : Type} (r : nat) (m : M (Heap * Frame) A) s :
  frame_stable m -> keeps (Layer.on_frame r m) s.
Proof.
  destruct s as [h layer]. intros Hm H. rewrite on_frame_run.
  destruct (frames layer !! r) as [f|] eqn:Hr; [|exact H].
  cbn [snd]. destruct (Hm h f) as [Hi Hk].
  apply (frame1_insert layer r f); assumption.
Qed.

Lemma this_run {X : Type} (s : Heap * X) : this s = (Return (snd s), s).
Proof. reflexivity. Qed.

Lemma Frame_new_run (data : FrameInit) (h : Heap) :
  exists f h', Frame.new data h = (Return f, h') /\
    frame_index f = default 1 (init_index data) /\
    isKeyframe f = default false (init_isKeyframe data) /\
    frame_class f = true /\
    shapes f = default [] (init_shapes data) /\
    cells h' = cells h.
Proof.
  unfold Frame.new, bind, orElse, ret, generateUID.
  destruct (init_frame_id data); eexists _, _; (split; [reflexivity|]); cbn; auto.
Qed.

Lemma getFrame_None_not_1 (layer : Layer) (index : Z) :
  frame1_is_keyframe layer -> Layer.getFrame index layer = None -> index <> 1.
Proof.
  intros (r & f & H1 & _) Hnone ->. congruence.
Qed.

Lemma keeps_push (new : Frame) (layer : Layer) (s : Heap * Layer) :
  frame_index new <> 1 -> frame1_is_keyframe layer ->
  keeps (let '(sorted, position) := push_and_sort new (frames layer) in
         set_this (set_frames (fun _ => sorted)) ;; ret position) s.
Proof.
  intros Hi Hl _. destruct (push_and_sort new (frames layer)) as [sorted position] eqn:E.
  cbn. pose proof (frame1_push_and_sort layer new Hi Hl) as H.
  rewrite E in H. cbn [fst] in H.
  apply frame1_first_of in H. apply frame1_first_of. exact H.
Qed.

Lemma insertKeyframe_keeps (index : Z) s : keeps (Layer.insertKeyframe index) s.
Proof.
  unfold Layer.insertKeyframe.
  apply keeps_bind; [intros H; exact H|].
  intros layer s' Hs' Hl. rewrite this_run in Hs'. injection Hs' as <- <-.
  destruct (Layer.getFrame index (snd s)) as [[frame f0]|] eqn:Hget.
  - apply keeps_bind; [apply keeps_on_frame, stable_makeKeyframe|]. intros _ s1 _ _.
    apply keeps_bind; [apply keeps_on_frame, stable_this|]. intros f s2 _ _.
    apply keeps_bind; [|intros; apply keeps_ret].
    destruct (isEmpty f); [|apply keeps_ret].
    apply keeps_bind; [intros H; exact H|]. intros layer' s3 _ _.
    destruct (Layer.getKeyframeAt (index - 1) layer') as [[r prev]|]; [|apply keeps_ret].
    destruct (negb (isEmpty prev)); [|apply keeps_ret].
    apply keeps_bind; [apply keeps_on_heap|]. intros copies s4 _ _.
    apply keeps_on_frame, stable_set_content.
  - apply keeps_bind; [apply keeps_on_heap|]. intros copies s1 _ _.
    apply keeps_bind; [apply keeps_on_heap|]. intros frame s2 Hnew _.
    apply keeps_push; [|assumption].
    destruct s1 as [h1 l1]. rewrite on_heap_run in Hnew.
    match type of Hnew with context [Frame.new ?d h1] =>
      destruct (Frame_new_run d h1) as (f & h' & E & Hi & _) end.
    rewrite E in Hnew. cbn in Hnew. injection Hnew as <- _.
    rewrite Hi. cbn. apply (getFrame_None_not_1 (snd s)); assumption.
Qed.

Lemma insertBlankKeyframe_keeps (index : Z) s : keeps (Layer.insertBlankKeyframe index) s.
Proof.
  unfold Layer.insertBlankKeyframe.
  apply keeps_bind; [intros H; exact H|].
  intros layer s' Hs' Hl. rewrite this_run in Hs'. injection Hs' as <- <-.
  destruct (Layer.getFrame index (snd s)) as [[frame f0]|] eqn:Hget.
  - apply keeps_bind; [apply keeps_on_frame, stable_makeBlankKeyframe|].
    intros; apply keeps_ret.
  - apply keeps_bind; [apply keeps_on_heap|]. intros frame s2 Hnew _.
    apply keeps_push; [|assumption].
    destruct s as [h1 l1]. rewrite on_heap_run in Hnew.
    match type of Hnew with context [Frame.new ?d h1] =>
      destruct (Frame_new_run d h1) as (f & h' & E & Hi & _) end.
    rewrite E in Hnew. cbn in Hnew. injection Hnew as <- _.
    rewrite Hi. cbn. apply (getFrame_None_not_1 l1); assumption.
Qed.

Lemma clearKeyframe_keeps (index : Z) s : keeps (Layer.clearKeyframe index) s.
Proof.
  unfold Layer.clearKeyframe.
  apply keeps_bind; [intros H; exact H|].
  intros layer s' Hs' Hl. rewrite this_run in Hs'. injection Hs' as <- <-.
  destruct (Layer.getFrame index (snd s)) as [[frame f]|] eqn:Hget; [|apply keeps_ret].
  destruct (isKeyframe f); [|apply keeps_ret].
  destruct (index =? 1) eqn:E.
  - apply keeps_on_frame, stable_clear.
  - intros H. cbn. apply find_ref_Some in Hget as [Hr Hp].
    apply (frame1_delete (snd s) frame f Hr); [|exact H].
    apply Z.eqb_eq in Hp. apply Z.eqb_neq in E. congruence.
Qed.

Lemma addShapeAtFrame_keeps (index : Z) (shape : loc) s :
  keeps (Layer.addShapeAtFrame index shape) s.
Proof.
  unfold Layer.addShapeAtFrame.
  apply keeps_bind; [intros H; exact H|].
  intros layer s' Hs' Hl. rewrite this_run in Hs'. injection Hs' as <- <-.
  apply keeps_bind.
  - destruct (Layer.getKeyframeAt index (snd s)) as [[keyframe k]|].
    + destruct (negb (frame_index k =? index)); [apply insertKeyframe_keeps|apply keeps_ret].
    + apply insertKeyframe_keeps.
  - intros keyframe s1 _ _. apply keeps_on_frame, stable_addShape.
Qed.

(** [clearKeyframe(1)] on a layer whose frame 1 is a keyframe and an
    instance of [Frame]. *)
Lemma clearKeyframe_1_run (h : Heap) (layer : Layer) (r : nat) (f : Frame) :
  Layer.getFrame 1 layer = Some (r, f) ->
  isKeyframe f = true -> frame_class f = true ->
  Layer.clearKeyframe 1 (h, layer)
  = (Return tt,
     (h, set_frames (fun fs => <[r := set_isEmpty true (set_shapes [] f)]> fs) layer)).
Proof.
  intros Hget Hk Hc. unfold Layer.clearKeyframe, bind. rewrite this_run. cbn [snd].
  rewrite Hget, Hk. cbn [Z.eqb Pos.eqb]. rewrite on_frame_run.
  apply find_ref_Some in Hget as [Hr _]. rewrite Hr.
  unfold Frame.clear, bind, this, method, set_this, modify, ret. cbn. rewrite Hc.
  reflexivity.
Qed.

(** Frame 1 stays.  On a layer where frame 1 exists and is a keyframe, it
    still exists and is a keyframe after [insertKeyframe], [insertBlankKeyframe],
    [clearKeyframe] and [addShapeAtFrame], at every index, for every shape
    and whether the call returns or throws.  [clearKeyframe(1)] on a frame 1
    that is a [Frame] returns, removes no frame, and leaves frame 1 a
    keyframe with no shapes. *)
Theorem frame_1_stays_a_keyframe (h : Heap) (layer : Layer) :
  frame1_is_keyframe layer ->
  (forall index,
     frame1_is_keyframe (snd (snd (Layer.insertKeyframe index (h, layer))))) /\
  (forall index,
     frame1_is_keyframe (snd (snd (Layer.insertBlankKeyframe index (h, layer))))) /\
  (forall index,
     frame1_is_keyframe (snd (snd (Layer.clearKeyframe index (h, layer))))) /\
  (forall index shape,
     frame1_is_keyframe (snd (snd (Layer.addShapeAtFrame index shape (h, layer))))) /\
  (forall r f,
     Layer.getFrame 1 layer = Some (r, f) -> frame_class f = true ->
     exists layer' f',
       Layer.clearKeyframe 1 (h, layer) = (Return tt, (h, layer')) /\
       length (frames layer') = length (frames layer) /\
       Layer.getFrame 1 layer' = Some (r, f') /\
       isKeyframe f' = true /\ shapes f' = [] /\ isEmpty f' = true).
Proof.
  intros H1. repeat split.
  - intros index. apply (insertKeyframe_keeps index (h, layer) H1).
  - intros index. apply (insertBlankKeyframe_keeps index (h, layer) H1).
  - intros index. apply (clearKeyframe_keeps index (h, layer) H1).
  - intros index shape. apply (addShapeAtFrame_keeps index shape (h, layer) H1).
  - intros r f Hget Hc.
    assert (Hk : isKeyframe f = true).
    { destruct H1 as (r' & f' & H' & Hk). congruence. }
    eexists _, _. split; [apply (clearKeyframe_1_run h layer r f); assumption|].
    cbn [frames set_frames]. split; [apply length_insert|].
    pose proof Hget as Hget'. apply find_ref_Some in Hget' as [Hr _].
    unfold Layer.getFrame in *. cbn [frames set_frames].
    rewrite (find_ref_insert _ _ r f _ Hr), Hget by reflexivity.
    rewrite Nat.eqb_refl. split; [reflexivity|]. cbn. auto.
Qed.

(** ** Reading and allocating *)

Lemma read_run (h : Heap) (l : loc) (o : Obj) :
  cells h !! l = Some o -> read l h = (Return o, h).
Proof. intros H. unfold read. rewrite H. reflexivity. Qed.

Lemma read_shape_run (h : Heap) (l : loc) (s : Shape) :
  cells h !! l = Some (OShape s) -> read_shape l h = (Return s, h).
Proof. intros H. unfold read_shape, bind. rewrite (read_run h l _ H). reflexivity. Qed.

Lemma read_paths_run (h : Heap) (l : loc) (p : list VectorPath) :
  cells h !! l = Some (OPaths p) -> read_paths l h = (Return p, h).
Proof. intros H. unfold read_paths, bind. rewrite (read_run h l _ H). reflexivity. Qed.

Lemma read_transform_run (h : Heap) (l : loc) (t : Transform) :
  cells h !! l = Some (OTransform t) -> read_transform l h = (Return t, h).
Proof. intros H. unfold read_transform, bind. rewrite (read_run h l _ H). reflexivity. Qed.

Lemma read_stroke_run (h : Heap) (l : loc) (s : StrokeStyle) :
  cells h !! l = Some (OStroke s) -> read_stroke l h = (Return s, h).
Proof. intros H. unfold read_stroke, bind. rewrite (read_run h l _ H). reflexivity. Qed.

Lemma read_fill_run (h : Heap) (l : loc) (f : FillStyle) :
  cells h !! l = Some (OFill f) -> read_fill l h = (Return f, h).
Proof. intros H. unfold read_fill, bind. rewrite (read_run h l _ H). reflexivity. Qed.

(** What a view of a shape says about the cells. *)
Lemma view_shape_cells (cs : list Obj) (l : loc) (v : ShapeView) :
  View.shape cs l = Some v ->
  exists s p t st fi,
    cs !! l = Some (OShape s) /\
    cs !! shape_paths s = Some (OPaths p) /\
    cs !! shape_transform s = Some (OTransform t) /\
    View.optional (View.stroke cs) (shape_stroke s) = Some st /\
    View.optional (View.fill cs) (shape_fill s) = Some fi /\
    v = {| view_class := shape_class s; view_id := shape_id s;
           view_name := shape_name s; view_paths := p;
           view_stroke := st; view_fill := fi;
           view_transform := t |}.
Proof.
  unfold View.shape. intros H.
  destruct (cs !! l) as [[s| | | | | |]|] eqn:Hl; try discriminate.
  unfold View.paths, View.transform in H.
  destruct (cs !! shape_paths s) as [[|?|p| | | |]|] eqn:Hp; try discriminate.
  cbn in H.
  destruct (View.optional (View.stroke cs) (shape_stroke s)) as [st|] eqn:Hst; try discriminate.
  cbn in H.
  destruct (View.optional (View.fill cs) (shape_fill s)) as [fi|] eqn:Hfi; try discriminate.
  cbn in H.
  destruct (cs !! shape_transform s) as [[|t| | | | |]|] eqn:Ht; try discriminate.
  cbn in H. injection H as <-. eauto 12.
Qed.

(** ** Views only grow with the heap *)

Lemma view_color_app cs ext l c :
  View.color cs l = Some c -> View.color (cs ++ ext) l = Some c.
Proof.
  unfold View.color. destruct (cs !! l) as [o|] eqn:E; [|discriminate].
  rewrite (lookup_app_l_Some _ _ _ _ E). auto.
Qed.

Lemma view_gradient_app cs ext l g :
  View.gradient cs l = Some g -> View.gradient (cs ++ ext) l = Some g.
Proof.
  unfold View.gradient. destruct (cs !! l) as [o|] eqn:E; [|discriminate].
  rewrite (lookup_app_l_Some _ _ _ _ E). auto.
Qed.

Lemma view_optional_app {A : Type} (see see' : loc -> option A) r a :
  (forall l x, see l = Some x -> see' l = Some x) ->
  View.optional see r = Some a -> View.optional see' r = Some a.
Proof.
  intros Hsee. destruct r as [l|]; cbn; [|auto].
  destruct (see l) as [x|] eqn:E; [|discriminate].
  rewrite (Hsee l x E). auto.
Qed.

Lemma view_stroke_app cs ext l v :
  View.stroke cs l = Some v -> View.stroke (cs ++ ext) l = Some v.
Proof.
  unfold View.stroke. destruct (cs !! l) as [o|] eqn:E; [|discriminate].
  rewrite (lookup_app_l_Some _ _ _ _ E). destruct o; try discriminate.
  destruct (View.color cs (stroke_color s)) as [c|] eqn:Hc; [|discriminate].
  rewrite (view_color_app _ ext _ _ Hc). auto.
Qed.

Lemma view_fill_app cs ext l v :
  View.fill cs l = Some v -> View.fill (cs ++ ext) l = Some v.
Proof.
  unfold View.fill. destruct (cs !! l) as [o|] eqn:E; [|discriminate].
  rewrite (lookup_app_l_Some _ _ _ _ E). destruct o; try discriminate.
  destruct (View.optional (View.color cs) (fill_color f)) as [c|] eqn:Hc; [|discriminate].
  rewrite (view_optional_app _ (View.color (cs ++ ext)) _ _ (view_color_app cs ext) Hc).
  cbn.
  destruct (View.optional (View.gradient cs) (fill_gradient f)) as [g|] eqn:Hg; [|discriminate].
  rewrite (view_optional_app _ (View.gradient (cs ++ ext)) _ _ (view_gradient_app cs ext) Hg).
  auto.
Qed.

Lemma view_shape_app cs ext l v :
  View.shape cs l = Some v -> View.shape (cs ++ ext) l = Some v.
Proof.
  intros H.
  destruct (view_shape_cells cs l v H) as (s & p & t & st & fi & Hl & Hp & Ht & Hst & Hfi & ->).
  unfold View.shape, View.paths, View.transform.
  rewrite (lookup_app_l_Some _ _ _ _ Hl), (lookup_app_l_Some _ _ _ _ Hp),
    (lookup_app_l_Some _ _ _ _ Ht).
  cbn.
  rewrite (view_optional_app _ (View.stroke (cs ++ ext)) _ _ (view_stroke_app cs ext) Hst).
  cbn.
  rewrite (view_optional_app _ (View.fill (cs ++ ext)) _ _ (view_fill_app cs ext) Hfi).
  reflexivity.
Qed.

Lemma view_stroke_cells cs l v :
  View.stroke cs l = Some v ->
  exists x c, cs !! l = Some (OStroke x) /\ cs !! stroke_color x = Some (OColor c).
Proof.
  unfold View.stroke, View.color. intros H.
  destruct (cs !! l) as [[|?|?|x| | |]|] eqn:Hl; try discriminate.
  destruct (cs !! stroke_color x) as [[| | | | |c|]|] eqn:Hc; try discriminate.
  eauto.
Qed.

Lemma view_fill_cells cs l v :
  View.fill cs l = Some v -> exists x, cs !! l = Some (OFill x).
Proof.
  unfold View.fill. intros H.
  destruct (cs !! l) as [[|?|?|?|x| |]|] eqn:Hl; try discriminate.
  eauto.
Qed.

Ltac lookup_old :=
  cbn [cells set_cells];
  repeat (apply lookup_app_l_Some); eassumption.

Lemma lookup_app_add {A : Type} (cs ext : list A) (k : nat) :
  (cs ++ ext) !! (length cs + k)%nat = ext !! k.
Proof. rewrite lookup_app_r by lia. f_equal. lia. Qed.

Lemma lookup_app_length {A : Type} (cs ext : list A) :
  (cs ++ ext) !! length cs = ext !! O.
Proof. rewrite <- (lookup_app_add cs ext 0). f_equal. lia. Qed.

(** The view of a fill depends on the fill and on the old cells only. *)
Lemma view_fill_copy cs ext l l' x v :
  cs !! l = Some (OFill x) -> View.fill cs l = Some v ->
  (cs ++ ext) !! l' = Some (OFill x) ->
  View.fill (cs ++ ext) l' = Some v.
Proof.
  intros Hl Hv Hl'. pose proof (view_fill_app cs ext l v Hv) as H.
  unfold View.fill in *. rewrite (lookup_app_l_Some _ _ _ _ Hl) in H.
  rewrite Hl'. exact H.
Qed.

Lemma view_stroke_copy cs ext l l' x v :
  cs !! l = Some (OStroke x) -> View.stroke cs l = Some v ->
  (cs ++ ext) !! l' = Some (OStroke x) ->
  View.stroke (cs ++ ext) l' = Some v.
Proof.
  intros Hl Hv Hl'. pose proof (view_stroke_app cs ext l v Hv) as H.
  unfold View.stroke in *. rewrite (lookup_app_l_Some _ _ _ _ Hl) in H.
  rewrite Hl'. exact H.
Qed.

Ltac new_cells :=
  repeat (progress (
    rewrite ?length_app;
    cbn [length shape_paths shape_stroke shape_fill shape_transform shape_class
         shape_id shape_name View.optional option_list app mbind option_bind];
    rewrite ?lookup_app_add, ?lookup_app_length;
    cbn [lookup list_lookup])).

Lemma clone_run (h : Heap) (l : loc) (v : ShapeView) (ps : list VectorPath) :
  View.shape (cells h) l = Some v ->
  view_class v = true ->
  JSON_roundtrip_paths (view_paths v) = Some ps ->
  exists copy ext,
    Shape.clone l h = (Return copy, grown h ext 1) /\
    (length (cells h) <= copy)%nat /\
    View.shape (cells h ++ ext) copy
      = Some (copy_view v (uid_source h (uid_calls h)) ps) /\
    Forall (fun l' => (length (cells h) <= l')%nat) (View.own_cells (cells h ++ ext) copy) /\
    shared_cells (cells h ++ ext) copy = shared_cells (cells h) l.
Proof.
  intros Hv Hclass Hjson.
  destruct (view_shape_cells _ _ _ Hv) as (s & p & t & st & fi & Hl & Hp & Ht & Hst & Hfi & ->).
  cbn [view_class view_paths] in Hclass, Hjson.
  unfold Shape.clone, bind.
  rewrite (read_shape_run h l s Hl). unfold method. rewrite Hclass. cbn [ret].
  rewrite (read_paths_run h _ p Hp), Hjson.
  unfold alloc at 1.
  unfold shared_cells at 2. rewrite Hl.
  destruct (shape_stroke s) as [lst|] eqn:Es; destruct (shape_fill s) as [lfi|] eqn:Ef;
    cbn [View.optional] in Hst, Hfi.
  - destruct (View.stroke (cells h) lst) as [vst|] eqn:Hvst; [|discriminate].
    destruct (View.fill (cells h) lfi) as [vfi|] eqn:Hvfi; [|discriminate].
    injection Hst as <-. injection Hfi as <-.
    destruct (view_stroke_cells _ _ _ Hvst) as (xs & c & Hxs & Hc).
    destruct (view_fill_cells _ _ _ Hvfi) as (xf & Hxf).
    cbn [Shape.spread_stroke Shape.spread_fill].
    unfold bind.
    erewrite read_stroke_run by lookup_old. unfold alloc at 1. cbn [ret].
    erewrite read_fill_run by lookup_old. unfold alloc at 1. cbn [ret].
    erewrite read_transform_run by lookup_old. unfold alloc at 1.
    unfold Shape.new, bind, orElse, generateUID, alloc, ret, set_cells. cbn.
    rewrite <- !app_assoc. cbn [app].
    eexists _, _. split; [reflexivity|].
    rewrite ?Hxs, ?Hxf.
    rewrite ?Es, ?Ef. cbn [colors_of_stroke colors_of_fill]. rewrite ?Hxs, ?Hxf.
    unfold View.shape, View.paths, View.transform, View.own_cells, shared_cells,
      colors_of_stroke, colors_of_fill.
    new_cells.
    erewrite (view_stroke_copy (cells h) _ lst) by (try eassumption; new_cells; reflexivity).
    erewrite (view_fill_copy (cells h) _ lfi) by (try eassumption; new_cells; reflexivity).
    new_cells.
    cbn. repeat split; try lia. repeat constructor; lia.
  - destruct (View.stroke (cells h) lst) as [vst|] eqn:Hvst; [|discriminate].
    injection Hst as <-. injection Hfi as <-.
    destruct (view_stroke_cells _ _ _ Hvst) as (xs & c & Hxs & Hc).
    cbn [Shape.spread_stroke Shape.spread_fill].
    unfold bind.
    erewrite read_stroke_run by lookup_old. unfold alloc at 1. cbn [ret].
    erewrite read_transform_run by lookup_old. unfold alloc at 1.
    unfold Shape.new, bind, orElse, generateUID, alloc, ret, set_cells. cbn.
    rewrite <- !app_assoc. cbn [app].
    eexists _, _. split; [reflexivity|].
    rewrite ?Hxs, ?Hxf.
    rewrite ?Es, ?Ef. cbn [colors_of_stroke colors_of_fill]. rewrite ?Hxs, ?Hxf.
    unfold View.shape, View.paths, View.transform, View.own_cells, shared_cells,
      colors_of_stroke, colors_of_fill.
    new_cells.
    erewrite (view_stroke_copy (cells h) _ lst) by (try eassumption; new_cells; reflexivity).
    new_cells.
    cbn. repeat split; try lia. repeat constructor; lia.
  - destruct (View.fill (cells h) lfi) as [vfi|] eqn:Hvfi; [|discriminate].
    injection Hst as <-. injection Hfi as <-.
    destruct (view_fill_cells _ _ _ Hvfi) as (xf & Hxf).
    cbn [Shape.spread_stroke Shape.spread_fill].
    unfold bind. cbn [ret].
    erewrite read_fill_run by lookup_old. unfold alloc at 1. cbn [ret].
    erewrite read_transform_run by lookup_old. unfold alloc at 1.
    unfold Shape.new, bind, orElse, generateUID, alloc, ret, set_cells. cbn.
    rewrite <- !app_assoc. cbn [app].
    eexists _, _. split; [reflexivity|].
    rewrite ?Es, ?Ef. cbn [colors_of_stroke colors_of_fill]. rewrite ?Hxs, ?Hxf.
    unfold View.shape, View.paths, View.transform, View.own_cells, shared_cells,
      colors_of_stroke, colors_of_fill.
    new_cells.
    erewrite (view_fill_copy (cells h) _ lfi) by (try eassumption; new_cells; reflexivity).
    new_cells.
    cbn. repeat split; try lia. repeat constructor; lia.
  - injection Hst as <-. injection Hfi as <-.
    cbn [Shape.spread_stroke Shape.spread_fill].
    unfold bind. cbn [ret].
    erewrite read_transform_run by lookup_old. unfold alloc at 1.
    unfold Shape.new, bind, orElse, generateUID, alloc, ret, set_cells. cbn.
    rewrite <- !app_assoc. cbn [app].
    eexists _, _. split; [reflexivity|].
    rewrite ?Es, ?Ef. cbn [colors_of_stroke colors_of_fill]. rewrite ?Hxs, ?Hxf.
    unfold View.shape, View.paths, View.transform, View.own_cells, shared_cells,
      colors_of_stroke, colors_of_fill.
    new_cells.
    cbn. repeat split; try lia. repeat constructor; lia.
Qed.

Lemma own_cells_app cs ext l v :
  View.shape cs l = Some v -> View.own_cells (cs ++ ext) l = View.own_cells cs l.
Proof.
  intros H. destruct (view_shape_cells _ _ _ H) as (s & p & t & st & fi & Hl & _).
  unfold View.own_cells. rewrite (lookup_app_l_Some _ _ _ _ Hl), Hl. reflexivity.
Qed.

Lemma shared_cells_app cs ext l v :
  View.shape cs l = Some v -> shared_cells (cs ++ ext) l = shared_cells cs l.
Proof.
  intros H.
  destruct (view_shape_cells _ _ _ H) as (s & p & t & st & fi & Hl & _ & _ & Hst & Hfi & _).
  unfold shared_cells. rewrite (lookup_app_l_Some _ _ _ _ Hl), Hl. f_equal.
  - destruct (shape_stroke s) as [lst|]; [|reflexivity]. cbn in Hst |- *.
    destruct (View.stroke cs lst) as [vst|] eqn:E; [|discriminate].
    destruct (view_stroke_cells _ _ _ E) as (x & c & Hx & _).
    rewrite (lookup_app_l_Some _ _ _ _ Hx), Hx. reflexivity.
  - destruct (shape_fill s) as [lfi|]; [|reflexivity]. cbn in Hfi |- *.
    destruct (View.fill cs lfi) as [vfi|] eqn:E; [|discriminate].
    destruct (view_fill_cells _ _ _ E) as (x & Hx).
    rewrite (lookup_app_l_Some _ _ _ _ Hx), Hx. reflexivity.
Qed.

Lemma clonable_app cs ext l : clonable cs l -> clonable (cs ++ ext) l.
Proof.
  intros (v & Hv & Hc & Hj). exists v. split; [|auto].
  apply view_shape_app. assumption.
Qed.

Lemma copy_of_app cs cs' ext id original copy :
  copy_of cs cs' id original copy -> copy_of cs (cs' ++ ext) id original copy.
Proof.
  intros (v & Hv & Hv' & Hown & Hshared). exists v. split; [assumption|].
  split; [apply view_shape_app; assumption|].
  rewrite (own_cells_app _ _ _ _ Hv'), (shared_cells_app _ _ _ _ Hv'). auto.
Qed.

Lemma copy_of_base cs ext cs' id original copy :
  View.shape cs original <> None ->
  copy_of (cs ++ ext) cs' id original copy -> copy_of cs cs' id original copy.
Proof.
  intros Hdef (v & Hv & Hv' & Hown & Hshared).
  destruct (View.shape cs original) as [v0|] eqn:E; [|congruence].
  pose proof (view_shape_app cs ext _ _ E) as E'. rewrite Hv in E'.
  apply (inj Some) in E'. subst v.
  exists v0. split; [exact E|]. split; [assumption|]. split.
  - eapply Forall_impl; [exact Hown|]. cbn. intros l. rewrite length_app. lia.
  - rewrite Hshared. apply (shared_cells_app cs ext original v0). exact E.
Qed.

Lemma grown_grown h ext1 n1 ext2 n2 :
  grown (grown h ext1 n1) ext2 n2 = grown h (ext1 ++ ext2) (n2 + n1).
Proof.
  unfold grown. cbn. rewrite <- app_assoc. f_equal. lia.
Qed.

Lemma mapA_clone_run (originals : list loc) (h : Heap) :
  Forall (clonable (cells h)) originals ->
  exists copies ext,
    mapA Shape.clone originals h = (Return copies, grown h ext (length originals)) /\
    length copies = length originals /\
    forall k original, originals !! k = Some original ->
      exists copy, copies !! k = Some copy /\
        copy_of (cells h) (cells h ++ ext)
                (uid_source h (uid_calls h + k)%nat) original copy.
Proof.
  revert h. induction originals as [|s rest IH]; intros h Hall.
  - exists [], []. cbn. unfold ret, grown. rewrite app_nil_r.
    split; [destruct h; reflexivity|]. split; [reflexivity|].
    intros k original H. discriminate.
  - inversion Hall as [|? ? (v & Hv & Hc & Hj) Hrest]; subst.
    destruct (clone_run h s v _ Hv Hc Hj) as (copy & ext1 & Hrun & Hnew & Hview & Hown & Hshared).
    destruct (IH (grown h ext1 1)) as (copies & ext2 & Hruns & Hlen & Hcopies).
    { cbn [grown cells]. eapply Forall_impl; [exact Hrest|]. intros l. apply clonable_app. }
    exists (copy :: copies), (ext1 ++ ext2).
    cbn [mapA]. unfold bind. rewrite Hrun, Hruns. unfold ret.
    rewrite grown_grown. split; [f_equal; f_equal; f_equal; cbn; lia|].
    split; [cbn; lia|].
    intros k original Hk. destruct k as [|k]; cbn in Hk.
    + injection Hk as <-. exists copy. split; [reflexivity|].
      rewrite Nat.add_0_r, app_assoc. apply copy_of_app.
      exists v. auto.
    + destruct (Hcopies k original Hk) as (c & Hc' & Hcopy).
      exists c. split; [exact Hc'|].
      cbn [grown cells uid_source uid_calls] in Hcopy.
      rewrite app_assoc.
      replace (uid_calls h + S k)%nat with (1 + uid_calls h + k)%nat by lia.
      apply (copy_of_base _ ext1); [|exact Hcopy].
      rewrite Forall_forall in Hrest.
      destruct (Hrest original) as (v0 & Hv0 & _).
      { eapply list_elem_of_lookup_2. exact Hk. }
      congruence.
Qed.

(** ** Writing a cell that a view does not read *)

Lemma view_shape_insert_new cs ext l o s v :
  View.shape cs s = Some v -> (length cs <= l)%nat ->
  View.shape (<[l := o]> (cs ++ ext)) s = Some v.
Proof.
  intros Hv Hl. rewrite insert_app_r_alt by assumption.
  apply view_shape_app. assumption.
Qed.

Lemma view_color_insert cs l l' o :
  l' <> l -> View.color (<[l' := o]> cs) l = View.color cs l.
Proof. intros H. unfold View.color. rewrite list_lookup_insert_ne by assumption. reflexivity. Qed.

Lemma view_gradient_insert cs l l' o :
  l' <> l -> View.gradient (<[l' := o]> cs) l = View.gradient cs l.
Proof. intros H. unfold View.gradient. rewrite list_lookup_insert_ne by assumption. reflexivity. Qed.

Lemma view_stroke_insert cs l l' o :
  l' <> l -> ~ In l' (colors_of_stroke cs (Some l)) ->
  View.stroke (<[l' := o]> cs) l = View.stroke cs l.
Proof.
  intros Hl Hc. unfold View.stroke, colors_of_stroke, loc in *.
  rewrite list_lookup_insert_ne by assumption.
  destruct (cs !! l) as [[| | |x| | |]|] eqn:E; rewrite ?E; try reflexivity.
  rewrite view_color_insert; [reflexivity|]. cbn in Hc. intuition congruence.
Qed.

Lemma view_fill_insert cs l l' o :
  l' <> l -> ~ In l' (colors_of_fill cs (Some l)) ->
  View.fill (<[l' := o]> cs) l = View.fill cs l.
Proof.
  intros Hl Hc. unfold View.fill, colors_of_fill, loc in *.
  rewrite list_lookup_insert_ne by assumption.
  destruct (cs !! l) as [[| | | |x| |]|] eqn:E; rewrite ?E; try reflexivity.
  rewrite in_app_iff in Hc.
  destruct (fill_color x) as [c|], (fill_gradient x) as [g|]; cbn in Hc |- *;
    rewrite ?view_color_insert, ?view_gradient_insert by (intuition congruence); reflexivity.
Qed.

Lemma view_shape_insert_unread cs l l' o v :
  View.shape cs l = Some v ->
  ~ In l' (View.own_cells cs l) -> ~ In l' (shared_cells cs l) ->
  View.shape (<[l' := o]> cs) l = Some v.
Proof.
  intros Hv Hown Hshared. rewrite <- Hv.
  destruct (view_shape_cells _ _ _ Hv) as (s & p & t & st & fi & Hl & Hp & Ht & Hst & Hfi & _).
  unfold View.own_cells, shared_cells in Hown, Hshared. rewrite Hl in Hown, Hshared.
  cbn [In] in Hown. rewrite !in_app_iff in Hown. rewrite in_app_iff in Hshared.
  unfold View.shape, View.paths, View.transform, loc in *.
  rewrite !list_lookup_insert_ne by (intuition congruence). rewrite Hl.
  cbv beta iota.
  rewrite !list_lookup_insert_ne by (intuition congruence).
  rewrite Hp. cbn [mbind option_bind].
  assert (Es : View.optional (View.stroke (<[l' := o]> cs)) (shape_stroke s)
               = View.optional (View.stroke cs) (shape_stroke s)).
  { destruct (shape_stroke s) as [lst|]; [|reflexivity]. cbn.
    rewrite view_stroke_insert; [reflexivity| |intuition congruence].
    cbn in Hown. intuition congruence. }
  assert (Ef : View.optional (View.fill (<[l' := o]> cs)) (shape_fill s)
               = View.optional (View.fill cs) (shape_fill s)).
  { destruct (shape_fill s) as [lfi|]; [|reflexivity]. cbn.
    rewrite view_fill_insert; [reflexivity| |intuition congruence].
    cbn in Hown. destruct (shape_stroke s); cbn in Hown; intuition congruence. }
  rewrite Es, Ef. reflexivity.
Qed.

Lemma own_cells_kind cs s v l :
  View.shape cs s = Some v -> In l (View.own_cells cs s) ->
  exists o, cs !! l = Some o /\ is_shared_kind o = false.
Proof.
  intros Hv Hl.
  destruct (view_shape_cells _ _ _ Hv) as (x & p & t & st & fi & Hs & Hp & Ht & Hst & Hfi & _).
  unfold View.own_cells in Hl. rewrite Hs in Hl.
  cbn [In] in Hl. rewrite in_app_iff in Hl.
  destruct Hl as [<-|[<-|[<-|[Hl|Hl]]]]; eauto.
  - destruct (shape_stroke x) as [lst|]; [|destruct Hl]. destruct Hl as [<-|[]].
    cbn in Hst. destruct (View.stroke cs lst) as [vst|] eqn:E; [|discriminate].
    destruct (view_stroke_cells _ _ _ E) as (y & c & Hy & _). eauto.
  - destruct (shape_fill x) as [lfi|]; [|destruct Hl]. destruct Hl as [<-|[]].
    cbn in Hfi. destruct (View.fill cs lfi) as [vfi|] eqn:E; [|discriminate].
    destruct (view_fill_cells _ _ _ E) as (y & Hy). eauto.
Qed.

Lemma shared_cells_kind cs s v l :
  View.shape cs s = Some v -> In l (shared_cells cs s) ->
  exists o, cs !! l = Some o /\ is_shared_kind o = true.
Proof.
  intros Hv Hl.
  destruct (view_shape_cells _ _ _ Hv) as (x & p & t & st & fi & Hs & Hp & Ht & Hst & Hfi & _).
  unfold shared_cells in Hl. rewrite Hs in Hl. rewrite in_app_iff in Hl.
  destruct Hl as [Hl|Hl].
  - destruct (shape_stroke x) as [lst|]; [|destruct Hl]. cbn in Hst, Hl.
    destruct (View.stroke cs lst) as [vst|] eqn:E; [|discriminate].
    destruct (view_stroke_cells _ _ _ E) as (y & c & Hy & Hc). rewrite Hy in Hl.
    destruct Hl as [<-|[]]. eauto.
  - destruct (shape_fill x) as [lfi|]; [|destruct Hl]. cbn in Hfi, Hl.
    unfold View.fill in Hfi.
    destruct (cs !! lfi) as [[| | | |y| |]|] eqn:Hy; try discriminate.
    rewrite in_app_iff in Hl.
    destruct (fill_color y) as [c|] eqn:Ec; cbn in Hfi, Hl.
    + unfold View.color in Hfi at 1.
      destruct (cs !! c) as [[| | | | |vc|]|] eqn:Hc; try discriminate.
      destruct Hl as [[<-|[]]|Hl]; [eauto|].
      destruct (fill_gradient y) as [g|]; [|destruct Hl]. cbn in Hfi, Hl.
      unfold View.gradient in Hfi.
      destruct (cs !! g) as [[| | | | | |vg]|] eqn:Hg; try discriminate.
      destruct Hl as [<-|[]]. eauto.
    + destruct Hl as [[]|Hl].
      destruct (fill_gradient y) as [g|]; [|destruct Hl]. cbn in Hfi, Hl.
      unfold View.gradient in Hfi.
      destruct (cs !! g) as [[| | | | | |vg]|] eqn:Hg; try discriminate.
      destruct Hl as [<-|[]]. eauto.
Qed.

(** A copy and its original do not alias: writing an object that one of
    them owns leaves the view of the other as it was. *)
Lemma copy_of_unaliased cs ext id original copy :
  copy_of cs (cs ++ ext) id original copy ->
  (forall l o, In l (View.own_cells (cs ++ ext) copy) ->
     View.shape (<[l := o]> (cs ++ ext)) original = View.shape (cs ++ ext) original) /\
  (forall l o, In l (View.own_cells (cs ++ ext) original) ->
     View.shape (<[l := o]> (cs ++ ext)) copy = View.shape (cs ++ ext) copy).
Proof.
  intros (v & Hv & Hv' & Hown & Hshared). split; intros l o Hl.
  - rewrite (view_shape_app _ ext _ _ Hv).
    apply view_shape_insert_new; [assumption|].
    rewrite Forall_forall in Hown. apply Hown, list_elem_of_In, Hl.
  - rewrite Hv'. apply view_shape_insert_unread; [assumption| |].
    + intros Hin. rewrite Forall_forall in Hown.
      apply list_elem_of_In, Hown in Hin.
      rewrite (own_cells_app _ _ _ _ Hv) in Hl.
      destruct (own_cells_kind _ _ _ _ Hv Hl) as (x & Hx & _).
      apply lookup_lt_Some in Hx. lia.
    + intros Hin.
      destruct (shared_cells_kind _ _ _ _ Hv' Hin) as (x & Hx & Hk).
      destruct (own_cells_kind _ _ _ _ (view_shape_app _ ext _ _ Hv) Hl) as (y & Hy & Hk').
      congruence.
Qed.

(** ** What the sort returns *)

Lemma In_sort_insert {X : Type} (cmp : X -> X -> Z) (x y : X) (s : list X) :
  In y (sort_insert cmp x s) <-> y = x \/ In y s.
Proof.
  induction s as [|z zs IH]; cbn [sort_insert].
  - cbn. intuition congruence.
  - destruct (0 <? cmp x z); cbn [In]; [rewrite IH|]; intuition congruence.
Qed.

Lemma In_sort {X : Type} (cmp : X -> X -> Z) (y : X) (xs : list X) :
  In y (sort cmp xs) <-> In y xs.
Proof.
  induction xs as [|x xs IH]; [reflexivity|].
  cbn [sort]. rewrite In_sort_insert, IH. cbn. intuition congruence.
Qed.

Lemma sort_ext {X : Type} (cmp cmp' : X -> X -> Z) (xs : list X) :
  (forall a b, cmp a b = cmp' a b) -> sort cmp xs = sort cmp' xs.
Proof.
  intros H. induction xs as [|x xs IH]; [reflexivity|].
  cbn [sort]. rewrite IH. generalize (sort cmp' xs) as s.
  induction s as [|z zs IHs]; [reflexivity|].
  cbn [sort_insert]. rewrite H, IHs. reflexivity.
Qed.

Section Least.

Context {X : Type} (key : X -> Z).

Lemma head_sort_insert (x : X) (s : list X) :
  (forall a, head s = Some a -> forall y, In y s -> key a <= key y) ->
  forall a, head (sort_insert (fun a b => key a - key b) x s) = Some a ->
  forall y, y = x \/ In y s -> key a <= key y.
Proof.
  intros Hs a Ha y Hy. destruct s as [|z zs]; cbn [sort_insert] in Ha.
  - injection Ha as <-. destruct Hy as [->|[]]. lia.
  - specialize (Hs z eq_refl).
    destruct (0 <? key x - key z) eqn:E; injection Ha as <-.
    + apply Z.ltb_lt in E. destruct Hy as [->|Hy]; [lia|]. apply Hs, Hy.
    + apply Z.ltb_ge in E. destruct Hy as [->|Hy]; [lia|].
      specialize (Hs y Hy). lia.
Qed.

(** The first element of a sorted array has the least key. *)
Lemma head_sort (xs : list X) (a : X) :
  head (sort (fun a b => key a - key b) xs) = Some a ->
  forall y, In y xs -> key a <= key y.
Proof.
  revert a. induction xs as [|x xs IH]; intros a Ha y Hy; [destruct Hy|].
  cbn [sort] in Ha. apply (head_sort_insert x _) with (y := y) in Ha.
  - exact Ha.
  - intros b Hb z Hz. apply (IH b Hb). apply In_sort in Hz. exact Hz.
  - destruct Hy as [->|Hy]; [left; reflexivity|right]. apply In_sort. exact Hy.
Qed.

End Least.

Lemma head_sort_Some {X : Type} (cmp : X -> X -> Z) (xs : list X) (x : X) :
  In x xs -> exists a, head (sort cmp xs) = Some a.
Proof.
  intros Hx. apply (In_sort cmp) in Hx.
  destruct (sort cmp xs) as [|a s]; [destruct Hx|]. eauto.
Qed.

Lemma In_with_refs {X : Type} (xs : list X) (i : nat) (x : X) :
  In (i, x) (with_refs xs) <-> xs !! i = Some x.
Proof.
  unfold with_refs. rewrite <- list_elem_of_In, elem_of_lookup_imap. split.
  - intros (j & y & E & Hj). injection E as -> ->. exact Hj.
  - intros H. eauto.
Qed.

(** ** The keyframe in effect *)

Lemma getKeyframeAt_Some (index : Z) (layer : Layer) (r : nat) (f : Frame) :
  Layer.getKeyframeAt index layer = Some (r, f) ->
  frames layer !! r = Some f /\ isKeyframe f = true /\ frame_index f <= index /\
  forall g, In g (frames layer) -> isKeyframe g = true -> frame_index g <= index ->
            frame_index g <= frame_index f.
Proof.
  unfold Layer.getKeyframeAt. intros H.
  rewrite (sort_ext _ (fun a b : nat * Frame =>
             (fun a => - frame_index (snd a)) a - (fun a => - frame_index (snd a)) b))
    in H by (intros; lia).
  pose proof (head_sort _ _ _ H) as Hleast.
  assert (Hin : In (r, f) (sort (fun a b : nat * Frame => - frame_index (snd a) - - frame_index (snd b))
     (List.filter (fun f => isKeyframe (snd f) && (frame_index (snd f) <=? index))
        (with_refs (frames layer))))).
  { destruct (sort _ _) as [|a s]; [discriminate|]. injection H as ->. left. reflexivity. }
  apply In_sort, filter_In in Hin as [Hin Hp]. cbn [snd] in Hp.
  apply In_with_refs in Hin. apply andb_true_iff in Hp as [Hk Hi].
  apply Z.leb_le in Hi. repeat split; try assumption.
  intros g Hg Hgk Hgi. apply list_elem_of_In, list_elem_of_lookup in Hg as [j Hj].
  specialize (Hleast (j, g)). cbn [snd] in Hleast.
  enough (- frame_index f <= - frame_index g) by lia.
  apply Hleast. apply filter_In. split; [apply In_with_refs; exact Hj|].
  cbn [snd]. rewrite Hgk. apply Z.leb_le in Hgi. rewrite Hgi. reflexivity.
Qed.

Lemma getKeyframeAt_exists (index : Z) (layer : Layer) (g : Frame) :
  In g (frames layer) -> isKeyframe g = true -> frame_index g <= index ->
  exists r f, Layer.getKeyframeAt index layer = Some (r, f).
Proof.
  intros Hg Hk Hi. unfold Layer.getKeyframeAt.
  apply list_elem_of_In, list_elem_of_lookup in Hg as [j Hj].
  destruct (head_sort_Some (fun a b : nat * Frame => frame_index (snd b) - frame_index (snd a))
              (List.filter (fun f => isKeyframe (snd f) && (frame_index (snd f) <=? index))
                 (with_refs (frames layer))) (j, g)) as [[r f] H].
  - apply filter_In. split; [apply In_with_refs; exact Hj|].
    cbn [snd]. rewrite Hk. apply Z.leb_le in Hi. rewrite Hi. reflexivity.
  - eauto.
Qed.

Lemma In_push_and_sort (new g : Frame) (fs : list Frame) :
  In g (fst (push_and_sort new fs)) <-> In g fs \/ g = new.
Proof.
  unfold push_and_sort. cbn [fst]. rewrite in_map_iff. split.
  - intros ([b x] & <- & Hx). apply In_sort, in_app_iff in Hx as [Hx|[Hx|[]]].
    + apply in_map_iff in Hx as (y & E & Hy). injection E as _ <-. auto.
    + injection Hx as _ <-. auto.
  - intros [Hg| ->].
    + exists (false, g). split; [reflexivity|]. apply In_sort, in_app_iff. left.
      apply in_map. exact Hg.
    + exists (true, new). split; [reflexivity|]. apply In_sort, in_app_iff. right.
      left. reflexivity.
Qed.

(** After a keyframe was pushed at an index where the layer had no frame,
    it is the keyframe in effect at that index. *)
Lemma getKeyframeAt_pushed (index : Z) (layer : Layer) (new : Frame) :
  Layer.getFrame index layer = None ->
  frame_index new = index -> isKeyframe new = true ->
  exists r,
    Layer.getKeyframeAt index
      (set_frames (fun _ => fst (push_and_sort new (frames layer))) layer)
    = Some (r, new).
Proof.
  intros Hnone Hi Hk.
  set (layer' := set_frames (fun _ => fst (push_and_sort new (frames layer))) layer).
  destruct (getKeyframeAt_exists index layer' new) as (r & f & Hget).
  { apply In_push_and_sort. right. reflexivity. }
  { exact Hk. }
  { lia. }
  exists r. rewrite Hget. f_equal. f_equal.
  apply getKeyframeAt_Some in Hget as (Hr & Hfk & Hfi & Hmax).
  assert (Hin : In f (frames layer')).
  { apply list_elem_of_In. eapply list_elem_of_lookup_2. exact Hr. }
  specialize (Hmax new). cbn [layer' frames set_frames] in Hmax, Hin.
  apply In_push_and_sort in Hin as [Hin| ->]; [|reflexivity].
  exfalso.
  assert (frame_index f = index).
  { enough (frame_index new <= frame_index f) by lia.
    apply Hmax; [apply In_push_and_sort; right; reflexivity|exact Hk|lia]. }
  pose proof (find_ref_None _ _ Hnone f Hin) as Hne. cbn in Hne.
  apply Z.eqb_neq in Hne. contradiction.
Qed.

Lemma carry_forward_run (h : Heap) (r : nat) (prev : Frame) :
  (isEmpty prev = true -> shapes prev = []) ->
  Layer.carry_forward (Some (r, prev)) h = mapA Shape.clone (shapes prev) h.
Proof.
  intros H. unfold Layer.carry_forward.
  destruct (isEmpty prev); [|reflexivity].
  rewrite H by reflexivity. reflexivity.
Qed.

(** What [insertKeyframe(10)] makes of the shapes of the keyframe of frame 1
    in effect at 10: a copy of each, apart from its original. *)
Lemma insertKeyframe_copies_run (h : Heap) (layer : Layer) (r1 : nat) (f1 : Frame) :
  Layer.getFrame 10 layer = None ->
  Layer.getKeyframeAt 10 layer = Some (r1, f1) ->
  frame_index f1 = 1 ->
  (isEmpty f1 = true -> shapes f1 = []) ->
  Forall (clonable (cells h)) (shapes f1) ->
  exists r h' layer',
    Layer.insertKeyframe 10 (h, layer) = (Return r, (h', layer')) /\
    length (Layer.getShapesAtFrame 10 layer') = length (shapes f1) /\
    forall k original, shapes f1 !! k = Some original ->
      exists copy v,
        Layer.getShapesAtFrame 10 layer' !! k = Some copy /\
        copy <> original /\
        View.shape (cells h) original = Some v /\
        View.shape (cells h') original = Some v /\
        View.shape (cells h') copy
          = Some (copy_view v (uid_source h (uid_calls h + k)%nat) (view_paths v)) /\
        (forall l o, In l (View.own_cells (cells h') copy) ->
           View.shape (<[l := o]> (cells h')) original = Some v) /\
        (forall l o, In l (View.own_cells (cells h') original) ->
           View.shape (<[l := o]> (cells h')) copy = View.shape (cells h') copy).
Proof.
  intros Hnone Hprev Hindex Hempty Hall.
  destruct (mapA_clone_run (shapes f1) h Hall) as (copies & ext & Hrun & Hlen & Hcopies).
  unfold Layer.insertKeyframe, bind. rewrite this_run. cbn [snd].
  rewrite Hnone, Hprev, on_heap_run, (carry_forward_run h r1 f1 Hempty), Hrun.
  cbn [fst snd]. rewrite on_heap_run.
  match goal with |- context [Frame.new ?d ?h0] =>
    destruct (Frame_new_run d h0) as (new & h' & Hnew & Hi & Hk & _ & Hs & Hcells);
    rewrite Hnew end.
  cbn [fst snd default init_index init_isKeyframe init_shapes] in *.
  destruct (push_and_sort new (frames layer)) as [sorted position] eqn:Hsort.
  cbn [set_this modify ret fst snd].
  eexists _, _, _. split; [reflexivity|].
  destruct (getKeyframeAt_pushed 10 layer new Hnone Hi Hk) as (r & Hget).
  rewrite Hsort in Hget. cbn [fst] in Hget.
  unfold Layer.getShapesAtFrame. rewrite Hget, Hs, Hcells. cbn [grown cells].
  split; [exact Hlen|].
  intros k original Hk'.
  destruct (Hcopies k original Hk') as (copy & Hc & Hcopy).
  destruct (copy_of_unaliased _ _ _ _ _ Hcopy) as [Hnew_old Hold_new].
  destruct Hcopy as (v & Hv & Hv' & Hown & Hshared).
  exists copy, v. split; [exact Hc|].
  pose proof (view_shape_app _ ext _ _ Hv) as Hv_after.
  split.
  { intros ->. 
    destruct (view_shape_cells _ _ _ Hv) as (s & _ & _ & _ & _ & Hl & _).
    apply lookup_lt_Some in Hl.
    destruct (view_shape_cells _ _ _ Hv') as (s' & _ & _ & _ & _ & Hl' & _).
    unfold View.own_cells in Hown. rewrite Hl' in Hown.
    apply Forall_cons in Hown as [Hge _]. lia. }
  split; [exact Hv|]. split; [exact Hv_after|]. split; [exact Hv'|].
  split.
  - intros l o Hl. rewrite Hnew_old by exact Hl. exact Hv_after.
  - exact Hold_new.
Qed.

(** C3 (as the code has it).  On a layer with no frame at index 10, where
    the keyframe of frame 1 is the one in effect at 10, is not flagged empty
    while it holds shapes and holds the shapes S, [insertKeyframe(10)]
    returns, and [getShapesAtFrame(10)] then yields one shape for each shape
    of S, in the same order.  Each is a new object that shows what its
    original shows except for two fields: the name has [" Copy"] appended
    and the id is the next value of [generateUID].  The original shows what
    it showed before.  Writing an object that the copy owns (the shape, its
    paths, stroke, fill or transform) does not change what the original
    shows, and the other way round.  When the values that [generateUID]
    returns are ids of no shape of S, the id of every new shape differs from
    the id of every shape of S. *)
Theorem insertKeyframe_carries_copies (h : Heap) (layer : Layer) (r1 : nat) (f1 : Frame) :
  Layer.getFrame 10 layer = None ->
  Layer.getKeyframeAt 10 layer = Some (r1, f1) ->
  frame_index f1 = 1 ->
  (isEmpty f1 = true -> shapes f1 = []) ->
  Forall (clonable (cells h)) (shapes f1) ->
  exists r h' layer',
    Layer.insertKeyframe 10 (h, layer) = (Return r, (h', layer')) /\
    length (Layer.getShapesAtFrame 10 layer') = length (shapes f1) /\
    (forall k original, shapes f1 !! k = Some original ->
      exists copy v,
        Layer.getShapesAtFrame 10 layer' !! k = Some copy /\
        copy <> original /\
        View.shape (cells h) original = Some v /\
        View.shape (cells h') original = Some v /\
        View.shape (cells h') copy
          = Some (copy_view v (uid_source h (uid_calls h + k)%nat) (view_paths v)) /\
        (forall l o, In l (View.own_cells (cells h') copy) ->
           View.shape (<[l := o]> (cells h')) original = Some v) /\
        (forall l o, In l (View.own_cells (cells h') original) ->
           View.shape (<[l := o]> (cells h')) copy = View.shape (cells h') copy)) /\
    (generates_new_ids h (shapes f1) ->
     forall k j copy original vc vo,
       Layer.getShapesAtFrame 10 layer' !! k = Some copy ->
       shapes f1 !! j = Some original ->
       View.shape (cells h') copy = Some vc ->
       View.shape (cells h') original = Some vo ->
       view_id vc <> view_id vo).
Proof.
  intros Hnone Hprev Hindex Hempty Hall.
  destruct (insertKeyframe_copies_run h layer r1 f1 Hnone Hprev Hindex Hempty Hall)
    as (r & h' & layer' & Hrun & Hlen & Hcopies).
  exists r, h', layer'. split; [exact Hrun|]. split; [exact Hlen|].
  split; [exact Hcopies|].
  intros Hnew k j copy original vc vo Hk Hj Hvc Hvo.
  assert (Hlt : (k < length (shapes f1))%nat).
  { rewrite <- Hlen. apply lookup_lt_Some in Hk. exact Hk. }
  destruct (lookup_lt_is_Some_2 _ _ Hlt) as [ok Hok].
  destruct (Hcopies k ok Hok) as (copy' & vk & Hk' & _ & _ & _ & Hvk & _).
  assert (copy' = copy) as -> by congruence.
  rewrite Hvc in Hvk. injection Hvk as ->.
  destruct (Hcopies j original Hj) as (_ & vj & _ & _ & Hvj & Hvj' & _).
  rewrite Hvo in Hvj'. injection Hvj' as ->.
  cbn [view_id copy_view].
  apply (Hnew k original vj Hlt); [|exact Hvj].
  apply list_elem_of_In. eapply list_elem_of_lookup_2. exact Hj.
Qed.

(** ** Shape.clone and the commands that use it *)

Import History Commands.

Lemma length_append (s1 s2 : string) :
  String.length (s1 +:+ s2) = (String.length s1 + String.length s2)%nat.
Proof. induction s1 as [|c s1 IH]; simpl; [reflexivity|]. rewrite IH. reflexivity. Qed.

Lemma append_Copy_differs (name : string) : name +:+ " Copy" <> name.
Proof.
  intros H. apply (f_equal String.length) in H.
  rewrite length_append in H. cbn in H. lia.
Qed.

Lemma append_Copy_Copy_differs (name : string) :
  (name +:+ " Copy") +:+ " Copy" <> name.
Proof.
  intros H. apply (f_equal String.length) in H.
  rewrite !length_append in H. cbn in H. lia.
Qed.

Lemma on_layer_run {A : Type} (i : nat) (m : M (Heap * Layer) A) (h : Heap) (d : Document) :
  Document.on_layer i m (h, d)
  = match layers d !! i with
    | None => (Throw (OutOfModel "reference"), (h, d))
    | Some l =>
        (fst (m (h, l)),
         (fst (snd (m (h, l))),
          set_layers (fun ls => <[i := snd (snd (m (h, l)))]> ls) d))
    end.
Proof.
  unfold Document.on_layer, zoom. cbn [fst snd].
  destruct (layers d !! i) as [l|]; cbn; [|reflexivity].
  destruct (m (h, l)) as [res [h' l']]. reflexivity.
Qed.

Lemma on_document_run {X A : Type} (m : M (Heap * Document) A) (w : World X) :
  on_document m w
  = (fst (m (heap w, document w)),
     {| heap := fst (snd (m (heap w, document w)));
        document := snd (snd (m (heap w, document w)));
        privates := privates w |}).
Proof.
  unfold on_document, zoom. destruct (m (heap w, document w)) as [res [h' d']].
  reflexivity.
Qed.

Lemma clone_copy (h : Heap) (this : loc) (v : ShapeView) :
  View.shape (cells h) this = Some v ->
  view_class v = true ->
  JSON_roundtrip_paths (view_paths v) = Some (view_paths v) ->
  exists copy ext,
    Shape.clone this h = (Return copy, grown h ext 1) /\
    copy_of (cells h) (cells h ++ ext) (uid_source h (uid_calls h)) this copy.
Proof.
  intros Hv Hc Hj.
  destruct (clone_run h this v _ Hv Hc Hj) as (copy & ext & Hrun & _ & Hview & Hown & Hshared).
  exists copy, ext. split; [exact Hrun|]. exists v. auto.
Qed.

Lemma RemoveShapes_undo_one (w : W) (self : nat) (r : Removed)
    (layer keyframe : nat) (l : Layer) (f : Frame) (v : ShapeView) :
  privates w !! self = Some [r] ->
  Document.getLayer (removed_layerId r) (document w) = Some (layer, l) ->
  Layer.getKeyframeAt (removed_frameIndex r) l = Some (keyframe, f) ->
  frame_class f = true ->
  View.shape (cells (heap w)) (removed_shape r) = Some v ->
  view_class v = true ->
  JSON_roundtrip_paths (view_paths v) = Some (view_paths v) ->
  exists copy w' l' f',
    RemoveShapes_undo self w = (Return tt, w') /\
    layers (document w') !! layer = Some l' /\
    frames l' !! keyframe = Some f' /\
    shapes f' = shapes f ++ [copy] /\
    View.shape (cells (heap w')) copy
      = Some (copy_view v (uid_source (heap w) (uid_calls (heap w))) (view_paths v)).
Proof.
  intros Hself Hlayer Hkey Hclass Hv Hc Hj.
  destruct w as [h d p]. cbn [heap document privates] in *.
  destruct (clone_copy h _ v Hv Hc Hj) as (copy & ext & Hrun & (v' & Hv1 & Hv' & _)).
  rewrite Hv in Hv1. apply (inj Some) in Hv1. subst v'.
  pose proof Hlayer as Hl. apply find_ref_Some in Hl as [Hl _].
  pose proof Hkey as Hf. apply getKeyframeAt_Some in Hf as [Hf _].
  unfold RemoveShapes_undo, get_removedShapes, bind.
  unfold on_privates at 1, zoom. cbn [privates heap document]. rewrite Hself.
  cbn [forEach]. unfold bind, the_document. rewrite on_document_run. cbn [heap document privates fst snd this].
  rewrite Hlayer, Hkey. unfold bind, on_heap_w. rewrite on_document_run.
  cbn [heap document privates]. rewrite on_heap_run, Hrun. cbn [fst snd].
  unfold on_frame_w. rewrite on_document_run. cbn [heap document privates].
  rewrite on_layer_run, Hl, on_frame_run, Hf.
  unfold Frame.addShape, bind, this, method, set_this, modify, ret. cbn [fst snd].
  rewrite Hclass. cbn [fst snd].
  eexists copy, _, _, _. split; [reflexivity|].
  cbn [document heap layers set_layers frames set_frames grown cells shapes set_shapes set_isEmpty].
  split; [apply list_lookup_insert_eq; eapply lookup_lt_Some; exact Hl|].
  split; [apply list_lookup_insert_eq; eapply lookup_lt_Some; exact Hf|].
  split; [reflexivity|]. exact Hv'.
Qed.

(** ** The history manager *)

Section ManagerFacts.

Import History.

Context {X Cmd : Type} `{Command X Cmd}.

Lemma World_eta (w : World X) :
  {| heap := heap w; document := document w; privates := privates w |} = w.
Proof. destruct w. reflexivity. Qed.

Lemma emit_run (event : string) (s : HistoryManager Cmd * World X) :
  emit event s = (Return tt, s).
Proof.
  destruct s as [hm w]. unfold emit, on_world, on_document, zoom. cbn.
  rewrite World_eta. reflexivity.
Qed.

Lemma on_world_run {A : Type} (m : M (World X) A) (hm : HistoryManager Cmd) (w : World X) :
  on_world m (hm, w) = (fst (m w), (hm, snd (m w))).
Proof. unfold on_world, zoom. cbn. destruct (m w). reflexivity. Qed.

Lemma execute_run (c : Cmd) (hm : HistoryManager Cmd) (w w1 : World X) :
  isExecuting hm = false ->
  execute_of c w = (Return tt, w1) ->
  execute c (hm, w)
  = (Return tt,
     ({| undoStack := pushed (maxHistory hm) (undoStack hm) c; redoStack := [];
         maxHistory := maxHistory hm; isExecuting := false |}, w1)).
Proof.
  intros Hex Hrun. unfold execute, bind, manager. cbn [fst]. rewrite Hex.
  unfold set_manager, modify, try_finally, bind. cbn [fst snd].
  rewrite on_world_run, Hrun. cbn [fst snd].
  unfold manager, pushed. cbn [fst snd undoStack maxHistory set_undoStack set_redoStack set_isExecuting].
  destruct (maxHistory hm <? Z.of_nat (length (undoStack hm ++ [c])));
    unfold ret; cbv beta iota; rewrite emit_run; reflexivity.
Qed.

Lemma pop_snoc (stack : list Cmd) (c : Cmd) : pop (stack ++ [c]) = Some (c, stack).
Proof. unfold pop. rewrite last_snoc, removelast_last. reflexivity. Qed.

Lemma undo_run (c : Cmd) (stack : list Cmd) (hm : HistoryManager Cmd) (w w1 : World X) :
  isExecuting hm = false ->
  undoStack hm = stack ++ [c] ->
  undo_of c w = (Return tt, w1) ->
  undo (hm, w)
  = (Return true,
     ({| undoStack := stack; redoStack := redoStack hm ++ [c];
         maxHistory := maxHistory hm; isExecuting := false |}, w1)).
Proof.
  intros Hex Hstack Hrun. unfold undo, bind, manager. cbn [fst].
  rewrite Hstack, Hex, length_app. cbn [length].
  replace (length stack + 1 =? 0)%nat with false by (symmetry; apply Nat.eqb_neq; lia).
  unfold set_manager, modify, try_finally, bind, manager. cbn [fst snd undoStack set_isExecuting].
  rewrite Hstack, pop_snoc. cbn [fst snd].
  rewrite on_world_run, Hrun. cbn [fst snd].
  rewrite !emit_run. reflexivity.
Qed.

Lemma undo_empty (hm : HistoryManager Cmd) (w : World X) :
  undoStack hm = [] -> undo (hm, w) = (Return false, (hm, w)).
Proof. intros Hstack. unfold undo, bind, manager. cbn [fst]. rewrite Hstack. reflexivity. Qed.










End ManagerFacts.

(** ** The claims on the sample data *)



(** C2 (the code at the failing input).  For the document that
    [new Document()] builds, on any heap: [toJSON] returns, [fromJSON] of
    the result returns a document, and [toJSON] of that document throws a
    [TypeError].  The frames of the rebuilt layer are the plain objects of
    the JSON, which have no method [toJSON]. *)
Theorem fromJSON_of_toJSON_cannot_be_serialised (h : Heap) :
  exists d h1 data h2 d2 h3,
    Document.new no_DocumentInit h = (Return d, h1) /\
    Document.toJSON (h1, d) = (Return data, (h2, d)) /\
    Document.fromJSON (JsonObject data) h2 = (Return d2, h3) /\
    Document.toJSON (h3, d2) = (Throw (TypeError "toJSON"), (h3, d2)).
Proof.
  eexists _, _, _, _, _, _.
  split; [lazy; reflexivity|]. split; [lazy; reflexivity|].
  split; [lazy; reflexivity|]. lazy. reflexivity.
Qed.

(** C1 (the code at the failing input).  On the sample document, after
    [execute] of a [RemoveShapesCommand] for the rectangle, [undo] and then
    [redo] both return true, and the document does not show what it showed
    after [execute]: frame 1 was empty and now holds a shape named
    ["Rectangle Copy Copy"].  [undo] puts back a clone of a clone, under a
    new id, and [redo] finds no shape with the old id to remove. *)
Theorem undo_redo_after_RemoveShapes_differs :
  exists s1 s2 v1 v2,
    execute Sample.remove_a (History.new, Sample.world) = (Return tt, s1) /\
    (undone <- undo ;; redone <- redo ;; ret (undone, redone)) s1
      = (Return (true, true), s2) /\
    View.document (cells (heap (snd s1))) (History.document (snd s1)) = Some v1 /\
    View.document (cells (heap (snd s2))) (History.document (snd s2)) = Some v2 /\
    v1 <> v2 /\
    map (fun f => map view_name (view_shapes f)) (flat_map view_frames (view_layers v1))
      = [[]] /\
    map (fun f => map view_name (view_shapes f)) (flat_map view_frames (view_layers v2))
      = [["Rectangle Copy Copy"]].
Proof.
  eexists _, _, _, _.
  split; [vm_compute; reflexivity|].
  split; [vm_compute; reflexivity|].
  split; [vm_compute; reflexivity|].
  split; [vm_compute; reflexivity|].
  split; [|split; reflexivity].
  intros E.
  apply (f_equal (fun v => map (fun f => length (view_shapes f))
                             (flat_map view_frames (view_layers v)))) in E.
  vm_compute in E. discriminate E.
Qed.

(** C10 (as the code has it).  For a shape that is an instance of [Shape],
    with paths that JSON preserves, [clone] returns a new shape.  It shows
    what the original shows except for the name, which has [" Copy"]
    appended and so differs, and the id, which is the next value of
    [generateUID] and so differs from the id of the original unless
    [generateUID] returns that very id.  The copy, its paths, its stroke,
    its fill and its transform are new objects; the colour and gradient
    objects behind its stroke and fill are those of the original.  The
    original is unchanged.  [RemoveShapesCommand.undo], for a remembered
    shape, appends to the keyframe a clone of it.  The remembered shape is
    itself the clone that [execute] made of the shape it removed: the shape
    that [undo] puts back has the name of the removed shape with
    [" Copy Copy"] appended, which differs from it, and the next value of
    [generateUID] as its id, which differs from the id of the removed shape
    unless [generateUID] returns that id. *)
Theorem clone_renames_and_copies_one_level :
  (forall (h : Heap) (this : loc) (v : ShapeView),
     View.shape (cells h) this = Some v ->
     view_class v = true ->
     JSON_roundtrip_paths (view_paths v) = Some (view_paths v) ->
     exists copy h',
       Shape.clone this h = (Return copy, h') /\
       View.shape (cells h') copy
         = Some (copy_view v (uid_source h (uid_calls h)) (view_paths v)) /\
       view_name v +:+ " Copy" <> view_name v /\
       Forall (fun l => cells h !! l = None) (View.own_cells (cells h') copy) /\
       shared_cells (cells h') copy = shared_cells (cells h) this /\
       View.shape (cells h') this = Some v /\
       (uid_source h (uid_calls h) <> view_id v ->
        exists vc, View.shape (cells h') copy = Some vc /\
                   view_id vc <> view_id v /\ view_name vc <> view_name v)) /\
  (forall (w : W) (self : nat) (r : Removed) (layer keyframe : nat)
          (l : Layer) (f : Frame) (v : ShapeView),
     privates w !! self = Some [r] ->
     Document.getLayer (removed_layerId r) (History.document w) = Some (layer, l) ->
     Layer.getKeyframeAt (removed_frameIndex r) l = Some (keyframe, f) ->
     frame_class f = true ->
     View.shape (cells (heap w)) (removed_shape r) = Some v ->
     view_class v = true ->
     JSON_roundtrip_paths (view_paths v) = Some (view_paths v) ->
     exists copy w' l' f',
       RemoveShapes_undo self w = (Return tt, w') /\
       layers (History.document w') !! layer = Some l' /\
       frames l' !! keyframe = Some f' /\
       shapes f' = shapes f ++ [copy] /\
       View.shape (cells (heap w')) copy
         = Some (copy_view v (uid_source (heap w) (uid_calls (heap w))) (view_paths v)) /\
       (forall (original : ShapeView) (id : UID),
          v = copy_view original id (view_paths v) ->
          exists restored,
            View.shape (cells (heap w')) copy = Some restored /\
            view_name restored = (view_name original +:+ " Copy") +:+ " Copy" /\
            view_name restored <> view_name original /\
            (uid_source (heap w) (uid_calls (heap w)) <> view_id original ->
             view_id restored <> view_id original))).
Proof.
  split.
  - intros h this v Hv Hc Hj.
    destruct (clone_copy h this v Hv Hc Hj) as (copy & ext & Hrun & (v' & Hv1 & Hv' & Hown & Hshared)).
    rewrite Hv in Hv1. apply (inj Some) in Hv1. subst v'.
    exists copy, (grown h ext 1). cbn [grown cells].
    split; [exact Hrun|]. split; [exact Hv'|]. split; [apply append_Copy_differs|].
    split; [|split; [exact Hshared|split; [apply view_shape_app; exact Hv|]]].
    + eapply Forall_impl; [exact Hown|]. cbn. intros l Hl.
      apply lookup_ge_None. exact Hl.
    + intros Hid. eexists. split; [exact Hv'|]. cbn [view_id view_name copy_view].
      split; [exact Hid|apply append_Copy_differs].
  - intros w self r layer keyframe l f v Hself Hlayer Hkey Hclass Hv Hc Hj.
    destruct (RemoveShapes_undo_one w self r layer keyframe l f v
                Hself Hlayer Hkey Hclass Hv Hc Hj)
      as (copy & w' & l' & f' & Hrun & Hl' & Hf' & Hs & Hview).
    exists copy, w', l', f'.
    split; [exact Hrun|]. split; [exact Hl'|]. split; [exact Hf'|].
    split; [exact Hs|]. split; [exact Hview|].
    intros original id E. eexists. split; [exact Hview|].
    cbn [view_id view_name copy_view]. rewrite E. cbn [view_name copy_view].
    split; [reflexivity|]. split; [apply append_Copy_Copy_differs|].
    intros Hid. exact Hid.
Qed.

Lemma clonable_rectangle : clonable (cells Sample.heap) Sample.rectangle.
Proof. eexists. split; [reflexivity|]. split; reflexivity. Qed.

(** C10, at the rectangle of the sample heap, and at the clone of it that
    [RemoveShapesCommand.execute] remembers. *)
Lemma clone_renames_and_copies_one_level_witness :
  (exists copy h' vc,
     Shape.clone Sample.rectangle Sample.heap = (Return copy, h') /\
     View.shape (cells h') copy = Some vc /\
     view_id vc <> "a" /\ view_name vc <> "Rectangle") /\
  (exists w1 r copy w2 restored,
     RemoveShapes_execute 0 ["a"] Sample.world = (Return tt, w1) /\
     privates w1 !! 0%nat = Some [r] /\
     RemoveShapes_undo 0 w1 = (Return tt, w2) /\
     View.shape (cells (heap w2)) copy = Some restored /\
     view_name restored = "Rectangle Copy Copy" /\
     view_id restored <> "a").
Proof.
  destruct clone_renames_and_copies_one_level as [Hclone Hundo]. split.
  - destruct (Hclone Sample.heap Sample.rectangle _ eq_refl eq_refl eq_refl)
      as (copy & h' & Hrun & _ & _ & _ & _ & _ & Hid).
    destruct Hid as (vc & Hvc & Hid & Hname); [discriminate|].
    exists copy, h', vc. split; [exact Hrun|]. split; [exact Hvc|].
    split; [exact Hid|exact Hname].
  - set (w1 := snd (RemoveShapes_execute 0 ["a"] Sample.world)).
    assert (Hexec : RemoveShapes_execute 0 ["a"] Sample.world = (Return tt, w1))
      by (vm_compute; reflexivity).
    set (r := {| removed_layerId := "l1"; removed_frameIndex := 1;
                 removed_shape := 8%nat |}).
    assert (Hr : privates w1 !! 0%nat = Some [r]) by (vm_compute; reflexivity).
    destruct (Hundo w1 0%nat r 0%nat 0%nat
                (set_frames (fun _ => [set_isEmpty true (set_shapes [] Sample.frame_1)])
                            Sample.layer)
                (set_isEmpty true (set_shapes [] Sample.frame_1))
                (copy_view SampleMore.rectangle_view "u0" [Sample.rectangle_path])
                Hr)
      as (copy & w2 & _ & _ & Hrun & _ & _ & _ & _ & Hback);
      try (vm_compute; reflexivity).
    destruct (Hback SampleMore.rectangle_view "u0" eq_refl)
      as (restored & Hview & Hname & _ & Hid).
    exists w1, r, copy, w2, restored.
    split; [exact Hexec|]. split; [exact Hr|]. split; [exact Hrun|].
    split; [exact Hview|]. split; [exact Hname|]. apply Hid. discriminate.
Defined.

(** C10 (as stated) fails: the stroke of the copy is not a deep copy.  Its
    colour is the colour object of the original: painting the stroke of the
    copy red paints the stroke of the original. *)
Lemma clone_shares_the_stroke_colour :
  exists copy h' h'' before after,
    Shape.clone Sample.rectangle Sample.heap = (Return copy, h') /\
    copy <> Sample.rectangle /\
    Sample.paint_stroke copy Sample.red h' = (Return tt, h'') /\
    View.shape (cells h') Sample.rectangle = Some before /\
    View.shape (cells h'') Sample.rectangle = Some after /\
    (view_stroke_color <$> view_stroke before) = Some Sample.black /\
    (view_stroke_color <$> view_stroke after) = Some Sample.red /\
    before <> after.
Proof.
  eexists _, _, _, _, _.
  split; [vm_compute; reflexivity|].
  split; [discriminate|].
  split; [vm_compute; reflexivity|].
  split; [vm_compute; reflexivity|].
  split; [vm_compute; reflexivity|].
  split; [reflexivity|]. split; [reflexivity|].
  intros E.
  apply (f_equal (fun v => match view_stroke v with
                           | Some s => nseq (c_r (view_stroke_color s)) 0%float
                           | None => false
                           end)) in E.
  vm_compute in E. discriminate E.
Qed.

Lemma sample_generates_new_ids : generates_new_ids Sample.heap (shapes Sample.frame_1).
Proof.
  intros k original v Hk [<-|[]] Hv. cbn in Hk.
  assert (k = 0%nat) as -> by lia.
  vm_compute in Hv. injection Hv as <-. discriminate.
Qed.

(** C3, at the sample layer. *)
Lemma insertKeyframe_carries_copies_witness :
  generates_new_ids Sample.heap (shapes Sample.frame_1) /\
  exists r h' layer' copy vc vo,
    Layer.insertKeyframe 10 (Sample.heap, Sample.layer) = (Return r, (h', layer')) /\
    Layer.getShapesAtFrame 10 layer' = [copy] /\
    View.shape (cells h') copy = Some vc /\
    View.shape (cells h') Sample.rectangle = Some vo /\
    view_id vc <> view_id vo.
Proof.
  split; [exact sample_generates_new_ids|].
  destruct (insertKeyframe_carries_copies Sample.heap Sample.layer 0%nat Sample.frame_1)
    as (r & h' & layer' & Hrun & Hlen & Hcopies & Hids).
  - reflexivity.
  - reflexivity.
  - reflexivity.
  - intros E. discriminate E.
  - repeat constructor. exact clonable_rectangle.
  - destruct (Hcopies 0%nat Sample.rectangle eq_refl)
      as (copy & v & Hk & _ & _ & Hvo & Hvc & _).
    eexists r, h', layer', copy, _, v.
    split; [exact Hrun|]. split.
    { destruct (Layer.getShapesAtFrame 10 layer') as [|c [|c' rest]];
        try discriminate Hlen. injection Hk as ->. reflexivity. }
    split; [exact Hvc|]. split; [exact Hvo|].
    exact (Hids sample_generates_new_ids 0%nat 0%nat copy Sample.rectangle _ v
                Hk eq_refl Hvc Hvo).
Defined.

(** C3 (as stated) fails: the shapes of frame 10 are not structurally equal
    to those of frame 1, their names differ. *)
Lemma insertKeyframe_copies_are_renamed :
  exists r h' layer' copy v v',
    Layer.insertKeyframe 10 (Sample.heap, Sample.layer) = (Return r, (h', layer')) /\
    Layer.getShapesAtFrame 1 layer' = [Sample.rectangle] /\
    Layer.getShapesAtFrame 10 layer' = [copy] /\
    View.shape (cells h') Sample.rectangle = Some v /\
    View.shape (cells h') copy = Some v' /\
    view_name v = "Rectangle" /\ view_name v' = "Rectangle Copy" /\
    view_name v' <> view_name v.
Proof.
  eexists _, _, _, _, _, _.
  split; [vm_compute; reflexivity|].
  split; [vm_compute; reflexivity|].
  split; [vm_compute; reflexivity|].
  split; [vm_compute; reflexivity|].
  split; [vm_compute; reflexivity|].
  split; [reflexivity|]. split; [reflexivity|]. discriminate.
Qed.

(** C5 (the code at the failing input).  The sample document, whose layer
    has frame 1 as a keyframe that holds the rectangle, is written by
    [toJSON] and read back by [fromJSON].  In the layer read back frame 1
    exists as a keyframe and holds one shape, and it is the plain object of
    the JSON, not an instance of [Frame].  [clearKeyframe(1)] on that layer
    throws a [TypeError], [frame.clear] is not a function: frame 1 is not
    removed, but [getFrame(1)] still returns it with its shape, not with
    empty shapes. *)
Theorem clearKeyframe_1_throws_after_fromJSON :
  exists data h1 d2 h2 l r f s,
    Document.toJSON (Sample.heap, Sample.document)
    = (Return data, (h1, Sample.document)) /\
    Document.fromJSON (JsonObject data) h1 = (Return d2, h2) /\
    layers d2 = [l] /\
    Layer.getFrame 1 l = Some (r, f) /\ isKeyframe f = true /\
    frame_class f = false /\ shapes f = [s] /\
    Layer.clearKeyframe 1 (h2, l) = (Throw (TypeError "clear"), (h2, l)) /\
    Document.clearKeyframe (Some "l1") (Some 1) (h2, d2)
    = (Throw (TypeError "clear"), (h2, d2)) /\
    Layer.getShapesAtFrame 1 l = [s].
Proof.
  eexists _, _, _, _, _, _, _, _.
  split; [vm_compute; reflexivity|].
  split; [vm_compute; reflexivity|].
  split; [reflexivity|].
  split; [vm_compute; reflexivity|].
  split; [reflexivity|]. split; [reflexivity|]. split; [reflexivity|].
  split; [vm_compute; reflexivity|].
  split; [vm_compute; reflexivity|].
  vm_compute. reflexivity.
Qed.

(** Frame 1 stays, at the sample layer. *)
Lemma frame_1_stays_a_keyframe_witness :
  frame1_is_keyframe Sample.layer /\
  frame1_is_keyframe
    (snd (snd (Layer.clearKeyframe 1 (Sample.heap, Sample.layer)))).
Proof.
  assert (H : frame1_is_keyframe Sample.layer).
  { exists 0%nat, Sample.frame_1. split; reflexivity. }
  split; [exact H|].
  destruct (frame_1_stays_a_keyframe Sample.heap Sample.layer H) as (_ & _ & Hclear & _).
  exact (Hclear 1).
Defined.

(** C7, at lists of one and two shapes. *)

Lemma canMotionTween_cases_witness :
  Tween.canMotionTween [] [Sample.shape_with_id "a"] = false /\
  Tween.canMotionTween [Sample.shape_with_id "a"; Sample.shape_with_id "b"] [Sample.shape_with_id "b"] = true.
Proof.
  split.
  - destruct (canMotionTween_cases [] [Sample.shape_with_id "a"]) as (Hempty & _).
    apply Hempty. left. reflexivity.
  - destruct (canMotionTween_cases [Sample.shape_with_id "a"; Sample.shape_with_id "b"]
                                   [Sample.shape_with_id "b"]) as (_ & Hcommon & _).
    apply Hcommon. exists (Sample.shape_with_id "b"), (Sample.shape_with_id "b").
    split; [right; left; reflexivity|]. split; [left; reflexivity|reflexivity].
Defined.

(** C9, at the sample document of three layers. *)
Lemma getVisibleShapes_three_layers_witness :
  Document.getVisibleShapes Sample.three_layers
  = [(2%nat, "bottom"); (1%nat, "middle"); (0%nat, "top")].
Proof.
  exact (getVisibleShapes_three_layers Sample.three_layers _ _ _ eq_refl).
Defined.

(** C8, for K = 1 and six moves of the rectangle. *)



(** * Further properties *)

(** ** Sorting *)

Lemma sort_insert_Permutation {X : Type} (cmp : X -> X -> Z) (x : X) (s : list X) :
  sort_insert cmp x s ≡ₚ x :: s.
Proof.
  induction s as [|y s IH]; [reflexivity|]. cbn.
  destruct (0 <? cmp x y); [|reflexivity].
  rewrite IH. apply perm_swap.
Qed.

Lemma sort_Permutation {X : Type} (cmp : X -> X -> Z) (xs : list X) :
  sort cmp xs ≡ₚ xs.
Proof.
  induction xs as [|x xs IH]; [reflexivity|]. cbn.
  rewrite sort_insert_Permutation, IH. reflexivity.
Qed.

Section Sorted.

Context {X : Type} (key : X -> Z).

Lemma sort_insert_sorted (x : X) (s : list X) :
  StronglySorted (le_by key) s ->
  StronglySorted (le_by key) (sort_insert (fun a b => key a - key b) x s).
Proof.
  induction 1 as [|y s Hs IH Hy]; cbn.
  - constructor; constructor.
  - destruct (0 <? key x - key y) eqn:E.
    + constructor; [exact IH|].
      rewrite sort_insert_Permutation. constructor; [unfold le_by; lia|exact Hy].
    + constructor; [constructor; assumption|].
      assert (Hxy : le_by key x y) by (unfold le_by; lia).
      constructor; [exact Hxy|].
      eapply Forall_impl; [exact Hy|]. unfold le_by in *. cbn. intros; lia.
Qed.

Lemma sort_sorted (xs : list X) :
  StronglySorted (le_by key) (sort (fun a b => key a - key b) xs).
Proof.
  induction xs as [|x xs IH]; cbn; [constructor|].
  apply sort_insert_sorted, IH.
Qed.

Lemma StronglySorted_map_key (l : list X) :
  StronglySorted (le_by key) l -> StronglySorted Z.le (map key l).
Proof.
  induction 1 as [|y s Hs IH Hy]; cbn; constructor; [exact IH|].
  apply Forall_map. exact Hy.
Qed.

End Sorted.

Lemma StronglySorted_lt_NoDup (l : list Z) : StronglySorted Z.lt l -> NoDup l.
Proof.
  induction 1 as [|y s Hs IH Hy]; constructor; [|exact IH].
  intros Hin. rewrite Forall_forall in Hy. specialize (Hy y Hin). lia.
Qed.

Lemma StronglySorted_le_lt (l : list Z) :
  StronglySorted Z.le l -> NoDup l -> StronglySorted Z.lt l.
Proof.
  induction 1 as [|y s Hs IH Hy]; intros Hnd; constructor.
  - apply IH. apply NoDup_cons in Hnd as [_ H]. exact H.
  - apply NoDup_cons in Hnd as [Hnot _].
    rewrite Forall_forall in *. intros z Hz. specialize (Hy z Hz).
    assert (z <> y) by (intros ->; contradiction). lia.
Qed.

Lemma StronglySorted_delete (l : list Z) (r : nat) :
  StronglySorted Z.lt l -> StronglySorted Z.lt (delete r l).
Proof.
  intros H. revert r. induction H as [|y s Hs IH Hy]; intros [|r]; cbn;
    [constructor|constructor|exact Hs|].
  constructor; [apply IH|].
  rewrite Forall_forall in *. intros z Hz. apply Hy.
  eapply elem_of_sublist; [exact Hz|]. apply sublist_delete.
Qed.

(** ** References into a sorted selection *)

Lemma head_filter_imap {X : Type} (q : nat * X -> bool) (xs : list X) (n r : nat) (x : X) :
  head (List.filter q (imap (fun i y => ((n + i)%nat, y)) xs)) = Some (r, x) ->
  (n <= r)%nat /\ xs !! (r - n)%nat = Some x /\ q (r, x) = true /\
  forall r' y, xs !! r' = Some y -> q ((n + r')%nat, y) = true -> (r <= n + r')%nat.
Proof.
  revert n. induction xs as [|a xs IH]; intros n H; [discriminate H|].
  cbn [imap List.filter] in H. rewrite Nat.add_0_r in H.
  destruct (q (n, a)) eqn:Hq.
  - cbn in H. injection H as <- <-. rewrite Nat.sub_diag.
    repeat split; [lia|assumption|]. intros; lia.
  - rewrite (imap_ext _ (fun i y => ((S n + i)%nat, y))) in H
      by (intros; cbn; f_equal; lia).
    destruct (IH (S n) H) as (Hle & Hl & Hqr & Hmin).
    split; [lia|]. split.
    { replace (r - n)%nat with (S (r - S n)) by lia. exact Hl. }
    split; [exact Hqr|].
    intros [|r'] y Hy Hqy.
    + cbn in Hy. injection Hy as <-. rewrite Nat.add_0_r in Hqy. congruence.
    + cbn in Hy. specialize (Hmin r' y Hy).
      replace (S n + r')%nat with (n + S r')%nat in Hmin by lia. auto.
Qed.

Lemma head_filter_with_refs {X : Type} (q : nat * X -> bool) (xs : list X) (r : nat) (x : X) :
  head (List.filter q (with_refs xs)) = Some (r, x) ->
  xs !! r = Some x /\ q (r, x) = true /\
  forall r' y, xs !! r' = Some y -> q (r', y) = true -> (r <= r')%nat.
Proof.
  intros H. unfold with_refs in H.
  destruct (head_filter_imap q xs 0 r x H) as (_ & Hl & Hq & Hmin).
  rewrite Nat.sub_0_r in Hl. repeat split; auto.
Qed.

Lemma filter_filter_andb {X : Type} (p q : X -> bool) (l : list X) :
  List.filter q (List.filter p l) = List.filter (fun a => p a && q a) l.
Proof.
  induction l as [|a l IHl]; [reflexivity|].
  cbn. destruct (p a); cbn; [destruct (q a)|]; cbn; rewrite IHl; reflexivity.
Qed.

(** The head of [sort] by a key, over the elements of [xs] that satisfy [p]
    with their positions: an element of least key, and among those of that
    key the first of [xs]. *)
Lemma head_sort_filter_refs {X : Type} (key : X -> Z) (p : X -> bool) (xs : list X)
    (r : nat) (x : X) :
  head (sort (fun a b => key (snd a) - key (snd b))
             (List.filter (fun a => p (snd a)) (with_refs xs))) = Some (r, x) ->
  xs !! r = Some x /\ p x = true /\
  forall r' y, xs !! r' = Some y -> p y = true ->
    key x < key y \/ (key x = key y /\ (r <= r')%nat).
Proof.
  intros H.
  set (kept := List.filter (fun a => p (snd a)) (with_refs xs)) in *.
  pose proof (head_sort (fun a : nat * X => key (snd a)) kept (r, x) H) as Hleast.
  assert (Hin : In (r, x) kept).
  { apply (In_sort (fun a b => key (snd a) - key (snd b))).
    destruct (sort _ kept); [discriminate H|]. injection H as ->. left. reflexivity. }
  pose proof (filter_sort (fun a : nat * X => key (snd a)) (key x) kept) as Hstable.
  assert (Hhead : head (List.filter (fun a : nat * X => key (snd a) =? key x) kept) = Some (r, x)).
  { rewrite <- Hstable. destruct (sort _ kept) as [|a s]; [discriminate H|].
    injection H as ->. cbn. rewrite Z.eqb_refl. reflexivity. }
  unfold kept in Hhead.
  rewrite filter_filter_andb in Hhead.
  apply head_filter_with_refs in Hhead as (Hl & Hq & Hmin). cbn in Hq.
  apply andb_true_iff in Hq as [Hp _].
  split; [exact Hl|]. split; [exact Hp|].
  intros r' y Hy Hpy.
  assert (Hiny : In (r', y) kept).
  { apply filter_In. split; [apply In_with_refs; exact Hy|exact Hpy]. }
  specialize (Hleast _ Hiny). cbn in Hleast.
  destruct (Z.eq_dec (key x) (key y)) as [E|E]; [|left; lia].
  right. split; [exact E|]. apply (Hmin r' y Hy). cbn.
  rewrite Hpy, <- E, Z.eqb_refl. reflexivity.
Qed.

Lemma head_sort_filter_refs_None {X : Type} (cmp : nat * X -> nat * X -> Z) (p : X -> bool)
    (xs : list X) :
  head (sort cmp (List.filter (fun a => p (snd a)) (with_refs xs))) = None ->
  forall y, In y xs -> p y = false.
Proof.
  intros H y Hy. apply not_true_is_false. intros Hp.
  apply In_nth_error in Hy as [i Hi].
  assert (Hin : In (i, y) (List.filter (fun a => p (snd a)) (with_refs xs))).
  { apply filter_In. split; [apply In_with_refs|exact Hp].
    rewrite <- Hi. clear. revert i. induction xs; intros [|i]; cbn; auto. }
  destruct (head_sort_Some cmp _ _ Hin) as [a Ha]. congruence.
Qed.

(** ** Layer: the keyframes around an index *)

Lemma nearest_keyframe (index : Z) (layer : Layer) :
  match Layer.getKeyframeAt index layer with
  | Some (r, f) =>
      frames layer !! r = Some f /\ isKeyframe f = true /\ frame_index f <= index /\
      forall r' g,
        frames layer !! r' = Some g -> isKeyframe g = true -> frame_index g <= index ->
        frame_index g < frame_index f \/
        (frame_index g = frame_index f /\ (r <= r')%nat)
  | None =>
      forall g, In g (frames layer) -> isKeyframe g = true -> index < frame_index g
  end.
Proof.
  unfold Layer.getKeyframeAt.
  rewrite (sort_ext _ (fun a b : nat * Frame =>
                          (fun f => - frame_index f) (snd a)
                          - (fun f => - frame_index f) (snd b)))
    by (intros; lia).
  destruct (head _) as [[r f]|] eqn:H.
  - apply (head_sort_filter_refs (fun f => - frame_index f)
             (fun f => isKeyframe f && (frame_index f <=? index))) in H
      as (Hr & Hp & Hmin).
    apply andb_true_iff in Hp as [Hk Hi]. apply Z.leb_le in Hi.
    repeat split; try assumption.
    intros r' g Hg Hkg Hig.
    destruct (Hmin r' g Hg) as [Hlt|[Heq Hle]].
    + rewrite Hkg. apply Z.leb_le in Hig. rewrite Hig. reflexivity.
    + left. lia.
    + right. split; [lia|exact Hle].
  - intros g Hg Hk.
    pose proof (head_sort_filter_refs_None _
                  (fun f => isKeyframe f && (frame_index f <=? index)) _ H g Hg) as Hp.
    cbn in Hp. rewrite Hk in Hp. cbn in Hp. apply Z.leb_gt in Hp. exact Hp.
Qed.

(** X1.  [getKeyframeAt(index)] returns the keyframe nearest to [index] among
    those at or before it: a frame of the layer that is a keyframe with
    index at most [index], such that every other such keyframe has a smaller
    index, or the same index and a later place in the array.  It returns
    [undefined] exactly when every keyframe of the layer lies after
    [index]. *)
Theorem getKeyframeAt_nearest (index : Z) (layer : Layer) :
  match Layer.getKeyframeAt index layer with
  | Some (r, f) =>
      frames layer !! r = Some f /\ isKeyframe f = true /\ frame_index f <= index /\
      forall r' g,
        frames layer !! r' = Some g -> isKeyframe g = true -> frame_index g <= index ->
        frame_index g < frame_index f \/
        (frame_index g = frame_index f /\ (r <= r')%nat)
  | None =>
      forall g, In g (frames layer) -> isKeyframe g = true -> index < frame_index g
  end.
Proof. exact (nearest_keyframe index layer). Qed.

(** X2.  [getNextKeyframe(index)] returns the keyframe nearest to [index]
    among those after it, the first of the array when several have that
    index, and [undefined] exactly when no keyframe lies after [index].
    Together with [getKeyframeAt(index)] it bounds a span that holds no
    other keyframe index: every keyframe of the layer has an index at most
    that of the first or at least that of the second. *)
Theorem getNextKeyframe_nearest (index : Z) (layer : Layer) :
  match Layer.getNextKeyframe index layer with
  | Some (r, f) =>
      frames layer !! r = Some f /\ isKeyframe f = true /\ index < frame_index f /\
      (forall r' g,
         frames layer !! r' = Some g -> isKeyframe g = true -> index < frame_index g ->
         frame_index f < frame_index g \/
         (frame_index g = frame_index f /\ (r <= r')%nat)) /\
      (forall r0 f0, Layer.getKeyframeAt index layer = Some (r0, f0) ->
         frame_index f0 <= index /\
         forall g, In g (frames layer) -> isKeyframe g = true ->
                   frame_index g <= frame_index f0 \/ frame_index f <= frame_index g)
  | None =>
      forall g, In g (frames layer) -> isKeyframe g = true -> frame_index g <= index
  end.
Proof.
  unfold Layer.getNextKeyframe.
  destruct (head _) as [[r f]|] eqn:H.
  - apply (head_sort_filter_refs frame_index
             (fun f => isKeyframe f && (index <? frame_index f))) in H
      as (Hr & Hp & Hmin).
    apply andb_true_iff in Hp as [Hk Hi]. apply Z.ltb_lt in Hi.
    assert (Hnext : forall r' g,
      frames layer !! r' = Some g -> isKeyframe g = true -> index < frame_index g ->
      frame_index f < frame_index g \/ (frame_index g = frame_index f /\ (r <= r')%nat)).
    { intros r' g Hg Hkg Hig.
      destruct (Hmin r' g Hg) as [Hlt|[Heq Hle]].
      - rewrite Hkg. apply Z.ltb_lt in Hig. rewrite Hig. reflexivity.
      - left. exact Hlt.
      - right. split; [lia|exact Hle]. }
    repeat split; try assumption.
    + apply getKeyframeAt_Some in H as (_ & _ & Hle & _). exact Hle.
    + intros g Hg Hkg.
      apply getKeyframeAt_Some in H as (_ & _ & _ & Hmax).
      destruct (Z.le_gt_cases (frame_index g) index) as [Hle|Hgt].
      * left. apply Hmax; assumption.
      * right. apply In_nth_error in Hg as [r' Hr'].
        assert (Hl : frames layer !! r' = Some g).
        { rewrite <- Hr'. clear. revert r'.
          induction (frames layer); intros [|i]; cbn; auto. }
        destruct (Hnext r' g Hl Hkg) as [?|[? _]]; lia.
  - intros g Hg Hk.
    pose proof (head_sort_filter_refs_None _
                  (fun f => isKeyframe f && (index <? frame_index f)) _ H g Hg) as Hp.
    cbn in Hp. rewrite Hk in Hp. cbn in Hp. apply Z.ltb_ge in Hp. exact Hp.
Qed.

(** ** Layer: invariants of the frame list *)

Lemma preserves_ret {A : Type} (I : Layer -> Prop) (a : A) s : preserves I (ret a) s.
Proof. intros H. exact H. Qed.

Lemma preserves_this (I : Layer -> Prop) s : preserves I this s.
Proof. intros H. exact H. Qed.

Lemma preserves_bind {A B : Type} (I : Layer -> Prop)
    (m : M (Heap * Layer) A) (k : A -> M (Heap * Layer) B) s :
  preserves I m s ->
  (forall a s', m s = (Return a, s') -> I (snd s') -> preserves I (k a) s') ->
  preserves I (bind m k) s.
Proof.
  intros Hm Hk H1. unfold bind. specialize (Hm H1).
  destruct (m s) as [[a|e] s'] eqn:E; cbn [snd] in *.
  - apply (Hk a s' eq_refl Hm Hm).
  - exact Hm.
Qed.

Lemma preserves_on_heap {A : Type} (I : Layer -> Prop) (m : M Heap A) s :
  preserves I (on_heap m) s.
Proof. destruct s as [h layer]. intros H. rewrite on_heap_run. exact H. Qed.

Section Invariant.

(** A property [I] of layers that survives the three ways the methods
    change the frame list: a change [R] to one frame, the push of a frame
    built by the constructor at an index that no frame has, and the removal
    of a frame. *)
Variable I : Layer -> Prop.
Variable R : Frame -> Frame -> Prop.

Hypothesis I_change : forall layer r old new,
  I layer -> frames layer !! r = Some old -> R old new ->
  I (set_frames (fun fs => <[r := new]> fs) layer).

Hypothesis I_push : forall layer data h new h',
  I layer -> Frame.new data h = (Return new, h') ->
  Layer.getFrame (frame_index new) layer = None ->
  I (set_frames (fun _ => fst (push_and_sort new (frames layer))) layer).

Hypothesis I_delete : forall layer r,
  I layer -> I (set_frames (fun fs => delete r fs) layer).

Hypothesis R_makeKeyframe : changes_by R Frame.makeKeyframe.
Hypothesis R_makeBlankKeyframe : changes_by R Frame.makeBlankKeyframe.
Hypothesis R_clear : changes_by R Frame.clear.
Hypothesis R_addShape : forall shape, changes_by R (Frame.addShape shape).
Hypothesis R_this : changes_by R (@this Frame).
Hypothesis R_set_content : forall copies,
  changes_by R (set_this (fun f => set_isEmpty false (set_shapes copies f))).

Lemma preserves_on_frame {A : Type} (r : nat) (m : M (Heap * Frame) A) s :
  changes_by R m -> preserves I (Layer.on_frame r m) s.
Proof.
  destruct s as [h layer]. intros Hm H. rewrite on_frame_run.
  destruct (frames layer !! r) as [f|] eqn:Hr; [|exact H].
  cbn [snd]. apply (I_change layer r f); [exact H|exact Hr|apply Hm].
Qed.

Lemma preserves_push (index : Z) (data : FrameInit) (layer : Layer) (s1 : Heap * Layer) :
  snd s1 = layer ->
  Layer.getFrame index layer = None -> init_index data = Some index ->
  preserves I
    (frame <- on_heap (Frame.new data) ;;
     let '(sorted, position) := push_and_sort frame (frames layer) in
     set_this (set_frames (fun _ => sorted)) ;; ret position) s1.
Proof.
  destruct s1 as [h1 l1]. cbn [snd]. intros -> Hnone Hdata Hl.
  unfold bind at 1. rewrite on_heap_run.
  destruct (Frame_new_run data h1) as (f & h' & E & Hi & _).
  rewrite E. cbn [fst snd].
  destruct (push_and_sort f (frames layer)) as [sorted position] eqn:Es.
  cbn. pose proof (I_push layer data h1 f h' Hl E) as H.
  rewrite Es, Hi, Hdata in H. cbn in H.
  exact (H Hnone).
Qed.

Lemma insertKeyframe_preserves (index : Z) s : preserves I (Layer.insertKeyframe index) s.
Proof.
  unfold Layer.insertKeyframe.
  apply preserves_bind; [apply preserves_this|].
  intros layer s' Hs' Hl. rewrite this_run in Hs'. injection Hs' as <- <-.
  destruct (Layer.getFrame index (snd s)) as [[frame f0]|] eqn:Hget.
  - apply preserves_bind; [apply preserves_on_frame, R_makeKeyframe|]. intros _ s1 _ _.
    apply preserves_bind; [apply preserves_on_frame, R_this|]. intros f s2 _ _.
    apply preserves_bind; [|intros; apply preserves_ret].
    destruct (isEmpty f); [|apply preserves_ret].
    apply preserves_bind; [apply preserves_this|]. intros layer' s3 _ _.
    destruct (Layer.getKeyframeAt (index - 1) layer') as [[r prev]|]; [|apply preserves_ret].
    destruct (negb (isEmpty prev)); [|apply preserves_ret].
    apply preserves_bind; [apply preserves_on_heap|]. intros copies s4 _ _.
    apply preserves_on_frame, R_set_content.
  - apply preserves_bind; [apply preserves_on_heap|]. intros copies s1 Hs1 _.
    apply (preserves_push index); [|assumption|reflexivity].
    destruct s as [h0 l0]. rewrite on_heap_run in Hs1. injection Hs1 as _ <-. reflexivity.
Qed.

Lemma insertBlankKeyframe_preserves (index : Z) s :
  preserves I (Layer.insertBlankKeyframe index) s.
Proof.
  unfold Layer.insertBlankKeyframe.
  apply preserves_bind; [apply preserves_this|].
  intros layer s' Hs' Hl. rewrite this_run in Hs'. injection Hs' as <- <-.
  destruct (Layer.getFrame index (snd s)) as [[frame f0]|] eqn:Hget.
  - apply preserves_bind; [apply preserves_on_frame, R_makeBlankKeyframe|].
    intros; apply preserves_ret.
  - apply (preserves_push index); [reflexivity|assumption|reflexivity].
Qed.

Lemma clearKeyframe_preserves (index : Z) s : preserves I (Layer.clearKeyframe index) s.
Proof.
  unfold Layer.clearKeyframe.
  apply preserves_bind; [apply preserves_this|].
  intros layer s' Hs' Hl. rewrite this_run in Hs'. injection Hs' as <- <-.
  destruct (Layer.getFrame index (snd s)) as [[frame f]|] eqn:Hget; [|apply preserves_ret].
  destruct (isKeyframe f); [|apply preserves_ret].
  destruct (index =? 1).
  - apply preserves_on_frame, R_clear.
  - intros H. cbn. apply I_delete, H.
Qed.

Lemma addShapeAtFrame_preserves (index : Z) (shape : loc) s :
  preserves I (Layer.addShapeAtFrame index shape) s.
Proof.
  unfold Layer.addShapeAtFrame.
  apply preserves_bind; [apply preserves_this|].
  intros layer s' Hs' Hl. rewrite this_run in Hs'. injection Hs' as <- <-.
  apply preserves_bind.
  - destruct (Layer.getKeyframeAt index (snd s)) as [[keyframe k]|].
    + destruct (negb (frame_index k =? index));
        [apply insertKeyframe_preserves|apply preserves_ret].
    + apply insertKeyframe_preserves.
  - intros keyframe s1 _ _. apply preserves_on_frame, R_addShape.
Qed.

End Invariant.

(** *** The frames stay in order *)



Lemma ascending_push (layer : Layer) (new : Frame) :
  ascending layer -> Layer.getFrame (frame_index new) layer = None ->
  ascending (set_frames (fun _ => fst (push_and_sort new (frames layer))) layer).
Proof.
  unfold ascending, push_and_sort. intros H Hnone. cbn [frames set_frames fst].
  set (marked := map (pair false) (frames layer) ++ [(true, new)]).
  set (sorted := sort _ marked).
  rewrite map_map.
  apply StronglySorted_le_lt.
  - apply (StronglySorted_map_key (fun a : bool * Frame => frame_index (snd a))).
    apply (sort_sorted (fun a : bool * Frame => frame_index (snd a))).
  - assert (Hperm : map (fun a : bool * Frame => frame_index (snd a)) sorted
                    ≡ₚ map frame_index (frames layer) ++ [frame_index new]).
    { unfold sorted. rewrite sort_Permutation. unfold marked.
      rewrite map_app, map_map. reflexivity. }
    rewrite Hperm. apply NoDup_app. split; [apply StronglySorted_lt_NoDup, H|].
    split; [|apply NoDup_singleton].
    intros k Hk Hk'. apply list_elem_of_singleton in Hk'. subst k.
    apply list_elem_of_In, in_map_iff in Hk as (g & Hg & Hin).
    pose proof (find_ref_None _ _ Hnone g Hin) as Hne. cbn in Hne.
    apply Z.eqb_neq in Hne. contradiction.
Qed.






(** *** The flag [isEmpty] stays consistent *)

Lemma Frame_new_flag (data : FrameInit) (h : Heap) (f : Frame) (h' : Heap) :
  Frame.new data h = (Return f, h') -> flag_consistent f.
Proof.
  unfold Frame.new, bind, orElse, ret, generateUID, flag_consistent.
  destruct (init_frame_id data); intros E; injection E as <- _; cbn;
    destruct (default [] (init_shapes data)); cbn; congruence.
Qed.

Lemma flags_push (layer : Layer) (new : Frame) :
  Forall flag_consistent (frames layer) -> flag_consistent new ->
  Forall flag_consistent (fst (push_and_sort new (frames layer))).
Proof.
  intros H Hnew. apply List.Forall_forall. intros g Hg.
  apply In_push_and_sort in Hg as [Hg| ->]; [|exact Hnew].
  rewrite List.Forall_forall in H. apply H, Hg.
Qed.

Lemma flag_method (g : Frame -> Frame) (callee : string) :
  (forall f, flag_consistent f -> flag_consistent (g f)) ->
  changes_by (fun old new => flag_consistent old -> flag_consistent new)
    (f <- this ;; method (frame_class f) callee ;; set_this g).
Proof.
  intros Hg h f. unfold bind, this, method, set_this, modify, ret, throw. cbn.
  destruct (frame_class f); cbn; auto.
Qed.

(** X4.  On a layer where no frame has [isEmpty] set while it holds shapes,
    this is still so after [insertKeyframe], [insertBlankKeyframe],
    [clearKeyframe] and [addShapeAtFrame], at every index and whether the
    call returns or throws; and it is so for every frame that the
    constructor [Frame] builds. *)
Theorem isEmpty_stays_consistent (h : Heap) (layer : Layer) :
  Forall flag_consistent (frames layer) ->
  (forall index,
     Forall flag_consistent (frames (snd (snd (Layer.insertKeyframe index (h, layer)))))) /\
  (forall index,
     Forall flag_consistent
       (frames (snd (snd (Layer.insertBlankKeyframe index (h, layer)))))) /\
  (forall index,
     Forall flag_consistent (frames (snd (snd (Layer.clearKeyframe index (h, layer)))))) /\
  (forall index shape,
     Forall flag_consistent
       (frames (snd (snd (Layer.addShapeAtFrame index shape (h, layer)))))) /\
  (forall data, exists f h', Frame.new data h = (Return f, h') /\ flag_consistent f).
Proof.
  intros H.
  pose (I := fun l : Layer => Forall flag_consistent (frames l)).
  pose (R := fun old new : Frame => flag_consistent old -> flag_consistent new).
  assert (Hchange : forall layer r old new,
    I layer -> frames layer !! r = Some old -> R old new ->
    I (set_frames (fun fs => <[r := new]> fs) layer)).
  { intros l r old new Hl Hr HR. unfold I in *. cbn [frames set_frames].
    apply Forall_insert; [exact Hl|]. apply HR.
    rewrite Forall_lookup in Hl. apply (Hl r old Hr). }
  assert (Hpush : forall layer data h new h',
    I layer -> Frame.new data h = (Return new, h') ->
    Layer.getFrame (frame_index new) layer = None ->
    I (set_frames (fun _ => fst (push_and_sort new (frames layer))) layer)).
  { intros l d h0 new h' Hl Hnew _. unfold I in *. cbn [frames set_frames].
    apply flags_push; [exact Hl|]. apply (Frame_new_flag d h0 new h' Hnew). }
  assert (Hdelete : forall layer r,
    I layer -> I (set_frames (fun fs => delete r fs) layer)).
  { intros l r Hl. unfold I in *. cbn [frames set_frames]. apply Forall_delete, Hl. }
  assert (Hmk : changes_by R Frame.makeKeyframe).
  { apply flag_method. intros f Hf. exact Hf. }
  assert (Hmb : changes_by R Frame.makeBlankKeyframe).
  { apply flag_method. intros f _ _. reflexivity. }
  assert (Hcl : changes_by R Frame.clear).
  { apply flag_method. intros f _ _. reflexivity. }
  assert (Hadd : forall shape, changes_by R (Frame.addShape shape)).
  { intros shape. apply flag_method. intros f _ E. discriminate E. }
  assert (Hthis : changes_by R (@this Frame)) by (intros h0 f Hf; exact Hf).
  assert (Hset : forall copies,
    changes_by R (set_this (fun f => set_isEmpty false (set_shapes copies f)))).
  { intros copies h0 f _ E. discriminate E. }
  repeat split.
  - intros index.
    apply (insertKeyframe_preserves I R Hchange Hpush Hmk Hthis Hset
             index (h, layer) H).
  - intros index.
    apply (insertBlankKeyframe_preserves I R Hchange Hpush Hmb index (h, layer) H).
  - intros index.
    apply (clearKeyframe_preserves I R Hchange Hdelete Hcl index (h, layer) H).
  - intros index shape.
    apply (addShapeAtFrame_preserves I R Hchange Hpush Hmk Hadd Hthis Hset
             index shape (h, layer) H).
  - intros data. destruct (Frame_new_run data h) as (f & h' & E & _).
    exists f, h'. split; [exact E|]. apply (Frame_new_flag data h f h' E).
Qed.

(** ** Layer: what the operations do *)

Lemma find_ref_least {X : Type} (p : X -> bool) (xs : list X) (r : nat) (x : X) :
  find_ref p xs = Some (r, x) ->
  forall j y, xs !! j = Some y -> p y = true -> (r <= j)%nat.
Proof.
  revert r. induction xs as [|a xs IH]; intros r H j y Hj Hy; [discriminate H|].
  cbn in H. destruct (p a) eqn:Ha.
  - injection H as <- <-. lia.
  - destruct (find_ref p xs) as [[i z]|] eqn:E; [|discriminate H].
    injection H as <- <-. destruct j as [|j]; cbn in Hj.
    + injection Hj as <-. congruence.
    + specialize (IH i eq_refl j y Hj Hy). lia.
Qed.

Lemma find_ref_intro {X : Type} (p : X -> bool) (xs : list X) (r : nat) (x : X) :
  xs !! r = Some x -> p x = true ->
  (forall j y, (j < r)%nat -> xs !! j = Some y -> p y = false) ->
  find_ref p xs = Some (r, x).
Proof.
  revert r. induction xs as [|a xs IH]; intros r Hr Hx Hbefore; [discriminate Hr|].
  cbn. destruct r as [|r]; cbn in Hr.
  - injection Hr as ->. rewrite Hx. reflexivity.
  - rewrite (Hbefore O a) by (cbn; auto; lia).
    rewrite (IH r Hr Hx); [reflexivity|].
    intros j y Hj Hy. apply (Hbefore (S j) y); [lia|exact Hy].
Qed.

Lemma In_lookup {X : Type} (xs : list X) (x : X) :
  In x xs <-> exists i, xs !! i = Some x.
Proof.
  rewrite <- list_elem_of_In. apply list_elem_of_lookup.
Qed.

(** A keyframe at an index is the keyframe in effect at that index. *)
Lemma getKeyframeAt_at (index : Z) (layer : Layer) (r : nat) (f : Frame) :
  Layer.getFrame index layer = Some (r, f) -> isKeyframe f = true ->
  Layer.getKeyframeAt index layer = Some (r, f).
Proof.
  intros Hget Hk.
  pose proof (find_ref_least _ _ _ _ Hget) as Hleast.
  apply find_ref_Some in Hget as [Hr Hi]. apply Z.eqb_eq in Hi.
  pose proof (nearest_keyframe index layer) as Hnear.
  destruct (Layer.getKeyframeAt index layer) as [[r0 f0]|].
  - destruct Hnear as (Hr0 & Hk0 & Hi0 & Hmax).
    destruct (Hmax r f Hr Hk) as [Hlt|[Heq Hle]]; [lia|lia|].
    assert (r = r0).
    { apply Nat.le_antisymm; [|exact Hle]. apply (Hleast r0 f0 Hr0).
      apply Z.eqb_eq. lia. }
    subst r0. congruence.
  - exfalso. assert (Hin : In f (frames layer)) by (apply In_lookup; eauto).
    specialize (Hnear f Hin Hk). lia.
Qed.

Lemma push_and_sort_position (new : Frame) (fs : list Frame) :
  fst (push_and_sort new fs) !! snd (push_and_sort new fs) = Some new.
Proof.
  unfold push_and_sort. cbn [fst snd].
  set (marked := map (pair false) fs ++ [(true, new)]).
  set (sorted := sort _ marked).
  assert (Hin : In (true, new) sorted).
  { apply In_sort. unfold marked. apply in_or_app. right. left. reflexivity. }
  destruct (find_ref fst sorted) as [[i [b x]]|] eqn:E.
  - apply find_ref_Some in E as [Hi Hb]. cbn in Hb. subst b.
    assert (Hx : In (true, x) marked).
    { apply (In_sort (fun a b => by_index_ascending (snd a) (snd b))).
      apply In_lookup. eauto. }
    unfold marked in Hx. apply in_app_or in Hx as [Hx|[Hx|[]]].
    + apply in_map_iff in Hx as (y & Hy & _). discriminate Hy.
    + injection Hx as ->.
      change (map snd sorted) with (snd <$> sorted).
      rewrite list_lookup_fmap, Hi. reflexivity.
  - pose proof (find_ref_None _ _ E _ Hin) as Hf. discriminate Hf.
Qed.

Lemma push_and_sort_before (new : Frame) (fs : list Frame) (j : nat) (y : Frame) :
  (j < snd (push_and_sort new fs))%nat ->
  fst (push_and_sort new fs) !! j = Some y -> In y fs.
Proof.
  unfold push_and_sort. cbn [fst snd].
  set (marked := map (pair false) fs ++ [(true, new)]).
  set (sorted := sort _ marked).
  intros Hj Hy.
  change (map snd sorted) with (snd <$> sorted) in Hy.
  rewrite list_lookup_fmap in Hy.
  destruct (sorted !! j) as [[b z]|] eqn:Hz; [|discriminate Hy].
  cbn in Hy. injection Hy as ->.
  destruct (find_ref fst sorted) as [[i a]|] eqn:E; [|lia].
  destruct b.
  - pose proof (find_ref_least _ _ _ _ E j (true, y) Hz eq_refl). lia.
  - assert (Hin : In (false, y) marked).
    { apply (In_sort (fun a b => by_index_ascending (snd a) (snd b))).
      apply In_lookup. eauto. }
    unfold marked in Hin. apply in_app_or in Hin as [Hin|[Hin|[]]]; [|discriminate Hin].
    apply in_map_iff in Hin as (y' & Hy' & Hin). injection Hy' as ->. exact Hin.
Qed.

(** The frame that was pushed is the one [getFrame] finds at its index. *)
Lemma getFrame_pushed (layer : Layer) (new : Frame) :
  Layer.getFrame (frame_index new) layer = None ->
  Layer.getFrame (frame_index new)
    (set_frames (fun _ => fst (push_and_sort new (frames layer))) layer)
  = Some (snd (push_and_sort new (frames layer)), new).
Proof.
  intros Hnone. unfold Layer.getFrame. cbn [frames set_frames].
  apply find_ref_intro.
  - apply push_and_sort_position.
  - apply Z.eqb_refl.
  - intros j y Hj Hy.
    apply (find_ref_None _ _ Hnone y), (push_and_sort_before new _ j y Hj Hy).
Qed.

Lemma makeBlankKeyframe_run (h : Heap) (f : Frame) :
  frame_class f = true ->
  Frame.makeBlankKeyframe (h, f)
  = (Return tt,
     (h, set_tweenType TweenNone
           (set_isEmpty true (set_shapes [] (set_isKeyframe true f))))).
Proof.
  intros Hc. unfold Frame.makeBlankKeyframe, bind, this, method. cbn. rewrite Hc.
  reflexivity.
Qed.

Lemma In_insert_other {X : Type} (xs : list X) (r : nat) (old new g : X) :
  xs !! r = Some old -> In g xs -> g <> old -> In g (<[r := new]> xs).
Proof.
  intros Hr Hg Hne. apply In_lookup in Hg as [i Hi]. apply In_lookup. exists i.
  rewrite list_lookup_insert_ne; [exact Hi|]. intros ->. congruence.
Qed.

(** X5.  [insertBlankKeyframe(index)] returns the frame that [getFrame(index)]
    then finds: a keyframe at that index with no shapes, flagged empty and
    without tween, which is the keyframe in effect at [index], so that
    [getShapesAtFrame(index)] is empty afterwards.  No object of the heap
    is touched, and the frames at other indices stay in the layer.  (When a
    frame exists at [index] it has to be an instance of [Frame].) *)
Theorem insertBlankKeyframe_blank (h : Heap) (layer : Layer) (index : Z) :
  (forall r f, Layer.getFrame index layer = Some (r, f) -> frame_class f = true) ->
  exists r h' layer' f,
    Layer.insertBlankKeyframe index (h, layer) = (Return r, (h', layer')) /\
    cells h' = cells h /\
    Layer.getFrame index layer' = Some (r, f) /\
    Layer.getKeyframeAt index layer' = Some (r, f) /\
    frame_index f = index /\ isKeyframe f = true /\ isEmpty f = true /\
    shapes f = [] /\ tweenType f = TweenNone /\
    Layer.getShapesAtFrame index layer' = [] /\
    (forall g, In g (frames layer) -> frame_index g <> index -> In g (frames layer')).
Proof.
  intros Hclass. unfold Layer.insertBlankKeyframe, bind at 1. rewrite this_run. cbn [snd].
  destruct (Layer.getFrame index layer) as [[r f0]|] eqn:Hget.
  - specialize (Hclass r f0 eq_refl).
    pose proof Hget as Hfind. apply find_ref_Some in Hfind as [Hr Hi].
    apply Z.eqb_eq in Hi.
    unfold bind. rewrite on_frame_run, Hr, (makeBlankKeyframe_run h f0 Hclass).
    cbn [fst snd ret].
    set (f := set_tweenType TweenNone
                (set_isEmpty true (set_shapes [] (set_isKeyframe true f0)))).
    assert (Hget' : Layer.getFrame index (set_frames (fun fs => <[r := f]> fs) layer)
                    = Some (r, f)).
    { unfold Layer.getFrame in *. cbn [frames set_frames].
      rewrite (find_ref_insert (fun f => frame_index f =? index) _ r f0 f Hr eq_refl),
        Hget, Nat.eqb_refl. reflexivity. }
    pose proof (getKeyframeAt_at index _ r f Hget' eq_refl) as Hat.
    exists r, h, (set_frames (fun fs => <[r := f]> fs) layer), f.
    repeat split; try assumption; try reflexivity.
    + unfold Layer.getShapesAtFrame. rewrite Hat. reflexivity.
    + intros g Hg Hne. cbn [frames set_frames].
      apply (In_insert_other _ r f0 f g Hr Hg). intros ->. contradiction.
  - unfold bind. rewrite on_heap_run.
    match goal with |- context [Frame.new ?d h] =>
      destruct (Frame_new_run d h) as (f & h' & E & Hi & Hk & Hc & Hs & Hcells);
      pose proof (Frame_new_flag d h f h' E) as Hflag;
      assert (Hother : isEmpty f = true /\ tweenType f = TweenNone)
        by (revert E; unfold Frame.new, bind, orElse, ret, generateUID; cbn;
            intros E; injection E as <- _; split; reflexivity);
      rewrite E
    end.
    cbn [fst snd default init_index init_isKeyframe init_shapes] in *.
    destruct Hother as [He Ht].
    pose proof (getFrame_pushed layer f) as Hpushed. rewrite Hi in Hpushed.
    specialize (Hpushed Hget).
    destruct (push_and_sort f (frames layer)) as [sorted position] eqn:Esort.
    cbn [fst snd set_this modify ret] in *.
    pose proof (getKeyframeAt_at index _ position f Hpushed Hk) as Hat.
    exists position, h', (set_frames (fun _ => sorted) layer), f.
    repeat split; try assumption; try reflexivity.
    + unfold Layer.getShapesAtFrame. rewrite Hat. exact Hs.
    + intros g Hg _. cbn [frames set_frames].
      pose proof (In_push_and_sort f g (frames layer)) as Hin. rewrite Esort in Hin.
      apply Hin. left. exact Hg.
Qed.

(** *** [insertKeyframe] on any layer *)

Lemma operable_app (cs ext : list Obj) (layer : Layer) :
  operable cs layer -> operable (cs ++ ext) layer.
Proof.
  unfold operable. intros H. eapply Forall_impl; [exact H|].
  cbn. intros f [Hc Hs]. split; [exact Hc|].
  eapply Forall_impl; [exact Hs|]. cbn. intros l. apply clonable_app.
Qed.

Lemma operable_change (cs : list Obj) (layer : Layer) (r : nat) (new : Frame) :
  operable cs layer -> frame_class new = true -> Forall (clonable cs) (shapes new) ->
  operable cs (set_frames (fun fs => <[r := new]> fs) layer).
Proof.
  unfold operable. intros H Hc Hs. cbn [frames set_frames].
  apply Forall_insert; [exact H|]. split; assumption.
Qed.

Lemma operable_push (cs : list Obj) (layer : Layer) (new : Frame) :
  operable cs layer -> frame_class new = true -> Forall (clonable cs) (shapes new) ->
  operable cs (set_frames (fun _ => fst (push_and_sort new (frames layer))) layer).
Proof.
  unfold operable. intros H Hc Hs. cbn [frames set_frames].
  apply List.Forall_forall. intros g Hg.
  apply In_push_and_sort in Hg as [Hg| ->]; [|split; assumption].
  rewrite List.Forall_forall in H. apply H, Hg.
Qed.

Lemma operable_lookup (cs : list Obj) (layer : Layer) (r : nat) (f : Frame) :
  operable cs layer -> frames layer !! r = Some f ->
  frame_class f = true /\ Forall (clonable cs) (shapes f).
Proof.
  unfold operable. intros H Hr. rewrite Forall_lookup in H. apply (H r f Hr).
Qed.

Lemma copies_clonable (cs ext : list Obj) (ids : nat -> UID) (originals copies : list loc) :
  Forall (clonable cs) originals ->
  length copies = length originals ->
  (forall k original, originals !! k = Some original ->
     exists copy, copies !! k = Some copy /\
       copy_of cs (cs ++ ext) (ids k) original copy) ->
  Forall (clonable (cs ++ ext)) copies.
Proof.
  intros Hall Hlen Hcopies. apply Forall_lookup. intros k copy Hk.
  assert (Hlt : (k < length originals)%nat).
  { rewrite <- Hlen. apply lookup_lt_Some in Hk. exact Hk. }
  apply lookup_lt_is_Some in Hlt as [original Ho].
  destruct (Hcopies k original Ho) as (copy' & Hc' & v & Hv & Hv' & _).
  rewrite Hk in Hc'. injection Hc' as <-.
  rewrite Forall_lookup in Hall.
  destruct (Hall k original Ho) as (v0 & Hv0 & Hclass & Hjson).
  rewrite Hv in Hv0. injection Hv0 as <-.
  eexists. split; [exact Hv'|]. split; [reflexivity|exact Hjson].
Qed.

(** What [prevKeyframe.shapes.map(s => s.clone())] leaves: more cells, and
    copies that can be cloned in turn. *)
Lemma clones_run (h : Heap) (originals : list loc) :
  Forall (clonable (cells h)) originals ->
  exists copies h' ext,
    mapA Shape.clone originals h = (Return copies, h') /\
    cells h' = cells h ++ ext /\
    length copies = length originals /\
    Forall (clonable (cells h')) copies.
Proof.
  intros Hall.
  destruct (mapA_clone_run originals h Hall) as (copies & ext & Hrun & Hlen & Hcopies).
  exists copies, (grown h ext (length originals)), ext.
  split; [exact Hrun|]. split; [reflexivity|]. split; [exact Hlen|].
  cbn [grown cells].
  apply (copies_clonable _ _ (fun k => uid_source h (uid_calls h + k)%nat) originals);
    assumption.
Qed.

Lemma makeKeyframe_run (h : Heap) (f : Frame) :
  frame_class f = true ->
  Frame.makeKeyframe (h, f) = (Return tt, (h, set_isKeyframe true f)).
Proof.
  intros Hc. unfold Frame.makeKeyframe, bind, this, method. cbn. rewrite Hc.
  reflexivity.
Qed.

Lemma getFrame_change (index : Z) (layer : Layer) (r : nat) (old new : Frame) :
  Layer.getFrame index layer = Some (r, old) ->
  frame_index new = frame_index old ->
  Layer.getFrame index (set_frames (fun fs => <[r := new]> fs) layer) = Some (r, new).
Proof.
  intros Hget Hi. pose proof Hget as Hfind. apply find_ref_Some in Hfind as [Hr _].
  unfold Layer.getFrame in *. cbn [frames set_frames].
  rewrite (find_ref_insert (fun f => frame_index f =? index) _ r old new Hr), Hget,
    Nat.eqb_refl; [reflexivity|].
  cbn. rewrite Hi. reflexivity.
Qed.

Lemma set_frames_insert_insert (layer : Layer) (r : nat) (a b : Frame) :
  set_frames (fun fs => <[r := b]> fs) (set_frames (fun fs => <[r := a]> fs) layer)
  = set_frames (fun fs => <[r := b]> fs) layer.
Proof.
  unfold set_frames. cbn [layer_id layer_name visible locked frames layer_color].
  rewrite list_insert_insert_eq. reflexivity.
Qed.

Lemma carry_forward_total (h : Heap) (layer : Layer) (index : Z) :
  operable (cells h) layer ->
  exists copies h1 ext,
    Layer.carry_forward (Layer.getKeyframeAt index layer) h = (Return copies, h1) /\
    cells h1 = cells h ++ ext /\
    Forall (clonable (cells h1)) copies.
Proof.
  intros Hop. unfold Layer.carry_forward.
  destruct (Layer.getKeyframeAt index layer) as [[rp prev]|] eqn:Hprev.
  - destruct (isEmpty prev); cbn [negb].
    + exists [], h, []. rewrite app_nil_r. repeat split. constructor.
    + apply getKeyframeAt_Some in Hprev as (Hrp & _).
      destruct (operable_lookup _ _ _ _ Hop Hrp) as [_ Hsp].
      destruct (clones_run h (shapes prev) Hsp)
        as (copies & h' & ext & Hrun & Hcells & Hlen & Hclon).
      exists copies, h', ext. repeat split; assumption.
  - exists [], h, []. rewrite app_nil_r. repeat split. constructor.
Qed.

Ltac splits := repeat match goal with |- _ /\ _ => split end.

(** [insertKeyframe] on an operable layer returns, the heap only grows, and
    the frame it returns is a keyframe at the index, the one [getFrame]
    finds there. *)
Lemma insertKeyframe_run (h : Heap) (layer : Layer) (index : Z) :
  operable (cells h) layer ->
  exists r h' ext layer' f,
    Layer.insertKeyframe index (h, layer) = (Return r, (h', layer')) /\
    cells h' = cells h ++ ext /\
    operable (cells h') layer' /\
    Layer.getFrame index layer' = Some (r, f) /\
    frame_index f = index /\ isKeyframe f = true /\
    (forall g, In g (frames layer) -> frame_index g <> index -> In g (frames layer')) /\
    (forall r0 f0, Layer.getFrame index layer = Some (r0, f0) ->
       r = r0 /\
       layer' = set_frames (fun fs => <[r0 := f]> fs) layer /\
       (isEmpty f0 = false -> h' = h /\ f = set_isKeyframe true f0)) /\
    (Layer.getFrame index layer = None ->
       layer' = set_frames (fun _ => fst (push_and_sort f (frames layer))) layer /\
       r = snd (push_and_sort f (frames layer)) /\
       frame_class f = true /\
       exists h1, Layer.carry_forward (Layer.getKeyframeAt index layer) h
                  = (Return (shapes f), h1) /\ cells h1 = cells h').
Proof.
  intros Hop. unfold Layer.insertKeyframe, bind at 1. rewrite this_run. cbn [snd].
  destruct (Layer.getFrame index layer) as [[r f0]|] eqn:Hget.
  - pose proof Hget as Hfind. apply find_ref_Some in Hfind as [Hr Hi].
    apply Z.eqb_eq in Hi.
    destruct (operable_lookup _ _ _ _ Hop Hr) as [Hc Hs].
    unfold bind at 1. rewrite on_frame_run, Hr, (makeKeyframe_run h f0 Hc).
    cbn [fst snd].
    set (f1 := set_isKeyframe true f0).
    set (layer1 := set_frames (fun fs => <[r := f1]> fs) layer).
    assert (Hr1 : frames layer1 !! r = Some f1).
    { cbn [layer1 frames set_frames]. apply list_lookup_insert_eq.
      apply lookup_lt_Some in Hr. exact Hr. }
    assert (Hop1 : operable (cells h) layer1) by (apply operable_change; assumption).
    assert (Hget1 : Layer.getFrame index layer1 = Some (r, f1))
      by (apply (getFrame_change index layer r f0 f1 Hget eq_refl)).
    unfold bind at 1. rewrite on_frame_run, Hr1, this_run. cbn [fst snd].
    assert (Hid : set_frames (fun fs => <[r := f1]> fs) layer1 = layer1).
    { unfold layer1. apply set_frames_insert_insert. }
    rewrite Hid.
    assert (Hothers : forall (f : Frame) g,
      In g (frames layer) -> frame_index g <> index ->
      In g (<[r := f]> (frames layer))).
    { intros f g Hg Hne. apply (In_insert_other _ r f0 f g Hr Hg). intros ->.
      contradiction. }
    assert (Hsame : forall r0 (f0' : Frame),
      Some (r, f0) = Some (r0, f0') -> r = r0 /\ f0 = f0').
    { intros r0 f0' E. injection E as <- <-. split; reflexivity. }
    assert (Hdone : exists r' h' ext layer' f,
      (Return r, (h, layer1)) = (Return r', (h', layer')) /\
      cells h' = cells h ++ ext /\
      operable (cells h') layer' /\
      Layer.getFrame index layer' = Some (r', f) /\
      frame_index f = index /\ isKeyframe f = true /\
      (forall g, In g (frames layer) -> frame_index g <> index -> In g (frames layer')) /\
      r' = r /\ layer' = set_frames (fun fs => <[r := f]> fs) layer /\
      h' = h /\ f = f1).
    { exists r, h, [], layer1, f1. rewrite app_nil_r.
      splits; try assumption; try reflexivity.
      intros g Hg Hne. apply Hothers; assumption. }
    destruct (isEmpty f1) eqn:He.
    + unfold bind at 1. unfold bind at 1. rewrite this_run. cbn [snd].
      destruct (Layer.getKeyframeAt (index - 1) layer1) as [[rp prev]|] eqn:Hprev.
      * destruct (isEmpty prev) eqn:Hep; cbn [negb].
        -- cbn [ret bind].
           destruct Hdone as (r' & h' & ext & layer' & f & E & H1 & H2 & H3 & H4 & H5
                              & H6 & -> & H8 & _ & _).
           exists r, h', ext, layer', f. splits; try assumption.
           ++ intros r0 f0' E0. destruct (Hsame r0 f0' E0) as [<- <-].
              splits; [reflexivity|exact H8|]. intros E1. cbn in He. congruence.
           ++ intros E0. discriminate E0.
        -- apply getKeyframeAt_Some in Hprev as (Hrp & _).
           destruct (operable_lookup _ _ _ _ Hop1 Hrp) as [_ Hsp].
           destruct (clones_run h (shapes prev) Hsp)
             as (copies & h' & ext & Hrun & Hcells & Hlen & Hclon).
           unfold bind at 1. rewrite on_heap_run, Hrun. cbn [fst snd].
           rewrite on_frame_run, Hr1. cbn [fst snd set_this modify ret bind].
           set (f2 := set_isEmpty false (set_shapes copies f1)).
           exists r, h', ext, (set_frames (fun fs => <[r := f2]> fs) layer1), f2.
           splits; try assumption; try reflexivity.
           ++ apply operable_change; [|exact Hc|exact Hclon].
              rewrite Hcells. apply operable_app, Hop1.
           ++ apply (getFrame_change index layer1 r f1 f2 Hget1 eq_refl).
           ++ intros g Hg Hne. unfold layer1. cbn [frames set_frames].
              rewrite list_insert_insert_eq. apply Hothers; assumption.
           ++ intros r0 f0' E0. destruct (Hsame r0 f0' E0) as [<- <-].
              splits; [reflexivity|apply set_frames_insert_insert|].
              intros E1. cbn in He. congruence.
           ++ intros E0. discriminate E0.
      * cbn [ret bind].
        destruct Hdone as (r' & h' & ext & layer' & f & E & H1 & H2 & H3 & H4 & H5
                           & H6 & -> & H8 & _ & _).
        exists r, h', ext, layer', f. splits; try assumption.
        -- intros r0 f0' E0. destruct (Hsame r0 f0' E0) as [<- <-].
           splits; [reflexivity|exact H8|]. intros E1. cbn in He. congruence.
        -- intros E0. discriminate E0.
    + cbn [ret bind].
      destruct Hdone as (r' & h' & ext & layer' & f & E & H1 & H2 & H3 & H4 & H5
                         & H6 & -> & H8 & -> & ->).
      injection E as <-.
      exists r, h, ext, layer1, f1. splits; try assumption; try reflexivity.
      * intros r0 f0' E0. destruct (Hsame r0 f0' E0) as [<- <-].
        splits; try reflexivity. intros _. split; reflexivity.
      * intros E0. discriminate E0.
  - destruct (carry_forward_total h layer index Hop)
      as (copies & h1 & ext & Hcarry & Hcells & Hclon).
    unfold bind at 1. rewrite on_heap_run, Hcarry. cbn [fst snd].
    unfold bind at 1. rewrite on_heap_run.
    match goal with |- context [Frame.new ?d h1] =>
      destruct (Frame_new_run d h1) as (f & h' & E & Hi & Hk & Hc & Hs & Hcells');
      rewrite E
    end.
    cbn [fst snd default from_option id init_index init_isKeyframe init_shapes] in *.
    pose proof (getFrame_pushed layer f) as Hpushed. rewrite Hi in Hpushed.
    specialize (Hpushed Hget).
    destruct (push_and_sort f (frames layer)) as [sorted position] eqn:Esort.
    cbn [fst snd set_this modify ret bind] in *.
    exists position, h', ext, (set_frames (fun _ => sorted) layer), f.
    splits; try assumption; try reflexivity.
    + congruence.
    + pose proof (operable_push (cells h') layer f) as Hp. rewrite Esort in Hp.
      cbn [fst] in Hp. apply Hp; [| exact Hc | rewrite Hs, Hcells'; exact Hclon].
      rewrite Hcells', Hcells. apply operable_app, Hop.
    + intros g Hg _. cbn [frames set_frames].
      pose proof (In_push_and_sort f g (frames layer)) as Hin. rewrite Esort in Hin.
      apply Hin. left. exact Hg.
    + intros r0 f0 E0. discriminate E0.
    + intros _. rewrite Esort. cbn [fst snd]. splits; try reflexivity; try assumption.
      exists h1. rewrite Hs. split; [reflexivity|congruence].
Qed.

(** *** The keyframe in effect, from its description *)

Lemma getKeyframeAt_intro (index : Z) (layer : Layer) (r : nat) (f : Frame) :
  frames layer !! r = Some f -> isKeyframe f = true -> frame_index f <= index ->
  (forall r' g,
     frames layer !! r' = Some g -> isKeyframe g = true -> frame_index g <= index ->
     frame_index g < frame_index f \/ (frame_index g = frame_index f /\ (r <= r')%nat)) ->
  Layer.getKeyframeAt index layer = Some (r, f).
Proof.
  intros Hr Hk Hi Hmax.
  pose proof (nearest_keyframe index layer) as Hnear.
  destruct (Layer.getKeyframeAt index layer) as [[r0 f0]|].
  - destruct Hnear as (Hr0 & Hk0 & Hi0 & Hmax0).
    destruct (Hmax0 r f Hr Hk Hi) as [Hlt|[Heq Hle]];
      destruct (Hmax r0 f0 Hr0 Hk0 Hi0) as [Hlt'|[Heq' Hle']]; try lia.
    assert (r0 = r) by lia. subst r0. congruence.
  - exfalso. assert (Hin : In f (frames layer)) by (apply In_lookup; eauto).
    specialize (Hnear f Hin Hk). lia.
Qed.

Lemma getKeyframeAt_None_intro (index : Z) (layer : Layer) :
  (forall g, In g (frames layer) -> isKeyframe g = true -> index < frame_index g) ->
  Layer.getKeyframeAt index layer = None.
Proof.
  intros Hall. pose proof (nearest_keyframe index layer) as Hnear.
  destruct (Layer.getKeyframeAt index layer) as [[r0 f0]|]; [|reflexivity].
  destruct Hnear as (Hr0 & Hk0 & Hi0 & _).
  assert (Hin : In f0 (frames layer)) by (apply In_lookup; eauto).
  specialize (Hall f0 Hin Hk0). lia.
Qed.

(** A change to the keyframe in effect that keeps its index and leaves it a
    keyframe leaves it in effect. *)
Lemma getKeyframeAt_change (index : Z) (layer : Layer) (r : nat) (old new : Frame) :
  Layer.getKeyframeAt index layer = Some (r, old) ->
  frame_index new = frame_index old -> isKeyframe new = true ->
  Layer.getKeyframeAt index (set_frames (fun fs => <[r := new]> fs) layer)
  = Some (r, new).
Proof.
  intros Hget Hi Hk.
  pose proof (nearest_keyframe index layer) as Hnear. rewrite Hget in Hnear.
  destruct Hnear as (Hr & Hko & Hio & Hmax).
  apply getKeyframeAt_intro; cbn [frames set_frames].
  - apply list_lookup_insert_eq. apply lookup_lt_Some in Hr. exact Hr.
  - exact Hk.
  - lia.
  - intros r' g Hg Hkg Hig. destruct (Nat.eq_dec r' r) as [->|Hne].
    + rewrite list_lookup_insert_eq in Hg by (apply lookup_lt_Some in Hr; exact Hr).
      injection Hg as <-. right. split; [reflexivity|lia].
    + rewrite list_lookup_insert_ne in Hg by congruence.
      rewrite Hi. apply Hmax; assumption.
Qed.

Lemma ascending_lookup (layer : Layer) (i j : nat) (a b : Frame) :
  ascending layer -> frames layer !! i = Some a -> frames layer !! j = Some b ->
  (i < j)%nat -> frame_index a < frame_index b.
Proof.
  unfold ascending. generalize (frames layer). intros fs H. revert i j.
  induction fs as [|x fs IH]; intros i j Hi Hj Hlt; [discriminate Hi|].
  cbn [map] in H. apply StronglySorted_inv in H as [Hs Hall].
  destruct j as [|j]; [lia|]. cbn in Hj. destruct i as [|i]; cbn in Hi.
  - injection Hi as ->. rewrite Forall_forall in Hall. apply Hall.
    apply list_elem_of_In, in_map, In_lookup. eauto.
  - apply (IH Hs i j Hi Hj). lia.
Qed.

Lemma ascending_same_index (layer : Layer) (i j : nat) (a b : Frame) :
  ascending layer -> frames layer !! i = Some a -> frames layer !! j = Some b ->
  frame_index a = frame_index b -> i = j.
Proof.
  intros H Hi Hj E.
  destruct (Nat.lt_trichotomy i j) as [Hlt|[Heq|Hgt]]; [|exact Heq|].
  - pose proof (ascending_lookup layer i j a b H Hi Hj Hlt). lia.
  - pose proof (ascending_lookup layer j i b a H Hj Hi Hgt). lia.
Qed.

(** X6.  On a layer whose frames are instances of [Frame] holding shapes
    that can be cloned, [insertKeyframe(index)] returns the frame that
    [getFrame(index)] then finds: a keyframe at that index, which is the
    keyframe in effect there.  The frames at other indices stay in the layer
    and the layer can be operated on again.  When a frame already exists at
    the index and is not flagged empty, only its [isKeyframe] is set: the
    heap is untouched, and a layer whose frame was a keyframe already is
    unchanged. *)
Theorem insertKeyframe_makes_the_keyframe (h : Heap) (layer : Layer) (index : Z) :
  operable (cells h) layer ->
  exists r h' layer' f,
    Layer.insertKeyframe index (h, layer) = (Return r, (h', layer')) /\
    Layer.getFrame index layer' = Some (r, f) /\
    Layer.getKeyframeAt index layer' = Some (r, f) /\
    frame_index f = index /\ isKeyframe f = true /\
    operable (cells h') layer' /\
    (forall g, In g (frames layer) -> frame_index g <> index -> In g (frames layer')) /\
    (forall r0 f0,
       Layer.getFrame index layer = Some (r0, f0) -> isEmpty f0 = false ->
       r = r0 /\ h' = h /\
       layer' = set_frames (fun fs => <[r0 := set_isKeyframe true f0]> fs) layer /\
       (isKeyframe f0 = true -> layer' = layer)).
Proof.
  intros Hop.
  destruct (insertKeyframe_run h layer index Hop)
    as (r & h' & ext & layer' & f & Hrun & Hcells & Hop' & Hget & Hi & Hk & Hothers
        & Hexisting & _).
  exists r, h', layer', f. splits; try assumption.
  - apply getKeyframeAt_at; assumption.
  - intros r0 f0 Hget0 He.
    destruct (Hexisting r0 f0 Hget0) as (-> & -> & Hcontent).
    destruct (Hcontent He) as [-> ->]. splits; try reflexivity.
    intros Hk0. apply find_ref_Some in Hget0 as [Hr0 _].
    replace (set_isKeyframe true f0) with f0
      by (destruct f0; cbn in Hk0; subst; reflexivity).
    destruct layer as [i n v l fs c]. unfold set_frames. cbn in *.
    rewrite list_insert_id by exact Hr0. reflexivity.
Qed.

Lemma addShape_run (h : Heap) (f : Frame) (shape : loc) :
  frame_class f = true ->
  Frame.addShape shape (h, f)
  = (Return tt, (h, set_isEmpty false (set_shapes (shapes f ++ [shape]) f))).
Proof.
  intros Hc. unfold Frame.addShape, bind, this, method. cbn. rewrite Hc.
  reflexivity.
Qed.

(** X7.  On a layer whose frames are instances of [Frame] holding shapes
    that can be cloned, [addShapeAtFrame(index, shape)] returns, and the
    keyframe in effect at [index] is then a keyframe at that very index, not
    flagged empty, whose last shape is [shape]: [getShapesAtFrame(index)]
    ends with it.  When a keyframe was at [index] already, the shape is
    appended to its shapes and nothing else changes. *)
Theorem addShapeAtFrame_appends (h : Heap) (layer : Layer) (index : Z) (shape : loc) :
  operable (cells h) layer ->
  exists h' layer' r f before,
    Layer.addShapeAtFrame index shape (h, layer) = (Return tt, (h', layer')) /\
    Layer.getKeyframeAt index layer' = Some (r, f) /\
    frame_index f = index /\ isEmpty f = false /\
    shapes f = before ++ [shape] /\
    Layer.getShapesAtFrame index layer' = before ++ [shape] /\
    (forall r0 k,
       Layer.getKeyframeAt index layer = Some (r0, k) -> frame_index k = index ->
       h' = h /\ before = shapes k /\ r = r0 /\
       layer' = set_frames
                  (fun fs => <[r0 := set_isEmpty false (set_shapes (shapes k ++ [shape]) k)]> fs)
                  layer).
Proof.
  intros Hop. unfold Layer.addShapeAtFrame, bind at 1. rewrite this_run. cbn [snd].
  assert (Hinsert :
    (forall r0 k, Layer.getKeyframeAt index layer = Some (r0, k) -> frame_index k <> index) ->
    exists h' layer' r f before,
      (keyframe <- Layer.insertKeyframe index ;;
       Layer.on_frame keyframe (Frame.addShape shape)) (h, layer)
        = (Return tt, (h', layer')) /\
      Layer.getKeyframeAt index layer' = Some (r, f) /\
      frame_index f = index /\ isEmpty f = false /\
      shapes f = before ++ [shape] /\
      Layer.getShapesAtFrame index layer' = before ++ [shape] /\
      (forall r0 k,
         Layer.getKeyframeAt index layer = Some (r0, k) -> frame_index k = index ->
         h' = h /\ before = shapes k /\ r = r0 /\
         layer' = set_frames
                    (fun fs => <[r0 := set_isEmpty false (set_shapes (shapes k ++ [shape]) k)]> fs)
                    layer)).
  { intros Hnot.
    destruct (insertKeyframe_run h layer index Hop)
      as (r & h' & ext & layer1 & f & Hrun & Hcells & Hop' & Hget & Hi & Hk & _).
    pose proof Hget as Hfind. apply find_ref_Some in Hfind as [Hr _].
    destruct (operable_lookup _ _ _ _ Hop' Hr) as [Hc _].
    unfold bind. rewrite Hrun, on_frame_run, Hr, (addShape_run h' f shape Hc).
    cbn [fst snd].
    set (f2 := set_isEmpty false (set_shapes (shapes f ++ [shape]) f)).
    assert (Hat : Layer.getKeyframeAt index (set_frames (fun fs => <[r := f2]> fs) layer1)
                  = Some (r, f2)).
    { apply getKeyframeAt_at; [|exact Hk].
      apply (getFrame_change index layer1 r f f2 Hget eq_refl). }
    exists h', (set_frames (fun fs => <[r := f2]> fs) layer1), r, f2, (shapes f).
    splits; try assumption; try reflexivity.
    - unfold Layer.getShapesAtFrame. rewrite Hat. reflexivity.
    - intros r0 k Hk0 Hik. exfalso. apply (Hnot r0 k Hk0 Hik). }
  destruct (Layer.getKeyframeAt index layer) as [[r0 k]|] eqn:Hat0.
  - destruct (frame_index k =? index) eqn:Ei; cbn [negb].
    + apply Z.eqb_eq in Ei.
      pose proof Hat0 as Hfind. apply getKeyframeAt_Some in Hfind as (Hr & Hk & _).
      destruct (operable_lookup _ _ _ _ Hop Hr) as [Hc _].
      unfold bind, ret. rewrite on_frame_run, Hr, (addShape_run h k shape Hc).
      cbn [fst snd].
      set (f2 := set_isEmpty false (set_shapes (shapes k ++ [shape]) k)).
      pose proof (getKeyframeAt_change index layer r0 k f2 Hat0 eq_refl Hk) as Hat.
      exists h, (set_frames (fun fs => <[r0 := f2]> fs) layer), r0, f2, (shapes k).
      splits; try assumption; try reflexivity.
      * unfold Layer.getShapesAtFrame. rewrite Hat. reflexivity.
      * intros r1 k1 E _. injection E as <- <-. splits; reflexivity.
    + apply Z.eqb_neq in Ei. apply Hinsert.
      intros r1 k1 E. injection E as <- <-. exact Ei.
  - apply Hinsert. intros r1 k1 E. discriminate E.
Qed.

Lemma delete_lookup_In {X : Type} (xs : list X) (r j : nat) (y : X) :
  delete r xs !! j = Some y ->
  xs !! (if decide (j < r)%nat then j else S j) = Some y.
Proof. rewrite list_lookup_delete. auto. Qed.

(** X8.  [clearKeyframe(index)] changes nothing when no frame is at [index]
    or when the frame there is not a keyframe.  For a keyframe at an index
    other than 1 it removes that frame from the array and touches nothing
    else; when the frames are in the order of their indices, no frame is
    then left at [index], and the keyframe in effect there is the one that
    was in effect just before it: [getShapesAtFrame(index)] shows what
    [getShapesAtFrame(index - 1)] showed. *)
Theorem clearKeyframe_removes (h : Heap) (layer : Layer) (index : Z) :
  (Layer.getFrame index layer = None ->
   Layer.clearKeyframe index (h, layer) = (Return tt, (h, layer))) /\
  (forall r f, Layer.getFrame index layer = Some (r, f) -> isKeyframe f = false ->
   Layer.clearKeyframe index (h, layer) = (Return tt, (h, layer))) /\
  (forall r f, Layer.getFrame index layer = Some (r, f) -> isKeyframe f = true ->
   index <> 1 ->
   let layer' := set_frames (fun fs => delete r fs) layer in
   Layer.clearKeyframe index (h, layer) = (Return tt, (h, layer')) /\
   (ascending layer ->
    Layer.getFrame index layer' = None /\
    Layer.getKeyframeAt index layer' = Layer.getKeyframeAt (index - 1) layer /\
    Layer.getShapesAtFrame index layer' = Layer.getShapesAtFrame (index - 1) layer)).
Proof.
  splits.
  - intros Hget. unfold Layer.clearKeyframe, bind. rewrite this_run. cbn [snd].
    rewrite Hget. reflexivity.
  - intros r f Hget Hk. unfold Layer.clearKeyframe, bind. rewrite this_run. cbn [snd].
    rewrite Hget, Hk. reflexivity.
  - intros r f Hget Hk Hne layer'. split.
    + unfold Layer.clearKeyframe, bind. rewrite this_run. cbn [snd].
      rewrite Hget, Hk. apply Z.eqb_neq in Hne. rewrite Hne. reflexivity.
    + intros Hasc.
      apply find_ref_Some in Hget as [Hr Hi]. apply Z.eqb_eq in Hi.
      assert (Hold : forall j y, frames layer' !! j = Some y ->
        exists j', frames layer !! j' = Some y /\ j' <> r /\
                   ((j < r)%nat -> j' = j) /\ ((r <= j)%nat -> (r < j')%nat)).
      { intros j y Hy. cbn [layer' frames set_frames] in Hy.
        apply delete_lookup_In in Hy. destruct (decide (j < r)%nat).
        - exists j. splits; [exact Hy|lia|auto|lia].
        - exists (S j). splits; [exact Hy|lia|lia|lia]. }
      assert (Hbelow : forall j y, frames layer' !! j = Some y ->
        frame_index y <= index -> (j < r)%nat /\ frames layer !! j = Some y /\
                                  frame_index y <= index - 1).
      { intros j y Hy Hle. destruct (Hold j y Hy) as (j' & Hj' & Hnr & Hlt & Hge).
        destruct (Nat.lt_ge_cases j r) as [Hjr|Hjr].
        - rewrite (Hlt Hjr) in Hj'. splits; [exact Hjr|exact Hj'|].
          pose proof (ascending_lookup layer j r y f Hasc Hj' Hr Hjr). lia.
        - specialize (Hge Hjr).
          pose proof (ascending_lookup layer r j' f y Hasc Hr Hj' Hge). lia. }
      assert (Hnone : Layer.getFrame index layer' = None).
      { unfold Layer.getFrame.
        destruct (find_ref _ (frames layer')) as [[j y]|] eqn:E; [|reflexivity].
        apply find_ref_Some in E as [Hy Hp]. apply Z.eqb_eq in Hp.
        destruct (Hbelow j y Hy) as (_ & _ & Hlt); lia. }
      assert (Hat : Layer.getKeyframeAt index layer'
                    = Layer.getKeyframeAt (index - 1) layer).
      { pose proof (nearest_keyframe (index - 1) layer) as Hnear.
        destruct (Layer.getKeyframeAt (index - 1) layer) as [[r0 f0]|].
        - destruct Hnear as (Hr0 & Hk0 & Hi0 & Hmax).
          assert (Hlt : (r0 < r)%nat).
          { destruct (Nat.lt_trichotomy r0 r) as [?|[->|Hgt]]; [assumption| |].
            - rewrite Hr in Hr0. injection Hr0 as <-. lia.
            - pose proof (ascending_lookup layer r r0 f f0 Hasc Hr Hr0 Hgt). lia. }
          apply getKeyframeAt_intro.
          + cbn [layer' frames set_frames]. rewrite list_lookup_delete_lt; assumption.
          + exact Hk0.
          + lia.
          + intros j y Hy Hky Hiy.
            destruct (Hbelow j y Hy Hiy) as (_ & Hj & Hle).
            apply (Hmax j y Hj Hky Hle).
        - apply getKeyframeAt_None_intro. intros g Hg Hkg.
          apply In_lookup in Hg as [j Hj].
          destruct (Z.le_gt_cases (frame_index g) index) as [Hle|Hgt]; [|lia].
          destruct (Hbelow j g Hj Hle) as (_ & Hj' & Hle').
          assert (Hin : In g (frames layer)) by (apply In_lookup; eauto).
          specialize (Hnear g Hin Hkg). lia. }
      splits; [exact Hnone|exact Hat|].
      unfold Layer.getShapesAtFrame. rewrite Hat. reflexivity.
Qed.

Lemma fold_max_spec (zs : list Z) (a : Z) :
  (fold_left Z.max zs a = a \/ In (fold_left Z.max zs a) zs) /\
  a <= fold_left Z.max zs a /\
  forall z, In z zs -> z <= fold_left Z.max zs a.
Proof.
  revert a. induction zs as [|x zs IH]; intros a; cbn [fold_left].
  - splits; [left; reflexivity|lia|intros z []].
  - destruct (IH (Z.max a x)) as (Hm & Hle & Hall). splits.
    + destruct Hm as [Hm|Hm]; [|right; right; exact Hm].
      rewrite Hm. destruct (Z.max_spec a x) as [[_ ->]|[_ ->]];
        [right; left; reflexivity|left; reflexivity].
    + lia.
    + intros z [<-|Hz]; [lia|apply Hall, Hz].
Qed.

(** X9.  [getFrameCount()] is 1 for a layer without frames; otherwise it is
    the largest index of its frames: the index of one of them, and at least
    the index of each. *)
Theorem getFrameCount_is_the_largest_index (layer : Layer) :
  (frames layer = [] -> Layer.getFrameCount layer = 1) /\
  (frames layer <> [] ->
   (exists f, In f (frames layer) /\ Layer.getFrameCount layer = frame_index f) /\
   (forall g, In g (frames layer) -> frame_index g <= Layer.getFrameCount layer)).
Proof.
  unfold Layer.getFrameCount. split.
  - intros ->. reflexivity.
  - intros Hne. destruct (frames layer) as [|f rest]; [congruence|]. clear Hne.
    destruct (fold_max_spec (map frame_index rest) (frame_index f)) as (Hm & Hle & Hall).
    split.
    + destruct Hm as [Hm|Hm].
      * exists f. split; [left; reflexivity|exact Hm].
      * apply in_map_iff in Hm as (g & Hg & Hin). exists g. split; [right; exact Hin|].
        symmetry. exact Hg.
    + intros g [<-|Hg]; [exact Hle|]. apply Hall, in_map, Hg.
Qed.

(** ** Frame: shapes by id *)

Lemma findIndexA_has_id (h : Heap) (shapeId : UID) (ls : list loc) (ids : list UID)
    (i : nat) :
  ids_of (cells h) ls = Some ids ->
  findIndexA (Frame.has_id shapeId) ls i h
  = (Return ((fun p => (i + fst p)%nat) <$> find_ref (is_id shapeId) ids), h).
Proof.
  revert ids i. induction ls as [|l ls IH]; intros ids i Hids.
  - injection Hids as <-. reflexivity.
  - unfold ids_of in Hids. apply mapM_Some in Hids.
    destruct ids as [|id rest]; [inversion Hids|].
    apply Forall2_cons_1 in Hids as [Hid Hrest]. apply mapM_Some in Hrest.
    unfold id_of in Hid.
    destruct (cells h !! l) as [[s| | | | | |]|] eqn:Hl; try discriminate Hid.
    injection Hid as <-.
    assert (Hhead : Frame.has_id shapeId l h
                    = (Return (String.eqb (shape_id s) shapeId), h)).
    { unfold Frame.has_id, bind. rewrite (read_shape_run h l s Hl). reflexivity. }
    cbn [findIndexA find_ref]. unfold bind at 1. rewrite Hhead. unfold is_id at 1.
    destruct (String.eqb (shape_id s) shapeId).
    + cbn. rewrite Nat.add_0_r. reflexivity.
    + rewrite (IH rest (S i) Hrest).
      destruct (find_ref (is_id shapeId) rest) as [[j y]|]; cbn; [|reflexivity].
      do 3 f_equal. lia.
Qed.

Lemma ids_of_length (cs : list Obj) (ls : list loc) (ids : list UID) :
  ids_of cs ls = Some ids -> length ids = length ls.
Proof. intros H. symmetry. apply (length_mapM _ _ _ H). Qed.

Lemma ids_of_snoc (cs : list Obj) (ls : list loc) (ids : list UID) (l : loc) (s : Shape) :
  ids_of cs ls = Some ids -> cs !! l = Some (OShape s) ->
  ids_of cs (ls ++ [l]) = Some (ids ++ [shape_id s]).
Proof.
  unfold ids_of. intros H Hl. apply mapM_Some. apply mapM_Some in H.
  apply Forall2_app; [exact H|]. constructor; [|constructor].
  unfold id_of. rewrite Hl. reflexivity.
Qed.

Lemma find_ref_snoc {X : Type} (p : X -> bool) (xs : list X) (x : X) :
  find_ref p xs = None -> p x = true ->
  find_ref p (xs ++ [x]) = Some (length xs, x).
Proof.
  intros Hnone Hx. apply find_ref_intro.
  - rewrite lookup_app_r, Nat.sub_diag by lia. reflexivity.
  - exact Hx.
  - intros j y Hj Hy. rewrite lookup_app_l in Hy by exact Hj.
    apply (find_ref_None _ _ Hnone), In_lookup. eauto.
Qed.

Lemma delete_snoc {X : Type} (xs : list X) (x : X) : delete (length xs) (xs ++ [x]) = xs.
Proof.
  induction xs as [|a xs IH]; [reflexivity|].
  cbn [length app]. change (delete (S (length xs)) (a :: (xs ++ [x])))
    with (a :: delete (length xs) (xs ++ [x])).
  rewrite IH. reflexivity.
Qed.

Lemma removeShape_run (h : Heap) (sid : UID) (f0 : Frame) (ids0 : list UID) :
  frame_class f0 = true ->
  ids_of (cells h) (shapes f0) = Some ids0 ->
  Frame.removeShape sid (h, f0)
  = match find_ref (is_id sid) ids0 with
    | Some (i, _) =>
        (Return true,
         (h, set_isEmpty (length (delete i (shapes f0)) =? 0)%nat
               (set_shapes (delete i (shapes f0)) f0)))
    | None => (Return false, (h, f0))
    end.
Proof.
  intros Hc0 Hids0. unfold Frame.removeShape, bind at 1. rewrite this_run.
  cbn [snd]. unfold bind at 1, method. rewrite Hc0. cbn [ret].
  unfold bind at 1. rewrite on_heap_run, (findIndexA_has_id h sid _ _ O Hids0).
  cbn [fst snd].
  destruct (find_ref (is_id sid) ids0) as [[i id]|]; reflexivity.
Qed.

(** X10.  On a frame whose shapes are in the heap, [removeShape(id)] looks
    for the first shape with that id.  When there is none it returns false
    and changes nothing.  Otherwise it returns true and removes that one
    shape, leaving later shapes with the same id in place, and sets
    [isEmpty] exactly when no shape is left.  [getShape(id)] returns that
    first shape, or [undefined].  Removing by its id a shape that was just
    added gives back the earlier shapes, when none of them has that id. *)
Theorem removeShape_removes_the_first (h : Heap) (f : Frame) (shapeId : UID)
    (ids : list UID) :
  frame_class f = true ->
  ids_of (cells h) (shapes f) = Some ids ->
  (find_ref (is_id shapeId) ids = None ->
   Frame.removeShape shapeId (h, f) = (Return false, (h, f)) /\
   Frame.getShape shapeId (h, f) = (Return None, (h, f))) /\
  (forall i id, find_ref (is_id shapeId) ids = Some (i, id) ->
   Frame.removeShape shapeId (h, f)
   = (Return true,
      (h, set_isEmpty (length (delete i (shapes f)) =? 0)%nat
            (set_shapes (delete i (shapes f)) f))) /\
   Frame.getShape shapeId (h, f) = (Return (shapes f !! i), (h, f))) /\
  (forall shape s,
     cells h !! shape = Some (OShape s) ->
     find_ref (is_id (shape_id s)) ids = None ->
     (Frame.addShape shape ;; Frame.removeShape (shape_id s)) (h, f)
     = (Return true,
        (h, set_isEmpty (length (shapes f) =? 0)%nat (set_shapes (shapes f) f)))).
Proof.
  intros Hc Hids.
  pose proof (removeShape_run h) as Hrun.
  assert (Hget : Frame.getShape shapeId (h, f)
    = (Return (i ← fst <$> find_ref (is_id shapeId) ids; shapes f !! i), (h, f))).
  { unfold Frame.getShape, bind at 1. rewrite this_run. cbn [snd].
    unfold bind at 1, method. rewrite Hc. cbn [ret].
    unfold bind at 1. rewrite on_heap_run, (findIndexA_has_id h shapeId _ _ O Hids).
    cbn [fst snd ret].
    destruct (find_ref (is_id shapeId) ids) as [[i id]|]; reflexivity. }
  splits.
  - intros Hnone. rewrite (Hrun shapeId f ids Hc Hids), Hget, Hnone. split; reflexivity.
  - intros i id Hsome. rewrite (Hrun shapeId f ids Hc Hids), Hget, Hsome.
    split; reflexivity.
  - intros shape s Hshape Hnone.
    unfold bind at 1. rewrite (addShape_run h f shape Hc).
    rewrite (Hrun (shape_id s)
               (set_isEmpty false (set_shapes (shapes f ++ [shape]) f))
               (ids ++ [shape_id s]) Hc (ids_of_snoc _ _ _ _ _ Hids Hshape)).
    rewrite (find_ref_snoc _ _ _ Hnone) by (apply String.eqb_refl).
    rewrite (ids_of_length _ _ _ Hids).
    cbn [shapes set_isEmpty set_shapes]. rewrite delete_snoc. reflexivity.
Qed.

(** ** Document: the current frame *)

Lemma set_currentFrame_same (d : Document) : set_currentFrame (_currentFrame d) d = d.
Proof. destruct d. reflexivity. Qed.

Lemma set_currentFrame_run (n : Z) (h : Heap) (d : Document) :
  Document.set_currentFrame n (h, d)
  = (Return tt, (h, set_currentFrame (Z.max 1 n) d)).
Proof.
  unfold Document.set_currentFrame, bind. rewrite this_run. cbn [snd].
  destruct (Z.max 1 n =? _currentFrame d) eqn:E; cbn [negb].
  - apply Z.eqb_eq in E. rewrite E, set_currentFrame_same. reflexivity.
  - reflexivity.
Qed.

Lemma totalFrames_spec (ls : list Layer) (a : Z) :
  a <= fold_left (fun max layer => Z.max max (Layer.getFrameCount layer)) ls a /\
  forall l, In l ls ->
    Layer.getFrameCount l
    <= fold_left (fun max layer => Z.max max (Layer.getFrameCount layer)) ls a.
Proof.
  revert a. induction ls as [|x ls IH]; intros a; cbn [fold_left].
  - split; [lia|intros l []].
  - destruct (IH (Z.max a (Layer.getFrameCount x))) as [Hle Hall]. split; [lia|].
    intros l [<-|Hl]; [lia|apply Hall, Hl].
Qed.

(** X11.  The current frame never goes below 1.  The setter stores
    [max(1, frame)]; [nextFrame] adds one; [prevFrame] subtracts one and
    stays at 1 on frame 1; [firstFrame] goes to 1; [lastFrame] goes to
    [totalFrames], which is at least 60 and at least the frame count of
    every layer.  None of them touches the heap or another field of the
    document. *)
Theorem currentFrame_stays_at_least_1 (h : Heap) (d : Document) :
  (forall n, Document.set_currentFrame n (h, d)
             = (Return tt, (h, set_currentFrame (Z.max 1 n) d))) /\
  Document.nextFrame (h, d)
    = (Return tt, (h, set_currentFrame (Z.max 1 (_currentFrame d + 1)) d)) /\
  Document.prevFrame (h, d)
    = (Return tt, (h, set_currentFrame (Z.max 1 (_currentFrame d - 1)) d)) /\
  Document.firstFrame (h, d) = (Return tt, (h, set_currentFrame 1 d)) /\
  Document.lastFrame (h, d)
    = (Return tt, (h, set_currentFrame (Document.totalFrames d) d)) /\
  60 <= Document.totalFrames d /\
  (forall l, In l (layers d) -> Layer.getFrameCount l <= Document.totalFrames d) /\
  (_currentFrame d = 1 ->
   Document.prevFrame (h, d) = (Return tt, (h, d))).
Proof.
  destruct (totalFrames_spec (layers d) 60) as [H60 Hall].
  splits.
  - intros n. apply set_currentFrame_run.
  - unfold Document.nextFrame, bind. rewrite this_run. apply set_currentFrame_run.
  - unfold Document.prevFrame, bind. rewrite this_run. apply set_currentFrame_run.
  - apply set_currentFrame_run.
  - unfold Document.lastFrame, bind. rewrite this_run. cbn [snd].
    rewrite set_currentFrame_run. do 3 f_equal.
    unfold Document.totalFrames in *. lia.
  - exact H60.
  - exact Hall.
  - intros E. unfold Document.prevFrame, bind. rewrite this_run. cbn [snd].
    rewrite set_currentFrame_run. unfold Document.currentFrame.
    replace (Z.max 1 (_currentFrame d - 1)) with (_currentFrame d) by lia.
    rewrite set_currentFrame_same. reflexivity.
Qed.

(** ** Document: what is visible *)

Lemma visible_from_app (d : Document) (i : nat) (result : list (loc * UID)) :
  Document.visible_from d i result
  = result ++ flat_map (painted d) (rev (take i (layers d))).
Proof.
  revert result. induction i as [|i IH]; intros result; cbn [Document.visible_from].
  - rewrite take_0. cbn. rewrite app_nil_r. reflexivity.
  - destruct (layers d !! i) as [layer|] eqn:Hi.
    + rewrite (take_S_r _ _ _ Hi), rev_app_distr. cbn [rev app flat_map].
      assert (Hp : painted d layer
                   = if visible layer
                     then map (fun shape => (shape, layer_id layer))
                              (Layer.getShapesAtFrame (_currentFrame d) layer)
                     else []) by reflexivity.
      rewrite Hp. destruct (visible layer); cbn [negb].
      * rewrite IH, <- app_assoc. reflexivity.
      * rewrite IH. reflexivity.
    + rewrite IH. apply lookup_ge_None in Hi.
      rewrite !take_ge by lia. reflexivity.
Qed.

(** X12.  [getVisibleShapes()] returns, for the layers from the last of the
    array to the first, the shapes that each visible layer shows at the
    current frame, in their order on the keyframe and each with the id of
    its layer; an invisible layer contributes nothing. *)
Theorem getVisibleShapes_back_to_front (d : Document) :
  Document.getVisibleShapes d = flat_map (painted d) (rev (layers d)).
Proof.
  unfold Document.getVisibleShapes. rewrite visible_from_app, firstn_all. reflexivity.
Qed.

(** ** Document: the layers *)

Lemma named_layer_new (name : option string) (h : Heap) :
  exists layer h',
    Layer.new (named_layer name) h = (Return layer, h') /\
    cells h' = cells h /\
    layerCount h' = S (layerCount h) /\
    layer_id layer = uid_source h (uid_calls h) /\
    layer_name layer = default ("Layer " +:+ pretty (S (layerCount h))) name /\
    visible layer = true /\ locked layer = false /\
    frame1_is_keyframe layer /\ ascending layer /\
    exists f, frames layer = [f] /\ frame_class f = true /\ frame_index f = 1 /\
              isKeyframe f = true /\ isEmpty f = true /\ shapes f = [] /\
              frame_id f = uid_source h (S (uid_calls h)).
Proof.
  unfold Layer.new, bind, Layer.increment_layerCount, named_layer. cbn.
  eexists _, _. split; [reflexivity|]. cbn. splits; try reflexivity.
  - eexists O, _. split; reflexivity.
  - unfold ascending. cbn. repeat constructor.
  - eexists. splits; reflexivity.
Qed.

Lemma set_layers_same (d : Document) : set_layers (fun _ => layers d) d = d.
Proof. destruct d. reflexivity. Qed.


Lemma find_ref_exists {X : Type} (p : X -> bool) (xs : list X) (x : X) :
  In x xs -> p x = true -> exists r y, find_ref p xs = Some (r, y).
Proof.
  intros Hin Hp. destruct (find_ref p xs) as [[r y]|] eqn:E; [eauto|].
  pose proof (find_ref_None _ _ E x Hin). congruence.
Qed.

Lemma find_ref_Permutation {X : Type} (p : X -> bool) (xs ys : list X) :
  xs ≡ₚ ys -> (exists r y, find_ref p xs = Some (r, y)) ->
  exists r y, find_ref p ys = Some (r, y).
Proof.
  intros Hperm (r & y & E). apply find_ref_Some in E as [Hr Hp].
  apply (find_ref_exists p ys y); [|exact Hp].
  apply list_elem_of_In. rewrite <- Hperm. apply list_elem_of_In, In_lookup. eauto.
Qed.

Lemma splice_in_delete_Permutation {X : Type} (xs : list X) (i j : nat) (x : X) :
  xs !! j = Some x -> splice_in i x (delete j xs) ≡ₚ xs.
Proof.
  intros Hj. unfold splice_in.
  rewrite <- Permutation_middle, take_drop.
  symmetry. apply delete_Permutation. exact Hj.
Qed.

Lemma selection_valid_layers (d d' : Document) :
  _selectedLayerId d' = _selectedLayerId d ->
  layers d' ≡ₚ layers d ->
  selection_valid d -> selection_valid d'.
Proof.
  intros Hsel Hperm Hvalid id Hid. rewrite Hsel in Hid.
  unfold Document.getLayer in *.
  apply (find_ref_Permutation _ (layers d)); [symmetry; exact Hperm|].
  apply Hvalid, Hid.
Qed.

(** X14.  A document that has a layer and whose selected layer, if any,
    exists in it is still so after [addLayer], [removeLayer],
    [moveLayerUp], [moveLayerDown] and [selectLayer], whatever their
    arguments: the last layer is never removed, and the selection never
    names a layer that is gone. *)
Theorem layers_stay_well_layered (h : Heap) (d : Document) :
  well_layered d ->
  (forall name, well_layered (snd (snd (Document.addLayer name (h, d))))) /\
  (forall layerId, well_layered (snd (snd (Document.removeLayer layerId (h, d))))) /\
  (forall layerId, well_layered (snd (snd (Document.moveLayerUp layerId (h, d))))) /\
  (forall layerId, well_layered (snd (snd (Document.moveLayerDown layerId (h, d))))) /\
  (forall layerId, well_layered (snd (snd (Document.selectLayer layerId (h, d))))).
Proof.
  intros [Hne Hvalid]. splits.
  - intros name.
    destruct (named_layer_new name h) as (new & h' & Hnew & _).
    unfold Document.addLayer, bind at 1. rewrite on_heap_run, Hnew. cbn.
    split; [discriminate|]. intros id Hid. cbn in Hid. injection Hid as <-.
    unfold Document.getLayer. cbn. rewrite String.eqb_refl. eauto.
  - intros layerId. unfold Document.removeLayer, bind at 1. rewrite this_run. cbn [snd].
    destruct (length (layers d) <=? 1)%nat eqn:Elen; [split; assumption|].
    apply Nat.leb_gt in Elen.
    destruct (find_ref _ (layers d)) as [[index l]|] eqn:Efind; [|split; assumption].
    pose proof Efind as Hfind. apply find_ref_Some in Hfind as [Hindex Hid].
    cbn [bind set_this modify fst snd].
    assert (Hne' : delete index (layers d) <> []).
    { intros E. apply (f_equal length) in E.
      rewrite length_delete in E by eauto. cbn in E. lia. }
    destruct (Document.is_selected layerId d) eqn:Esel;
      cbn [bind set_this modify emit Document.emit ret fst snd this layers set_layers
           set_selectedLayerId].
    + split; [exact Hne'|]. intros id Hsel. cbn in Hsel.
      destruct (delete index (layers d)) as [|l0 rest] eqn:Ed; [congruence|].
      cbn in Hsel. injection Hsel as <-. unfold Document.getLayer. cbn.
      rewrite Ed. cbn. rewrite String.eqb_refl. eauto.
    + split; [exact Hne'|]. intros id Hsel. cbn in Hsel.
      destruct (Hvalid id Hsel) as (r & l' & Hget).
      unfold Document.getLayer in *. cbn [layers set_layers].
      assert (Hp : String.eqb (layer_id l) id = false).
      { unfold Document.is_selected in Esel. rewrite Hsel in Esel.
        apply String.eqb_eq in Hid. rewrite Hid, String.eqb_sym. exact Esel. }
      pose proof (find_ref_delete (fun l => String.eqb (layer_id l) id) (layers d)
                    index l Hindex Hp) as Hdel.
      rewrite Hget in Hdel.
      destruct (find_ref (fun l => String.eqb (layer_id l) id) (delete index (layers d)))
        as [[r' y]|]; [eauto|].
      discriminate Hdel.
  - intros layerId. unfold Document.moveLayerUp, bind at 1. rewrite this_run. cbn [snd].
    destruct (find_ref _ (layers d)) as [[[|above] l]|] eqn:Efind; try (split; assumption).
    apply find_ref_Some in Efind as [Hindex _].
    cbn [bind set_this modify emit Document.emit ret fst snd].
    pose proof (splice_in_delete_Permutation (layers d) above (S above) l Hindex) as Hperm.
    split.
    + cbn [layers set_layers]. intros E. rewrite E in Hperm.
      apply Permutation_nil_l in Hperm. congruence.
    + apply (selection_valid_layers d); [reflexivity|exact Hperm|exact Hvalid].
  - intros layerId. unfold Document.moveLayerDown, bind at 1. rewrite this_run.
    cbn [snd].
    destruct (find_ref _ (layers d)) as [[index l]|] eqn:Efind; [|split; assumption].
    destruct (index <? length (layers d) - 1)%nat; [|split; assumption].
    apply find_ref_Some in Efind as [Hindex _].
    cbn [bind set_this modify emit Document.emit ret fst snd].
    pose proof (splice_in_delete_Permutation (layers d) (S index) index l Hindex) as Hperm.
    split.
    + cbn [layers set_layers]. intros E. rewrite E in Hperm.
      apply Permutation_nil_l in Hperm. congruence.
    + apply (selection_valid_layers d); [reflexivity|exact Hperm|exact Hvalid].
  - intros layerId. unfold Document.selectLayer, bind at 1. rewrite this_run.
    cbn [snd].
    destruct (find_ref _ (layers d)) as [[index l]|] eqn:Efind; [|split; assumption].
    cbn [bind set_this modify emit Document.emit ret fst snd].
    split; [exact Hne|]. intros id Hsel. cbn in Hsel. injection Hsel as <-.
    unfold Document.getLayer. cbn [layers set_selectedLayerId]. eauto.
Qed.

Lemma split_at_two {X : Type} (xs : list X) (i : nat) (b : X) :
  xs !! S i = Some b ->
  exists pre a post, xs = pre ++ a :: b :: post /\ length pre = i.
Proof.
  intros Hb.
  assert (Hlt : (i < length xs)%nat) by (apply lookup_lt_Some in Hb; lia).
  apply lookup_lt_is_Some in Hlt as [a Ha].
  exists (take i xs), a, (drop (S (S i)) xs). split.
  - rewrite <- (take_drop_middle xs i a Ha) at 1. f_equal. f_equal.
    rewrite <- (take_drop_middle (drop (S i) xs) O b).
    + rewrite take_0, drop_drop. cbn. f_equal. f_equal. lia.
    + rewrite lookup_drop, Nat.add_0_r. exact Hb.
  - apply length_take_le. apply lookup_lt_Some in Ha. lia.
Qed.

Lemma delete_middle {X : Type} (pre post : list X) (a : X) :
  delete (length pre) (pre ++ a :: post) = pre ++ post.
Proof. induction pre as [|x pre IH]; cbn; [reflexivity|]. f_equal. exact IH. Qed.

Lemma splice_in_middle {X : Type} (pre post : list X) (x : X) :
  splice_in (length pre) x (pre ++ post) = pre ++ x :: post.
Proof.
  unfold splice_in. rewrite take_app_length, drop_app_length. reflexivity.
Qed.

Lemma insert_middle {X : Type} (pre post : list X) (a x : X) :
  <[length pre := x]> (pre ++ a :: post) = pre ++ x :: post.
Proof. induction pre as [|y pre IH]; cbn; [reflexivity|]. f_equal. exact IH. Qed.

Lemma find_ref_app_r {X : Type} (p : X -> bool) (pre rest : list X) :
  (forall y, In y pre -> p y = false) ->
  find_ref p (pre ++ rest)
  = match find_ref p rest with
    | Some (i, y) => Some ((length pre + i)%nat, y)
    | None => None
    end.
Proof.
  intros Hpre. induction pre as [|x pre IH]; cbn.
  - destruct (find_ref p rest) as [[i y]|]; reflexivity.
  - rewrite (Hpre x) by (left; reflexivity). rewrite IH by (intros; apply Hpre; right; auto).
    destruct (find_ref p rest) as [[i y]|]; reflexivity.
Qed.

(** X15.  [moveLayerUp(id)] on a layer that is not the first exchanges it
    with the layer before it, touches nothing else and returns true;
    [moveLayerDown(id)] right after puts both back, so that the document is
    as before.  On the first layer, or for an id that no layer has,
    [moveLayerUp] returns false and changes nothing; so does
    [moveLayerDown] on the last layer or for an unknown id. *)
Theorem moveLayerUp_then_moveLayerDown (h : Heap) (d : Document) (layerId : UID) :
  (forall above l, Document.getLayer layerId d = Some (S above, l) ->
   exists upper d',
     layers d !! above = Some upper /\
     Document.moveLayerUp layerId (h, d) = (Return true, (h, d')) /\
     d' = set_layers (fun ls => <[above := l]> (<[S above := upper]> ls)) d /\
     Document.getLayer layerId d' = Some (above, l) /\
     Document.moveLayerDown layerId (h, d') = (Return true, (h, d))) /\
  (forall l, Document.getLayer layerId d = Some (O, l) ->
   Document.moveLayerUp layerId (h, d) = (Return false, (h, d))) /\
  (Document.getLayer layerId d = None ->
   Document.moveLayerUp layerId (h, d) = (Return false, (h, d)) /\
   Document.moveLayerDown layerId (h, d) = (Return false, (h, d))) /\
  (forall r l, Document.getLayer layerId d = Some (r, l) -> S r = length (layers d) ->
   Document.moveLayerDown layerId (h, d) = (Return false, (h, d))).
Proof.
  unfold Document.getLayer. splits.
  - intros above l Hget.
    pose proof Hget as Hfind. apply find_ref_Some in Hfind as [Hl Hid].
    destruct (split_at_two (layers d) above l Hl) as (pre & upper & post & Els & Hlen).
    assert (Hpre : forall y, In y pre -> String.eqb (layer_id y) layerId = false).
    { intros y Hy. apply In_lookup in Hy as [j Hj]. apply not_true_is_false. intros Hp.
      assert (Hj' : layers d !! j = Some y).
      { rewrite Els. apply lookup_app_l_Some. exact Hj. }
      pose proof (find_ref_least _ _ _ _ Hget j y Hj' Hp).
      apply lookup_lt_Some in Hj. lia. }
    assert (Hupper : String.eqb (layer_id upper) layerId = false).
    { apply not_true_is_false. intros Hp.
      assert (Hj' : layers d !! above = Some upper).
      { rewrite Els, <- Hlen. rewrite lookup_app_r, Nat.sub_diag by lia. reflexivity. }
      pose proof (find_ref_least _ _ _ _ Hget above upper Hj' Hp). lia. }
    exists upper, (set_layers (fun ls => <[above := l]> (<[S above := upper]> ls)) d).
    assert (Hmoved : <[above := l]> (<[S above := upper]> (layers d))
                     = pre ++ l :: upper :: post).
    { rewrite Els, <- Hlen.
      replace (pre ++ upper :: l :: post) with ((pre ++ [upper]) ++ l :: post)
        by (rewrite <- app_assoc; reflexivity).
      replace (S (length pre)) with (length (pre ++ [upper]))
        by (rewrite length_app; cbn; lia).
      rewrite insert_middle, <- app_assoc. cbn [app].
      apply insert_middle. }
    assert (Hup : splice_in above l (delete (S above) (layers d))
                  = pre ++ l :: upper :: post).
    { rewrite Els, <- Hlen.
      replace (pre ++ upper :: l :: post) with ((pre ++ [upper]) ++ l :: post)
        by (rewrite <- app_assoc; reflexivity).
      replace (S (length pre)) with (length (pre ++ [upper]))
        by (rewrite length_app; cbn; lia).
      rewrite delete_middle, <- app_assoc. cbn [app].
      apply splice_in_middle. }
    assert (Hget' : find_ref (fun l0 => String.eqb (layer_id l0) layerId)
                      (pre ++ l :: upper :: post) = Some (above, l)).
    { rewrite (find_ref_app_r _ _ _ Hpre). cbn [find_ref]. rewrite Hid.
      rewrite Nat.add_0_r, Hlen. reflexivity. }
    splits.
    + rewrite Els, <- Hlen. rewrite lookup_app_r, Nat.sub_diag by lia. reflexivity.
    + unfold Document.moveLayerUp, bind at 1. rewrite this_run. cbn [snd].
      rewrite Hget. cbn [bind set_this modify emit Document.emit ret fst snd].
      unfold set_layers. rewrite Hup, Hmoved. reflexivity.
    + reflexivity.
    + cbn [layers set_layers]. rewrite Hmoved. exact Hget'.
    + unfold Document.moveLayerDown, bind at 1. rewrite this_run.
      cbn [snd layers set_layers]. rewrite Hmoved, Hget'.
      assert (Hlt : (above <? length (pre ++ l :: upper :: post) - 1)%nat = true).
      { apply Nat.ltb_lt. rewrite length_app. cbn. lia. }
      rewrite Hlt. cbn [bind set_this modify emit Document.emit ret fst snd].
      unfold set_layers.
      cbn [doc_id doc_name settings layers library version _currentFrame
           _selectedLayerId _selectedShapeIds].
      rewrite Hmoved, <- Hlen, delete_middle.
      replace (pre ++ upper :: post) with ((pre ++ [upper]) ++ post)
        by (rewrite <- app_assoc; reflexivity).
      replace (S (length pre)) with (length (pre ++ [upper]))
        by (rewrite length_app; cbn; lia).
      rewrite splice_in_middle, <- app_assoc. cbn [app]. rewrite <- Els.
      destruct d; reflexivity.
  - intros l Hget. unfold Document.moveLayerUp, bind. rewrite this_run. cbn [snd].
    rewrite Hget. reflexivity.
  - intros Hget. split.
    + unfold Document.moveLayerUp, bind. rewrite this_run. cbn [snd].
      rewrite Hget. reflexivity.
    + unfold Document.moveLayerDown, bind. rewrite this_run. cbn [snd].
      rewrite Hget. reflexivity.
  - intros r l Hget Hlast. unfold Document.moveLayerDown, bind. rewrite this_run.
    cbn [snd]. rewrite Hget.
    assert (Hnot : (r <? length (layers d) - 1)%nat = false) by (apply Nat.ltb_ge; lia).
    rewrite Hnot. reflexivity.
Qed.

(** ** Document: locked layers and the selection *)

(** X16.  A locked layer is left alone: when the layer that is named, or
    else the selected layer, is locked, [insertKeyframe] and
    [insertBlankKeyframe] return [null] and [clearKeyframe] returns, and
    when the selected layer is locked [addShape] and [removeSelectedShapes]
    return, all without any change to the heap, to the document or to its
    selection.  The same holds when there is no such layer. *)
Theorem locked_layer_is_left_alone (h : Heap) (d : Document) :
  (forall layerId frameIndex,
     match Document.layer_or_selected layerId d with
     | Some (_, l) => locked l = true
     | None => True
     end ->
     Document.insertKeyframe layerId frameIndex (h, d) = (Return None, (h, d)) /\
     Document.insertBlankKeyframe layerId frameIndex (h, d) = (Return None, (h, d)) /\
     Document.clearKeyframe layerId frameIndex (h, d) = (Return tt, (h, d))) /\
  (forall shape,
     match Document.selectedLayer d with
     | Some (_, l) => locked l = true
     | None => True
     end ->
     Document.addShape shape (h, d) = (Return tt, (h, d)) /\
     Document.removeSelectedShapes (h, d) = (Return tt, (h, d))).
Proof.
  split.
  - intros layerId frameIndex H.
    unfold Document.insertKeyframe, Document.insertBlankKeyframe, Document.clearKeyframe,
      bind. rewrite !this_run. cbn [snd].
    destruct (Document.layer_or_selected layerId d) as [[r l]|].
    + rewrite H. splits; reflexivity.
    + splits; reflexivity.
  - intros shape H.
    unfold Document.addShape, Document.removeSelectedShapes, bind.
    rewrite !this_run. cbn [snd].
    destruct (Document.selectedLayer d) as [[r l]|].
    + rewrite H. splits; reflexivity.
    + splits; reflexivity.
Qed.

Lemma Set_add_NoDup (id : UID) (s : list UID) : NoDup s -> NoDup (Set_add id s).
Proof.
  intros H. unfold Set_add. destruct (existsb (String.eqb id) s) eqn:E; [exact H|].
  apply NoDup_app. splits; [exact H| |apply NoDup_singleton].
  intros x Hx Hx'. apply list_elem_of_singleton in Hx'. subst x.
  apply list_elem_of_In in Hx.
  assert (existsb (String.eqb id) s = true); [|congruence].
  apply existsb_exists. exists id. split; [exact Hx|apply String.eqb_refl].
Qed.

Lemma Set_add_In (id x : UID) (s : list UID) : In x (Set_add id s) <-> x = id \/ In x s.
Proof.
  unfold Set_add. destruct (existsb (String.eqb id) s) eqn:E.
  - apply existsb_exists in E as (y & Hy & Ey). apply String.eqb_eq in Ey. subst y.
    split; [auto|]. intros [->|H]; assumption.
  - rewrite in_app_iff. cbn. split; intros [H|H]; auto.
    + destruct H as [<-|[]]. auto.
Qed.

Lemma Set_delete_In (id x : UID) (s : list UID) :
  In x (Set_delete id s) <-> x <> id /\ In x s.
Proof.
  unfold Set_delete. rewrite filter_In, negb_true_iff, String.eqb_neq. tauto.
Qed.

Lemma Set_delete_NoDup (id : UID) (s : list UID) : NoDup s -> NoDup (Set_delete id s).
Proof.
  intros H. unfold Set_delete. induction H as [|x s Hx Hs IH]; cbn; [constructor|].
  destruct (negb (String.eqb x id)); [|exact IH].
  constructor; [|exact IH]. intros Hin. apply Hx.
  apply list_elem_of_In, filter_In in Hin as [Hin _]. apply list_elem_of_In, Hin.
Qed.

(** X17.  The selection of shapes behaves as a set of ids.  It never holds
    an id twice, whatever is selected and deselected.  [selectShape(id)]
    leaves [id] alone in the selection; [selectShape(id, true)] adds [id]
    to what was selected and changes nothing when it was there already;
    after [deselectShape(id)] exactly the other ids are selected;
    [clearSelection] leaves nothing selected.  None of them touches the
    heap or the layers. *)
Theorem selection_is_a_set (h : Heap) (d : Document) (shapeId : UID) :
  NoDup (Document.selectedShapeIds d) ->
  (exists d1, Document.selectShape shapeId false (h, d) = (Return tt, (h, d1)) /\
     Document.selectedShapeIds d1 = [shapeId] /\ layers d1 = layers d) /\
  (exists d2, Document.selectShape shapeId true (h, d) = (Return tt, (h, d2)) /\
     NoDup (Document.selectedShapeIds d2) /\ layers d2 = layers d /\
     (forall x, In x (Document.selectedShapeIds d2)
                <-> x = shapeId \/ In x (Document.selectedShapeIds d)) /\
     (In shapeId (Document.selectedShapeIds d) -> d2 = d)) /\
  (exists d3, Document.deselectShape shapeId (h, d) = (Return tt, (h, d3)) /\
     NoDup (Document.selectedShapeIds d3) /\ layers d3 = layers d /\
     (forall x, In x (Document.selectedShapeIds d3)
                <-> x <> shapeId /\ In x (Document.selectedShapeIds d))) /\
  (exists d4, Document.clearSelection (h, d) = (Return tt, (h, d4)) /\
     Document.selectedShapeIds d4 = [] /\ layers d4 = layers d).
Proof.
  intros Hnd. unfold Document.selectedShapeIds in *. splits.
  - eexists. split; [reflexivity|]. split; reflexivity.
  - exists (set_selectedShapeIds (Set_add shapeId) d). split; [reflexivity|].
    cbn [_selectedShapeIds set_selectedShapeIds layers]. splits.
    + apply Set_add_NoDup, Hnd.
    + reflexivity.
    + intros x. apply Set_add_In.
    + intros Hin. unfold set_selectedShapeIds, Set_add.
      assert (E : existsb (String.eqb shapeId) (_selectedShapeIds d) = true).
      { apply existsb_exists. exists shapeId. split; [exact Hin|apply String.eqb_refl]. }
      rewrite E. destruct d; reflexivity.
  - exists (set_selectedShapeIds (Set_delete shapeId) d). split; [reflexivity|].
    cbn [_selectedShapeIds set_selectedShapeIds layers]. splits.
    + apply Set_delete_NoDup, Hnd.
    + reflexivity.
    + intros x. apply Set_delete_In.
  - eexists. split; [reflexivity|]. split; reflexivity.
Qed.

(** *** [removeSelectedShapes] *)

Lemma without_absent (sid : UID) (sel : list UID) (ls : list loc) (ids : list UID) :
  (forall id, In id ids -> String.eqb id sid = false) ->
  without (sid :: sel) ls ids = without sel ls ids.
Proof.
  intros Habsent. unfold without. f_equal. apply filter_ext_in.
  intros [l id] Hin. apply in_combine_r in Hin. cbn [snd existsb].
  rewrite (Habsent id Hin). reflexivity.
Qed.

Lemma without_app (sel : list UID) (l1 l2 : list loc) (i1 i2 : list UID) :
  length l1 = length i1 ->
  without sel (l1 ++ l2) (i1 ++ i2) = without sel l1 i1 ++ without sel l2 i2.
Proof.
  revert i1. induction l1 as [|x l1 IH]; intros [|i i1] Hlen; try discriminate Hlen.
  - reflexivity.
  - unfold without in *. cbn [app combine List.filter].
    injection Hlen as Hlen. specialize (IH i1 Hlen).
    destruct (negb _); cbn [map app]; rewrite IH; reflexivity.
Qed.

Lemma without_present (sid : UID) (sel : list UID) (ls : list loc) (ids : list UID)
    (i : nat) (id : UID) :
  find_ref (is_id sid) ids = Some (i, id) -> NoDup ids -> length ls = length ids ->
  without (sid :: sel) ls ids = without sel (delete i ls) (delete i ids).
Proof.
  intros Hfind Hnd Hlen.
  pose proof (find_ref_least _ _ _ _ Hfind) as Hleast.
  apply find_ref_Some in Hfind as [Hi Hid]. unfold is_id in Hid.
  apply String.eqb_eq in Hid. subst id.
  assert (Hlt : (i < length ls)%nat) by (rewrite Hlen; apply lookup_lt_Some in Hi; exact Hi).
  apply lookup_lt_is_Some in Hlt as [x Hx].
  rewrite !delete_take_drop.
  rewrite <- (take_drop_middle ls i x Hx) at 1.
  rewrite <- (take_drop_middle ids i sid Hi) at 1.
  assert (Hlen' : length (take i ls) = length (take i ids)).
  { rewrite !length_take. lia. }
  rewrite !without_app by exact Hlen'.
  assert (Hpre : forall id, In id (take i ids) -> String.eqb id sid = false).
  { intros id Hin. apply In_lookup in Hin as [j Hj]. apply not_true_is_false. intros E.
    pose proof (lookup_lt_Some _ _ _ Hj) as Hjlt. rewrite length_take in Hjlt.
    rewrite lookup_take_lt in Hj by lia.
    pose proof (Hleast j id Hj E). lia. }
  assert (Hpost : forall id, In id (drop (S i) ids) -> String.eqb id sid = false).
  { intros id Hin. apply String.eqb_neq. intros ->.
    rewrite <- (take_drop_middle ids i sid Hi) in Hnd.
    apply NoDup_app in Hnd as (_ & _ & Hnd). apply NoDup_cons in Hnd as [Hnot _].
    apply Hnot, list_elem_of_In, Hin. }
  rewrite (without_absent sid sel _ _ Hpre). f_equal.
  unfold without at 1. cbn [combine List.filter snd existsb].
  rewrite String.eqb_refl. cbn [orb negb].
  apply (without_absent sid sel _ _ Hpost).
Qed.

Lemma ids_of_delete (cs : list Obj) (ls : list loc) (ids : list UID) (i : nat) :
  ids_of cs ls = Some ids -> ids_of cs (delete i ls) = Some (delete i ids).
Proof.
  unfold ids_of. intros H. apply mapM_Some. apply mapM_Some in H.
  apply Forall2_delete, H.
Qed.

Lemma NoDup_delete {X : Type} (xs : list X) (i : nat) : NoDup xs -> NoDup (delete i xs).
Proof. intros H. eapply sublist_NoDup; [exact H|apply sublist_delete]. Qed.

Lemma set_layers_insert_insert (d : Document) (r : nat) (a b : Layer) :
  set_layers (fun ls => <[r := b]> ls) (set_layers (fun ls => <[r := a]> ls) d)
  = set_layers (fun ls => <[r := b]> ls) d.
Proof.
  unfold set_layers.
  cbn [doc_id doc_name settings layers library version _currentFrame _selectedLayerId
       _selectedShapeIds].
  rewrite list_insert_insert_eq. reflexivity.
Qed.

Lemma without_nil (ls : list loc) (ids : list UID) :
  length ls = length ids -> without [] ls ids = ls.
Proof.
  unfold without. cbn [existsb negb]. revert ids.
  induction ls as [|x xs IH]; intros [|i ids] Hlen; try discriminate Hlen;
    [reflexivity|].
  cbn. f_equal. apply IH. injection Hlen as ->. reflexivity.
Qed.

(** The loop of [removeSelectedShapes] over the keyframe at position [k] of
    the layer at position [r]. *)
Lemma remove_each_run (h : Heap) (r k : nat) (sel : list UID) :
  forall (d : Document) (l : Layer) (f : Frame) (ids : list UID),
    layers d !! r = Some l -> frames l !! k = Some f ->
    frame_class f = true ->
    ids_of (cells h) (shapes f) = Some ids -> NoDup ids ->
    exists e,
      forEach sel (fun shapeId =>
        Document.on_layer r (Layer.on_frame k (Frame.removeShape shapeId)) ;; ret tt)
        (h, d)
      = (Return tt,
         (h, set_layers
               (fun ls => <[r := set_frames
                   (fun fs => <[k := set_isEmpty e
                                       (set_shapes (without sel (shapes f) ids) f)]> fs) l]> ls)
               d)) /\
      (flag_consistent f -> e = true -> without sel (shapes f) ids = []).
Proof.
  induction sel as [|sid sel IH]; intros d l f ids Hl Hf Hc Hids Hnd.
  - exists (isEmpty f). pose proof (ids_of_length _ _ _ Hids) as Hlen.
    rewrite (without_nil _ _ (eq_sym Hlen)). split.
    + cbn [forEach ret].
      replace (set_isEmpty (isEmpty f) (set_shapes (shapes f) f)) with f
        by (destruct f; reflexivity).
      assert (El : set_frames (fun fs => <[k := f]> fs) l = l).
      { destruct l as [i n v lk fs c]. unfold set_frames. cbn in *.
        rewrite list_insert_id by exact Hf. reflexivity. }
      rewrite El. destruct d as [i n s ls lib v c sl ss]. unfold set_layers. cbn in *.
      rewrite list_insert_id by exact Hl. reflexivity.
    + intros Hflag E. apply Hflag, E.
  - cbn [forEach]. unfold bind at 1. unfold bind at 1.
    rewrite on_layer_run, Hl, on_frame_run, Hf, (removeShape_run h sid f ids Hc Hids).
    pose proof (ids_of_length _ _ _ Hids) as Hlen.
    destruct (find_ref (is_id sid) ids) as [[i id]|] eqn:Hfind; cbn [fst snd ret].
    + set (f1 := set_isEmpty (length (delete i (shapes f)) =? 0)%nat
                   (set_shapes (delete i (shapes f)) f)).
      set (l1 := set_frames (fun fs => <[k := f1]> fs) l).
      set (d1 := set_layers (fun ls => <[r := l1]> ls) d).
      assert (Hl1 : layers d1 !! r = Some l1).
      { cbn [d1 layers set_layers]. apply list_lookup_insert_eq.
        apply lookup_lt_Some in Hl. exact Hl. }
      assert (Hf1 : frames l1 !! k = Some f1).
      { cbn [l1 frames set_frames]. apply list_lookup_insert_eq.
        apply lookup_lt_Some in Hf. exact Hf. }
      destruct (IH d1 l1 f1 (delete i ids) Hl1 Hf1 Hc
                  (ids_of_delete _ _ _ i Hids) (NoDup_delete _ i Hnd))
        as (e & Hrun & Hflag).
      rewrite Hrun.
      assert (Hw : without (sid :: sel) (shapes f) ids
                   = without sel (delete i (shapes f)) (delete i ids)).
      { apply (without_present sid sel _ _ i id Hfind Hnd). symmetry. exact Hlen. }
      exists e. split.
      * unfold d1, l1. rewrite set_layers_insert_insert, set_frames_insert_insert.
        rewrite Hw. reflexivity.
      * intros _ E. rewrite Hw. apply Hflag; [|exact E].
        intros E1. cbn in E1. apply Nat.eqb_eq in E1.
        cbn. apply length_zero_iff_nil, E1.
    + set (l1 := set_frames (fun fs => <[k := f]> fs) l).
      set (d1 := set_layers (fun ls => <[r := l1]> ls) d).
      assert (Hl1 : layers d1 !! r = Some l1).
      { cbn [d1 layers set_layers]. apply list_lookup_insert_eq.
        apply lookup_lt_Some in Hl. exact Hl. }
      assert (Hf1 : frames l1 !! k = Some f).
      { cbn [l1 frames set_frames]. apply list_lookup_insert_eq.
        apply lookup_lt_Some in Hf. exact Hf. }
      destruct (IH d1 l1 f ids Hl1 Hf1 Hc Hids Hnd) as (e & Hrun & Hflag).
      rewrite Hrun.
      assert (Hw : without (sid :: sel) (shapes f) ids = without sel (shapes f) ids).
      { apply without_absent. intros id Hin. apply (find_ref_None _ _ Hfind id Hin). }
      exists e. split.
      * unfold d1, l1. rewrite set_layers_insert_insert, set_frames_insert_insert.
        rewrite Hw. reflexivity.
      * rewrite Hw. exact Hflag.
Qed.

(** X18.  On an unlocked selected layer whose keyframe in effect at the
    current frame is a [Frame] holding shapes with distinct ids,
    [removeSelectedShapes] returns and leaves on that keyframe exactly the
    shapes whose id was not selected, in their order; nothing else in the
    layers or in the heap changes, and no shape is selected afterwards.  A
    keyframe whose [isEmpty] was consistent is flagged empty only if no
    shape is left. *)
Theorem removeSelectedShapes_removes_the_selection (h : Heap) (d : Document)
    (r k : nat) (l : Layer) (f : Frame) (ids : list UID) :
  Document.selectedLayer d = Some (r, l) -> locked l = false ->
  Layer.getKeyframeAt (_currentFrame d) l = Some (k, f) ->
  frame_class f = true ->
  ids_of (cells h) (shapes f) = Some ids -> NoDup ids ->
  exists f' d',
    Document.removeSelectedShapes (h, d) = (Return tt, (h, d')) /\
    d' = set_selectedShapeIds (fun _ => [])
           (set_layers (fun ls => <[r := set_frames (fun fs => <[k := f']> fs) l]> ls) d) /\
    Document.selectedShapeIds d' = [] /\
    shapes f' = without (Document.selectedShapeIds d) (shapes f) ids /\
    set_isEmpty false (set_shapes [] f') = set_isEmpty false (set_shapes [] f) /\
    (flag_consistent f -> flag_consistent f').
Proof.
  intros Hsel Hlocked Hat Hc Hids Hnd.
  assert (Hl : layers d !! r = Some l).
  { unfold Document.selectedLayer in Hsel.
    destruct (_selectedLayerId d) as [[|c id]|]; try discriminate Hsel;
      apply find_ref_Some in Hsel as [Hl _]; exact Hl. }
  pose proof Hat as Hf. apply getKeyframeAt_Some in Hf as (Hf & _).
  destruct (remove_each_run h r k (_selectedShapeIds d) d l f ids Hl Hf Hc Hids Hnd)
    as (e & Hrun & Hflag).
  eexists _, _. split.
  - unfold Document.removeSelectedShapes, bind at 1. rewrite this_run. cbn [snd].
    rewrite Hsel, Hlocked, Hat. unfold bind at 1. rewrite Hrun. reflexivity.
  - splits; try reflexivity.
    intros Hfc E. cbn in E. cbn. apply Hflag; assumption.
Qed.

(** ** History: the manager *)

Section ManagerMore.

Import History.

Context {X Cmd : Type} `{Command X Cmd}.


Lemma execute_throw (c : Cmd) (hm : HistoryManager Cmd) (w w1 : World X) (e : exn) :
  isExecuting hm = false ->
  execute_of c w = (Throw e, w1) ->
  execute c (hm, w) = (Throw e, (hm, w1)).
Proof.
  intros Hex Hrun. unfold execute, bind, manager. cbn [fst]. rewrite Hex.
  unfold set_manager, modify, try_finally, bind. cbn [fst snd].
  rewrite on_world_run, Hrun. destruct hm. cbn in *. subst. reflexivity.
Qed.

Lemma busy_run (hm : HistoryManager Cmd) (w : World X) :
  isExecuting hm = true ->
  (forall c, execute c (hm, w) = (Return tt, (hm, w))) /\
  undo (hm, w) = (Return false, (hm, w)) /\
  redo (hm, w) = (Return false, (hm, w)).
Proof.
  intros Hex. unfold execute, undo, redo, bind, manager. cbn [fst]. rewrite Hex.
  splits; [reflexivity| |].
  - destruct (length (undoStack hm) =? 0)%nat; reflexivity.
  - destruct (length (redoStack hm) =? 0)%nat; reflexivity.
Qed.

Lemma undo_throw (c : Cmd) (stack : list Cmd) (hm : HistoryManager Cmd) (w w1 : World X)
    (e : exn) :
  isExecuting hm = false ->
  undoStack hm = stack ++ [c] ->
  undo_of c w = (Throw e, w1) ->
  undo (hm, w)
  = (Throw e,
     ({| undoStack := stack; redoStack := redoStack hm;
         maxHistory := maxHistory hm; isExecuting := false |}, w1)).
Proof.
  intros Hex Hstack Hrun. unfold undo, bind, manager. cbn [fst].
  rewrite Hstack, Hex, length_app. cbn [length].
  replace (length stack + 1 =? 0)%nat with false by (symmetry; apply Nat.eqb_neq; lia).
  unfold set_manager, modify, try_finally, bind, manager.
  cbn [fst snd undoStack set_isExecuting].
  rewrite Hstack, pop_snoc. cbn [fst snd].
  rewrite on_world_run, Hrun. reflexivity.
Qed.

Lemma redo_run (c : Cmd) (stack : list Cmd) (hm : HistoryManager Cmd) (w w1 : World X) :
  isExecuting hm = false ->
  redoStack hm = stack ++ [c] ->
  execute_of c w = (Return tt, w1) ->
  redo (hm, w)
  = (Return true,
     ({| undoStack := undoStack hm ++ [c]; redoStack := stack;
         maxHistory := maxHistory hm; isExecuting := false |}, w1)).
Proof.
  intros Hex Hstack Hrun. unfold redo, bind, manager. cbn [fst].
  rewrite Hstack, Hex, length_app. cbn [length].
  replace (length stack + 1 =? 0)%nat with false by (symmetry; apply Nat.eqb_neq; lia).
  unfold set_manager, modify, try_finally, bind, manager.
  cbn [fst snd redoStack set_isExecuting].
  rewrite Hstack, pop_snoc. cbn [fst snd].
  rewrite on_world_run, Hrun. cbn [fst snd].
  rewrite !emit_run. reflexivity.
Qed.

Lemma redo_throw (c : Cmd) (stack : list Cmd) (hm : HistoryManager Cmd) (w w1 : World X)
    (e : exn) :
  isExecuting hm = false ->
  redoStack hm = stack ++ [c] ->
  execute_of c w = (Throw e, w1) ->
  redo (hm, w)
  = (Throw e,
     ({| undoStack := undoStack hm; redoStack := stack;
         maxHistory := maxHistory hm; isExecuting := false |}, w1)).
Proof.
  intros Hex Hstack Hrun. unfold redo, bind, manager. cbn [fst].
  rewrite Hstack, Hex, length_app. cbn [length].
  replace (length stack + 1 =? 0)%nat with false by (symmetry; apply Nat.eqb_neq; lia).
  unfold set_manager, modify, try_finally, bind, manager.
  cbn [fst snd redoStack set_isExecuting].
  rewrite Hstack, pop_snoc. cbn [fst snd].
  rewrite on_world_run, Hrun. reflexivity.
Qed.

Lemma redo_empty (hm : HistoryManager Cmd) (w : World X) :
  redoStack hm = [] -> redo (hm, w) = (Return false, (hm, w)).
Proof. intros Hstack. unfold redo, bind, manager. cbn [fst]. rewrite Hstack. reflexivity. Qed.

Lemma snoc_cases (stack : list Cmd) :
  stack = [] \/ exists rest c, stack = rest ++ [c].
Proof.
  destruct stack as [|x xs] using rev_ind; [left; reflexivity|right; eauto].
Qed.

(** X19.  A command that throws leaves no trace in the history, and the
    manager is never left executing.  When [execute] of the command throws,
    [execute] of the manager rethrows and both stacks are as before.  When
    its [undo] throws, [undo] of the manager rethrows and the command is
    dropped from the undo stack without reaching the redo stack; likewise
    [redo] drops it from the redo stack.  In each case [isExecuting] is
    false afterwards.  While the manager is executing, [execute], [undo]
    and [redo] do nothing. *)
Theorem failing_command_leaves_the_history (hm : HistoryManager Cmd) (w : World X) :
  (isExecuting hm = false ->
   (forall c e w1, execute_of c w = (Throw e, w1) ->
      execute c (hm, w) = (Throw e, (hm, w1))) /\
   (forall c stack e w1, undoStack hm = stack ++ [c] -> undo_of c w = (Throw e, w1) ->
      undo (hm, w) = (Throw e, (set_undoStack (fun _ => stack) hm, w1))) /\
   (forall c stack e w1, redoStack hm = stack ++ [c] -> execute_of c w = (Throw e, w1) ->
      redo (hm, w) = (Throw e, (set_redoStack (fun _ => stack) hm, w1))) /\
   (forall c, isExecuting (fst (snd (execute c (hm, w)))) = false) /\
   isExecuting (fst (snd (undo (hm, w)))) = false /\
   isExecuting (fst (snd (redo (hm, w)))) = false) /\
  (isExecuting hm = true ->
   (forall c, execute c (hm, w) = (Return tt, (hm, w))) /\
   undo (hm, w) = (Return false, (hm, w)) /\
   redo (hm, w) = (Return false, (hm, w))).
Proof.
  split.
  - intros Hex. splits.
    + intros c e w1 Hrun. apply execute_throw; assumption.
    + intros c stack e w1 Hstack Hrun.
      rewrite (undo_throw c stack hm w w1 e Hex Hstack Hrun).
      unfold set_undoStack. rewrite Hex. reflexivity.
    + intros c stack e w1 Hstack Hrun.
      rewrite (redo_throw c stack hm w w1 e Hex Hstack Hrun).
      unfold set_redoStack. rewrite Hex. reflexivity.
    + intros c. destruct (execute_of c w) as [[[]|e] w1] eqn:Hrun.
      * rewrite (execute_run c hm w w1 Hex Hrun). reflexivity.
      * rewrite (execute_throw c hm w w1 e Hex Hrun). exact Hex.
    + destruct (snoc_cases (undoStack hm)) as [E|(rest & c & E)].
      * rewrite (undo_empty hm w E). exact Hex.
      * destruct (undo_of c w) as [[[]|e] w1] eqn:Hrun.
        -- rewrite (undo_run c rest hm w w1 Hex E Hrun). reflexivity.
        -- rewrite (undo_throw c rest hm w w1 e Hex E Hrun). reflexivity.
    + destruct (snoc_cases (redoStack hm)) as [E|(rest & c & E)].
      * rewrite (redo_empty hm w E). exact Hex.
      * destruct (execute_of c w) as [[[]|e] w1] eqn:Hrun.
        -- rewrite (redo_run c rest hm w w1 Hex E Hrun). reflexivity.
        -- rewrite (redo_throw c rest hm w w1 e Hex E Hrun). reflexivity.
  - intros Hex. apply (busy_run hm w Hex).
Qed.




(** X22.  A composite command executes its commands in order and undoes
    them in the reverse order: when each of them undoes what it did, up to
    [equiv], so does the composite.  It has no rollback: when one of the
    commands throws, the composite throws at once, the commands before it
    stay executed and the commands after it are not run. *)
Theorem composite_undoes_in_reverse (equiv : World X -> World X -> Prop)
    (cs : list Cmd) (description : option string) (w w' : World X) :
  let composite := {| commands_of := cs; composite_description := description |} in
  (undoable_run equiv w cs w' ->
   execute_of composite w = (Return tt, w') /\
   forall w2, equiv w2 w' ->
     exists w0, undo_of composite w2 = (Return tt, w0) /\ equiv w0 w) /\
  (forall pre c post e w1 w2,
     cs = pre ++ c :: post -> runs w pre w1 -> execute_of c w1 = (Throw e, w2) ->
     execute_of composite w = (Throw e, w2)).
Proof.
  intros composite. subst composite. cbn [execute_of undo_of Composite_Command].
  unfold Composite_execute, Composite_undo. cbn [commands_of]. split.
  - intros Hrun. induction Hrun as [w|w c w1 cs w2 Hc Hun Hcs IH].
    + split; [reflexivity|]. intros w2 Heq. exists w2. split; [reflexivity|exact Heq].
    + destruct IH as [Hexec Hundo]. split.
      * cbn [forEach]. unfold bind. rewrite Hc. exact Hexec.
      * intros w3 Heq. destruct (Hundo w3 Heq) as (w4 & Hrun4 & Heq4).
        destruct (Hun w4 Heq4) as (w5 & Hrun5 & Heq5).
        exists w5. split; [|exact Heq5].
        cbn [rev]. clear -Hrun4 Hrun5.
        revert w3 Hrun4. induction (rev cs) as [|x xs IHx]; intros w3 Hrun4.
        -- cbn in Hrun4. injection Hrun4 as ->. cbn. unfold bind.
           rewrite Hrun5. reflexivity.
        -- cbn [app forEach] in *. unfold bind in *.
           destruct (undo_of x w3) as [[[]|e] w6]; [|discriminate Hrun4].
           apply IHx, Hrun4.
  - intros pre c post e w1 w2 -> Hpre Hthrow.
    induction Hpre as [w|w c0 w0 cs0 w1 Hc0 Hcs0 IH].
    + cbn. unfold bind. rewrite Hthrow. reflexivity.
    + cbn [app forEach]. unfold bind at 1. rewrite Hc0. apply IH, Hthrow.
Qed.

End ManagerMore.

(** ** History: further commands *)

Import History Commands.

Lemma getLayer_change (id : UID) (d : Document) (r : nat) (old new : Layer) :
  Document.getLayer id d = Some (r, old) ->
  layer_id new = layer_id old ->
  Document.getLayer id (set_layers (fun ls => <[r := new]> ls) d) = Some (r, new).
Proof.
  intros Hget Hi. pose proof Hget as Hfind. apply find_ref_Some in Hfind as [Hr _].
  unfold Document.getLayer in *. cbn [layers set_layers].
  rewrite (find_ref_insert (fun l => String.eqb (layer_id l) id) _ r old new Hr), Hget,
    Nat.eqb_refl; [reflexivity|].
  cbn. rewrite Hi. reflexivity.
Qed.

Lemma on_privates_run {P A : Type} (m : M P A) (w : World P) :
  on_privates m w
  = (fst (m (privates w)),
     {| heap := heap w; document := document w; privates := snd (m (privates w)) |}).
Proof. unfold on_privates, zoom. destruct (m (privates w)). reflexivity. Qed.

(** A method of the frame at position [k] of the layer at position [r], run
    from a world. *)
Lemma on_frame_of_world {P A : Type} (m : M (Heap * Frame) A)
    (h : Heap) (d : Document) (p : P) (r k : nat) (l : Layer) (f : Frame) :
  layers d !! r = Some l -> frames l !! k = Some f ->
  on_document (Document.on_layer r (Layer.on_frame k m))
    {| heap := h; document := d; privates := p |}
  = (fst (m (h, f)),
     {| heap := fst (snd (m (h, f)));
        document := set_layers
                      (fun ls => <[r := set_frames
                                          (fun fs => <[k := snd (snd (m (h, f)))]> fs) l]> ls)
                      d;
        privates := p |}).
Proof.
  intros Hl Hf. rewrite on_document_run. cbn [heap document privates].
  rewrite on_layer_run, Hl, on_frame_run, Hf. reflexivity.
Qed.

Lemma apply_tween_run (type : TweenType) (ease : option EasingFunction)
    (h : Heap) (f : Frame) :
  frame_class f = true -> isKeyframe f = true ->
  apply_tween type ease (h, f) = (Return tt, (h, tweened type ease f)).
Proof.
  intros Hc Hk.
  destruct type; unfold apply_tween, Frame.removeTween, Frame.setMotionTween,
    Frame.setShapeTween, bind, this, method; cbn; rewrite Hc; cbn; rewrite ?Hk;
    reflexivity.
Qed.

(** X23.  [SetTweenCommand] on a keyframe that is an instance of [Frame],
    in a layer of the document: [execute] sets the tween type,
    and for a motion or shape tween the easing given, or linear easing when
    none is given; removing the tween removes the easing.  [undo] then puts
    the earlier tween type back.  The easing comes back as it was when the
    frame had a tween with an easing or no tween and no easing; otherwise
    [undo] leaves linear easing for a tween that had none, and no easing for
    a frame without tween that had one.  Nothing else changes. *)
Theorem SetTween_undo_restores_the_tween (w : World SetTweenPrivate)
    (layerId : UID) (frameIndex : Z) (type : TweenType) (ease : option EasingFunction)
    (r k : nat) (l : Layer) (f : Frame) :
  Document.getLayer layerId (document w) = Some (r, l) ->
  Layer.getFrame frameIndex l = Some (k, f) ->
  isKeyframe f = true -> frame_class f = true ->
  let put (f' : Frame) (w0 : World SetTweenPrivate) : Document :=
    set_layers (fun ls => <[r := set_frames (fun fs => <[k := f']> fs) l]> ls)
               (document w0) in
  exists w1 w2,
    SetTween_execute layerId frameIndex type ease w = (Return tt, w1) /\
    heap w1 = heap w /\ document w1 = put (tweened type ease f) w /\
    SetTween_undo layerId frameIndex w1 = (Return tt, w2) /\
    heap w2 = heap w /\ document w2 = put (tweened (tweenType f) (easing f) f) w /\
    (match tweenType f with
     | TweenNone => easing f = None
     | _ => easing f <> None
     end -> document w2 = document w).
Proof.
  intros Hlayer Hframe Hk Hc put.
  pose proof Hlayer as Hl. apply find_ref_Some in Hl as [Hl _].
  pose proof Hframe as Hf. apply find_ref_Some in Hf as [Hf _].
  set (f1 := tweened type ease f).
  set (l1 := set_frames (fun fs => <[k := f1]> fs) l).
  set (w1 := {| heap := heap w; document := put f1 w;
                privates := {| previousTweenType := tweenType f;
                               previousEasing := easing f |} |}).
  assert (Hexec : SetTween_execute layerId frameIndex type ease w = (Return tt, w1)).
  { unfold SetTween_execute, bind at 1. rewrite on_document_run, this_run.
    cbn [fst snd]. rewrite World_eta, Hlayer, Hframe, Hk.
    unfold bind at 1. rewrite on_privates_run. cbn [fst snd modify].
    rewrite (on_frame_of_world _ _ _ _ r k l f Hl Hf).
    rewrite (apply_tween_run type ease _ f Hc Hk).
    reflexivity. }
  assert (Hlayer1 : Document.getLayer layerId (document w1) = Some (r, l1))
    by (apply (getLayer_change layerId (document w) r l l1 Hlayer eq_refl)).
  assert (Hframe1 : Layer.getFrame frameIndex l1 = Some (k, f1)).
  { apply (getFrame_change frameIndex l k f f1 Hframe).
    destruct type; reflexivity. }
  assert (Hk1 : isKeyframe f1 = true) by (destruct type; exact Hk).
  assert (Hc1 : frame_class f1 = true) by (destruct type; exact Hc).
  pose proof Hlayer1 as Hl1. apply find_ref_Some in Hl1 as [Hl1 _].
  pose proof Hframe1 as Hf1. apply find_ref_Some in Hf1 as [Hf1 _].
  set (f2 := tweened (tweenType f) (easing f) f).
  assert (Hput : set_layers
                   (fun ls => <[r := set_frames (fun fs => <[k := tweened (tweenType f) (easing f) f1]> fs) l1]> ls)
                   (document w1)
                 = put f2 w).
  { unfold w1, put, l1. cbn [document].
    rewrite set_layers_insert_insert, set_frames_insert_insert.
    replace (tweened (tweenType f) (easing f) f1) with f2; [reflexivity|].
    unfold f1, f2, tweened. destruct f, type; reflexivity. }
  exists w1, {| heap := heap w; document := put f2 w; privates := privates w1 |}.
  splits; try reflexivity.
  - exact Hexec.
  - unfold SetTween_undo, bind at 1. rewrite on_document_run, this_run.
    cbn [fst snd]. rewrite World_eta, Hlayer1, Hframe1, Hk1.
    unfold bind at 1. rewrite on_privates_run. cbn [fst snd].
    rewrite (on_frame_of_world _ _ _ _ r k l1 f1 Hl1 Hf1).
    cbn [privates w1 previousTweenType previousEasing].
    rewrite (apply_tween_run _ _ _ f1 Hc1 Hk1). cbn [fst snd]. rewrite Hput.
    reflexivity.
  - intros Hcons. cbn [document]. unfold put.
    assert (E : f2 = f).
    { unfold f2, tweened. destruct f as [c i x kf e s t ea du]. cbn in *.
      destruct t; subst; [reflexivity| |];
        (destruct ea; [reflexivity|congruence]). }
    rewrite E.
    assert (El : set_frames (fun fs => <[k := f]> fs) l = l).
    { destruct l as [i n v lk fs c]. unfold set_frames. cbn in *.
      rewrite list_insert_id by exact Hf. reflexivity. }
    rewrite El. destruct (document w) as [i n s ls lib v c sl ss].
    unfold set_layers. cbn in *. rewrite list_insert_id by exact Hl. reflexivity.
Qed.

(** *** [ClearKeyframeCommand] *)

Lemma clonable_instance (cs : list Obj) (l : loc) :
  clonable cs l -> exists s, cs !! l = Some (OShape s) /\ shape_class s = true.
Proof.
  intros (v & Hv & Hc & _).
  destruct (view_shape_cells _ _ _ Hv) as (s & p & t & st & fi & Hs & _ & _ & _ & _ & ->).
  exists s. split; [exact Hs|exact Hc].
Qed.

Lemma Shape_toJSON_run (l : loc) (h : Heap) (s : Shape) :
  cells h !! l = Some (OShape s) -> shape_class s = true ->
  exists data o,
    Shape.toJSON l h = (Return data, set_cells (fun cs => cs ++ [o]) h).
Proof.
  intros Hs Hc. unfold Shape.toJSON, bind at 1.
  rewrite (read_shape_run h l s Hs). unfold bind at 1, method. rewrite Hc.
  cbn [ret]. unfold alloc. eexists _, _. reflexivity.
Qed.

Lemma shapes_toJSON_run (ls : list loc) (h : Heap) :
  Forall (fun l => exists s, cells h !! l = Some (OShape s) /\ shape_class s = true) ls ->
  exists data h' ext,
    mapA Shape.toJSON ls h = (Return data, h') /\
    cells h' = cells h ++ ext /\ length data = length ls.
Proof.
  revert h. induction ls as [|l ls IH]; intros h Hall.
  - exists [], h, []. rewrite app_nil_r. splits; reflexivity.
  - apply Forall_cons in Hall as [(s & Hs & Hc) Hall].
    destruct (Shape_toJSON_run l h s Hs Hc) as (d0 & o & Hhead).
    cbn [mapA]. unfold bind at 1. rewrite Hhead.
    set (h1 := set_cells _ h).
    assert (Hall1 : Forall (fun l => exists s, cells h1 !! l = Some (OShape s)
                                               /\ shape_class s = true) ls).
    { eapply Forall_impl; [exact Hall|]. cbn. intros l' (s' & Hs' & Hc').
      exists s'. split; [|exact Hc']. apply lookup_app_l_Some, Hs'. }
    destruct (IH h1 Hall1) as (data & h' & ext & Hrun & Hcells & Hlen).
    unfold bind at 1. rewrite Hrun. cbn [ret].
    eexists _, h', _. splits; [reflexivity| |cbn; rewrite Hlen; reflexivity].
    rewrite Hcells. cbn [h1 cells set_cells]. rewrite <- app_assoc. reflexivity.
Qed.

Lemma Frame_toJSON_run (h : Heap) (f : Frame) :
  frame_class f = true -> Forall (clonable (cells h)) (shapes f) ->
  exists data h' ext,
    Frame.toJSON (h, f) = (Return data, (h', f)) /\
    cells h' = cells h ++ ext /\
    length (shapes data) = length (shapes f) /\
    isEmpty data = isEmpty f /\ tweenType data = tweenType f /\
    easing data = easing f.
Proof.
  intros Hc Hall.
  assert (Hinst : Forall (fun l => exists s, cells h !! l = Some (OShape s)
                                             /\ shape_class s = true) (shapes f)).
  { eapply Forall_impl; [exact Hall|]. cbn. intros l. apply clonable_instance. }
  destruct (shapes_toJSON_run (shapes f) h Hinst) as (data & h' & ext & Hrun & Hcells & Hlen).
  unfold Frame.toJSON, bind at 1. rewrite this_run. cbn [snd].
  unfold bind at 1, method. rewrite Hc. cbn [ret].
  unfold bind at 1. rewrite on_heap_run, Hrun. cbn [fst snd ret].
  eexists _, h', ext. splits; try reflexivity; assumption.
Qed.

Lemma restore_frame_throws (data : Frame) (h : Heap) (f : Frame) :
  shapes data <> [] ->
  restore_frame data (h, f) = (Throw (TypeError "fromJSON"), (h, f)).
Proof.
  intros Hne. unfold restore_frame, bind. rewrite on_heap_run.
  destruct (shapes data) as [|s rest]; [congruence|]. reflexivity.
Qed.

Lemma restore_frame_empty (data : Frame) (h : Heap) (f : Frame) :
  shapes data = [] ->
  restore_frame data (h, f)
  = (Return tt,
     (h, set_easing (easing data)
           (set_tweenType (tweenType data)
              (set_isEmpty (isEmpty data) (set_shapes [] f))))).
Proof.
  intros E. unfold restore_frame, bind. rewrite on_heap_run, E. reflexivity.
Qed.

Lemma on_layer_of_world {P A : Type} (m : M (Heap * Layer) A)
    (h : Heap) (d : Document) (p : P) (r : nat) (l : Layer) :
  layers d !! r = Some l ->
  on_document (Document.on_layer r m) {| heap := h; document := d; privates := p |}
  = (fst (m (h, l)),
     {| heap := fst (snd (m (h, l)));
        document := set_layers (fun ls => <[r := snd (snd (m (h, l)))]> ls) d;
        privates := p |}).
Proof.
  intros Hl. rewrite on_document_run. cbn [heap document privates].
  rewrite on_layer_run, Hl. reflexivity.
Qed.

Lemma clearKeyframe_run (h : Heap) (layer : Layer) (index : Z) (r : nat) (f : Frame) :
  Layer.getFrame index layer = Some (r, f) -> isKeyframe f = true ->
  frame_class f = true ->
  exists layer',
    Layer.clearKeyframe index (h, layer) = (Return tt, (h, layer')) /\
    layer_id layer' = layer_id layer /\
    (forall cs, operable cs layer -> operable cs layer') /\
    (index <> 1 -> layer' = set_frames (fun fs => delete r fs) layer).
Proof.
  intros Hget Hk Hc. pose proof Hget as Hr. apply find_ref_Some in Hr as [Hr _].
  destruct (Z.eq_dec index 1) as [->|Hne].
  - rewrite (clearKeyframe_1_run h layer r f Hget Hk Hc).
    eexists. splits; [reflexivity|reflexivity| |congruence].
    intros cs Hop. apply operable_change; [exact Hop|exact Hc|constructor].
  - unfold Layer.clearKeyframe, bind. rewrite this_run. cbn [snd].
    rewrite Hget, Hk. apply Z.eqb_neq in Hne. rewrite Hne.
    eexists. splits; [reflexivity|reflexivity| |reflexivity].
    intros cs Hop. unfold operable in *. cbn [frames set_frames].
    apply Forall_delete, Hop.
Qed.

(** X24.  [ClearKeyframeCommand] cannot be undone once the keyframe holds a
    shape.  On an operable layer, [execute] on a keyframe remembers the
    frame as data and clears it; [undo] then inserts a keyframe again and,
    to restore the shapes, calls [Shape.fromJSON], which the class [Shape]
    does not have: it throws a [TypeError] whenever the keyframe held at
    least one shape. *)
Theorem ClearKeyframe_undo_throws (w : World (option Frame))
    (layerId : UID) (frameIndex : Z) (r k : nat) (l : Layer) (f : Frame) :
  Document.getLayer layerId (document w) = Some (r, l) ->
  Layer.getFrame frameIndex l = Some (k, f) ->
  isKeyframe f = true -> operable (cells (heap w)) l ->
  shapes f <> [] ->
  exists w1 w2 data,
    ClearKeyframe_execute layerId frameIndex w = (Return tt, w1) /\
    privates w1 = Some data /\
    length (shapes data) = length (shapes f) /\
    Layer.getShapesAtFrame frameIndex <$> (layers (document w1) !! r)
      = Some (if frameIndex =? 1 then [] else Layer.getShapesAtFrame frameIndex
                (set_frames (fun fs => delete k fs) l)) /\
    ClearKeyframe_undo layerId frameIndex w1 = (Throw (TypeError "fromJSON"), w2).
Proof.
  intros Hlayer Hframe Hk Hop Hne.
  pose proof Hlayer as Hl. apply find_ref_Some in Hl as [Hl _].
  pose proof Hframe as Hf. apply find_ref_Some in Hf as [Hf _].
  destruct (operable_lookup _ _ _ _ Hop Hf) as [Hc Hs].
  destruct (Frame_toJSON_run (heap w) f Hc Hs)
    as (data & h1 & ext & Hjson & Hcells & Hlen & _).
  destruct (clearKeyframe_run h1 (set_frames (fun fs => <[k := f]> fs) l)
              frameIndex k f)
    as (l1 & Hclear & Hid & Hop1 & Hdel).
  { apply (getFrame_change frameIndex l k f f Hframe eq_refl). }
  { exact Hk. }
  { exact Hc. }
  assert (El : set_frames (fun fs => <[k := f]> fs) l = l).
  { destruct l as [i n v lk fs c]. unfold set_frames. cbn in *.
    rewrite list_insert_id by exact Hf. reflexivity. }
  rewrite El in *.
  assert (Ed : set_layers (fun ls => <[r := l]> ls) (document w) = document w).
  { destruct (document w) as [i n s ls lib v c sl ss].
    unfold set_layers. cbn in *. rewrite list_insert_id by exact Hl. reflexivity. }
  set (d1 := set_layers (fun ls => <[r := l1]> ls) (document w)).
  set (w1 := {| heap := h1; document := d1; privates := Some data |}).
  assert (Hexec : ClearKeyframe_execute layerId frameIndex w = (Return tt, w1)).
  { unfold ClearKeyframe_execute, bind at 1. rewrite on_document_run, this_run.
    cbn [fst snd]. rewrite World_eta, Hlayer, Hframe, Hk.
    unfold bind at 1. rewrite <- (World_eta w) at 1.
    rewrite (on_frame_of_world _ _ _ _ r k l f Hl Hf), Hjson. cbn [fst snd].
    rewrite El, Ed.
    unfold bind at 1. rewrite on_privates_run. cbn [fst snd modify heap document].
    rewrite (on_layer_of_world _ _ _ _ r l Hl), Hclear. reflexivity. }
  assert (Hlayer1 : Document.getLayer layerId d1 = Some (r, l1))
    by (apply (getLayer_change layerId (document w) r l l1 Hlayer Hid)).
  pose proof Hlayer1 as Hl1. apply find_ref_Some in Hl1 as [Hl1 _].
  assert (Hop1' : operable (cells h1) l1).
  { apply Hop1. rewrite Hcells. apply operable_app, Hop. }
  destruct (insertKeyframe_run h1 l1 frameIndex Hop1')
    as (k2 & h2 & ext2 & l2 & f2 & Hins & _ & _ & Hget2 & _).
  pose proof Hget2 as Hf2. apply find_ref_Some in Hf2 as [Hf2 _].
  assert (Hshown : Layer.getShapesAtFrame frameIndex <$> (layers (document w1) !! r)
      = Some (if frameIndex =? 1 then [] else Layer.getShapesAtFrame frameIndex
                (set_frames (fun fs => delete k fs) l))).
  { cbn [document w1 d1 layers set_layers].
    rewrite list_lookup_insert_eq by (apply lookup_lt_Some in Hl; exact Hl).
    cbn [fmap option_fmap option_map]. f_equal.
    destruct (Z.eq_dec frameIndex 1) as [->|Hn1].
    + cbn [Z.eqb Pos.eqb].
      rewrite (clearKeyframe_1_run h1 l k f Hframe Hk Hc) in Hclear.
      injection Hclear as <-.
      unfold Layer.getShapesAtFrame.
      rewrite (getKeyframeAt_at 1 _ k (set_isEmpty true (set_shapes [] f)));
        [reflexivity| |exact Hk].
      apply (getFrame_change 1 l k f (set_isEmpty true (set_shapes [] f)) Hframe eq_refl).
    + rewrite (Hdel Hn1). apply Z.eqb_neq in Hn1. rewrite Hn1. reflexivity. }
  clearbody d1.
  eexists w1, _, data. splits.
  - exact Hexec.
  - reflexivity.
  - exact Hlen.
  - exact Hshown.
  - unfold ClearKeyframe_undo, bind at 1. rewrite on_privates_run.
    cbn [fst snd privates w1 heap document].
    unfold bind at 1. rewrite on_document_run, this_run. cbn [fst snd heap document].
    rewrite Hlayer1.
    unfold bind at 1. rewrite (on_layer_of_world _ _ _ _ r l1 Hl1), Hins. cbn [fst snd].
    assert (Hl2 : layers (set_layers (fun ls => <[r := l2]> ls) d1) !! r = Some l2).
    { cbn [layers set_layers]. apply list_lookup_insert_eq.
      apply lookup_lt_Some in Hl1. exact Hl1. }
    rewrite (on_frame_of_world _ _ _ _ r k2 l2 f2 Hl2 Hf2).
    rewrite restore_frame_throws; [reflexivity|].
    intros E. apply (f_equal length) in E. rewrite Hlen in E.
    apply length_zero_iff_nil in E. contradiction.
Qed.

(** *** [AddShapeCommand] *)

Lemma addShapeAtFrame_on_keyframe (h : Heap) (l : Layer) (index : Z) (shape : loc)
    (k : nat) (f : Frame) :
  Layer.getKeyframeAt index l = Some (k, f) -> frame_index f = index ->
  frame_class f = true ->
  Layer.addShapeAtFrame index shape (h, l)
  = (Return tt,
     (h, set_frames
           (fun fs => <[k := set_isEmpty false (set_shapes (shapes f ++ [shape]) f)]> fs)
           l)).
Proof.
  intros Hat Hi Hc. pose proof Hat as Hf. apply getKeyframeAt_Some in Hf as (Hf & _).
  unfold Layer.addShapeAtFrame, bind at 1. rewrite this_run. cbn [snd].
  rewrite Hat. apply Z.eqb_eq in Hi. rewrite Hi. cbn [negb].
  unfold bind, ret. rewrite on_frame_run, Hf, (addShape_run h f shape Hc). reflexivity.
Qed.

(** X25.  [AddShapeCommand] where the frame at the frame index is a
    keyframe of the layer, locked or not, and an instance of [Frame], and no
    shape of the keyframe has the id of the shape to add: [execute] appends
    the shape to the keyframe and selects it alone; [undo] removes it again
    and deselects it.  The heap and the shapes of the keyframe are then as
    before [execute], and so are the layers when the keyframe was flagged
    empty exactly when it held no shape; the selection is not: it is empty,
    whatever was selected before. *)
Theorem AddShape_undo_removes_the_shape (w : W) (layerId : UID) (frameIndex : Z)
    (shape : loc) (s : Shape) (r k : nat) (l : Layer) (f : Frame) (ids : list UID) :
  Document.getLayer layerId (document w) = Some (r, l) ->
  Layer.getKeyframeAt frameIndex l = Some (k, f) ->
  frame_index f = frameIndex -> frame_class f = true ->
  cells (heap w) !! shape = Some (OShape s) ->
  ids_of (cells (heap w)) (shapes f) = Some ids ->
  find_ref (is_id (shape_id s)) ids = None ->
  let put (f' : Frame) : Document :=
    set_layers (fun ls => <[r := set_frames (fun fs => <[k := f']> fs) l]> ls)
               (document w) in
  exists w1 w2,
    AddShape_execute layerId frameIndex shape w = (Return tt, w1) /\
    heap w1 = heap w /\
    document w1
    = set_selectedShapeIds (fun _ => [shape_id s])
        (put (set_isEmpty false (set_shapes (shapes f ++ [shape]) f))) /\
    AddShape_undo layerId frameIndex shape w1 = (Return tt, w2) /\
    heap w2 = heap w /\ privates w2 = privates w /\
    document w2
    = set_selectedShapeIds (fun _ => [])
        (put (set_isEmpty (length (shapes f) =? 0)%nat f)) /\
    (isEmpty f = (length (shapes f) =? 0)%nat ->
     layers (document w2) = layers (document w)).
Proof.
  intros Hlayer Hat Hi Hc Hshape Hids Hfresh put.
  pose proof Hlayer as Hl. apply find_ref_Some in Hl as [Hl _].
  pose proof Hat as Hf. apply getKeyframeAt_Some in Hf as (Hf & Hk & _).
  set (f1 := set_isEmpty false (set_shapes (shapes f ++ [shape]) f)).
  set (l1 := set_frames (fun fs => <[k := f1]> fs) l).
  set (d1 := set_selectedShapeIds (fun _ => [shape_id s]) (put f1)).
  set (w1 := {| heap := heap w; document := d1; privates := privates w |}).
  assert (Hexec : AddShape_execute layerId frameIndex shape w = (Return tt, w1)).
  { unfold AddShape_execute, the_document, on_layer_w, on_heap_w.
    unfold bind at 1. rewrite on_document_run, this_run. cbn [fst snd].
    rewrite World_eta, Hlayer.
    unfold bind at 1. rewrite on_document_run, on_layer_run, Hl,
      (addShapeAtFrame_on_keyframe _ l frameIndex shape k f Hat Hi Hc).
    cbn [fst snd].
    unfold bind at 1. rewrite on_document_run, on_heap_run. cbn [fst snd heap document].
    rewrite (read_shape_run (heap w) shape s Hshape). cbn [fst snd].
    rewrite on_document_run. reflexivity. }
  assert (Hlayer1 : Document.getLayer layerId d1 = Some (r, l1))
    by (apply (getLayer_change layerId (document w) r l l1 Hlayer eq_refl)).
  pose proof Hlayer1 as Hl1. apply find_ref_Some in Hl1 as [Hl1 _].
  assert (Hat1 : Layer.getKeyframeAt frameIndex l1 = Some (k, f1))
    by (apply (getKeyframeAt_change frameIndex l k f f1 Hat eq_refl Hk)).
  pose proof Hat1 as Hf1. apply getKeyframeAt_Some in Hf1 as (Hf1 & _).
  set (f2 := set_isEmpty (length (shapes f) =? 0)%nat f).
  assert (Hremove : Frame.removeShape (shape_id s) (heap w, f1)
                    = (Return true, (heap w, f2))).
  { rewrite (removeShape_run (heap w) (shape_id s) f1 (ids ++ [shape_id s]) Hc
               (ids_of_snoc _ _ _ _ _ Hids Hshape)).
    rewrite (find_ref_snoc _ _ _ Hfresh) by (apply String.eqb_refl).
    rewrite (ids_of_length _ _ _ Hids).
    cbn [shapes f1 set_isEmpty set_shapes]. rewrite delete_snoc.
    unfold f2. destruct f; reflexivity. }
  assert (Hput : set_layers (fun ls => <[r := set_frames (fun fs => <[k := f2]> fs) l1]> ls) d1
                 = set_selectedShapeIds (fun _ => [shape_id s]) (put f2)).
  { unfold d1, put, l1. rewrite set_frames_insert_insert.
    destruct (document w) as [i n st ls lib v c sl ss]. unfold set_layers,
      set_selectedShapeIds. cbn. rewrite list_insert_insert_eq. reflexivity. }
  exists w1, {| heap := heap w;
                document := set_selectedShapeIds (fun _ => []) (put f2);
                privates := privates w |}.
  splits; try reflexivity.
  - exact Hexec.
  - unfold AddShape_undo, the_document, on_frame_w, on_heap_w.
    unfold bind at 1. rewrite on_document_run, this_run. cbn [fst snd heap document w1].
    rewrite Hlayer1, Hat1.
    unfold bind at 1. unfold bind at 1.
    rewrite on_document_run, on_heap_run. cbn [fst snd heap document].
    rewrite (read_shape_run (heap w) shape s Hshape). cbn [fst snd].
    unfold bind at 1.
    rewrite (on_frame_of_world _ _ _ _ r k l1 f1 Hl1 Hf1), Hremove. cbn [fst snd ret].
    rewrite Hput.
    unfold bind at 1. rewrite on_document_run, on_heap_run. cbn [fst snd heap document].
    rewrite (read_shape_run (heap w) shape s Hshape). cbn [fst snd].
    rewrite on_document_run. cbn [heap document privates].
    unfold Document.deselectShape, bind, set_this, modify, Document.emit, ret.
    cbn [fst snd]. f_equal. f_equal.
    unfold set_selectedShapeIds, Set_delete. cbn. rewrite String.eqb_refl. reflexivity.
  - intros Hflag. cbn [document layers set_selectedShapeIds put set_layers].
    replace f2 with f by (unfold f2; destruct f; cbn in *; subst; reflexivity).
    assert (El : set_frames (fun fs => <[k := f]> fs) l = l).
    { destruct l as [i n v lk fs c]. unfold set_frames. cbn in *.
      rewrite list_insert_id by exact Hf. reflexivity. }
    rewrite El. apply list_insert_id, Hl.
Qed.

(** ** Tween.ts: pairing the shapes of two keyframes *)

Lemma match_by_id_acc (e s : list Shape) (acc : list (Shape * Shape) * list nat) :
  Tween.match_by_id e s acc
  = (fst acc ++ matched_pairs e s, snd acc ++ used_indices e s).
Proof.
  unfold matched_pairs, used_indices. revert acc.
  induction s as [|x s IH]; intros [ps us]; cbn.
  - rewrite !app_nil_r. reflexivity.
  - destruct (Tween.index_of_id e x) as [[i y]|].
    + rewrite (IH (ps ++ [(x, y)], us ++ [i])), (IH ([(x, y)], [i])). cbn.
      rewrite <- !app_assoc. reflexivity.
    + apply IH.
Qed.

Lemma matched_pairs_cons (e : list Shape) (x : Shape) (s : list Shape) :
  matched_pairs e (x :: s)
  = match Tween.index_of_id e x with
    | Some (i, y) => (x, y) :: matched_pairs e s
    | None => matched_pairs e s
    end.
Proof.
  unfold matched_pairs at 1. cbn.
  destruct (Tween.index_of_id e x) as [[i y]|]; [|reflexivity].
  rewrite match_by_id_acc. reflexivity.
Qed.

Lemma used_indices_cons (e : list Shape) (x : Shape) (s : list Shape) :
  used_indices e (x :: s)
  = match Tween.index_of_id e x with
    | Some (i, y) => i :: used_indices e s
    | None => used_indices e s
    end.
Proof.
  unfold used_indices at 1. cbn.
  destruct (Tween.index_of_id e x) as [[i y]|]; [|reflexivity].
  rewrite match_by_id_acc. reflexivity.
Qed.

Lemma matched_pairs_In (e s : list Shape) (x y : Shape) :
  In (x, y) (matched_pairs e s)
  <-> In x s /\ exists i, Tween.index_of_id e x = Some (i, y).
Proof.
  induction s as [|a s IH]; [cbn; tauto|].
  rewrite matched_pairs_cons.
  destruct (Tween.index_of_id e a) as [[i b]|] eqn:E; cbn; rewrite IH; split.
  - intros [H|[H H']]; [injection H as <- <-; eauto|auto].
  - intros [[<-|H] [j Hj]]; [left; congruence|eauto].
  - intros [H H']; auto.
  - intros [[<-|H] [j Hj]]; [congruence|eauto].
Qed.

Lemma used_indices_In (e s : list Shape) (i : nat) :
  In i (used_indices e s)
  <-> exists x y, In x s /\ Tween.index_of_id e x = Some (i, y).
Proof.
  induction s as [|a s IH]; [cbn; split; [tauto|intros (? & ? & [] & _)]|].
  rewrite used_indices_cons.
  destruct (Tween.index_of_id e a) as [[j b]|] eqn:E; cbn; rewrite IH; split.
  - intros [<-|(x & y & H & H')]; [exists a, b; auto|exists x, y; auto].
  - intros (x & y & [<-|H] & H'); [left; congruence|right; eauto].
  - intros (x & y & H & H'); eauto.
  - intros (x & y & [<-|H] & H'); [congruence|eauto].
Qed.

Lemma matched_pairs_fst (e s : list Shape) :
  map fst (matched_pairs e s) = List.filter (matched e) s.
Proof.
  induction s as [|a s IH]; [reflexivity|].
  rewrite matched_pairs_cons. cbn. unfold matched at 1.
  destruct (Tween.index_of_id e a) as [[i b]|]; cbn; rewrite IH; reflexivity.
Qed.

Lemma matched_pairs_snd (e s : list Shape) :
  Forall2 (fun y i => e !! i = Some y) (map snd (matched_pairs e s)) (used_indices e s).
Proof.
  induction s as [|a s IH]; [constructor|].
  rewrite matched_pairs_cons, used_indices_cons.
  destruct (Tween.index_of_id e a) as [[i b]|] eqn:E; [|exact IH].
  cbn. constructor; [|exact IH]. apply find_ref_Some in E. tauto.
Qed.

(** Whether a shape is matched depends on its id alone. *)
Lemma index_of_id_same (e : list Shape) (x x' : Shape) :
  shape_id x = shape_id x' -> Tween.index_of_id e x = Tween.index_of_id e x'.
Proof. unfold Tween.index_of_id. intros ->. reflexivity. Qed.

Lemma index_of_id_Some (e : list Shape) (x y : Shape) (i : nat) :
  Tween.index_of_id e x = Some (i, y) -> e !! i = Some y /\ shape_id y = shape_id x.
Proof.
  intros H. apply find_ref_Some in H as [Hi Hp]. split; [exact Hi|].
  apply String.eqb_eq, Hp.
Qed.

(** [!pairs.some(p => p.start.id === s.id)] holds of the shapes of the start
    that are not matched. *)
Lemma unpaired_start (e s : list Shape) :
  List.filter
    (fun x => negb (existsb (fun p => String.eqb (shape_id (fst p)) (shape_id x))
                            (matched_pairs e s))) s
  = List.filter (fun x => negb (matched e x)) s.
Proof.
  apply filter_ext_in. intros x Hx. f_equal.
  apply eq_true_iff_eq. rewrite existsb_exists. unfold matched. split.
  - intros [[x' y] [Hin Hid]]. apply matched_pairs_In in Hin as [_ [i Hi]].
    apply String.eqb_eq in Hid. cbn in Hid.
    rewrite <- (index_of_id_same e x' x Hid), Hi. reflexivity.
  - destruct (Tween.index_of_id e x) as [[i y]|] eqn:E; [|discriminate].
    intros _. exists (x, y). split.
    + apply matched_pairs_In. eauto.
    + apply String.eqb_refl.
Qed.

Lemma used_indices_length (e s : list Shape) :
  length (used_indices e s) = length (matched_pairs e s).
Proof.
  pose proof (matched_pairs_snd e s) as H. apply Forall2_length in H.
  rewrite length_map in H. auto.
Qed.

Lemma used_indices_NoDup (e s : list Shape) :
  NoDup (map shape_id s) -> NoDup (used_indices e s).
Proof.
  induction s as [|a s IH]; intros Hs; [constructor|].
  rewrite used_indices_cons. cbn in Hs. apply NoDup_cons in Hs as [Ha Hs].
  destruct (Tween.index_of_id e a) as [[i b]|] eqn:E; [|auto].
  apply NoDup_cons. split; [|auto].
  rewrite list_elem_of_In, used_indices_In. intros (x & y & Hx & Hi).
  apply Ha. apply index_of_id_Some in E as [E1 E2], Hi as [H1 H2].
  assert (y = b) as -> by congruence.
  rewrite <- E2, H2. apply list_elem_of_In, in_map, Hx.
Qed.

Lemma filter_complement_length {X : Type} (p : X -> bool) (l : list X) :
  (length (List.filter p l) + length (List.filter (fun x => negb (p x)) l))%nat = length l.
Proof. induction l as [|a l IH]; [reflexivity|]. cbn. destruct (p a); cbn; lia. Qed.

Lemma filter_complement_Permutation {X : Type} (p : X -> bool) (l : list X) :
  List.filter p l ++ List.filter (fun x => negb (p x)) l ≡ₚ l.
Proof.
  induction l as [|a l IH]; [reflexivity|]. cbn. destruct (p a); cbn.
  - constructor. exact IH.
  - rewrite <- Permutation_middle. constructor. exact IH.
Qed.

(** The positions that [with_refs] gives are those of the array. *)
Lemma with_refs_lookup {X : Type} (xs : list X) (i : nat) (x : X) :
  In (i, x) (with_refs xs) <-> xs !! i = Some x.
Proof.
  unfold with_refs. rewrite <- list_elem_of_In, list_elem_of_lookup. split.
  - intros [j Hj]. rewrite list_lookup_imap in Hj.
    destruct (xs !! j) eqn:E; cbn in Hj; [|discriminate]. congruence.
  - intros H. exists i. rewrite list_lookup_imap, H. reflexivity.
Qed.

Lemma with_refs_fst {X : Type} (xs : list X) :
  map fst (with_refs xs) = seq 0 (length xs).
Proof.
  unfold with_refs. apply list_eq. intros i.
  rewrite list_lookup_fmap, list_lookup_imap.
  destruct (xs !! i) eqn:E; cbn.
  - symmetry. apply lookup_seq. split; [reflexivity|].
    apply lookup_lt_Some in E. exact E.
  - symmetry. apply lookup_seq_ge. apply lookup_ge_None in E. exact E.
Qed.

Lemma map_filter_fst {X Y : Type} (q : X -> bool) (l : list (X * Y)) :
  map fst (List.filter (fun p => q (fst p)) l) = List.filter q (map fst l).
Proof.
  induction l as [|a l IH]; [reflexivity|]. cbn.
  destruct (q (fst a)); cbn; rewrite IH; reflexivity.
Qed.

(** The indices of the end that the first pass has not used. *)
Lemma unpaired_end_length (used : list nat) (e : list Shape) :
  NoDup used -> (forall i, In i used -> (i < length e)%nat) ->
  (length (List.filter (fun p => negb (existsb (Nat.eqb (fst p)) used)) (with_refs e))
   + length used)%nat = length e.
Proof.
  intros Hnd Hlt.
  rewrite <- (length_map fst (List.filter _ _)).
  rewrite (map_filter_fst (fun i => negb (existsb (Nat.eqb i) used))), with_refs_fst.
  pose proof (filter_complement_length (fun i => existsb (Nat.eqb i) used)
                                       (seq 0 (length e))) as Hc.
  rewrite length_seq in Hc.
  assert (List.filter (fun i => existsb (Nat.eqb i) used) (seq 0 (length e)) ≡ₚ used) as Hp.
  { apply NoDup_Permutation; [|exact Hnd|].
    - apply NoDup_ListNoDup, List.NoDup_filter, seq_NoDup.
    - intros i. rewrite !list_elem_of_In, filter_In, in_seq, existsb_exists. split.
      + intros [_ (j & Hj & Hij)]. apply Nat.eqb_eq in Hij. subst j. exact Hj.
      + intros Hi. split; [specialize (Hlt i Hi); lia|].
        exists i. split; [exact Hi|apply Nat.eqb_refl]. }
  rewrite <- (Permutation_length Hp). lia.
Qed.

Lemma map_fst_combine {X Y : Type} (l : list X) (k : list Y) :
  map fst (combine l k) = take (length k) l.
Proof.
  revert k. induction l as [|a l IH]; intros [|b k]; cbn; try reflexivity.
  rewrite IH. reflexivity.
Qed.

Lemma map_snd_combine {X Y : Type} (l : list X) (k : list Y) :
  map snd (combine l k) = take (length l) k.
Proof.
  revert k. induction l as [|a l IH]; intros [|b k]; cbn; try reflexivity.
  rewrite IH. reflexivity.
Qed.

(** Elements of an array without two equal ids, taken at positions that
    are all different, have ids that are all different. *)
Lemma NoDup_at_positions {X K : Type} (f : X -> K) (e ys : list X) (js : list nat) :
  Forall2 (fun y i => e !! i = Some y) ys js ->
  NoDup js -> NoDup (map f e) -> NoDup (map f ys).
Proof.
  intros H His He. induction H as [|y i ys js Hy H IH]; [constructor|].
  apply NoDup_cons in His as [Hi His]. cbn. apply NoDup_cons. split; [|auto].
  intros Hin. apply Hi. apply list_elem_of_In, in_map_iff in Hin as (y' & Hf & Hin).
  apply list_elem_of_In, list_elem_of_lookup in Hin as [k Hk].
  destruct (Forall2_lookup_l _ _ _ _ _ H Hk) as (i' & Hi' & Hy').
  assert (i' = i) as <-.
  { apply (proj1 (NoDup_alt (map f e)) He i' i (f y)).
    - rewrite list_lookup_fmap, Hy', <- Hf. reflexivity.
    - rewrite list_lookup_fmap, Hy. reflexivity. }
  apply list_elem_of_lookup. eauto.
Qed.

(** The equation of [createTweenPairs]: the pairs of the first pass, then
    the unmatched shapes of the start with the unused shapes of the end. *)
Lemma createTweenPairs_eq (s e : list Shape) :
  let unpairedStart := List.filter (fun x => negb (matched e x)) s in
  let unpairedEnd :=
    List.filter (fun p => negb (existsb (Nat.eqb (fst p)) (used_indices e s)))
                (with_refs e) in
  let k := Nat.min (length unpairedStart) (length unpairedEnd) in
  Tween.createTweenPairs s e
  = matched_pairs e s ++ combine (take k unpairedStart) (take k (map snd unpairedEnd)).
Proof.
  cbv zeta. unfold Tween.createTweenPairs.
  rewrite (match_by_id_acc e s ([], [])). cbn [fst snd app].
  rewrite unpaired_start, !length_map. reflexivity.
Qed.

Lemma map_sublist {X Y : Type} (f : X -> Y) (l k : list X) :
  sublist l k -> sublist (map f l) (map f k).
Proof. induction 1; cbn; constructor; assumption. Qed.

Lemma used_indices_lt (e s : list Shape) (i : nat) :
  In i (used_indices e s) -> (i < length e)%nat.
Proof.
  intros H. apply used_indices_In in H as (x & y & _ & H).
  apply index_of_id_Some in H as [H _]. apply lookup_lt_Some in H. exact H.
Qed.

Lemma matched_pairs_empty (s : list Shape) : matched_pairs [] s = [].
Proof. induction s as [|a s IH]; [reflexivity|]. rewrite matched_pairs_cons. exact IH. Qed.

Lemma createTweenPairs_length (s e : list Shape) :
  let unpairedStart := List.filter (fun x => negb (matched e x)) s in
  let unpairedEnd :=
    List.filter (fun p => negb (existsb (Nat.eqb (fst p)) (used_indices e s)))
                (with_refs e) in
  length (Tween.createTweenPairs s e)
  = (length (matched_pairs e s)
     + Nat.min (length unpairedStart) (length unpairedEnd))%nat.
Proof.
  cbv zeta. rewrite createTweenPairs_eq.
  rewrite length_app, length_combine, !length_take, length_map. lia.
Qed.

Lemma unpaired_start_length (e s : list Shape) :
  (length (matched_pairs e s) + length (List.filter (fun x => negb (matched e x)) s))%nat
  = length s.
Proof.
  rewrite <- (length_map fst (matched_pairs e s)), matched_pairs_fst.
  apply filter_complement_length.
Qed.

(** The shapes of a pair come from the two arrays. *)
Lemma createTweenPairs_In (s e : list Shape) (x y : Shape) :
  In (x, y) (Tween.createTweenPairs s e) -> In x s /\ In y e.
Proof.
  rewrite createTweenPairs_eq. intros H. apply in_app_or in H as [H|H].
  - apply matched_pairs_In in H as [Hx [i Hi]]. split; [exact Hx|].
    apply index_of_id_Some in Hi as [Hi _]. apply In_lookup. eauto.
  - split.
    + apply in_combine_l in H. apply list_elem_of_In in H.
      pose proof (elem_of_sublist _ _ _ H (sublist_take _ _)) as H'.
      apply list_elem_of_In, filter_In in H'. tauto.
    + apply in_combine_r in H. apply list_elem_of_In in H.
      pose proof (elem_of_sublist _ _ _ H (sublist_take _ _)) as H'.
      apply list_elem_of_In, in_map_iff in H' as ([i y'] & Hy & H').
      cbn in Hy. subst y'. apply filter_In in H' as [H' _].
      apply with_refs_lookup in H'. apply In_lookup. eauto.
Qed.

(** There is no pair exactly when one of the arrays is empty. *)
Lemma createTweenPairs_nil (s e : list Shape) :
  Tween.createTweenPairs s e = [] <-> s = [] \/ e = [].
Proof.
  split.
  - intros H. apply (f_equal length) in H. rewrite createTweenPairs_length in H.
    cbn [length] in H.
    pose proof (unpaired_start_length e s) as Hs.
    pose proof (used_indices_length e s) as Hu.
    assert (used_indices e s = []) as Hnil
      by (destruct (used_indices e s); [reflexivity|cbn in Hu; lia]).
    rewrite Hnil in H.
    pose proof (unpaired_end_length [] e (NoDup_nil_2) (fun i (Hi : In i []) => match Hi with end))
      as He.
    cbn [length] in He.
    destruct s as [|a s]; [auto|]. destruct e as [|b e]; [auto|].
    cbn [length] in *. lia.
  - intros [->| ->].
    + reflexivity.
    + rewrite createTweenPairs_eq, matched_pairs_empty. cbn.
      rewrite Nat.min_0_r. reflexivity.
Qed.

(** With ids that are all different in the start, the pairs are as many as
    the shorter array has shapes. *)
Lemma createTweenPairs_count (s e : list Shape) :
  NoDup (map shape_id s) ->
  length (Tween.createTweenPairs s e) = Nat.min (length s) (length e).
Proof.
  intros Hs. rewrite createTweenPairs_length.
  pose proof (unpaired_start_length e s) as H1.
  pose proof (unpaired_end_length (used_indices e s) e (used_indices_NoDup e s Hs)
                                  (used_indices_lt e s)) as H2.
  rewrite used_indices_length in H2. lia.
Qed.

(** No shape of the start is in two pairs. *)
Lemma createTweenPairs_start_once (s e : list Shape) :
  NoDup (map shape_id s) ->
  NoDup (map (fun p => shape_id (fst p)) (Tween.createTweenPairs s e)).
Proof.
  intros Hs. rewrite <- (map_map fst shape_id).
  apply (sublist_NoDup _ (map shape_id (List.filter (matched e) s
                                         ++ List.filter (fun x => negb (matched e x)) s))).
  - change (NoDup (shape_id <$> (List.filter (matched e) s
                                 ++ List.filter (fun x => negb (matched e x)) s))).
    rewrite filter_complement_Permutation. exact Hs.
  - apply map_sublist. rewrite createTweenPairs_eq, map_app, matched_pairs_fst.
    apply sublist_app; [reflexivity|].
    rewrite map_fst_combine.
    etransitivity; [apply sublist_take|apply sublist_take].
Qed.

(** No shape of the end is in two pairs. *)
Lemma createTweenPairs_end_once (s e : list Shape) :
  NoDup (map shape_id s) -> NoDup (map shape_id e) ->
  NoDup (map (fun p => shape_id (snd p)) (Tween.createTweenPairs s e)).
Proof.
  intros Hs He. rewrite <- (map_map snd shape_id).
  rewrite createTweenPairs_eq, map_app, map_snd_combine.
  set (unused := List.filter _ (with_refs e)).
  set (k := Nat.min _ _). set (n := length (take k _)).
  apply (NoDup_at_positions shape_id e _
           (used_indices e s ++ take n (take k (map fst unused)))); [| |exact He].
  - apply Forall2_app; [apply matched_pairs_snd|].
    apply Forall2_take, Forall2_take.
    apply Forall2_fmap, Forall_Forall2_diag, List.Forall_forall.
    intros [i y] H. apply filter_In in H as [H _].
    apply with_refs_lookup in H. exact H.
  - apply NoDup_app. split; [exact (used_indices_NoDup e s Hs)|]. split.
    + intros i Hi Hin.
      assert (sublist (take n (take k (map fst unused))) (map fst unused)) as Hsub
        by (etransitivity; apply sublist_take).
      pose proof (elem_of_sublist _ _ _ Hin Hsub) as Hin'. clear Hin.
      rename Hin' into Hin.
      apply list_elem_of_In, in_map_iff in Hin as ([j y] & Hj & Hin).
      cbn in Hj. subst j. apply filter_In in Hin as [_ Hin]. cbn in Hin.
      apply negb_true_iff in Hin.
      assert (existsb (Nat.eqb i) (used_indices e s) = true) as Ht; [|congruence].
      apply existsb_exists. exists i. split; [apply list_elem_of_In, Hi|apply Nat.eqb_refl].
    + apply (sublist_NoDup _ (map fst unused)); [|etransitivity; apply sublist_take].
      apply (sublist_NoDup _ (map fst (with_refs e))).
      * rewrite with_refs_fst. apply NoDup_ListNoDup, seq_NoDup.
      * apply map_sublist. subst unused. clear.
        induction (with_refs e) as [|a l IH]; [constructor|]. cbn.
        destruct (negb _); constructor; exact IH.
Qed.

(** Two shapes of the same id are paired with each other. *)
Lemma createTweenPairs_by_id (s e : list Shape) (x y : Shape) :
  NoDup (map shape_id e) -> In x s -> In y e -> shape_id x = shape_id y ->
  In (x, y) (Tween.createTweenPairs s e).
Proof.
  intros He Hx Hy Hid. rewrite createTweenPairs_eq. apply in_or_app. left.
  apply matched_pairs_In. split; [exact Hx|].
  destruct (find_ref_exists (fun z => String.eqb (shape_id z) (shape_id x)) e y Hy)
    as (r & y' & E); [apply String.eqb_eq; auto|].
  exists r. unfold Tween.index_of_id. rewrite E. f_equal. f_equal.
  apply find_ref_Some in E as [Hr Hp]. apply String.eqb_eq in Hp.
  apply In_lookup in Hy as [j Hj].
  assert (r = j) as ->; [|congruence].
  apply (proj1 (NoDup_alt (map shape_id e)) He r j (shape_id x)).
  - rewrite list_lookup_fmap, Hr. cbn. congruence.
  - rewrite list_lookup_fmap, Hj. cbn. congruence.
Qed.

(** X26.  [createTweenPairs(startShapes, endShapes)] pairs shapes of the
    start with shapes of the end, and returns no pair exactly when one of
    the arrays is empty.  When the ids of the start are all different, the
    pairs are as many as the shorter array has shapes, and no shape of the
    start is in two pairs; when the ids of the end are all different too, no
    shape of the end is in two pairs, and two shapes of the same id are
    paired with each other. *)
Theorem createTweenPairs_is_a_matching (startShapes endShapes : list Shape) :
  let pairs := Tween.createTweenPairs startShapes endShapes in
  (forall x y, In (x, y) pairs -> In x startShapes /\ In y endShapes) /\
  (pairs = [] <-> startShapes = [] \/ endShapes = []) /\
  (NoDup (map shape_id startShapes) ->
     length pairs = Nat.min (length startShapes) (length endShapes) /\
     NoDup (map (fun p => shape_id (fst p)) pairs) /\
     (NoDup (map shape_id endShapes) ->
        NoDup (map (fun p => shape_id (snd p)) pairs) /\
        forall x y, In x startShapes -> In y endShapes ->
                    shape_id x = shape_id y -> In (x, y) pairs)).
Proof.
  cbv zeta. split; [apply createTweenPairs_In|].
  split; [apply createTweenPairs_nil|].
  intros Hs. split; [apply createTweenPairs_count, Hs|].
  split; [apply createTweenPairs_start_once, Hs|].
  intros He. split; [apply createTweenPairs_end_once; assumption|].
  intros x y. apply createTweenPairs_by_id, He.
Qed.

(** ** types.ts: colours and their hexadecimal notation *)

Lemma channels_ok : forallb channel_ok (map Z.of_nat (seq 0 256)) = true.
Proof. vm_compute. reflexivity. Qed.

Lemma channel_spec (n : Z) :
  0 <= n <= 255 ->
  (exists a b, channel n = String a (String b EmptyString) /\ hex_pair a b = Some n) /\
  Math_round (number_of n) = RoundInteger n.
Proof.
  intros Hn. pose proof channels_ok as H. rewrite forallb_forall in H.
  specialize (H n). unfold channel_ok in H.
  assert (In n (map Z.of_nat (seq 0 256))) as Hin.
  { apply in_map_iff. exists (Z.to_nat n). split; [lia|]. apply in_seq. lia. }
  apply H, andb_true_iff in Hin as [H1 H2]. split.
  - destruct (channel n) as [|a [|b [|c s]]]; try discriminate H1.
    exists a, b. split; [reflexivity|].
    destruct (hex_pair a b) as [v|]; [|discriminate H1].
    apply Z.eqb_eq in H1. congruence.
  - destruct (Math_round (number_of n)) as [| |m]; try discriminate H2.
    apply Z.eqb_eq in H2. congruence.
Qed.

Lemma hex_digit_range (c : ascii) (v : Z) : hex_digit c = Some v -> 0 <= v <= 15.
Proof.
  unfold hex_digit. intros H.
  repeat match type of H with
         | (if ?b then _ else _) = _ => destruct b eqn:?; [injection H as <-; lia|]
         end.
  discriminate H.
Qed.

Lemma hex_pair_range (a b : ascii) (v : Z) : hex_pair a b = Some v -> 0 <= v <= 255.
Proof.
  unfold hex_pair. intros H.
  destruct (hex_digit a) as [h|] eqn:Ha; [|discriminate H].
  destruct (hex_digit b) as [l|] eqn:Hb; [|discriminate H].
  cbn in H. injection H as <-.
  apply hex_digit_range in Ha, Hb. lia.
Qed.

Lemma hex_groups_range (hex : string) (r g b : Z) :
  hex_groups hex = Some (r, g, b) -> 0 <= r <= 255 /\ 0 <= g <= 255 /\ 0 <= b <= 255.
Proof.
  unfold hex_groups. intros H.
  destruct (match hex with String "#"%char rest => rest | _ => hex end)
    as [|r1 [|r2 [|g1 [|g2 [|b1 [|b2 [|c s]]]]]]]; try discriminate H.
  destruct (hex_pair r1 r2) as [r'|] eqn:Hr; [|discriminate H].
  destruct (hex_pair g1 g2) as [g'|] eqn:Hg; [|discriminate H].
  destruct (hex_pair b1 b2) as [b'|] eqn:Hb; [|discriminate H].
  cbn in H. injection H as <- <- <-.
  split; [|split]; eapply hex_pair_range; eassumption.
Qed.

(** What [hexToColor] reads in the notation of a colour whose channels
    round to integers from 0 to 255. *)
Lemma hexToColor_colorToHex (color : Color) (r g b : Z) (alpha : option number) :
  Math_round (c_r color) = RoundInteger r -> 0 <= r <= 255 ->
  Math_round (c_g color) = RoundInteger g -> 0 <= g <= 255 ->
  Math_round (c_b color) = RoundInteger b -> 0 <= b <= 255 ->
  hexToColor (colorToHex color) alpha
  = {| c_r := number_of r; c_g := number_of g; c_b := number_of b;
       c_a := default 1%float alpha |}.
Proof.
  intros Er Hr Eg Hg Eb Hb. unfold colorToHex. rewrite Er, Eg, Eb.
  fold (channel r) (channel g) (channel b).
  destruct (channel_spec r Hr) as [(r1 & r2 & -> & Pr) _].
  destruct (channel_spec g Hg) as [(g1 & g2 & -> & Pg) _].
  destruct (channel_spec b Hb) as [(b1 & b2 & -> & Pb) _].
  unfold hexToColor, hex_groups. cbv [String.append].
  rewrite Pr, Pg, Pb. reflexivity.
Qed.

(** X27.  The hexadecimal notation of a colour reads back as the colour
    rounded: when the three channels of a colour round to integers from 0 to
    255, [hexToColor(colorToHex(color), alpha)] has these integers as its
    channels, with the alpha given, or 1.  Every colour that [hexToColor]
    returns, among them the black returned for a string that is not six
    hexadecimal digits, reads back from its notation as itself. *)
Theorem hex_notation_reads_back (color : Color) (alpha : option number) :
  (forall r g b,
     Math_round (c_r color) = RoundInteger r -> 0 <= r <= 255 ->
     Math_round (c_g color) = RoundInteger g -> 0 <= g <= 255 ->
     Math_round (c_b color) = RoundInteger b -> 0 <= b <= 255 ->
     hexToColor (colorToHex color) alpha
     = {| c_r := number_of r; c_g := number_of g; c_b := number_of b;
          c_a := default 1%float alpha |}) /\
  (forall hex,
     hexToColor (colorToHex (hexToColor hex alpha)) alpha = hexToColor hex alpha).
Proof.
  split; [intros r g b; apply hexToColor_colorToHex|].
  intros hex. unfold hexToColor at 2 3.
  destruct (hex_groups hex) as [[[r g] b]|] eqn:E.
  - apply hex_groups_range in E as (Hr & Hg & Hb).
    apply hexToColor_colorToHex; cbn [c_r c_g c_b]; try assumption;
      apply channel_spec; assumption.
  - apply (hexToColor_colorToHex _ 0 0 0); cbn [c_r c_g c_b]; try lia; reflexivity.
Qed.

(** ** Frame.ts and Layer.ts: clone *)

Lemma set_frames_same (layer : Layer) (r : nat) (f : Frame) :
  frames layer !! r = Some f -> set_frames (fun fs => <[r := f]> fs) layer = layer.
Proof.
  intros H. destruct layer as [i n v lk fs c]. unfold set_frames. cbn in *.
  rewrite list_insert_id by exact H. reflexivity.
Qed.

Lemma frame_copy_app (cs cs' ext : list Obj) (f c : Frame) :
  frame_copy cs cs' f c -> frame_copy cs (cs' ++ ext) f c.
Proof.
  unfold frame_copy. intros (H1 & H2 & H3 & H4 & H5 & H6 & H7 & H8).
  splits; try assumption.
  eapply Forall2_impl; [exact H8|]. cbn. intros o c' [id H]. exists id.
  apply copy_of_app, H.
Qed.

Lemma frame_copy_base (cs ext cs' : list Obj) (f c : Frame) :
  Forall (clonable cs) (shapes f) ->
  frame_copy (cs ++ ext) cs' f c -> frame_copy cs cs' f c.
Proof.
  unfold frame_copy. intros Hall (H1 & H2 & H3 & H4 & H5 & H6 & H7 & H8).
  splits; try assumption.
  apply Forall2_same_length_lookup. split; [eapply Forall2_length, H8|].
  intros k o c' Ho Hc'.
  destruct (Forall2_lookup_lr _ _ _ _ _ _ H8 Ho Hc') as [id H].
  exists id. apply (copy_of_base cs ext); [|exact H].
  rewrite Forall_lookup in Hall. destruct (Hall k o Ho) as (v & Hv & _). congruence.
Qed.

(** What [clone()] of a frame returns and leaves. *)
Lemma Frame_clone_run (h : Heap) (f : Frame) :
  frame_class f = true -> Forall (clonable (cells h)) (shapes f) ->
  exists c h' ext,
    Frame.clone (h, f) = (Return c, (h', f)) /\
    cells h' = cells h ++ ext /\
    frame_copy (cells h) (cells h') f c /\
    Forall (clonable (cells h')) (shapes c).
Proof.
  intros Hc Hall.
  destruct (mapA_clone_run (shapes f) h Hall) as (copies & ext & Hrun & Hlen & Hcopies).
  unfold Frame.clone, bind at 1. rewrite this_run. cbn [snd].
  unfold bind at 1, method. rewrite Hc. cbn [ret].
  unfold bind at 1. rewrite on_heap_run, Hrun. cbn [fst snd].
  rewrite on_heap_run. unfold Frame.new, bind, orElse, generateUID, ret.
  cbn [init_frame_id init_index init_isKeyframe init_isEmpty init_shapes
       init_tweenType init_easing init_duration default from_option id fst snd].
  eexists _, _, ext. split; [reflexivity|]. cbn [cells grown].
  split; [reflexivity|]. split.
  - unfold frame_copy.
    cbn [frame_class frame_index isKeyframe isEmpty shapes tweenType easing duration].
    rewrite Hlen. splits; try reflexivity.
    apply Forall2_same_length_lookup. split; [auto|].
    intros k o c' Ho Hc'. destruct (Hcopies k o Ho) as (c'' & Hc'' & Hcopy).
    assert (c'' = c') as -> by congruence. eauto.
  - cbn [shapes].
    apply (copies_clonable _ _ (fun k => uid_source h (uid_calls h + k)%nat) (shapes f));
      assumption.
Qed.

(** What [this.frames.map(f => f.clone())] returns and leaves, from the
    frame at position [k] on. *)
Lemma clone_frames_run (layer : Layer) (rest : list Frame) (k : nat) (h : Heap) :
  drop k (frames layer) = rest ->
  Forall (fun f => frame_class f = true /\ Forall (clonable (cells h)) (shapes f)) rest ->
  exists copies h' ext,
    mapA (fun frame => Layer.on_frame frame Frame.clone) (seq k (length rest)) (h, layer)
    = (Return copies, (h', layer)) /\
    cells h' = cells h ++ ext /\
    Forall2 (frame_copy (cells h) (cells h')) rest copies /\
    Forall (fun c => frame_class c = true /\ Forall (clonable (cells h')) (shapes c)) copies.
Proof.
  revert k h. induction rest as [|f rest IH]; intros k h Hdrop Hall.
  - exists [], h, []. rewrite app_nil_r. splits; constructor.
  - apply Forall_cons in Hall as [[Hc Hs] Hall].
    assert (Hk : frames layer !! k = Some f).
    { pose proof (lookup_drop (frames layer) k 0) as E.
      rewrite Hdrop, Nat.add_0_r in E. symmetry. exact E. }
    assert (Hdrop' : drop (S k) (frames layer) = rest).
    { pose proof (drop_drop (frames layer) 1 k) as E.
      rewrite Hdrop, Nat.add_1_r in E. symmetry. exact E. }
    destruct (Frame_clone_run h f Hc Hs) as (c & h1 & ext1 & Hrun & Hcells & Hcopy & Hcl).
    assert (Hall1 : Forall (fun f => frame_class f = true
                                     /\ Forall (clonable (cells h1)) (shapes f)) rest).
    { eapply Forall_impl; [exact Hall|]. cbn. intros g [Hg Hgs]. split; [exact Hg|].
      rewrite Hcells. eapply Forall_impl; [exact Hgs|]. intros l. apply clonable_app. }
    destruct (IH (S k) h1 Hdrop' Hall1) as (copies & h' & ext2 & Hruns & Hcells' & Hcopies & Hcls).
    cbn [length seq mapA]. unfold bind at 1.
    rewrite on_frame_run, Hk, Hrun. cbn [fst snd].
    rewrite (set_frames_same layer k f Hk).
    unfold bind at 1. rewrite Hruns. cbn [ret].
    exists (c :: copies), h', (ext1 ++ ext2).
    assert (Ecells : cells h' = cells h ++ ext1 ++ ext2)
      by (rewrite Hcells', Hcells, <- app_assoc; reflexivity).
    splits; [reflexivity|exact Ecells| |].
    + constructor.
      * rewrite Hcells'. apply frame_copy_app, Hcopy.
      * apply Forall2_same_length_lookup. split; [eapply Forall2_length, Hcopies|].
        intros j g c' Hg Hc'.
        pose proof (Forall2_lookup_lr _ _ _ _ _ _ Hcopies Hg Hc') as H.
        rewrite Hcells in H. apply (frame_copy_base _ ext1); [|exact H].
        rewrite Forall_lookup in Hall. apply (Hall j g Hg).
    + constructor; [|exact Hcls]. destruct Hcopy as (Hclass & _).
      split; [exact Hclass|]. rewrite Hcells'.
      eapply Forall_impl; [exact Hcl|]. intros l. apply clonable_app.
Qed.

(** X28.  [clone()] of a layer whose frames are instances of [Frame]
    holding shapes that can be copied returns and leaves the layer and the
    objects of the heap as they were.  The copy is named after the layer
    with [" Copy"] appended, is visible and locked as the layer is, has its
    colour, and holds, frame for frame, copies of its frames: same index,
    flags, tween and duration, and for each shape a copy made of new
    objects.  The copy can be cloned in turn. *)
Theorem Layer_clone_is_a_deep_copy (h : Heap) (layer : Layer) :
  operable (cells h) layer ->
  exists copy h' ext,
    Layer.clone (h, layer) = (Return copy, (h', layer)) /\
    cells h' = cells h ++ ext /\
    layer_name copy = layer_name layer +:+ " Copy" /\
    visible copy = visible layer /\ locked copy = locked layer /\
    layer_color copy = layer_color layer /\
    Forall2 (frame_copy (cells h) (cells h')) (frames layer) (frames copy) /\
    operable (cells h') copy.
Proof.
  intros Hop.
  destruct (clone_frames_run layer (frames layer) 0 h eq_refl Hop)
    as (copies & h1 & ext & Hrun & Hcells & Hcopies & Hcls).
  unfold Layer.clone, bind at 1. rewrite this_run. cbn [snd].
  unfold bind at 1. rewrite Hrun.
  rewrite on_heap_run.
  unfold Layer.new, bind, Layer.increment_layerCount, orElse, generateUID, ret.
  cbn [init_layer_id init_layer_name init_visible init_locked init_frames init_color
       default from_option id fst snd].
  eexists _, _, ext. split; [reflexivity|].
  cbn [cells layer_name visible locked layer_color frames].
  splits; try reflexivity; try assumption.
Qed.

(** *** [InsertKeyframeCommand] *)

(** A list in the strict order of its keys is the only one of its
    permutations that is. *)
Lemma sorted_unique {X : Type} (key : X -> Z) (l1 l2 : list X) :
  StronglySorted Z.lt (map key l1) -> StronglySorted Z.lt (map key l2) ->
  l1 ≡ₚ l2 -> l1 = l2.
Proof.
  revert l2. induction l1 as [|a l1 IH]; intros l2 H1 H2 Hp.
  - apply Permutation_nil_l in Hp. auto.
  - destruct l2 as [|b l2]; [apply Permutation_nil_r in Hp; discriminate Hp|].
    cbn in H1, H2. apply StronglySorted_inv in H1 as [H1 Ha], H2 as [H2 Hb].
    assert (a = b) as ->.
    { assert (Hab : a ∈ b :: l2) by (rewrite <- Hp; left).
      assert (Hba : b ∈ a :: l1) by (rewrite Hp; left).
      apply list_elem_of_In in Hab as [->|Hab]; [reflexivity|].
      apply list_elem_of_In in Hba as [->|Hba]; [reflexivity|].
      rewrite List.Forall_forall in Ha, Hb.
      specialize (Ha (key b) (in_map key _ _ Hba)).
      specialize (Hb (key a) (in_map key _ _ Hab)). lia. }
    f_equal. apply IH; [assumption|assumption|].
    apply (Permutation_cons_inv Hp).
Qed.

Lemma push_and_sort_Permutation (new : Frame) (fs : list Frame) :
  fst (push_and_sort new fs) ≡ₚ new :: fs.
Proof.
  unfold push_and_sort. cbn [fst].
  change (map snd ?l) with (snd <$> l).
  rewrite sort_Permutation, fmap_app. cbn.
  change (snd <$> map (pair false) fs) with (map snd (map (pair false) fs)).
  rewrite map_map, map_id. symmetry. apply Permutation_cons_append.
Qed.

(** Removing the frame that was pushed gives the frames back, when they
    were in order and none had its index. *)
Lemma delete_pushed (new : Frame) (layer : Layer) :
  ascending layer -> Layer.getFrame (frame_index new) layer = None ->
  delete (snd (push_and_sort new (frames layer))) (fst (push_and_sort new (frames layer)))
  = frames layer.
Proof.
  intros Hasc Hnone.
  pose proof (ascending_push layer new Hasc Hnone) as Hpush.
  unfold ascending in Hpush. cbn [frames set_frames] in Hpush.
  apply (sorted_unique frame_index).
  - change (map frame_index (delete ?r ?l)) with (frame_index <$> delete r l).
    rewrite list_fmap_delete. apply StronglySorted_delete, Hpush.
  - exact Hasc.
  - apply (Permutation_cons_inv (a := new)).
    rewrite <- (delete_Permutation _ _ _ (push_and_sort_position new (frames layer))).
    apply push_and_sort_Permutation.
Qed.

(** [insertBlankKeyframe(index)] where no frame is. *)
Lemma insertBlankKeyframe_new_run (h : Heap) (layer : Layer) (index : Z) :
  Layer.getFrame index layer = None ->
  exists f h',
    Layer.insertBlankKeyframe index (h, layer)
    = (Return (snd (push_and_sort f (frames layer))),
       (h', set_frames (fun _ => fst (push_and_sort f (frames layer))) layer)) /\
    cells h' = cells h /\ frame_class f = true /\ frame_index f = index /\
    isKeyframe f = true /\ shapes f = [].
Proof.
  intros Hnone. unfold Layer.insertBlankKeyframe, bind at 1. rewrite this_run. cbn [snd].
  rewrite Hnone. unfold bind at 1. rewrite on_heap_run.
  unfold Frame.new, bind at 1, orElse, generateUID.
  cbn [init_frame_id init_index init_isKeyframe init_isEmpty init_shapes
       init_tweenType init_easing init_duration default from_option id fst snd ret].
  match goal with
  | |- context [push_and_sort ?f0 _] => exists f0
  end.
  eexists. split.
  - destruct (push_and_sort _ (frames layer)) as [sorted position]. reflexivity.
  - splits; reflexivity.
Qed.

(** What [insertKeyframe(index)] and [insertBlankKeyframe(index)] do where
    no frame is: a new keyframe is pushed. *)
Lemma insert_new_run (blank : bool) (h : Heap) (layer : Layer) (index : Z) :
  operable (cells h) layer -> Layer.getFrame index layer = None ->
  exists f h' ext,
    (if blank then Layer.insertBlankKeyframe index else Layer.insertKeyframe index)
      (h, layer)
    = (Return (snd (push_and_sort f (frames layer))),
       (h', set_frames (fun _ => fst (push_and_sort f (frames layer))) layer)) /\
    cells h' = cells h ++ ext /\ frame_class f = true /\ frame_index f = index /\
    isKeyframe f = true /\ (blank = true -> shapes f = []).
Proof.
  intros Hop Hnone. destruct blank.
  - destruct (insertBlankKeyframe_new_run h layer index Hnone)
      as (f & h' & Hrun & Hcells & Hc & Hi & Hk & Hs).
    exists f, h', []. rewrite app_nil_r. splits; auto.
  - destruct (insertKeyframe_run h layer index Hop)
      as (r & h' & ext & layer' & f & Hrun & Hcells & _ & _ & Hi & Hk & _ & _ & Hnew).
    destruct (Hnew Hnone) as (-> & -> & Hc & _).
    exists f, h', ext. splits; auto. discriminate.
Qed.

Lemma set_layers_insert_same (d : Document) (r : nat) (l : Layer) :
  layers d !! r = Some l -> set_layers (fun ls => <[r := l]> ls) d = d.
Proof.
  intros H. destruct d as [i n s ls lib v c sl ss]. unfold set_layers.
  cbn [doc_id doc_name settings layers library version _currentFrame _selectedLayerId
       _selectedShapeIds] in *.
  rewrite list_insert_id by exact H. reflexivity.
Qed.

(** X29.  [InsertKeyframeCommand], blank or not, where the layer has no
    frame at [frameIndex] and [frameIndex] is not 1, on a layer, locked or
    not, whose frames are in the order of their indices and are instances
    of [Frame] holding shapes that [clone] can copy: [execute] puts a
    keyframe at [frameIndex], which is empty when the command is blank, and
    [undo] removes it again, so that the document is as it was before
    [execute].  The objects made for the keyframe stay in the heap, and the
    command remembers nothing. *)
Theorem InsertKeyframe_undo_removes_the_keyframe (h : Heap) (d : Document)
    (layerId : UID) (frameIndex : Z) (blank : bool) (r : nat) (l : Layer) :
  Document.getLayer layerId d = Some (r, l) ->
  operable (cells h) l -> ascending l ->
  Layer.getFrame frameIndex l = None -> frameIndex <> 1 ->
  exists h' ext k f l',
    InsertKeyframe_execute layerId frameIndex blank
      {| heap := h; document := d; privates := new_InsertKeyframePrivate |}
    = (Return tt,
       {| heap := h'; document := set_layers (fun ls => <[r := l']> ls) d;
          privates := new_InsertKeyframePrivate |}) /\
    cells h' = cells h ++ ext /\
    Layer.getFrame frameIndex l' = Some (k, f) /\
    isKeyframe f = true /\ (blank = true -> shapes f = []) /\
    InsertKeyframe_undo layerId frameIndex
      {| heap := h'; document := set_layers (fun ls => <[r := l']> ls) d;
         privates := new_InsertKeyframePrivate |}
    = (Return tt, {| heap := h'; document := d; privates := new_InsertKeyframePrivate |}).
Proof.
  intros Hlayer Hop Hasc Hnone Hne1.
  pose proof Hlayer as Hl. apply find_ref_Some in Hl as [Hl _].
  destruct (insert_new_run blank h l frameIndex Hop Hnone)
    as (f & h' & ext & Hrun & Hcells & Hc & Hi & Hk & Hs).
  set (k := snd (push_and_sort f (frames l))) in *.
  set (l' := set_frames (fun _ => fst (push_and_sort f (frames l))) l) in *.
  assert (Hget : Layer.getFrame frameIndex l' = Some (k, f)).
  { subst k l'. rewrite <- Hi. apply getFrame_pushed. rewrite Hi. exact Hnone. }
  set (d1 := set_layers (fun ls => <[r := l']> ls) d).
  assert (Hlayer1 : Document.getLayer layerId d1 = Some (r, l'))
    by (apply (getLayer_change layerId d r l l' Hlayer eq_refl)).
  pose proof Hlayer1 as Hl1. apply find_ref_Some in Hl1 as [Hl1 _].
  exists h', ext, k, f, l'. splits; try assumption.
  - unfold InsertKeyframe_execute, bind at 1. rewrite on_document_run, this_run.
    cbn [fst snd heap document privates]. rewrite Hlayer, Hnone.
    unfold bind at 1. cbn [ret].
    destruct blank; unfold bind at 1;
      rewrite (on_layer_of_world _ _ _ _ r l Hl), Hrun; reflexivity.
  - destruct (clearKeyframe_run h' l' frameIndex k f Hget Hk Hc)
      as (l2 & Hclear & _ & _ & Hdel).
    specialize (Hdel Hne1).
    assert (El2 : l2 = l).
    { rewrite Hdel. subst l' k. destruct l as [i n v lk fs c].
      unfold set_frames. cbn [layer_id layer_name visible locked frames layer_color].
      f_equal. apply (delete_pushed f {| layer_id := i; layer_name := n; visible := v;
                                         locked := lk; frames := fs; layer_color := c |}).
      - exact Hasc.
      - rewrite Hi. exact Hnone. }
    rewrite El2 in Hclear. clear Hdel El2 l2.
    unfold InsertKeyframe_undo, bind at 1. rewrite on_document_run, this_run.
    cbn [fst snd heap document privates]. fold d1. rewrite Hlayer1.
    unfold bind at 1. rewrite on_privates_run.
    cbn [fst snd heap document privates new_InsertKeyframePrivate previousFrameData
         wasKeyframe].
    fold new_InsertKeyframePrivate.
    rewrite (on_layer_of_world _ _ _ _ r l' Hl1), Hclear. cbn [fst snd].
    f_equal. f_equal. subst d1. rewrite set_layers_insert_insert.
    apply set_layers_insert_same, Hl.
Qed.

(** ** Symbol.ts: the library *)









(** ** The further properties at the sample data *)

Lemma sample_operable : operable (cells Sample.heap) Sample.layer.
Proof. repeat constructor. exact clonable_rectangle. Qed.

Lemma sample_ascending : ascending Sample.layer.
Proof. unfold ascending. cbn. repeat constructor. Qed.

Lemma two_keyframes_ascending : ascending SampleMore.two_keyframes.
Proof. unfold ascending. cbn. repeat constructor. Qed.

(** X1, at frame 5 of the sample layer. *)
Lemma getKeyframeAt_nearest_witness :
  Layer.getKeyframeAt 5 Sample.layer = Some (0%nat, Sample.frame_1) /\
  frame_index Sample.frame_1 <= 5.
Proof.
  pose proof (getKeyframeAt_nearest 5 Sample.layer) as H.
  assert (E : Layer.getKeyframeAt 5 Sample.layer = Some (0%nat, Sample.frame_1))
    by reflexivity.
  rewrite E in H. split; [exact E|]. destruct H as (_ & _ & H & _). exact H.
Defined.

(** X2, at frame 5 of the layer with keyframes at 1 and 10. *)
Lemma getNextKeyframe_nearest_witness :
  Layer.getNextKeyframe 5 SampleMore.two_keyframes = Some (1%nat, SampleMore.frame_10) /\
  5 < frame_index SampleMore.frame_10.
Proof.
  pose proof (getNextKeyframe_nearest 5 SampleMore.two_keyframes) as H.
  assert (E : Layer.getNextKeyframe 5 SampleMore.two_keyframes
              = Some (1%nat, SampleMore.frame_10)) by reflexivity.
  rewrite E in H. split; [exact E|]. destruct H as (_ & _ & H & _). exact H.
Defined.


(** X4, at the sample layer. *)
Lemma isEmpty_stays_consistent_witness :
  Forall flag_consistent (frames Sample.layer) /\
  Forall flag_consistent
    (frames (snd (snd (Layer.clearKeyframe 1 (Sample.heap, Sample.layer))))).
Proof.
  assert (H : Forall flag_consistent (frames Sample.layer)).
  { repeat constructor. intros E. discriminate E. }
  split; [exact H|].
  destruct (isEmpty_stays_consistent Sample.heap Sample.layer H) as (_ & _ & Hclear & _).
  exact (Hclear 1).
Defined.

(** X5, at frame 1 of the sample layer. *)
Lemma insertBlankKeyframe_blank_witness :
  exists r h' layer' f,
    Layer.insertBlankKeyframe 1 (Sample.heap, Sample.layer) = (Return r, (h', layer')) /\
    Layer.getFrame 1 layer' = Some (r, f) /\ shapes f = [].
Proof.
  destruct (insertBlankKeyframe_blank Sample.heap Sample.layer 1)
    as (r & h' & layer' & f & Hrun & _ & Hget & _ & _ & _ & _ & Hs & _).
  - intros r f E. injection E as _ <-. reflexivity.
  - exists r, h', layer', f. split; [exact Hrun|]. split; [exact Hget|exact Hs].
Defined.

(** X6, at frame 10 of the sample layer. *)
Lemma insertKeyframe_makes_the_keyframe_witness :
  operable (cells Sample.heap) Sample.layer /\
  exists r h' layer' f,
    Layer.insertKeyframe 10 (Sample.heap, Sample.layer) = (Return r, (h', layer')) /\
    Layer.getKeyframeAt 10 layer' = Some (r, f).
Proof.
  split; [exact sample_operable|].
  destruct (insertKeyframe_makes_the_keyframe Sample.heap Sample.layer 10 sample_operable)
    as (r & h' & layer' & f & Hrun & _ & Hat & _).
  exists r, h', layer', f. split; [exact Hrun|exact Hat].
Defined.

(** X7, at frame 10 of the sample layer. *)
Lemma addShapeAtFrame_appends_witness :
  exists h' layer' before,
    Layer.addShapeAtFrame 10 Sample.rectangle (Sample.heap, Sample.layer)
    = (Return tt, (h', layer')) /\
    Layer.getShapesAtFrame 10 layer' = before ++ [Sample.rectangle].
Proof.
  destruct (addShapeAtFrame_appends Sample.heap Sample.layer 10 Sample.rectangle
              sample_operable)
    as (h' & layer' & r & f & before & Hrun & _ & _ & _ & _ & Hshapes & _).
  exists h', layer', before. split; [exact Hrun|exact Hshapes].
Defined.

(** X8, at frame 10 of the layer with keyframes at 1 and 10. *)
Lemma clearKeyframe_removes_witness :
  Layer.getFrame 10 SampleMore.two_keyframes = Some (1%nat, SampleMore.frame_10) /\
  Layer.clearKeyframe 10 (Sample.heap, SampleMore.two_keyframes)
  = (Return tt, (Sample.heap, set_frames (fun fs => delete 1%nat fs) SampleMore.two_keyframes)) /\
  Layer.getFrame 10 (set_frames (fun fs => delete 1%nat fs) SampleMore.two_keyframes) = None.
Proof.
  assert (E : Layer.getFrame 10 SampleMore.two_keyframes = Some (1%nat, SampleMore.frame_10))
    by reflexivity.
  destruct (clearKeyframe_removes Sample.heap SampleMore.two_keyframes 10) as (_ & _ & H).
  destruct (H 1%nat SampleMore.frame_10 E eq_refl) as [Hrun Hafter].
  - discriminate.
  - destruct (Hafter two_keyframes_ascending) as (Hnone & _).
    split; [exact E|]. split; [exact Hrun|exact Hnone].
Defined.

(** X9, at the layer with keyframes at 1 and 10. *)
Lemma getFrameCount_is_the_largest_index_witness :
  frames SampleMore.two_keyframes <> [] /\
  exists f, In f (frames SampleMore.two_keyframes) /\
            Layer.getFrameCount SampleMore.two_keyframes = frame_index f.
Proof.
  assert (Hne : frames SampleMore.two_keyframes <> []) by discriminate.
  split; [exact Hne|].
  destruct (getFrameCount_is_the_largest_index SampleMore.two_keyframes) as (_ & H).
  destruct (H Hne) as (Hmax & _). exact Hmax.
Defined.

(** X10, at the first frame of the sample layer. *)
Lemma removeShape_removes_the_first_witness :
  ids_of (cells Sample.heap) (shapes Sample.frame_1) = Some ["a"] /\
  Frame.removeShape "a" (Sample.heap, Sample.frame_1)
  = (Return true,
     (Sample.heap,
      set_isEmpty (length (delete 0%nat (shapes Sample.frame_1)) =? 0)%nat
        (set_shapes (delete 0%nat (shapes Sample.frame_1)) Sample.frame_1))).
Proof.
  assert (E : ids_of (cells Sample.heap) (shapes Sample.frame_1) = Some ["a"])
    by reflexivity.
  split; [exact E|].
  destruct (removeShape_removes_the_first Sample.heap Sample.frame_1 "a" ["a"] eq_refl E)
    as (_ & H & _).
  destruct (H 0%nat "a" eq_refl) as [Hrun _]. exact Hrun.
Defined.

(** X11, at the sample document, which is at frame 1. *)
Lemma currentFrame_stays_at_least_1_witness :
  _currentFrame Sample.document = 1 /\
  Document.prevFrame (Sample.heap, Sample.document)
  = (Return tt, (Sample.heap, Sample.document)).
Proof.
  split; [reflexivity|].
  destruct (currentFrame_stays_at_least_1 Sample.heap Sample.document)
    as (_ & _ & _ & _ & _ & _ & _ & H).
  exact (H eq_refl).
Defined.


Lemma sample_well_layered : well_layered Sample.document.
Proof.
  split; [discriminate|]. intros id E. injection E as <-.
  exists 0%nat, Sample.layer. reflexivity.
Qed.

(** X14, at the sample document. *)
Lemma layers_stay_well_layered_witness :
  well_layered Sample.document /\
  well_layered (snd (snd (Document.removeLayer "l1" (Sample.heap, Sample.document)))).
Proof.
  split; [exact sample_well_layered|].
  destruct (layers_stay_well_layered Sample.heap Sample.document sample_well_layered)
    as (_ & H & _).
  exact (H "l1").
Defined.

(** X15, at the middle one of three layers. *)
Lemma moveLayerUp_then_moveLayerDown_witness :
  Document.getLayer "middle" Sample.three_layers
  = Some (1%nat, Sample.layer_with "middle" 1%nat) /\
  exists d',
    Document.moveLayerUp "middle" (Sample.heap, Sample.three_layers)
    = (Return true, (Sample.heap, d')) /\
    Document.getLayer "middle" d' = Some (0%nat, Sample.layer_with "middle" 1%nat) /\
    Document.moveLayerDown "middle" (Sample.heap, d')
    = (Return true, (Sample.heap, Sample.three_layers)).
Proof.
  assert (E : Document.getLayer "middle" Sample.three_layers
              = Some (1%nat, Sample.layer_with "middle" 1%nat)) by reflexivity.
  split; [exact E|].
  destruct (moveLayerUp_then_moveLayerDown Sample.heap Sample.three_layers "middle")
    as (H & _).
  destruct (H 0%nat _ E) as (upper & d' & _ & Hup & _ & Hget & Hdown).
  exists d'. split; [exact Hup|]. split; [exact Hget|exact Hdown].
Defined.

(** X16, at the sample document with its layer locked. *)
Lemma locked_layer_is_left_alone_witness :
  Document.addShape Sample.rectangle (Sample.heap, SampleMore.locked_document)
  = (Return tt, (Sample.heap, SampleMore.locked_document)) /\
  Document.clearKeyframe None (Some 1) (Sample.heap, SampleMore.locked_document)
  = (Return tt, (Sample.heap, SampleMore.locked_document)).
Proof.
  destruct (locked_layer_is_left_alone Sample.heap SampleMore.locked_document)
    as [Hframes Hshapes].
  destruct (Hshapes Sample.rectangle eq_refl) as [Hadd _].
  destruct (Hframes None (Some 1) eq_refl) as (_ & _ & Hclear).
  split; [exact Hadd|exact Hclear].
Defined.

Lemma sample_selection_NoDup : NoDup (Document.selectedShapeIds Sample.document).
Proof. apply NoDup_singleton. Qed.

(** X17, at the sample document, where the shape ["a"] is selected. *)
Lemma selection_is_a_set_witness :
  NoDup (Document.selectedShapeIds Sample.document) /\
  exists d2,
    Document.selectShape "b" true (Sample.heap, Sample.document)
    = (Return tt, (Sample.heap, d2)) /\
    NoDup (Document.selectedShapeIds d2).
Proof.
  split; [exact sample_selection_NoDup|].
  destruct (selection_is_a_set Sample.heap Sample.document "b" sample_selection_NoDup)
    as (_ & (d2 & Hrun & Hnd & _) & _).
  exists d2. split; [exact Hrun|exact Hnd].
Defined.

(** X18, at the sample document, where the shape ["a"] is selected. *)
Lemma removeSelectedShapes_removes_the_selection_witness :
  exists f' d',
    Document.removeSelectedShapes (Sample.heap, Sample.document)
    = (Return tt, (Sample.heap, d')) /\
    d' = set_selectedShapeIds (fun _ => [])
           (set_layers
              (fun ls => <[0%nat := set_frames (fun fs => <[0%nat := f']> fs)
                                               Sample.layer]> ls)
              Sample.document) /\
    shapes f' = [].
Proof.
  destruct (removeSelectedShapes_removes_the_selection Sample.heap Sample.document
              0%nat 0%nat Sample.layer Sample.frame_1 ["a"]
              eq_refl eq_refl eq_refl eq_refl eq_refl (NoDup_singleton "a"))
    as (f' & d' & Hrun & Hd & Hsel & Hshapes & _).
  exists f', d'. split; [exact Hrun|]. split; [exact Hd|].
  rewrite Hshapes. reflexivity.
Defined.

(** X19, at a command that throws: adding a shape to the layer whose frame
    1 is a plain object, from a new history, from a history that has the
    command on its undo stack and from one that has it on its redo stack;
    and at a history that is executing. *)
Lemma failing_command_leaves_the_history_witness :
  (exists w1 w2,
     execute_of SampleMore.add_to_plain SampleMore.plain_world
     = (Throw (TypeError "addShape"), w1) /\
     execute SampleMore.add_to_plain (History.new, SampleMore.plain_world)
     = (Throw (TypeError "addShape"), (History.new, w1)) /\
     undo_of SampleMore.add_to_plain SampleMore.plain_world
     = (Throw (TypeError "removeShape"), w2) /\
     undo (SampleMore.added_once, SampleMore.plain_world)
     = (Throw (TypeError "removeShape"), (History.new, w2)) /\
     redo (SampleMore.undone_once, SampleMore.plain_world)
     = (Throw (TypeError "addShape"), (History.new, w1))) /\
  undo (SampleMore.busy, SampleMore.plain_world)
  = (Return false, (SampleMore.busy, SampleMore.plain_world)) /\
  undoStack SampleMore.busy = [SampleMore.add_to_plain].
Proof.
  split.
  - set (w1 := snd (execute_of SampleMore.add_to_plain SampleMore.plain_world)).
    set (w2 := snd (undo_of SampleMore.add_to_plain SampleMore.plain_world)).
    assert (E1 : execute_of SampleMore.add_to_plain SampleMore.plain_world
                 = (Throw (TypeError "addShape"), w1)) by (vm_compute; reflexivity).
    assert (E2 : undo_of SampleMore.add_to_plain SampleMore.plain_world
                 = (Throw (TypeError "removeShape"), w2)) by (vm_compute; reflexivity).
    exists w1, w2. split; [exact E1|]. split; [|split; [exact E2|split]].
    + destruct (failing_command_leaves_the_history (@History.new Cmd)
                  SampleMore.plain_world) as [H _].
      destruct (H eq_refl) as (Hexec & _).
      exact (Hexec SampleMore.add_to_plain _ w1 E1).
    + destruct (failing_command_leaves_the_history SampleMore.added_once
                  SampleMore.plain_world) as [H _].
      destruct (H eq_refl) as (_ & Hundo & _).
      exact (Hundo SampleMore.add_to_plain [] _ w2 eq_refl E2).
    + destruct (failing_command_leaves_the_history SampleMore.undone_once
                  SampleMore.plain_world) as [H _].
      destruct (H eq_refl) as (_ & _ & Hredo & _).
      exact (Hredo SampleMore.add_to_plain [] _ w1 eq_refl E1).
  - split; [|reflexivity].
    destruct (failing_command_leaves_the_history SampleMore.busy SampleMore.plain_world)
      as [_ H].
    destruct (H eq_refl) as (_ & Hundo & _). exact Hundo.
Defined.




Lemma sample_two_moves_undoable :
  undoable_run eq Sample.world [Sample.move 0 1; Sample.move 1 2]
    (snd (execute_of (Sample.move 1 2) (snd (execute_of (Sample.move 0 1) Sample.world)))).
Proof.
  econstructor.
  - vm_compute. reflexivity.
  - intros w1' ->. exists Sample.world. split; [vm_compute; reflexivity|reflexivity].
  - econstructor.
    + vm_compute. reflexivity.
    + intros w2' ->. eexists. split; [vm_compute; reflexivity|].
      vm_compute. reflexivity.
    + constructor.
Qed.

Lemma plain_move_runs :
  runs SampleMore.plain_world [Sample.move 0 1]
    (snd (execute_of (Sample.move 0 1) SampleMore.plain_world)).
Proof. econstructor; [vm_compute; reflexivity|constructor]. Qed.

(** X22, at the composite of two moves of the sample shape, and at the
    composite of a move and a command that throws. *)
Lemma composite_undoes_in_reverse_witness :
  (exists w' w0,
     execute_of {| commands_of := [Sample.move 0 1; Sample.move 1 2];
                   composite_description := None |} Sample.world = (Return tt, w') /\
     undo_of {| commands_of := [Sample.move 0 1; Sample.move 1 2];
                composite_description := None |} w' = (Return tt, w0) /\
     w0 = Sample.world) /\
  (exists w1 w2,
     execute_of (Sample.move 0 1) SampleMore.plain_world = (Return tt, w1) /\
     w1 <> SampleMore.plain_world /\
     execute_of SampleMore.add_to_plain w1 = (Throw (TypeError "addShape"), w2) /\
     execute_of {| commands_of := [Sample.move 0 1; SampleMore.add_to_plain];
                   composite_description := None |} SampleMore.plain_world
     = (Throw (TypeError "addShape"), w2) /\
     heap w2 = heap w1).
Proof.
  split.
  - destruct (composite_undoes_in_reverse eq [Sample.move 0 1; Sample.move 1 2] None
                Sample.world
                (snd (execute_of (Sample.move 1 2)
                        (snd (execute_of (Sample.move 0 1) Sample.world)))))
      as [H _].
    destruct (H sample_two_moves_undoable) as [Hexec Hundo].
    destruct (Hundo _ eq_refl) as (w0 & Hrun & Hw0).
    eexists _, w0. split; [exact Hexec|]. split; [exact Hrun|exact Hw0].
  - set (w1 := snd (execute_of (Sample.move 0 1) SampleMore.plain_world)).
    set (w2 := snd (execute_of SampleMore.add_to_plain w1)).
    assert (E1 : execute_of (Sample.move 0 1) SampleMore.plain_world = (Return tt, w1))
      by (vm_compute; reflexivity).
    assert (E2 : execute_of SampleMore.add_to_plain w1 = (Throw (TypeError "addShape"), w2))
      by (vm_compute; reflexivity).
    exists w1, w2. split; [exact E1|]. split.
    { intros E. apply (f_equal (fun w => cells (heap w) !! 3%nat)) in E.
      vm_compute in E. discriminate E. }
    split; [exact E2|]. split; [|vm_compute; reflexivity].
    destruct (composite_undoes_in_reverse eq [Sample.move 0 1; SampleMore.add_to_plain]
                None SampleMore.plain_world SampleMore.plain_world) as [_ H].
    exact (H [Sample.move 0 1] SampleMore.add_to_plain [] _ w1 w2 eq_refl
             plain_move_runs E2).
Defined.

(** X23, at the first frame of the sample layer, which has no tween. *)
Lemma SetTween_undo_restores_the_tween_witness :
  exists w1 w2,
    SetTween_execute "l1" 1 TweenMotion None
      {| heap := Sample.heap; document := Sample.document;
         privates := new_SetTweenPrivate |} = (Return tt, w1) /\
    SetTween_undo "l1" 1 w1 = (Return tt, w2) /\
    document w2 = Sample.document.
Proof.
  destruct (SetTween_undo_restores_the_tween
              {| heap := Sample.heap; document := Sample.document;
                 privates := new_SetTweenPrivate |}
              "l1" 1 TweenMotion None 0%nat 0%nat Sample.layer Sample.frame_1
              eq_refl eq_refl eq_refl eq_refl)
    as (w1 & w2 & Hexec & _ & _ & Hundo & _ & _ & Hback).
  exists w1, w2. split; [exact Hexec|]. split; [exact Hundo|].
  exact (Hback eq_refl).
Defined.

(** X24, at the first frame of the sample layer, which holds the
    rectangle. *)
Lemma ClearKeyframe_undo_throws_witness :
  shapes Sample.frame_1 <> [] /\
  exists w1 w2,
    ClearKeyframe_execute "l1" 1
      {| heap := Sample.heap; document := Sample.document; privates := None |}
    = (Return tt, w1) /\
    ClearKeyframe_undo "l1" 1 w1 = (Throw (TypeError "fromJSON"), w2).
Proof.
  assert (Hne : shapes Sample.frame_1 <> []) by discriminate.
  split; [exact Hne|].
  destruct (ClearKeyframe_undo_throws
              {| heap := Sample.heap; document := Sample.document; privates := None |}
              "l1" 1 0%nat 0%nat Sample.layer Sample.frame_1
              eq_refl eq_refl eq_refl sample_operable Hne)
    as (w1 & w2 & data & Hexec & _ & _ & _ & Hundo).
  exists w1, w2. split; [exact Hexec|exact Hundo].
Defined.

(** X25, at the first keyframe of the sample document, which holds the
    rectangle ["a"], and the shape ["b"]. *)
Lemma AddShape_undo_removes_the_shape_witness :
  ids_of (cells SampleMore.two_shapes) (shapes Sample.frame_1) = Some ["a"] /\
  find_ref (is_id "b") ["a"] = None /\
  exists w1 w2,
    AddShape_execute "l1" 1 SampleMore.oval SampleMore.two_shapes_world = (Return tt, w1) /\
    Document.selectedShapeIds (document w1) = ["b"] /\
    Layer.getShapesAtFrame 1 <$> head (layers (document w1))
    = Some [Sample.rectangle; SampleMore.oval] /\
    AddShape_undo "l1" 1 SampleMore.oval w1 = (Return tt, w2) /\
    Document.selectedShapeIds (document w2) = [] /\
    layers (document w2) = layers (document SampleMore.two_shapes_world).
Proof.
  split; [reflexivity|]. split; [reflexivity|].
  destruct (AddShape_undo_removes_the_shape SampleMore.two_shapes_world "l1" 1
              SampleMore.oval _ 0%nat 0%nat Sample.layer Sample.frame_1 ["a"]
              eq_refl eq_refl eq_refl eq_refl eq_refl eq_refl eq_refl)
    as (w1 & w2 & Hexec & _ & Hd1 & Hundo & _ & _ & Hd2 & Hlayers).
  exists w1, w2. split; [exact Hexec|]. split; [rewrite Hd1; reflexivity|].
  split; [rewrite Hd1; reflexivity|].
  split; [exact Hundo|]. split; [rewrite Hd2; reflexivity|]. exact (Hlayers eq_refl).
Defined.

Lemma NoDup_a_b : NoDup (map shape_id [Sample.shape_with_id "a"; Sample.shape_with_id "b"]).
Proof. compute_done. Qed.

Lemma NoDup_b_c : NoDup (map shape_id [Sample.shape_with_id "b"; Sample.shape_with_id "c"]).
Proof. compute_done. Qed.

(** X26, at the shapes ["a"], ["b"] and ["b"], ["c"]. *)
Lemma createTweenPairs_is_a_matching_witness :
  NoDup (map shape_id [Sample.shape_with_id "a"; Sample.shape_with_id "b"]) /\
  NoDup (map shape_id [Sample.shape_with_id "b"; Sample.shape_with_id "c"]) /\
  length (Tween.createTweenPairs [Sample.shape_with_id "a"; Sample.shape_with_id "b"]
                                 [Sample.shape_with_id "b"; Sample.shape_with_id "c"])
  = 2%nat /\
  In (Sample.shape_with_id "b", Sample.shape_with_id "b")
     (Tween.createTweenPairs [Sample.shape_with_id "a"; Sample.shape_with_id "b"]
                             [Sample.shape_with_id "b"; Sample.shape_with_id "c"]).
Proof.
  split; [exact NoDup_a_b|]. split; [exact NoDup_b_c|].
  destruct (createTweenPairs_is_a_matching
              [Sample.shape_with_id "a"; Sample.shape_with_id "b"]
              [Sample.shape_with_id "b"; Sample.shape_with_id "c"]) as (_ & _ & H).
  destruct (H NoDup_a_b) as (Hlen & _ & Hend).
  destruct (Hend NoDup_b_c) as [_ Hid].
  split; [exact Hlen|].
  apply Hid; [right; left; reflexivity|left; reflexivity|reflexivity].
Defined.

(** X27, at a colour whose blue channel is 128.5. *)
Lemma hex_notation_reads_back_witness :
  Math_round (c_b SampleMore.pink) = RoundInteger 129 /\
  colorToHex SampleMore.pink = "#ff0081" /\
  hexToColor (colorToHex SampleMore.pink) None
  = {| c_r := number_of 255; c_g := number_of 0; c_b := number_of 129; c_a := 1%float |}.
Proof.
  split; [reflexivity|]. split; [reflexivity|].
  destruct (hex_notation_reads_back SampleMore.pink None) as [H _].
  apply (H 255 0 129); try reflexivity; lia.
Defined.

(** X28, at the sample layer. *)
Lemma Layer_clone_is_a_deep_copy_witness :
  operable (cells Sample.heap) Sample.layer /\
  exists copy h',
    Layer.clone (Sample.heap, Sample.layer) = (Return copy, (h', Sample.layer)) /\
    layer_name copy = "Layer 1 Copy" /\ length (frames copy) = 1%nat.
Proof.
  split; [exact sample_operable|].
  destruct (Layer_clone_is_a_deep_copy Sample.heap Sample.layer sample_operable)
    as (copy & h' & ext & Hrun & _ & Hname & _ & _ & _ & Hframes & _).
  exists copy, h'. split; [exact Hrun|]. split; [exact Hname|].
  apply Forall2_length in Hframes. symmetry. exact Hframes.
Defined.

(** X29, at frame 10 of the sample layer. *)
Lemma InsertKeyframe_undo_removes_the_keyframe_witness :
  Layer.getFrame 10 Sample.layer = None /\
  exists h' l',
    InsertKeyframe_execute "l1" 10 false
      {| heap := Sample.heap; document := Sample.document;
         privates := new_InsertKeyframePrivate |}
    = (Return tt,
       {| heap := h'; document := set_layers (fun ls => <[0%nat := l']> ls) Sample.document;
          privates := new_InsertKeyframePrivate |}) /\
    InsertKeyframe_undo "l1" 10
      {| heap := h'; document := set_layers (fun ls => <[0%nat := l']> ls) Sample.document;
         privates := new_InsertKeyframePrivate |}
    = (Return tt,
       {| heap := h'; document := Sample.document;
          privates := new_InsertKeyframePrivate |}).
Proof.
  split; [reflexivity|].
  destruct (InsertKeyframe_undo_removes_the_keyframe Sample.heap Sample.document "l1" 10
              false 0%nat Sample.layer eq_refl sample_operable sample_ascending eq_refl)
    as (h' & ext & k & f & l' & Hexec & _ & _ & _ & _ & Hundo).
  - discriminate.
  - exists h', l'. split; [exact Hexec|exact Hundo].
Defined.

